(** * bitbucket-to-github: the LFS detection engine, the repository state
      store and the migration orchestrator, embedded and verified.

    The development follows the source files:
    - [Js]            the JavaScript string and number primitives the code uses;
    - [Config]        app/lib/config.js;
    - [LFSManager]    app/lib/lfs-manager.js;
    - [StateManager]  lib/state-manager.js;
    - [GitHubAPI]     lib/github-api.js;
    - [Utils]         lib/utils.js;
    - [GitOperations] lib/git-operations.js;
    - [Migrator]      do-migrate-repos.js.

    Strings are byte strings (the ASCII part of JavaScript's UTF-16 strings).
    Everything outside the process (the file system, child processes, the
    GitHub REST API, the clock) is an oracle [Env] indexed by the number of
    external interactions made so far, and every interaction is appended,
    with its outcome, to the trace of the [World].  Console output is not
    part of the model. *)

From Stdlib Require Import List String Ascii ZArith QArith Qround Qpower Qabs Lqa Lia Bool Arith.
From Stdlib Require Qcanon.
From stdpp Require Import gmap strings.
Import ListNotations.
Local Open Scope string_scope.
Local Open Scope list_scope.

(* ================================================================== *)
(** * JavaScript primitives *)
(* ================================================================== *)

Module Js.

(** [\d] *)
Definition is_digit (c : ascii) : bool :=
  let n := nat_of_ascii c in (48 <=? n)%nat && (n <=? 57)%nat.

(** [\s], and the characters removed by [String.prototype.trim], below 128 *)
Definition is_space (c : ascii) : bool :=
  let n := nat_of_ascii c in ((9 <=? n)%nat && (n <=? 13)%nat) || (n =? 32)%nat.

Definition to_upper (c : ascii) : ascii :=
  let n := nat_of_ascii c in
  if (97 <=? n)%nat && (n <=? 122)%nat then ascii_of_nat (n - 32) else c.

Definition toUpperCase (s : list ascii) : list ascii := map to_upper s.

Fixpoint dropWhile (p : ascii -> bool) (s : list ascii) : list ascii :=
  match s with
  | [] => []
  | c :: r => if p c then dropWhile p r else s
  end.

Fixpoint takeWhile (p : ascii -> bool) (s : list ascii) : list ascii :=
  match s with
  | [] => []
  | c :: r => if p c then c :: takeWhile p r else []
  end.

Definition trimStart (s : list ascii) : list ascii := dropWhile is_space s.

Definition trim (s : list ascii) : list ascii :=
  rev (dropWhile is_space (rev (dropWhile is_space s))).

Definition ascii_eqb (a b : ascii) : bool := Ascii.eqb a b.

Fixpoint starts_with (p s : list ascii) : bool :=
  match p, s with
  | [], _ => true
  | _ :: _, [] => false
  | a :: p', b :: s' => ascii_eqb a b && starts_with p' s'
  end.

(** [s.includes(p)] *)
Fixpoint includes (s p : list ascii) : bool :=
  starts_with p s ||
  match s with
  | [] => false
  | _ :: r => includes r p
  end.

(** [s.split(sep)] for a non-empty separator string.  [skip] counts the
    characters of a separator just matched that are still to be passed
    over; [cur] is the current piece, reversed. *)
Fixpoint split_go (sep s : list ascii) (skip : nat) (cur : list ascii)
  : list (list ascii) :=
  match s with
  | [] => [rev cur]
  | c :: r =>
      match skip with
      | S k => split_go sep r k cur
      | O =>
          if starts_with sep s
          then rev cur :: split_go sep r (length sep - 1) []
          else split_go sep r 0 (c :: cur)
      end
  end.

Definition split (sep s : list ascii) : list (list ascii) :=
  split_go sep s 0 [].

(** [s.split(/\s+/)]: a maximal run of white space is one separator; a
    leading or trailing run leaves an empty first or last piece. *)
Fixpoint split_ws_go (s : list ascii) (in_run : bool) (cur : list ascii)
  : list (list ascii) :=
  match s with
  | [] => [rev cur]
  | c :: r =>
      if is_space c
      then if in_run then split_ws_go r true cur
           else rev cur :: split_ws_go r true []
      else split_ws_go r false (c :: cur)
  end.

Definition split_ws (s : list ascii) : list (list ascii) :=
  split_ws_go s false [].

(** [l.join(sep)] *)
Fixpoint join (sep : list ascii) (l : list (list ascii)) : list ascii :=
  match l with
  | [] => []
  | [x] => x
  | x :: r => x ++ sep ++ join sep r
  end.

(** [s.replace(p, r)] with a string pattern: the first occurrence only. *)
Fixpoint replace (p r s : list ascii) : list ascii :=
  if starts_with p s then r ++ skipn (length p) s
  else match s with
       | [] => []
       | c :: s' => c :: replace p r s'
       end.

(** Value of a character as a digit in a radix up to 36. *)
Definition digit_val (c : ascii) : option Z :=
  let n := nat_of_ascii c in
  if (48 <=? n)%nat && (n <=? 57)%nat then Some (Z.of_nat (n - 48))
  else if (97 <=? n)%nat && (n <=? 122)%nat then Some (Z.of_nat (n - 87))
  else if (65 <=? n)%nat && (n <=? 90)%nat then Some (Z.of_nat (n - 55))
  else None.

Definition is_radix_digit (radix : Z) (c : ascii) : bool :=
  match digit_val c with
  | Some v => (v <? radix)%Z
  | None => false
  end.

Definition digits_value (radix : Z) (ds : list ascii) : Z :=
  fold_left (fun acc c => match digit_val c with
                          | Some v => acc * radix + v
                          | None => acc
                          end)%Z ds 0%Z.

(** A JavaScript number that is an integer or NaN ([None]). *)
Definition number := option Z.

(** [parseInt(s, radix)]; [radix = None] is the one-argument call, which
    reads a [0x] prefix as hexadecimal.  Integers are exact (no rounding
    to a double above 2^53). *)
Definition parseInt (s : list ascii) (radix : option Z) : number :=
  let s1 := trimStart s in
  let '(neg, s2) :=
    match s1 with
    | "-"%char :: r => (true, r)
    | "+"%char :: r => (false, r)
    | _ => (false, s1)
    end in
  let '(R, s3) :=
    match radix, s2 with
    | None, "0"%char :: "x"%char :: r => (16%Z, r)
    | None, "0"%char :: "X"%char :: r => (16%Z, r)
    | Some 16%Z, "0"%char :: "x"%char :: r => (16%Z, r)
    | Some 16%Z, "0"%char :: "X"%char :: r => (16%Z, r)
    | None, _ => (10%Z, s2)
    | Some R, _ => (R, s2)
    end in
  match takeWhile (is_radix_digit R) s3 with
  | [] => None
  | ds => Some (if neg then - digits_value R ds else digits_value R ds)%Z
  end.

(** Decimal digits of a natural number, most significant first. *)
Fixpoint nat_digits (fuel : nat) (n : N) (acc : list ascii) : list ascii :=
  match fuel with
  | O => acc
  | S f =>
      let d := ascii_of_N (48 + N.modulo n 10) in
      if (n <? 10)%N then d :: acc else nat_digits f (N.div n 10) (d :: acc)
  end.

(** [String(n)] / [`${n}`] for an integer or NaN. *)
Definition number_to_string (n : number) : list ascii :=
  match n with
  | None => list_ascii_of_string "NaN"
  | Some z =>
      let a := Z.abs_N z in
      let ds := nat_digits (S (N.to_nat (N.log2 a))) a [] in
      if (z <? 0)%Z then "-"%char :: ds else ds
  end.

(** The number that the decimal literal [digits] or [digits.digits]
    denotes. *)
Definition decimal_value (int_part frac_part : list ascii) : Q :=
  Qmake (digits_value 10 int_part * 10 ^ Z.of_nat (length frac_part)
         + digits_value 10 frac_part)
        (Z.to_pos (10 ^ Z.of_nat (length frac_part))).

Definition is_integer (q : Q) : bool :=
  (Z.modulo (Qnum q) (Z.pos (Qden q)) =? 0)%Z.

(** A JavaScript number that is neither negative nor NaN: a finite double,
    kept as the rational it is (in lowest terms), or [Infinity]. *)
Inductive double :=
| Finite (q : Q)
| Infinity.

(** The binary exponent of a positive rational: [2^e <= q < 2^(e+1)]. *)
Definition ilog2 (q : Q) : Z :=
  let e := (Z.log2 (Qnum q) - Z.log2 (Z.pos (Qden q)))%Z in
  if Qle_bool (2 ^ e) q then e else (e - 1)%Z.

(** The nearest integer, a tie going to the even one. *)
Definition round_half_even (q : Q) : Z :=
  let f := Qfloor q in
  match (q - inject_Z f ?= 1 # 2)%Q with
  | Lt => f
  | Gt => (f + 1)%Z
  | Eq => if Z.even f then f else (f + 1)%Z
  end.

(** The double nearest to a rational that is not negative (IEEE 754
    binary64, round to nearest, ties to even): 53 significant bits, the
    last of them worth at least [2^-1074], and [Infinity] from
    [2^1024 - 2^970] on. *)
Definition round_double (q : Q) : double :=
  if Qle_bool q 0 then Finite 0
  else
    let u := Z.max (ilog2 q - 52) (-1074) in
    let v := (inject_Z (round_half_even (q / 2 ^ u)) * 2 ^ u)%Q in
    if Qle_bool (2 ^ 1024) v then Infinity else Finite (Qred v).

(** [parseFloat] on a string [digits] or [digits.digits]. *)
Definition parseFloat (int_part frac_part : list ascii) : double :=
  round_double (decimal_value int_part frac_part).

(** [x * k] for a double [x] and a positive integer [k] below [2^53]: the
    product, rounded. *)
Definition times (x : double) (k : Z) : double :=
  match x with
  | Finite q => round_double (q * inject_Z k)
  | Infinity => Infinity
  end.

(** [n > t] for an integer-or-NaN [n]: false on NaN, and false against
    [Infinity]. *)
Definition gt (n : number) (t : double) : bool :=
  match n, t with
  | Some z, Finite q =>
      match Qcompare (inject_Z z) q with Gt => true | _ => false end
  | _, _ => false
  end.

(** The same operations on [string]. *)
Definition s_trim (s : string) : string :=
  string_of_list_ascii (trim (list_ascii_of_string s)).

Definition s_split (sep s : string) : list string :=
  map string_of_list_ascii (split (list_ascii_of_string sep) (list_ascii_of_string s)).

Definition s_split_ws (s : string) : list string :=
  map string_of_list_ascii (split_ws (list_ascii_of_string s)).

Definition s_join (sep : string) (l : list string) : string :=
  string_of_list_ascii (join (list_ascii_of_string sep) (map list_ascii_of_string l)).

Definition s_includes (s p : string) : bool :=
  includes (list_ascii_of_string s) (list_ascii_of_string p).

Definition s_replace (p r s : string) : string :=
  string_of_list_ascii
    (replace (list_ascii_of_string p) (list_ascii_of_string r) (list_ascii_of_string s)).

Definition s_parseInt (s : string) (radix : option Z) : number :=
  parseInt (list_ascii_of_string s) radix.

Definition s_of_number (n : number) : string :=
  string_of_list_ascii (number_to_string n).

(** Truthiness of a string: the empty string is falsy. *)
Definition truthy (s : string) : bool := negb (String.eqb s "").

(** A [Set] of strings keeps insertion order and ignores repeated adds. *)
Definition set_add (x : string) (s : list string) : list string :=
  if existsb (String.eqb x) s then s else s ++ [x].

(** [l.forEach(x => s.add(x))] *)
Definition set_add_all (l : list string) (s : list string) : list string :=
  fold_left (fun acc x => set_add x acc) l s.

(** The names that every object inherits from [Object.prototype]. *)
Definition objectPrototype : list string :=
  ["constructor"; "__defineGetter__"; "__defineSetter__"; "hasOwnProperty";
   "__lookupGetter__"; "__lookupSetter__"; "isPrototypeOf";
   "propertyIsEnumerable"; "toString"; "valueOf"; "__proto__";
   "toLocaleString"].

End Js.

Abbreviation str := list_ascii_of_string.
Abbreviation unstr := string_of_list_ascii.

(** The double-quote character, for the shell commands that quote a path. *)
Definition dq : string := String "034"%char EmptyString.

(** The line-feed character. *)
Definition LF : list ascii := ["010"%char].

(** [path.join(a, b)]; normalisation of [.] and [..] segments is not
    modelled, the result is only used as a key of the oracle. *)
Definition path_join (a b : string) : string := a +:+ "/" +:+ b.

(* ================================================================== *)
(** * The outside world and the effect monad *)
(* ================================================================== *)

(** An HTTP response as far as the code inspects it: [status], [headers],
    [data.message] and the messages of [data.errors]. *)
Record HttpResponse := {
  status : Z;
  headers : list (string * string);
  data_message : option string;
  data_errors : list string
}.

(** A thrown value: an [Error] has a [message]; an axios error also has a
    [response] when the server answered. *)
Record JsError := {
  message : string;
  response : option HttpResponse
}.

(** [new Error(msg)] *)
Definition newError (msg : string) : JsError :=
  {| message := msg; response := None |}.

Inductive Result (A : Type) : Type :=
| Ok (a : A)
| Throw (e : JsError).
Arguments Ok {A} a.
Arguments Throw {A} e.

Inductive ExecOutcome :=
| ExecOk (stdout : string)
| ExecFail (msg : string).

Inductive Method := GET | POST | PUT | DELETE.

(** [response.data] of a successful request: an array of some length or
    another JSON value. *)
Inductive HttpData :=
| DataArray (len : nat)
| DataObject.

Inductive HttpOutcome :=
| HttpOk (data : HttpData)
| HttpErr (e : JsError).

Record GlobOpts := {
  g_cwd : string;
  g_nodir : bool;
  g_ignore : list string
}.

(** The user's LFS configuration entry of one repository, as far as the
    code reads it: [files] and [patterns] are arrays of strings, or [None]
    when the member is missing or falsy; [autoDetect] is its truthiness.  A
    truthy value that has none of the three members (a boolean, a number, a
    function) is the entry without any. *)
Record RepoConfig := {
  cfg_files : option (list string);
  cfg_patterns : option (list string);
  cfg_autoDetect : bool
}.

(** The [repositories] member of the settings: missing, [null], or an
    object, as the settings file is meant to have it (a number, a string,
    a boolean or an array in its place is left out).  An own member of
    that object is [None] when its value is falsy ([null], [false], [0],
    the empty string). *)
Inductive Repositories :=
| repositories_undefined
| repositories_null
| repositories_object (entries : gmap string (option RepoConfig)).

(** [this.settings] when it is truthy: an object with or without a
    [repositories] member (an array or another truthy value has none). *)
Record Settings := {
  repositories : Repositories
}.

(** What [JSON.parse] makes of the settings file. *)
Inductive SettingsFile :=
| settings_unusable                 (* unreadable, not JSON, or the value null *)
| settings_falsy                    (* the value 0, false or the empty string *)
| settings_document (s : Settings).

(** One record of [repos.json]. *)
Record Repo := {
  name : string;
  branch : string;
  transferred : bool;
  processing : bool;
  created_at : option string;
  pushed_at : option string;
  error : option string;
  retry_count : Z
}.

(** Everything the process asks of its environment.  The first argument of
    each oracle is the number of interactions made before the call. *)
Record Env := {
  exec : nat -> string -> string -> ExecOutcome;   (* cwd, command *)
  chdir_ok : nat -> string -> bool;
  fs_access : nat -> string -> bool;
  fs_stat : nat -> string -> option Z;
  fs_write : nat -> string -> bool;
  fs_mkdir : nat -> string -> bool;
  fs_rm : nat -> string -> bool;
  fs_readdir : nat -> string -> option (list string);
  read_settings : nat -> string -> SettingsFile;
  glob : nat -> string -> GlobOpts -> option (list string);
  http : nat -> Method -> string -> string -> HttpOutcome;   (* url, body *)
  now_iso : nat -> string;
  now_ms : nat -> Z;
  (* process.env and __dirname *)
  GH_TOKEN : string;
  GH_OWNER : string;
  BB_USER : string;
  BB_APP_PASSWORD : string;
  BB_WORKSPACE : string;
  dirname : string
}.

Inductive Event :=
| EvChdir (dir : string) (ok : bool)
| EvExec (dir cmd : string) (out : ExecOutcome)
| EvAccess (path : string) (ok : bool)
| EvStat (path : string) (size : option Z)
| EvWriteFile (path content : string) (ok : bool)
| EvSaveRepos (path : string) (repos : list Repo) (ok : bool)
| EvMkdir (path : string) (ok : bool)
| EvRm (path : string) (ok : bool)
| EvReaddir (path : string) (res : option (list string))
| EvReadSettings (path : string) (res : SettingsFile)
| EvGlob (pattern : string) (opts : GlobOpts) (res : option (list string))
| EvHttp (m : Method) (url body : string) (res : HttpOutcome)
| EvDelay (ms : Z)
| EvNow.

(** The counters [this.stats] of the migrator. *)
Record Stats := {
  processed : Z;
  succeeded : Z;
  failed : Z
}.

Record World := {
  cwd : string;                                 (* process.cwd() *)
  tick : nat;                                   (* interactions so far *)
  trace : list Event;                           (* oldest first *)
  repos_json : option (list Repo);              (* data/repos.json; None: missing or unparseable *)
  settings : option Settings;                   (* LFSManager.settings; None: null or falsy *)
  stats : Stats
}.

Definition M (A : Type) : Type := World -> Result A * World.

Definition ret {A} (a : A) : M A := fun w => (Ok a, w).

Definition throw {A} (e : JsError) : M A := fun w => (Throw e, w).

Definition bind {A B} (m : M A) (k : A -> M B) : M B :=
  fun w => match m w with
           | (Ok a, w1) => k a w1
           | (Throw e, w1) => (Throw e, w1)
           end.

Notation "'let*' x ':=' m 'in' k" := (bind m (fun x => k))
  (at level 10, x name, m at level 100, k at level 200).
Notation "'let*' ' p ':=' m 'in' k" := (bind m (fun x => match x with p => k end))
  (at level 10, p pattern, m at level 100, k at level 200).
Notation "'do*' m 'in' k" := (bind m (fun _ => k))
  (at level 10, m at level 100, k at level 200).

(** [try { m } catch (e) { h e }] *)
Definition tryCatch {A} (m : M A) (h : JsError -> M A) : M A :=
  fun w => match m w with
           | (Ok a, w1) => (Ok a, w1)
           | (Throw e, w1) => h e w1
           end.

(** [try { m } finally { fin }]: [fin] always runs; when it throws, its
    error replaces the outcome of [m]. *)
Definition tryFinally {A} (m : M A) (fin : M unit) : M A :=
  fun w => match m w with
           | (r, w1) => match fin w1 with
                        | (Ok _, w2) => (r, w2)
                        | (Throw e, w2) => (Throw e, w2)
                        end
           end.

Definition liftR {A} (r : Result A) : M A := fun w => (r, w).

(** Run [m] and hand its outcome, normal or thrown, to the continuation:
    the shape of a [try] whose [catch] reads variables assigned in the
    [try] block. *)
Definition attempt {A} (m : M A) : M (Result A) :=
  fun w => match m w with (r, w1) => (Ok r, w1) end.

Fixpoint forEach {A} (l : list A) (body : A -> M unit) : M unit :=
  match l with
  | [] => ret tt
  | x :: r => do* body x in forEach r body
  end.

(** A loop that updates local variables [s]. *)
Fixpoint foldM {A S} (body : S -> A -> M S) (l : list A) (s : S) : M S :=
  match l with
  | [] => ret s
  | x :: r => let* s1 := body s x in foldM body r s1
  end.

(** One interaction: record it and advance the tick. *)
Definition emit (e : Event) (w : World) : World :=
  {| cwd := cwd w; tick := S (tick w); trace := trace w ++ [e];
     repos_json := repos_json w; settings := settings w; stats := stats w |}.

Definition set_cwd (d : string) (w : World) : World :=
  {| cwd := d; tick := tick w; trace := trace w;
     repos_json := repos_json w; settings := settings w; stats := stats w |}.

Definition set_repos (r : list Repo) (w : World) : World :=
  {| cwd := cwd w; tick := tick w; trace := trace w;
     repos_json := Some r; settings := settings w; stats := stats w |}.

Definition set_settings (s : option Settings) (w : World) : World :=
  {| cwd := cwd w; tick := tick w; trace := trace w;
     repos_json := repos_json w; settings := s; stats := stats w |}.

Definition set_stats (s : Stats) (w : World) : World :=
  {| cwd := cwd w; tick := tick w; trace := trace w;
     repos_json := repos_json w; settings := settings w; stats := s |}.

Section Primitives.
Context (env : Env).

(** [process.cwd()] *)
Definition getCwd : M string := fun w => (Ok (cwd w), w).

(** [process.chdir(dir)]: throws when the directory cannot be entered. *)
Definition chdir (dir : string) : M unit :=
  fun w =>
    let ok := chdir_ok env (tick w) dir in
    let w1 := emit (EvChdir dir ok) w in
    if ok then (Ok tt, set_cwd dir w1)
    else (Throw (newError ("ENOENT: no such file or directory, chdir " +:+ dir)), w1).

(** [execSync(cmd)], run in the current working directory. *)
Definition execSync (cmd : string) : M string :=
  fun w =>
    let out := exec env (tick w) (cwd w) cmd in
    let w1 := emit (EvExec (cwd w) cmd out) w in
    match out with
    | ExecOk s => (Ok s, w1)
    | ExecFail msg => (Throw (newError msg), w1)
    end.

(** [execSync(cmd, { cwd: dir })] *)
Definition execSyncIn (dir cmd : string) : M string :=
  fun w =>
    let out := exec env (tick w) dir cmd in
    let w1 := emit (EvExec dir cmd out) w in
    match out with
    | ExecOk s => (Ok s, w1)
    | ExecFail msg => (Throw (newError msg), w1)
    end.

(** [fs.access(path)] *)
Definition access (path : string) : M unit :=
  fun w =>
    let ok := fs_access env (tick w) path in
    let w1 := emit (EvAccess path ok) w in
    if ok then (Ok tt, w1)
    else (Throw (newError ("ENOENT: no such file or directory, access " +:+ path)), w1).

(** [(await fs.stat(path)).size] *)
Definition statSize (path : string) : M Z :=
  fun w =>
    let r := fs_stat env (tick w) path in
    let w1 := emit (EvStat path r) w in
    match r with
    | Some n => (Ok n, w1)
    | None => (Throw (newError ("ENOENT: no such file or directory, stat " +:+ path)), w1)
    end.

(** [fs.writeFile(path, content)] *)
Definition writeFile (path content : string) : M unit :=
  fun w =>
    let ok := fs_write env (tick w) path in
    let w1 := emit (EvWriteFile path content ok) w in
    if ok then (Ok tt, w1)
    else (Throw (newError ("EACCES: permission denied, open " +:+ path)), w1).

(** [fs.mkdir(path, { recursive: true })] *)
Definition mkdir (path : string) : M unit :=
  fun w =>
    let ok := fs_mkdir env (tick w) path in
    let w1 := emit (EvMkdir path ok) w in
    if ok then (Ok tt, w1)
    else (Throw (newError ("EACCES: permission denied, mkdir " +:+ path)), w1).

(** [fs.rm(path, { recursive: true, force: true })] *)
Definition rm (path : string) : M unit :=
  fun w =>
    let ok := fs_rm env (tick w) path in
    let w1 := emit (EvRm path ok) w in
    if ok then (Ok tt, w1)
    else (Throw (newError ("EACCES: permission denied, rm " +:+ path)), w1).

(** [fs.readdir(path)] *)
Definition readdir (path : string) : M (list string) :=
  fun w =>
    let r := fs_readdir env (tick w) path in
    let w1 := emit (EvReaddir path r) w in
    match r with
    | Some l => (Ok l, w1)
    | None => (Throw (newError ("ENOENT: no such file or directory, scandir " +:+ path)), w1)
    end.

(** [glob(pattern, opts)] *)
Definition globFiles (pattern : string) (opts : GlobOpts) : M (list string) :=
  fun w =>
    let r := glob env (tick w) pattern opts in
    let w1 := emit (EvGlob pattern opts r) w in
    match r with
    | Some l => (Ok l, w1)
    | None => (Throw (newError ("glob failed: " +:+ pattern)), w1)
    end.

(** One request of the axios client; [body] stands for the JSON body of a
    POST (the repository name it carries) and is empty otherwise. *)
Definition request (m : Method) (url body : string) : M HttpData :=
  fun w =>
    let r := http env (tick w) m url body in
    let w1 := emit (EvHttp m url body r) w in
    match r with
    | HttpOk d => (Ok d, w1)
    | HttpErr e => (Throw e, w1)
    end.

(** [new Date().toISOString()] *)
Definition nowISO : M string :=
  fun w => (Ok (now_iso env (tick w)), emit EvNow w).

(** [Date.now()] *)
Definition nowMs : M Z :=
  fun w => (Ok (now_ms env (tick w)), emit EvNow w).

(** [await delay(ms)] *)
Definition delay (ms : Z) : M unit :=
  fun w => (Ok tt, emit (EvDelay ms) w).

(** Lines 19-21 of [loadSettings]: the settings file is read and parsed
    and the number of its repositories is logged.  This throws when the
    file cannot be read or parsed, and also, at the log line, when the
    value parsed is [null]. *)
Definition readSettingsFile (path : string) : M (option Settings) :=
  fun w =>
    let r := read_settings env (tick w) path in
    let w1 := emit (EvReadSettings path r) w in
    match r with
    | settings_document s => (Ok (Some s), w1)
    | settings_falsy => (Ok None, w1)
    | settings_unusable =>
        (Throw (newError ("ENOENT: no such file or directory, open " +:+ path)), w1)
    end.

(** [this.settings] of the LFS manager. *)
Definition getSettings : M (option Settings) :=
  fun w => (Ok (settings w), w).

Definition setSettings (s : option Settings) : M unit :=
  fun w => (Ok tt, set_settings s w).

(** [JSON.parse(await fs.readFile(reposFilePath))] *)
Definition readReposFile (path : string) : M (list Repo) :=
  fun w =>
    match repos_json w with
    | Some r => (Ok r, w)
    | None => (Throw (newError ("ENOENT: no such file or directory, open " +:+ path)), w)
    end.

(** [fs.writeFile(path, JSON.stringify(repos))] to a file other than the
    store (a backup). *)
Definition writeJson (path : string) (repos : list Repo) : M unit :=
  fun w =>
    let ok := fs_write env (tick w) path in
    let w1 := emit (EvSaveRepos path repos ok) w in
    if ok then (Ok tt, w1)
    else (Throw (newError ("EACCES: permission denied, open " +:+ path)), w1).

(** [fs.writeFile(reposFilePath, JSON.stringify(repos))] *)
Definition writeReposFile (path : string) (repos : list Repo) : M unit :=
  fun w =>
    let ok := fs_write env (tick w) path in
    let w1 := emit (EvSaveRepos path repos ok) w in
    if ok then (Ok tt, set_repos repos w1)
    else (Throw (newError ("EACCES: permission denied, open " +:+ path)), w1).

Definition getStats : M Stats := fun w => (Ok (stats w), w).

Definition setStats (s : Stats) : M unit := fun w => (Ok tt, set_stats s w).

End Primitives.

(** Run a computation and keep its outcome and final world apart. *)
Definition outcome {A} (m : M A) (w : World) : Result A := fst (m w).
Definition after {A} (m : M A) (w : World) : World := snd (m w).

(* ================================================================== *)
(** * app/lib/config.js *)
(* ================================================================== *)

Module Config.

Definition defaultThreshold : string := "50MB".

Definition autoDetectIgnore : list string :=
  [".git/**"; "node_modules/**"; ".DS_Store"; "Thumbs.db"; "*.log"; ".env*"].

Definition lfsSettings : string := "../../data/lfs-settings.json".

End Config.

(* ================================================================== *)
(** * app/lib/lfs-manager.js *)
(* ================================================================== *)

Module LFSManager.

Inductive Mode := configured | auto_detect | existing.

Definition Mode_eqb (a b : Mode) : bool :=
  match a, b with
  | configured, configured | auto_detect, auto_detect | existing, existing => true
  | _, _ => false
  end.

(** The value returned by [scanLFSFiles]. *)
Record ScanResult := {
  files : list string;
  historyFiles : list string;
  allFiles : list string;
  mode : Mode;
  hasConfig : bool
}.

(** The value returned by [setupLFS] (and by [handleLFS], which adds
    [source]). *)
Record SetupResult := {
  hasLFS : bool;
  filesCount : nat;
  lfsFileNames : list string;           (* files *)
  currentFiles : option (list string);
  historyFilesOf : option (list string);
  resultMode : Mode
}.

Definition getDefaultThreshold : string := Config.defaultThreshold.

(** The value of an inherited member: a function, or the prototype itself
    for [__proto__]; truthy, and without [files], [patterns] or
    [autoDetect]. *)
Definition inherited : RepoConfig :=
  {| cfg_files := None; cfg_patterns := None; cfg_autoDetect := false |}.

(** The [TypeError] of a member access on [undefined] or [null]. *)
Definition cannotRead (what key : string) : JsError :=
  newError ("Cannot read properties of " +:+ what +:+ " (reading '" +:+ key +:+ "')").

(** [this.settings.repositories[repoName]]: an own member of the object,
    or else a member inherited from [Object.prototype]; [None] is a falsy
    value. *)
Definition member (s : Settings) (repoName : string) : Result (option RepoConfig) :=
  match repositories s with
  | repositories_object entries =>
      Ok match entries !! repoName with
         | Some own => own
         | None =>
             if existsb (String.eqb repoName) Js.objectPrototype
             then Some inherited else None
         end
  | repositories_undefined => Throw (cannotRead "undefined" repoName)
  | repositories_null => Throw (cannotRead "null" repoName)
  end.

Definition hasLFSConfig (s : option Settings) (repoName : string) : Result bool :=
  match s with
  | None => Ok false
  | Some settings =>
      match member settings repoName with
      | Ok (Some _) => Ok true
      | Ok None => Ok false
      | Throw e => Throw e
      end
  end.

Definition getRepoLFSConfig (s : option Settings) (repoName : string)
  : Result (option RepoConfig) :=
  match s with
  | None => Ok None
  | Some settings => member settings repoName
  end.

Definition getLFSMode (s : option Settings) (repoName : string) : Result Mode :=
  match hasLFSConfig s repoName with
  | Ok true => Ok configured
  | Ok false => Ok auto_detect
  | Throw e => Throw e
  end.

(** [units[unit.toUpperCase()]] *)
Definition units (u : list ascii) : option Z :=
  let U := string_of_list_ascii (Js.toUpperCase u) in
  if String.eqb U "B" then Some 1%Z
  else if String.eqb U "KB" then Some 1024%Z
  else if String.eqb U "MB" then Some (1024 * 1024)%Z
  else if String.eqb U "GB" then Some (1024 * 1024 * 1024)%Z
  else None.

(** [sizeStr.match(/^(\d+(?:\.\d+)?)\s*(B|KB|MB|GB)$/i)]: the integer
    digits, the fraction digits (empty without a fraction) and the
    multiplier of the unit.  The character classes of the pattern are
    disjoint, so the longest-match scan below is the only way to match. *)
Definition matchFraction (r1 : list ascii) : list ascii * list ascii :=
  match r1 with
  | c :: r =>
      if Js.ascii_eqb c "."%char then
        match Js.takeWhile Js.is_digit r with
        | [] => ([], r1)
        | f => (f, Js.dropWhile Js.is_digit r)
        end
      else ([], r1)
  | [] => ([], r1)
  end.

Definition matchSize (s : list ascii) : option (list ascii * list ascii * Z) :=
  match Js.takeWhile Js.is_digit s with
  | [] => None
  | ds =>
      let r1 := Js.dropWhile Js.is_digit s in
      let '(fr, r2) := matchFraction r1 in
      match units (Js.dropWhile Js.is_space r2) with
      | Some mult => Some (ds, fr, mult)
      | None => None
      end
  end.

Definition parseSize (sizeStr : string) : Result Js.double :=
  match matchSize (list_ascii_of_string sizeStr) with
  | None => Throw (newError ("無效的檔案大小格式: " +:+ sizeStr))
  | Some (ds, fr, mult) => Ok (Js.times (Js.parseFloat ds fr) mult)
  end.

(** One line of [git ls-tree -r -l]: [<mode> <type> <hash> <size> <filename>].
    [None] for a blank line or one with fewer than five fields. *)
Definition parseLsTreeLine (line : string) : option (Js.number * string) :=
  if negb (Js.truthy (Js.s_trim line)) then None
  else
    let parts := Js.s_split_ws (Js.s_trim line) in
    if (5 <=? length parts)%nat
    then Some (Js.s_parseInt (nth 3 parts "") (Some 10%Z),
               Js.s_join " " (skipn 4 parts))
    else None.

(** The body of the loop over the lines of one listing. *)
Definition addLargeFile (threshold : Js.double) (largeFiles : list string) (line : string)
  : list string :=
  match parseLsTreeLine line with
  | Some (size, filename) =>
      if Js.gt size threshold then Js.set_add filename largeFiles else largeFiles
  | None => largeFiles
  end.

Definition lsTreeLines (lsTreeOutput : string) : list string :=
  Js.s_split (string_of_list_ascii LF) (Js.s_trim lsTreeOutput).

(** [allCommits.trim().split('\n').filter(commit => commit.trim())] *)
Definition parseCommits (allCommits : string) : list string :=
  List.filter (fun commit => Js.truthy (Js.s_trim commit))
              (Js.s_split (string_of_list_ascii LF) (Js.s_trim allCommits)).

Definition lsTreeCommand (commit : string) : string := "git ls-tree -r -l " +:+ commit.

Definition generateGitAttributes (lfsFiles : list string) : string :=
  match lfsFiles with
  | [] => ""
  | _ =>
      let lines :=
        ["# Git LFS configuration";
         "# Generated by bitbucket-to-github migration tool";
         ""]
        ++ map (fun file => file +:+ " filter=lfs diff=lfs merge=lfs -text") lfsFiles in
      Js.s_join (string_of_list_ascii LF) lines +:+ string_of_list_ascii LF
  end.

(** [git lfs ls-files] output to the list of its non-blank lines. *)
Definition lfsLines (out : string) : list string :=
  List.filter (fun line => Js.truthy (Js.s_trim line))
              (Js.s_split (string_of_list_ascii LF) (Js.s_trim out)).

(** [file.split(' - ')[1] || file] *)
Definition lfsFileName (file : string) : string :=
  match Js.s_split " - " file with
  | _ :: x :: _ => if Js.truthy x then x else file
  | _ => file
  end.

(** The two history-rewrite commands. *)
Definition migrateBySize (thresholdMB : Js.number) : string :=
  "git lfs migrate import --above=" +:+ Js.s_of_number thresholdMB
  +:+ "MB --everything --yes".

Definition migrateByFiles (lfsFiles : list string) : string :=
  "git lfs migrate import --include=" +:+ dq +:+ Js.s_join "," lfsFiles +:+ dq
  +:+ " --everything --yes".

Section WithEnv.
Context (env : Env).

Definition settingsPath : string := path_join (dirname env) Config.lfsSettings.

(** [{ repositories: {} }] *)
Definition noSettings : Settings := {| repositories := repositories_object ∅ |}.

Definition loadSettings : M unit :=
  tryCatch
    (let* s := readSettingsFile env settingsPath in
     setSettings s)
    (fun _ => setSettings (Some noSettings)).

Definition isFileOversized (filePath : string) (threshold : option string) : M bool :=
  tryCatch
    (let* size := statSize env filePath in
     let t := match threshold with
              | Some t => if Js.truthy t then t else getDefaultThreshold
              | None => getDefaultThreshold
              end in
     let* thresholdBytes := liftR (parseSize t) in
     ret (Js.gt (Some size) thresholdBytes))
    (fun _ => ret false).

(** Lines 201-206: the body of the loop over the files of the tree. *)
Definition addIfOversized (repoPath threshold : string) (lfsFiles : list string)
  (file : string) : M (list string) :=
  let fullPath := path_join repoPath file in
  let* big := isFileOversized fullPath (Some threshold) in
  ret (if big then lfsFiles ++ [file] else lfsFiles).

Definition autoDetectLFSFiles (repoPath : string) : M (list string) :=
  let threshold := getDefaultThreshold in
  tryCatch
    (let* allFiles :=
       globFiles env "**/*"
         {| g_cwd := repoPath; g_nodir := true; g_ignore := Config.autoDetectIgnore |} in
     foldM (addIfOversized repoPath threshold) allFiles [])
    (fun _ => ret []).

(** One iteration of the loop over the commits: a listing that cannot be
    read leaves [largeFiles] as it is. *)
Definition scanCommit (threshold : Js.double) (largeFiles : list string) (commit : string)
  : M (list string) :=
  tryCatch
    (let* lsTreeOutput := execSync env (lsTreeCommand commit) in
     ret (fold_left (addLargeFile threshold) (lsTreeLines lsTreeOutput) largeFiles))
    (fun _ => ret largeFiles).

Definition detectLargeFilesInHistory (repoPath : string) : M (list string) :=
  let* originalCwd := getCwd in
  let* threshold := liftR (parseSize getDefaultThreshold) in
  tryFinally
    (tryCatch
       (do* chdir env repoPath in
        let* allCommits := execSync env "git rev-list --all" in
        let commits := parseCommits allCommits in
        let maxCommits := Nat.min (length commits) 50 in
        foldM (scanCommit threshold) (firstn maxCommits commits) [])
       (fun _ => ret []))
    (chdir env originalCwd).

(** Lines 122-162 of [scanLFSFiles]: the working-tree side, which fills
    [lfsFiles] and puts the configured files that are missing into
    [historyFiles]. *)
Definition scanConfiguredFiles (repoPath : string) (cfgFiles : list string)
  : M (list string * list string) :=
  foldM (fun '(lfsFiles, historyFiles) file =>
           let fullPath := path_join repoPath file in
           tryCatch
             (do* access env fullPath in
              ret (Js.set_add file lfsFiles, historyFiles))
             (fun _ => ret (lfsFiles, Js.set_add file historyFiles)))
        cfgFiles ([], []).

Definition scanPatterns (repoPath : string) (patterns : list string)
  (lfsFiles : list string) : M (list string) :=
  foldM (fun lfsFiles pattern =>
           tryCatch
             (let* matches :=
                globFiles env pattern
                  {| g_cwd := repoPath; g_nodir := false; g_ignore := [] |} in
              ret (Js.set_add_all matches lfsFiles))
             (fun _ => ret lfsFiles))
        patterns lfsFiles.

Definition scanWorkingTree (repoPath : string) (mode : Mode)
  (repoConfig : option RepoConfig) : M (list string * list string) :=
  match mode, repoConfig with
  | configured, Some repoConfig =>
      let* '(lfsFiles, historyFiles) :=
        match cfg_files repoConfig with
        | Some fl => scanConfiguredFiles repoPath fl
        | None => ret ([], [])
        end in
      let* lfsFiles :=
        match cfg_patterns repoConfig with
        | Some ps => scanPatterns repoPath ps lfsFiles
        | None => ret lfsFiles
        end in
      let* lfsFiles :=
        if cfg_autoDetect repoConfig
        then let* autoDetected := autoDetectLFSFiles repoPath in
             ret (Js.set_add_all autoDetected lfsFiles)
        else ret lfsFiles in
      ret (lfsFiles, historyFiles)
  | _, _ =>
      let* autoDetected := autoDetectLFSFiles repoPath in
      ret (Js.set_add_all autoDetected [], [])
  end.

Definition scanLFSFiles (repoPath repoName : string) : M ScanResult :=
  let* s := getSettings in
  let* mode := liftR (getLFSMode s repoName) in
  let* repoConfig := liftR (getRepoLFSConfig s repoName) in
  let* '(lfsFiles, historyFiles) := scanWorkingTree repoPath mode repoConfig in
  let* historyFiles :=
    tryCatch
      (let* historyLargeFiles := detectLargeFilesInHistory repoPath in
       ret (Js.set_add_all historyLargeFiles historyFiles))
      (fun _ => ret historyFiles) in
  let allLfsFiles := Js.set_add_all (lfsFiles ++ historyFiles) [] in
  ret {| files := lfsFiles;
         historyFiles := historyFiles;
         allFiles := allLfsFiles;
         mode := mode;
         hasConfig := Mode_eqb mode configured |}.

Definition quoted (file : string) : string := dq +:+ file +:+ dq.

Definition noLFS (mode : Mode) : SetupResult :=
  {| hasLFS := false; filesCount := 0; lfsFileNames := [];
     currentFiles := None; historyFilesOf := None; resultMode := mode |}.

(** Lines 398-452 of [setupLFS]: the choice of the history rewrite and the
    check of its result.  [Some r] is the [return r] of line 438. *)
Definition migrateImport (scanResult : ScanResult) : M (option SetupResult) :=
  let lfsFiles := files scanResult in
  let historyFiles := historyFiles scanResult in
  let allFiles := allFiles scanResult in
  if (0 <? length allFiles)%nat then
    tryCatch
      (do* (if (0 <? length historyFiles)%nat then
              let thresholdMB :=
                Js.s_parseInt (Js.s_replace "MB" "" getDefaultThreshold) None in
              do* execSync env (migrateBySize thresholdMB) in ret tt
            else if (0 <? length lfsFiles)%nat then
              do* execSync env (migrateByFiles lfsFiles) in ret tt
            else ret tt) in
       let* lfsStatus := execSync env "git lfs ls-files" in
       let lfsFilesList := lfsLines lfsStatus in
       if (0 <? length lfsFilesList)%nat then
         ret (Some {| hasLFS := true;
                      filesCount := length lfsFilesList;
                      lfsFileNames := map lfsFileName lfsFilesList;
                      currentFiles := None; historyFilesOf := None;
                      resultMode := mode scanResult |})
       else ret None)
      (fun _ => ret None)
  else ret None.

(** Lines 481-503: the second attempt on a file that is still not an LFS
    pointer. *)
Definition forceConvert (file : string) : M unit :=
  tryCatch
    (do* execSync env ("git rm --cached " +:+ quoted file) in
     do* execSync env "git add .gitattributes" in
     do* execSync env "git lfs track" in
     do* execSync env ("git add " +:+ quoted file) in
     do* execSync env "git lfs ls-files" in
     ret tt)
    (fun _ => ret tt).

(** Lines 456-519: the body of the loop over the current files. *)
Definition reprocessFile (repoPath file : string) : M unit :=
  tryCatch
    (let filePath := path_join repoPath file in
     do* access env filePath in
     do* execSync env ("git rm --cached " +:+ quoted file) in
     do* execSync env "git lfs track" in
     do* execSync env ("git add " +:+ quoted file) in
     do* tryCatch
           (let* lfsStatus := execSync env "git lfs ls-files" in
            if Js.s_includes lfsStatus file then ret tt else forceConvert file)
           (fun _ => ret tt) in
     tryCatch
       (do* execSync env ("git ls-files -s " +:+ quoted file) in ret tt)
       (fun _ => ret tt))
    (fun _ => ret tt).

(** Lines 329-535 of [setupLFS]: everything after the scan. *)
Definition setupLFS_afterScan (repoPath repoName : string) (scanResult : ScanResult)
  : M SetupResult :=
  let lfsFiles := files scanResult in
  let historyFiles := historyFiles scanResult in
  let allFiles := allFiles scanResult in
  let mode := mode scanResult in
  if (length allFiles =? 0)%nat then ret (noLFS mode)
  else
    do* tryCatch (do* execSync env "git lfs install" in ret tt) (fun _ => ret tt) in
    let gitAttributesContent := generateGitAttributes allFiles in
    let gitAttributesPath := path_join repoPath ".gitattributes" in
    do* writeFile env gitAttributesPath gitAttributesContent in
    do* forEach allFiles (fun file =>
          tryCatch
            (do* execSync env ("git lfs track " +:+ quoted file) in ret tt)
            (fun _ => ret tt)) in
    do* tryCatch
          (do* execSync env "git add .gitattributes" in
           do* execSync env ("git commit -m " +:+ quoted "Add .gitattributes for LFS") in
           ret tt)
          (fun _ =>
             tryCatch
               (do* execSync env "git reset --soft HEAD" in
                do* execSync env "git add .gitattributes" in
                ret tt)
               (fun _ => ret tt)) in
    let* migrated := migrateImport scanResult in
    match migrated with
    | Some r => ret r
    | None =>
        do* forEach lfsFiles (reprocessFile repoPath) in
        let* finalLfsStatus := execSync env "git lfs ls-files" in
        let finalLfsFiles := map lfsFileName (lfsLines finalLfsStatus) in
        ret {| hasLFS := (0 <? length finalLfsFiles)%nat;
               filesCount := length finalLfsFiles;
               lfsFileNames := finalLfsFiles;
               currentFiles := Some lfsFiles;
               historyFilesOf := Some historyFiles;
               resultMode := mode |}
    end.

Definition setupLFS (repoPath repoName : string) : M SetupResult :=
  let* originalCwd := getCwd in
  tryFinally
    (tryCatch
       (do* chdir env repoPath in
        let* s := getSettings in
        do* (match s with
             | None => loadSettings
             | Some _ => ret tt
             end) in
        let* scanResult := scanLFSFiles repoPath repoName in
        setupLFS_afterScan repoPath repoName scanResult)
       (fun error =>
          throw (newError ("LFS 設置失敗 " +:+ repoName +:+ ": " +:+ message error))))
    (chdir env originalCwd).

Definition getExistingLFSFiles (repoPath : string) : M (list string) :=
  let* originalCwd := getCwd in
  tryFinally
    (tryCatch
       (do* chdir env repoPath in
        let* lfsFiles := execSync env "git lfs ls-files" in
        ret (lfsLines lfsFiles))
       (fun _ => ret []))
    (chdir env originalCwd).

End WithEnv.

End LFSManager.

(* ================================================================== *)
(** * lib/state-manager.js *)
(* ================================================================== *)

Module StateManager.

(** The [updates] argument of [updateRepoStatus]: the properties present
    in the object. *)
Record Patch := {
  p_transferred : option bool;
  p_processing : option bool;
  p_created_at : option (option string);
  p_pushed_at : option (option string);
  p_error : option (option string);
  p_retry_count : option Z
}.

Definition noPatch : Patch :=
  {| p_transferred := None; p_processing := None; p_created_at := None;
     p_pushed_at := None; p_error := None; p_retry_count := None |}.

Definition orElse {A} (o : option A) (d : A) : A :=
  match o with
  | Some x => x
  | None => d
  end.

(** [Object.assign(repo, updates)] *)
Definition assign (repo : Repo) (updates : Patch) : Repo :=
  {| name := name repo;
     branch := branch repo;
     transferred := orElse (p_transferred updates) (transferred repo);
     processing := orElse (p_processing updates) (processing repo);
     created_at := orElse (p_created_at updates) (created_at repo);
     pushed_at := orElse (p_pushed_at updates) (pushed_at repo);
     error := orElse (p_error updates) (error repo);
     retry_count := orElse (p_retry_count updates) (retry_count repo) |}.

(** Lines 79-81: what [updateRepoStatus] adds when [updates.transferred === true]. *)
Definition finish (repo : Repo) (now : string) : Repo :=
  {| name := name repo;
     branch := branch repo;
     transferred := transferred repo;
     processing := false;
     created_at := created_at repo;
     pushed_at := Some now;
     error := None;
     retry_count := retry_count repo |}.

Definition stopProcessing (repo : Repo) : Repo :=
  {| name := name repo;
     branch := branch repo;
     transferred := transferred repo;
     processing := false;
     created_at := created_at repo;
     pushed_at := pushed_at repo;
     error := error repo;
     retry_count := retry_count repo |}.

(** [repos.findIndex(p)]; [None] is [-1]. *)
Fixpoint findIndex (p : Repo -> bool) (repos : list Repo) : option nat :=
  match repos with
  | [] => None
  | r :: rest => if p r then Some 0%nat else option_map S (findIndex p rest)
  end.

Definition hasName (repoName : string) (repo : Repo) : bool :=
  String.eqb (name repo) repoName.

(** The filter of [getPendingRepos]. *)
Definition isPending (repo : Repo) : bool :=
  negb (transferred repo) && negb (processing repo) && (retry_count repo <? 3)%Z.

(** The filter of [getFailedRepos]: [repo.error && !repo.transferred]. *)
Definition isFailed (repo : Repo) : bool :=
  match error repo with
  | Some e => Js.truthy e && negb (transferred repo)
  | None => false
  end.

Record Statistics := {
  total : nat;
  transferredCount : nat;
  processingCount : nat;
  errors : nat;
  pending : nat
}.

Definition timestampForFile (iso : string) : string :=
  string_of_list_ascii
    (map (fun c => if Js.ascii_eqb c ":"%char || Js.ascii_eqb c "."%char
                   then "-"%char else c)
         (list_ascii_of_string iso)).

Section WithEnv.
Context (env : Env).

Definition dataDir : string := "../../data".

Definition reposFilePath : string :=
  path_join (path_join (dirname env) dataDir) "repos.json".

Definition loadRepos : M (list Repo) :=
  tryCatch
    (readReposFile reposFilePath)
    (fun error => throw (newError ("無法讀取 repos.json: " +:+ message error))).

Definition saveRepos (repos : list Repo) : M unit :=
  tryCatch
    (writeReposFile env reposFilePath repos)
    (fun error => throw (newError ("無法儲存 repos.json: " +:+ message error))).

Definition getPendingRepos : M (list Repo) :=
  let* repos := loadRepos in
  ret (List.filter isPending repos).

Definition updateRepoStatus (repoName : string) (updates : Patch) : M unit :=
  let* repos := loadRepos in
  match findIndex (hasName repoName) repos with
  | None => throw (newError ("找不到 repository: " +:+ repoName))
  | Some repoIndex =>
      match repos !! repoIndex with
      | None => throw (newError ("找不到 repository: " +:+ repoName))
      | Some repo =>
          let repo1 := assign repo updates in
          let* repo2 :=
            match p_transferred updates with
            | Some true => let* now := nowISO env in ret (finish repo1 now)
            | _ => ret repo1
            end in
          saveRepos (<[repoIndex := repo2]> repos)
      end
  end.

Definition markAsProcessing (repoName : string) : M unit :=
  updateRepoStatus repoName
    {| p_transferred := None; p_processing := Some true; p_created_at := None;
       p_pushed_at := None; p_error := Some None; p_retry_count := None |}.

Definition markAsCompleted (repoName createdAt : string) : M unit :=
  let* now := nowISO env in
  updateRepoStatus repoName
    {| p_transferred := Some true; p_processing := Some false;
       p_created_at := Some (Some createdAt);
       p_pushed_at := Some (Some now); p_error := Some None;
       p_retry_count := None |}.

Definition markAsError (repoName errorMessage : string) : M unit :=
  let* repos := loadRepos in
  let retryCount :=
    match find (hasName repoName) repos with
    | Some repo => (retry_count repo + 1)%Z
    | None => 1%Z
    end in
  updateRepoStatus repoName
    {| p_transferred := None; p_processing := Some false; p_created_at := None;
       p_pushed_at := None; p_error := Some (Some errorMessage);
       p_retry_count := Some retryCount |}.

Definition resetProcessingRepos : M nat :=
  let* repos := loadRepos in
  let resetCount := length (List.filter processing repos) in
  let repos' := map (fun repo => if processing repo then stopProcessing repo else repo)
                    repos in
  do* (if (0 <? resetCount)%nat then saveRepos repos' else ret tt) in
  ret resetCount.

(** [getStatistics] without the LFS counters and the percentage string. *)
Definition getStatistics : M Statistics :=
  let* repos := loadRepos in
  ret {| total := length repos;
         transferredCount := length (List.filter transferred repos);
         processingCount := length (List.filter processing repos);
         errors := length (List.filter isFailed repos);
         pending := length (List.filter isPending repos) |}.

Definition getFailedRepos : M (list Repo) :=
  let* repos := loadRepos in
  ret (List.filter isFailed repos).

Definition clearError (repoName : string) : M unit :=
  updateRepoStatus repoName
    {| p_transferred := None; p_processing := None; p_created_at := None;
       p_pushed_at := None; p_error := Some None; p_retry_count := Some 0%Z |}.

Definition backup : M string :=
  let* iso := nowISO env in
  let timestamp := timestampForFile iso in
  let backupPath :=
    path_join (path_join (dirname env) dataDir)
              ("repos-backup-" +:+ timestamp +:+ ".json") in
  let* repos := loadRepos in
  do* writeJson env backupPath repos in
  ret backupPath.

End WithEnv.

End StateManager.

(* ================================================================== *)
(** * lib/github-api.js *)
(* ================================================================== *)

Module GitHubAPI.

Record CreateResult := {
  skipped : bool;
  createdAt : string          (* created_at *)
}.

(** [error.response?.status === n] *)
Definition statusIs (n : Z) (e : JsError) : bool :=
  match response e with
  | Some r => (status r =? n)%Z
  | None => false
  end.

(** [error.response?.data?.message || error.message] *)
Definition apiMessage (e : JsError) : string :=
  match response e with
  | Some r =>
      match data_message r with
      | Some m => if Js.truthy m then m else message e
      | None => message e
      end
  | None => message e
  end.

(** [error.response?.data?.errors?.some(e => e.message.includes('already exists'))] *)
Definition alreadyExists (e : JsError) : bool :=
  match response e with
  | Some r => existsb (fun m => Js.s_includes m "already exists") (data_errors r)
  | None => false
  end.

Section WithEnv.
Context (env : Env).

Definition repoUrl (repoName : string) : string :=
  "/repos/" +:+ GH_OWNER env +:+ "/" +:+ repoName.

Definition isRepositoryEmpty (repoName : string) : M bool :=
  tryCatch
    (let* data := request env GET (repoUrl repoName +:+ "/contents") "" in
     ret (match data with
          | DataArray O => true
          | _ => false
          end))
    (fun error => if statusIs 404 error then ret true else throw error).

Definition enableLFS (repoName : string) : M unit :=
  tryCatch
    (do* request env PUT (repoUrl repoName +:+ "/lfs") "" in ret tt)
    (fun _ => ret tt).

Definition deleteRepository (repoName : string) : M unit :=
  tryCatch
    (do* request env DELETE (repoUrl repoName) "" in ret tt)
    (fun _ => ret tt).

Definition repositoryExists (repoName : string) : M bool :=
  tryCatch
    (do* request env GET (repoUrl repoName) "" in ret true)
    (fun error => if statusIs 404 error then ret false else throw error).

Definition getRepository (repoName : string) : M HttpData :=
  tryCatch
    (request env GET (repoUrl repoName) "")
    (fun error => throw (newError ("GitHub API Error: " +:+ apiMessage error))).

Definition createRepository (repoName : string) (isLFS : bool) : M CreateResult :=
  tryCatch
    (let* exists_ := repositoryExists repoName in
     if exists_ then
       let* isEmpty := isRepositoryEmpty repoName in
       if isEmpty then
         do* (if isLFS then enableLFS repoName else ret tt) in
         do* getRepository repoName in
         let* now := nowISO env in
         ret {| skipped := true; createdAt := now |}
       else
         throw (newError ("Repository " +:+ repoName +:+ " 已存在且不為空，請手動處理"))
     else
       do* request env POST "/user/repos" repoName in
       do* (if isLFS then enableLFS repoName else ret tt) in
       let* now := nowISO env in
       ret {| skipped := false; createdAt := now |})
    (fun error =>
       if statusIs 422 error && alreadyExists error
       then throw (newError ("Repository " +:+ repoName +:+ " 已存在，可能不為空或檢查失敗"))
       else throw (newError ("GitHub API Error: " +:+ apiMessage error))).

End WithEnv.

End GitHubAPI.

(* ================================================================== *)
(** * lib/utils.js *)
(* ================================================================== *)

Module Utils.

Record RateLimitInfo := {
  remaining : Js.number;
  limit : Js.number;
  reset : Js.number;
  waitTime : Js.number
}.

(** [headers[key] || dflt] *)
Definition header (hs : list (string * string)) (key dflt : string) : string :=
  match find (fun kv => String.eqb (fst kv) key) hs with
  | Some (_, v) => if Js.truthy v then v else dflt
  | None => dflt
  end.

Section WithEnv.
Context (env : Env).

(** [retry(fn, maxRetries, delayMs)] with [remainingAttempts] attempts
    still to make; the loop ends by throwing the last error. *)
Fixpoint retryLoop {A} (fn : M A) (remainingAttempts : nat) (delayMs : Z) : M A :=
  match remainingAttempts with
  | O => throw (newError "undefined")
  | S k =>
      tryCatch fn
        (fun error =>
           match k with
           | O => throw error
           | S _ => do* delay delayMs in retryLoop fn k delayMs
           end)
  end.

Definition retry {A} (fn : M A) (maxRetries : nat) (delayMs : Z) : M A :=
  retryLoop fn maxRetries delayMs.

Definition checkRateLimit (error : JsError) : M (option RateLimitInfo) :=
  match response error with
  | Some r =>
      if (status r =? 403)%Z then
        let hs := headers r in
        let remaining := Js.s_parseInt (header hs "x-ratelimit-remaining" "0") None in
        let limit := Js.s_parseInt (header hs "x-ratelimit-limit" "5000") None in
        let reset := Js.s_parseInt (header hs "x-ratelimit-reset" "0") None in
        match remaining with
        | Some 0%Z =>
            let* now := nowMs env in
            (* [new Date(reset * 1000)] is an invalid date, whose time is
               NaN, beyond 8.64e15 ms on either side of the epoch *)
            let waitTime :=
              match reset with
              | Some t =>
                  if (Z.abs (t * 1000) <=? 8640000000000000)%Z
                  then Some (Z.max 0 (t * 1000 - now))
                  else None
              | None => None
              end in
            ret (Some {| remaining := remaining; limit := limit; reset := reset;
                         waitTime := waitTime |})
        | _ => ret None
        end
      else ret None
  | None => ret None
  end.

End WithEnv.

End Utils.

(* ================================================================== *)
(** * lib/git-operations.js *)
(* ================================================================== *)

Module GitOperations.

Inductive Source := src_existing | src_configured | src_auto_detected.

(** The value returned by [handleLFS]: the LFS result and its [source]. *)
Record LfsInfo := {
  info : LFSManager.SetupResult;
  source : Source
}.

Section WithEnv.
Context (env : Env).

Definition tempDir : string := path_join (dirname env) "../temp".

Definition ensureTempDir : M unit :=
  tryCatch
    (mkdir env tempDir)
    (fun error => throw (newError ("無法創建暫存目錄: " +:+ message error))).

Definition getRepoPath (repoName : string) : string := path_join tempDir repoName.

Definition cleanupRepo (repoName : string) : M unit :=
  let repoPath := getRepoPath repoName in
  tryCatch (rm env repoPath) (fun _ => ret tt).

Definition cloneBitbucketRepo (repoName branch : string) : M string :=
  let repoPath := getRepoPath repoName in
  let cloneUrl :=
    "https://" +:+ BB_USER env +:+ ":" +:+ BB_APP_PASSWORD env
    +:+ "@bitbucket.org/" +:+ BB_WORKSPACE env +:+ "/" +:+ repoName +:+ ".git" in
  tryCatch
    (do* cleanupRepo repoName in
     do* execSyncIn env tempDir
           ("git clone --single-branch --branch " +:+ branch +:+ " " +:+ cloneUrl
            +:+ " " +:+ repoPath) in
     ret repoPath)
    (fun error => throw (newError ("Clone 失敗 " +:+ repoName +:+ ": " +:+ message error))).

(** The [git lfs fetch --all] run from inside the working copy. *)
Definition fetchLFS (repoPath : string) : M unit :=
  let* originalCwd := getCwd in
  tryFinally
    (tryCatch
       (do* chdir env repoPath in
        do* execSync env "git lfs fetch --all" in
        ret tt)
       (fun _ => ret tt))
    (chdir env originalCwd).

Definition handleLFS (repoName : string) : M LfsInfo :=
  let repoPath := getRepoPath repoName in
  tryCatch
    (do* LFSManager.loadSettings env in
     let* s := getSettings in
     do* liftR (LFSManager.getLFSMode s repoName) in
     let* existingLFS := LFSManager.getExistingLFSFiles env repoPath in
     if (0 <? length existingLFS)%nat then
       do* fetchLFS repoPath in
       ret {| info := {| LFSManager.hasLFS := true;
                         LFSManager.filesCount := length existingLFS;
                         LFSManager.lfsFileNames := existingLFS;
                         LFSManager.currentFiles := None;
                         LFSManager.historyFilesOf := None;
                         LFSManager.resultMode := LFSManager.existing |};
              source := src_existing |}
     else
       let* lfsResult := LFSManager.setupLFS env repoPath repoName in
       do* (if LFSManager.hasLFS lfsResult then fetchLFS repoPath else ret tt) in
       ret {| info := lfsResult;
              source := if LFSManager.Mode_eqb (LFSManager.resultMode lfsResult)
                                               LFSManager.configured
                        then src_configured else src_auto_detected |})
    (fun error => throw (newError ("LFS 處理失敗 " +:+ repoName +:+ ": " +:+ message error))).

Definition pushToGitHub (repoName branch : string) (lfsInfo : LfsInfo) : M unit :=
  let repoPath := getRepoPath repoName in
  let* originalCwd := getCwd in
  tryFinally
    (tryCatch
       (do* chdir env repoPath in
        let githubUrl :=
          "https://" +:+ GH_TOKEN env +:+ "@github.com/" +:+ GH_OWNER env
          +:+ "/" +:+ repoName +:+ ".git" in
        do* execSync env ("git remote add github " +:+ githubUrl) in
        do* execSync env ("git push github " +:+ branch) in
        if LFSManager.hasLFS (info lfsInfo)
        then do* execSync env "git lfs push github --all" in ret tt
        else ret tt)
       (fun error => throw (newError ("Push 失敗 " +:+ repoName +:+ ": " +:+ message error))))
    (chdir env originalCwd).

Definition cleanupAll : M unit :=
  tryCatch
    (let* files := readdir env tempDir in
     forEach files (fun file => rm env (path_join tempDir file)))
    (fun _ => ret tt).

Definition checkDependencies : M bool :=
  tryCatch
    (do* execSync env "git --version" in
     do* execSync env "git lfs version" in
     ret true)
    (fun _ => throw (newError "缺少必要的依賴: 請確保已安裝 Git 和 Git LFS")).

End WithEnv.

End GitOperations.

(* ================================================================== *)
(** * do-migrate-repos.js *)
(* ================================================================== *)

Module Migrator.

Section WithEnv.
Context (env : Env).

Definition bumpProcessed : M unit :=
  let* s := getStats in
  setStats {| processed := processed s + 1; succeeded := succeeded s; failed := failed s |}.

Definition bumpSucceeded : M unit :=
  let* s := getStats in
  setStats {| processed := processed s; succeeded := succeeded s + 1; failed := failed s |}.

Definition bumpFailed : M unit :=
  let* s := getStats in
  setStats {| processed := processed s; succeeded := succeeded s; failed := failed s + 1 |}.

(** The [catch] block of [migrateRepository]; [createResult] is the local
    variable, [None] while it is still [null]. *)
Definition migrationFailed (repoName : string)
  (createResult : option GitHubAPI.CreateResult) (error : JsError) : M unit :=
  do* bumpFailed in
  do* tryCatch
        (do* (match createResult with
              | None => GitHubAPI.deleteRepository env repoName
              | Some r =>
                  if negb (GitHubAPI.skipped r)
                  then GitHubAPI.deleteRepository env repoName
                  else ret tt
              end) in
         GitOperations.cleanupRepo env repoName)
        (fun _ => ret tt) in
  do* StateManager.markAsError env repoName (message error) in
  throw error.

(** Steps 3-7 of [migrateRepository], after [createResult] is assigned. *)
Definition migrateSteps (repoName branch : string)
  (createResult : GitHubAPI.CreateResult) : M unit :=
  do* GitOperations.cloneBitbucketRepo env repoName branch in
  let* lfsInfo := GitOperations.handleLFS env repoName in
  let i := GitOperations.info lfsInfo in
  do* (if LFSManager.hasLFS i && (0 <? length (LFSManager.lfsFileNames i))%nat
       then tryCatch (GitHubAPI.enableLFS env repoName) (fun _ => ret tt)
       else ret tt) in
  do* GitOperations.pushToGitHub env repoName branch lfsInfo in
  do* GitOperations.cleanupRepo env repoName in
  do* StateManager.markAsCompleted env repoName (GitHubAPI.createdAt createResult) in
  bumpSucceeded.

Definition migrateRepository (repo : Repo) : M unit :=
  let repoName := name repo in
  let branch := branch repo in
  tryFinally
    (let* created :=
       attempt
         (do* StateManager.markAsProcessing env repoName in
          Utils.retry (GitHubAPI.createRepository env repoName false) 3 2000) in
     match created with
     | Throw error => migrationFailed repoName None error
     | Ok createResult =>
         tryCatch
           (migrateSteps repoName branch createResult)
           (migrationFailed repoName (Some createResult))
     end)
    bumpProcessed.

Definition showStatistics : M unit :=
  let* stats := StateManager.getStatistics env in
  do* nowMs env in
  if (0 <? StateManager.transferredCount stats)%nat
     && (0 <? StateManager.pending stats)%nat
  then do* nowMs env in ret tt
  else ret tt.

Definition showFailedRepos : M unit :=
  do* StateManager.getFailedRepos env in ret tt.

Definition cleanup : M unit :=
  tryCatch
    (do* GitOperations.cleanupAll env in
     do* StateManager.resetProcessingRepos env in
     ret tt)
    (fun _ => ret tt).

(** The [catch] block of the loop in [migrate]. *)
Definition afterFailure (repo : Repo) (error : JsError) : M unit :=
  let* rateLimitInfo := Utils.checkRateLimit env error in
  match rateLimitInfo with
  | Some rl =>
      do* (match Utils.waitTime rl with
           | Some t => if (0 <? t)%Z then delay (t + 5000) else ret tt
           | None => ret tt
           end) in
      tryCatch
        (migrateRepository repo)
        (fun _ =>
           StateManager.updateRepoStatus env (name repo)
             {| StateManager.p_transferred := None;
                StateManager.p_processing := Some false;
                StateManager.p_created_at := None;
                StateManager.p_pushed_at := None;
                StateManager.p_error := None;
                StateManager.p_retry_count := None |})
  | None => ret tt
  end.

(** One iteration of the loop over [pendingRepos], at index [i]. *)
Definition migrateOne (i : nat) (repo : Repo) : M unit :=
  tryCatch
    (do* migrateRepository repo in
     if ((i + 1) mod 5 =? 0)%nat then delay 3000 else ret tt)
    (afterFailure repo).

Fixpoint migrateFrom (i : nat) (pendingRepos : list Repo) : M unit :=
  match pendingRepos with
  | [] => ret tt
  | repo :: rest => do* migrateOne i repo in migrateFrom (S i) rest
  end.

Definition migrate : M unit :=
  tryFinally
    (tryCatch
       (do* GitOperations.checkDependencies env in
        do* StateManager.resetProcessingRepos env in
        do* StateManager.backup env in
        do* GitOperations.ensureTempDir env in
        let* pendingRepos := StateManager.getPendingRepos env in
        if (length pendingRepos =? 0)%nat then showStatistics
        else
          do* showStatistics in
          migrateFrom 0 pendingRepos)
       (fun error => throw error))
    (do* showStatistics in
     do* showFailedRepos in
     cleanup).

Definition retryFailed : M unit :=
  let* failedRepos := StateManager.getFailedRepos env in
  if (length failedRepos =? 0)%nat then ret tt
  else
    do* forEach failedRepos (fun repo => StateManager.clearError env (name repo)) in
    migrate.

End WithEnv.

End Migrator.

(* ================================================================== *)
(** * app/create-repos-list.js *)
(* ================================================================== *)

Module CreateReposList.

(** A repository as the Bitbucket API lists it: [slug] and
    [mainbranch?.name]. *)
Record Listed := {
  slug : string;
  mainbranch : option string
}.

(** Lines 22-24: [{ name: r.slug, branch: r.mainbranch?.name || 'master' }] *)
Definition nameAndBranch (r : Listed) : string * string :=
  (slug r,
   match mainbranch r with
   | Some b => if Js.truthy b then b else "master"
   | None => "master"
   end).

(** Lines 37-46: the records written to [repos.json]. *)
Definition reposWithStatus (repos : list (string * string)) : list Repo :=
  map (fun r => {| name := fst r; branch := snd r; transferred := false;
                   processing := false; created_at := None; pushed_at := None;
                   error := None; retry_count := 0 |})
      repos.

End CreateReposList.

(* ================================================================== *)
(** * lib/utils.js: the check of a repository name *)
(* ================================================================== *)

Module RepoName.

(** [[a-zA-Z0-9._-]] *)
Definition is_name_char (c : ascii) : bool :=
  let n := nat_of_ascii c in
  ((97 <=? n)%nat && (n <=? 122)%nat)
  || ((65 <=? n)%nat && (n <=? 90)%nat)
  || ((48 <=? n)%nat && (n <=? 57)%nat)
  || (n =? 46)%nat || (n =? 95)%nat || (n =? 45)%nat.

(** [/^[a-zA-Z0-9._-]+$/.test(name)] *)
Definition pattern_test (name : list ascii) : bool :=
  match name with
  | [] => false
  | _ => forallb is_name_char name
  end.

Definition isValidRepoName (name : string) : bool :=
  pattern_test (list_ascii_of_string name)
  && (0 <? String.length name)%nat
  && (String.length name <=? 100)%nat.

End RepoName.

(* ================================================================== *)
(** * Vocabulary of the properties *)
(* ================================================================== *)

(** The table of the store, empty when the file cannot be read. *)
Definition table (w : World) : list Repo :=
  match repos_json w with
  | Some t => t
  | None => []
  end.

(** The invariant of a record: a transferred repository is neither being
    processed nor in error. *)
Definition record_ok (r : Repo) : Prop :=
  transferred r = true -> processing r = false /\ error r = None.

Definition store_ok (w : World) : Prop := Forall record_ok (table w).

(** The record the store operations address under a name: the first one. *)
Definition lookupRepo (repoName : string) (w : World) : option Repo :=
  find (StateManager.hasName repoName) (table w).

Definition not_transferred (repoName : string) (w : World) : Prop :=
  forall r, lookupRepo repoName w = Some r -> transferred r = false.

(** The record [updateRepoStatus] writes in place of [r]. *)
Definition updated (r : Repo) (updates : StateManager.Patch) (now : string) : Repo :=
  match StateManager.p_transferred updates with
  | Some true => StateManager.finish (StateManager.assign r updates) now
  | _ => StateManager.assign r updates
  end.

(** The events a computation adds to the trace. *)
Definition events_since (w w' : World) : list Event :=
  skipn (length (trace w)) (trace w').

(** The commands of the child processes in a list of events, in order. *)
Definition commands (evs : list Event) : list string :=
  flat_map (fun e => match e with
                     | EvExec _ cmd _ => [cmd]
                     | _ => []
                     end) evs.

(** An environment in which every interaction succeeds and returns
    nothing of interest. *)
Definition quietEnv : Env :=
  {| exec := fun _ _ _ => ExecOk "";
     chdir_ok := fun _ _ => true;
     fs_access := fun _ _ => true;
     fs_stat := fun _ _ => Some 0%Z;
     fs_write := fun _ _ => true;
     fs_mkdir := fun _ _ => true;
     fs_rm := fun _ _ => true;
     fs_readdir := fun _ _ => Some [];
     read_settings := fun _ _ => settings_unusable;
     glob := fun _ _ _ => Some [];
     http := fun _ _ _ _ => HttpOk DataObject;
     now_iso := fun _ => "2025-01-01T00:00:00.000Z";
     now_ms := fun _ => 0%Z;
     GH_TOKEN := "token";
     GH_OWNER := "owner";
     BB_USER := "user";
     BB_APP_PASSWORD := "password";
     BB_WORKSPACE := "workspace";
     dirname := "/app" |}.

Definition noStats : Stats := {| processed := 0; succeeded := 0; failed := 0 |}.

(** A fresh process started in [/app] with the given store. *)
Definition startWorld (repos : option (list Repo)) : World :=
  {| cwd := "/app"; tick := 0; trace := []; repos_json := repos;
     settings := None; stats := noStats |}.

(** A record as [create-repos-list.js] writes it. *)
Definition newRepo (repoName : string) : Repo :=
  {| name := repoName; branch := "master"; transferred := false;
     processing := false; created_at := None; pushed_at := None;
     error := None; retry_count := 0 |}.

(** A record of a finished migration. *)
Definition doneRepo (repoName : string) : Repo :=
  {| name := repoName; branch := "master"; transferred := true;
     processing := false; created_at := Some "2025-01-01T00:00:00.000Z";
     pushed_at := Some "2025-01-01T00:00:00.000Z";
     error := None; retry_count := 0 |}.

(** The store of one finished repository. *)
Definition finishedStore : World := startWorld (Some [doneRepo "done"]).

(** The patch of [clearError] applied to a record. *)
Definition cleared (r : Repo) : Repo :=
  {| name := name r; branch := branch r; transferred := transferred r;
     processing := processing r; created_at := created_at r;
     pushed_at := pushed_at r; error := None; retry_count := 0 |}.

(** A store whose only repository has used up its retries. *)
Definition exhaustedStore : World :=
  startWorld (Some [ {| name := "stuck"; branch := "master"; transferred := false;
                        processing := false; created_at := None; pushed_at := None;
                        error := Some "Push failed"; retry_count := 3 |} ]).

(** The directory [home] can be entered at any time. *)
Definition reachable (env : Env) (home : string) : Prop :=
  forall t, chdir_ok env t home = true.

(** An environment without a working [git]: every child process fails. *)
Definition noGitEnv : Env :=
  {| exec := fun _ _ _ => ExecFail "spawnSync /bin/sh ENOENT";
     chdir_ok := chdir_ok quietEnv; fs_access := fs_access quietEnv;
     fs_stat := fs_stat quietEnv; fs_write := fs_write quietEnv;
     fs_mkdir := fs_mkdir quietEnv; fs_rm := fs_rm quietEnv;
     fs_readdir := fs_readdir quietEnv; read_settings := read_settings quietEnv;
     glob := glob quietEnv; http := http quietEnv; now_iso := now_iso quietEnv;
     now_ms := now_ms quietEnv; GH_TOKEN := GH_TOKEN quietEnv;
     GH_OWNER := GH_OWNER quietEnv; BB_USER := BB_USER quietEnv;
     BB_APP_PASSWORD := BB_APP_PASSWORD quietEnv;
     BB_WORKSPACE := BB_WORKSPACE quietEnv; dirname := dirname quietEnv |}.

(** The LFS result of a repository without large files. *)
Definition plainInfo : GitOperations.LfsInfo :=
  {| GitOperations.info := LFSManager.noLFS LFSManager.auto_detect;
     GitOperations.source := GitOperations.src_auto_detected |}.

(** The default threshold, in bytes. *)
Definition thresholdBytes : Js.double := Js.Finite (52428800 # 1)%Q.

(** A line feed, as a string. *)
Definition nl : string := string_of_list_ascii LF.

(** The lines of the output of a command that are not blank. *)
Definition nonBlankLines (out : string) : list string :=
  List.filter (fun line => Js.truthy (Js.s_trim line)) (Js.s_split nl (Js.s_trim out)).

(** The command that lists the objects of a revision with their sizes. *)
Definition listRevision (commit : string) : string := "git ls-tree -r -l " +:+ commit.







(** The listings among a list of events that could be read. *)
Definition listed (evs : list Event) (out : string) : Prop :=
  exists dir commit, In (EvExec dir (listRevision commit) (ExecOk out)) evs.

(** A repository with two revisions: the listing of the newer one cannot
    be read, the older one holds a file of 120 MB that is gone from the
    working tree. *)
Definition ghostEnv : Env :=
  {| exec := fun _ _ cmd =>
       if String.eqb cmd "git rev-list --all" then ExecOk ("c2" +:+ nl +:+ "c1" +:+ nl)
       else if String.eqb cmd "git ls-tree -r -l c2" then ExecFail "fatal: bad object c2"
       else if String.eqb cmd "git ls-tree -r -l c1" then
         ExecOk ("100644 blob 8f2e 125829120 old-asset.bin" +:+ nl
                 +:+ "100644 blob 41ab      12 README.md" +:+ nl)
       else ExecOk "";
     chdir_ok := chdir_ok quietEnv; fs_access := fs_access quietEnv;
     fs_stat := fs_stat quietEnv; fs_write := fs_write quietEnv;
     fs_mkdir := fs_mkdir quietEnv; fs_rm := fs_rm quietEnv;
     fs_readdir := fs_readdir quietEnv; read_settings := read_settings quietEnv;
     glob := glob quietEnv; http := http quietEnv; now_iso := now_iso quietEnv;
     now_ms := now_ms quietEnv; GH_TOKEN := GH_TOKEN quietEnv;
     GH_OWNER := GH_OWNER quietEnv; BB_USER := BB_USER quietEnv;
     BB_APP_PASSWORD := BB_APP_PASSWORD quietEnv;
     BB_WORKSPACE := BB_WORKSPACE quietEnv; dirname := dirname quietEnv |}.



(** The settings [{ repositories: { "with-config": { files: ["big.bin"] } } }]. *)
Definition bigBinSettings : Settings :=
  {| repositories :=
       repositories_object
         {[ "with-config" := Some {| cfg_files := Some ["big.bin"];
                                     cfg_patterns := None;
                                     cfg_autoDetect := false |} ]} |}.

(** A process in [/app] that has loaded the given settings. *)
Definition configuredWorld (s : Settings) : World :=
  {| cwd := "/app"; tick := 0; trace := []; repos_json := None;
     settings := Some s; stats := noStats |}.

(** A history rewrite is a [git lfs migrate import] command. *)
Definition is_migration (cmd : string) : bool :=
  String.prefix "git lfs migrate import" cmd.

(** The history rewrites among a list of events, in order. *)
Definition migrations (evs : list Event) : list string :=
  List.filter is_migration (commands evs).



(** The two strategies, as the commands they run.  Strategy A rewrites
    the whole history for every object above the default threshold,
    whatever its path; strategy B rewrites it for the paths it is given,
    which it names one after the other, separated by commas. *)
Definition strategyA : string :=
  "git lfs migrate import --above=50MB --everything --yes".

Definition strategyB (paths : list string) : string :=
  "git lfs migrate import --include=" +:+ dq +:+ String.concat "," paths +:+ dq
  +:+ " --everything --yes".

(** A detection result with a current and a history file. *)
Definition mixedResult : LFSManager.ScanResult :=
  {| LFSManager.files := ["big.bin"];
     LFSManager.historyFiles := ["old-asset.bin"];
     LFSManager.allFiles := ["big.bin"; "old-asset.bin"];
     LFSManager.mode := LFSManager.auto_detect;
     LFSManager.hasConfig := false |}.

(** A detection result with a current file only. *)
Definition currentOnlyResult : LFSManager.ScanResult :=
  {| LFSManager.files := ["big.bin"];
     LFSManager.historyFiles := [];
     LFSManager.allFiles := ["big.bin"];
     LFSManager.mode := LFSManager.configured;
     LFSManager.hasConfig := true |}.

(** [m] leaves the store as it is. *)
Definition frame {A} (m : M A) : Prop :=
  forall w, repos_json (after m w) = repos_json w.



(** The store file can always be written. *)
Definition writable (env : Env) : Prop :=
  forall t p, fs_write env t p = true.

(** [m] throws only errors without a [response]. *)
Definition plain {A} (m : M A) : Prop :=
  forall w e w', m w = (Throw e, w') -> response e = None.

(** The pauses in a list of events, in milliseconds. *)
Definition delays (evs : list Event) : list Z :=
  flat_map (fun e => match e with
                     | EvDelay ms => [ms]
                     | _ => []
                     end) evs.

(** The requests to the GitHub API in a list of events. *)
Definition requests (evs : list Event) : list (Method * string) :=
  flat_map (fun e => match e with
                     | EvHttp m url _ _ => [(m, url)]
                     | _ => []
                     end) evs.

(** The answer of the API to a client that has used up its quota. *)
Definition quotaExceeded : JsError :=
  {| message := "Request failed with status code 403";
     response := Some {| status := 403;
                         headers := [("x-ratelimit-limit", "5000");
                                     ("x-ratelimit-remaining", "0");
                                     ("x-ratelimit-reset", "4102444800")];
                         data_message := Some "API rate limit exceeded";
                         data_errors := [] |} |}.

(** An environment in which every request meets the exhausted quota. *)
Definition rateLimitedEnv : Env :=
  {| exec := exec quietEnv;
     chdir_ok := chdir_ok quietEnv; fs_access := fs_access quietEnv;
     fs_stat := fs_stat quietEnv; fs_write := fs_write quietEnv;
     fs_mkdir := fs_mkdir quietEnv; fs_rm := fs_rm quietEnv;
     fs_readdir := fs_readdir quietEnv; read_settings := read_settings quietEnv;
     glob := glob quietEnv; http := fun _ _ _ _ => HttpErr quotaExceeded;
     now_iso := now_iso quietEnv;
     now_ms := fun _ => 1700000000000%Z; GH_TOKEN := GH_TOKEN quietEnv;
     GH_OWNER := GH_OWNER quietEnv; BB_USER := BB_USER quietEnv;
     BB_APP_PASSWORD := BB_APP_PASSWORD quietEnv;
     BB_WORKSPACE := BB_WORKSPACE quietEnv; dirname := dirname quietEnv |}.

(** An environment in which the destination [legacy] exists on GitHub and
    holds three entries. *)
Definition occupiedEnv : Env :=
  {| exec := exec quietEnv;
     chdir_ok := chdir_ok quietEnv; fs_access := fs_access quietEnv;
     fs_stat := fs_stat quietEnv; fs_write := fs_write quietEnv;
     fs_mkdir := fs_mkdir quietEnv; fs_rm := fs_rm quietEnv;
     fs_readdir := fs_readdir quietEnv; read_settings := read_settings quietEnv;
     glob := glob quietEnv;
     http := fun _ m url _ =>
       match m with
       | GET => if String.eqb url "/repos/owner/legacy/contents"
                then HttpOk (DataArray 3) else HttpOk DataObject
       | _ => HttpOk DataObject
       end;
     now_iso := now_iso quietEnv;
     now_ms := now_ms quietEnv; GH_TOKEN := GH_TOKEN quietEnv;
     GH_OWNER := GH_OWNER quietEnv; BB_USER := BB_USER quietEnv;
     BB_APP_PASSWORD := BB_APP_PASSWORD quietEnv;
     BB_WORKSPACE := BB_WORKSPACE quietEnv; dirname := dirname quietEnv |}.
(** [m] leaves the store as it is when it throws. *)
Definition frame_if_throws {A} (m : M A) : Prop :=
  forall w e w', m w = (Throw e, w') -> repos_json w' = repos_json w.
(** The store of the run that meets the quota: one pending repository. *)
Definition quotaStore : World := startWorld (Some [newRepo "r7"]).

(** The store of the run whose destination is occupied. *)
Definition legacyStore : World := startWorld (Some [newRepo "legacy"]).

(** An environment in which the destination [legacy] exists on GitHub and
    is empty, and in which [git] is missing. *)
Definition emptyDestinationEnv : Env :=
  {| exec := exec noGitEnv;
     chdir_ok := chdir_ok quietEnv; fs_access := fs_access quietEnv;
     fs_stat := fs_stat quietEnv; fs_write := fs_write quietEnv;
     fs_mkdir := fs_mkdir quietEnv; fs_rm := fs_rm quietEnv;
     fs_readdir := fs_readdir quietEnv; read_settings := read_settings quietEnv;
     glob := glob quietEnv;
     http := fun _ m url _ =>
       match m with
       | GET => if String.eqb url "/repos/owner/legacy/contents"
                then HttpOk (DataArray 0) else HttpOk DataObject
       | _ => HttpOk DataObject
       end;
     now_iso := now_iso quietEnv;
     now_ms := now_ms quietEnv; GH_TOKEN := GH_TOKEN quietEnv;
     GH_OWNER := GH_OWNER quietEnv; BB_USER := BB_USER quietEnv;
     BB_APP_PASSWORD := BB_APP_PASSWORD quietEnv;
     BB_WORKSPACE := BB_WORKSPACE quietEnv; dirname := dirname quietEnv |}.




(** The error of the store for a name it does not hold. *)
Definition notFound (repoName : string) : JsError :=
  newError ("找不到 repository: " +:+ repoName).

(** A store left behind by an interrupted run: one record still marked as
    being processed, one untouched. *)
Definition interruptedStore : World :=
  startWorld (Some [ {| name := "stale"; branch := "main"; transferred := false;
                        processing := true; created_at := None; pushed_at := None;
                        error := None; retry_count := 1 |};
                     newRepo "other" ]).
(** What a migration run may do to a record of the store: the repository
    and its branch stay, a finished migration stays finished, and the
    count of failed attempts does not go down. *)
Definition record_step (r r' : Repo) : Prop :=
  name r' = name r /\ branch r' = branch r
  /\ (transferred r = true -> transferred r' = true)
  /\ (retry_count r <= retry_count r')%Z.

(** What a run started with [--retry] may do to a record: the same, but
    the count of failed attempts may be reset. *)
Definition record_kept (r r' : Repo) : Prop :=
  name r' = name r /\ branch r' = branch r
  /\ (transferred r = true -> transferred r' = true).

(** The store before and after: unreadable both times, or two tables of
    the same length whose records are related one by one, in order. *)
Definition store_rel (step : Repo -> Repo -> Prop) (w w' : World) : Prop :=
  match repos_json w, repos_json w' with
  | Some t, Some t' => Forall2 step t t'
  | None, None => True
  | _, _ => False
  end.

(** Whatever [m] does to the store is made of such steps. *)
Definition respects (step : Repo -> Repo -> Prop) {A} (m : M A) : Prop :=
  forall w, store_rel step w (after m w).

(** The patches of the store operations. *)
Definition processingPatch : StateManager.Patch :=
  {| StateManager.p_transferred := None; StateManager.p_processing := Some true;
     StateManager.p_created_at := None; StateManager.p_pushed_at := None;
     StateManager.p_error := Some None; StateManager.p_retry_count := None |}.

Definition completedPatch (createdAt now : string) : StateManager.Patch :=
  {| StateManager.p_transferred := Some true; StateManager.p_processing := Some false;
     StateManager.p_created_at := Some (Some createdAt);
     StateManager.p_pushed_at := Some (Some now); StateManager.p_error := Some None;
     StateManager.p_retry_count := None |}.

Definition errorPatch (errorMessage : string) (retryCount : Z) : StateManager.Patch :=
  {| StateManager.p_transferred := None; StateManager.p_processing := Some false;
     StateManager.p_created_at := None; StateManager.p_pushed_at := None;
     StateManager.p_error := Some (Some errorMessage);
     StateManager.p_retry_count := Some retryCount |}.

Definition clearPatch : StateManager.Patch :=
  {| StateManager.p_transferred := None; StateManager.p_processing := None;
     StateManager.p_created_at := None; StateManager.p_pushed_at := None;
     StateManager.p_error := Some None; StateManager.p_retry_count := Some 0%Z |}.

Definition notProcessingPatch : StateManager.Patch :=
  {| StateManager.p_transferred := None; StateManager.p_processing := Some false;
     StateManager.p_created_at := None; StateManager.p_pushed_at := None;
     StateManager.p_error := None; StateManager.p_retry_count := None |}.

(** [m] leaves the counters of the run as they are. *)
Definition idle {A} (m : M A) : Prop :=
  forall w, stats (after m w) = stats w.

(** The counters after one more attempt, which succeeded or failed. *)
Definition oneSucceeded (s : Stats) : Stats :=
  {| processed := processed s + 1; succeeded := succeeded s + 1; failed := failed s |}.

Definition oneFailed (s : Stats) : Stats :=
  {| processed := processed s + 1; succeeded := succeeded s; failed := failed s + 1 |}.

(** [m] counts a success when it returns and nothing when it throws. *)
Definition counts_success {A} (m : M A) : Prop :=
  forall w,
    stats (after m w)
    = match outcome m w with
      | Ok _ => {| processed := processed (stats w);
                   succeeded := succeeded (stats w) + 1;
                   failed := failed (stats w) |}
      | Throw _ => stats w
      end.
(** The answer of the API for a repository that does not exist. *)
Definition notFoundResponse : JsError :=
  {| message := "Request failed with status code 404";
     response := Some {| status := 404; headers := [];
                         data_message := Some "Not Found";
                         data_errors := [] |} |}.

(** An environment in which no destination exists yet on GitHub and every
    other interaction succeeds. *)
Definition freshEnv : Env :=
  {| exec := exec quietEnv;
     chdir_ok := chdir_ok quietEnv; fs_access := fs_access quietEnv;
     fs_stat := fs_stat quietEnv; fs_write := fs_write quietEnv;
     fs_mkdir := fs_mkdir quietEnv; fs_rm := fs_rm quietEnv;
     fs_readdir := fs_readdir quietEnv; read_settings := read_settings quietEnv;
     glob := glob quietEnv;
     http := fun _ m _ _ =>
       match m with
       | GET => HttpErr notFoundResponse
       | _ => HttpOk DataObject
       end;
     now_iso := now_iso quietEnv;
     now_ms := now_ms quietEnv; GH_TOKEN := GH_TOKEN quietEnv;
     GH_OWNER := GH_OWNER quietEnv; BB_USER := BB_USER quietEnv;
     BB_APP_PASSWORD := BB_APP_PASSWORD quietEnv;
     BB_WORKSPACE := BB_WORKSPACE quietEnv; dirname := dirname quietEnv |}.

(** A repository was created on GitHub: a POST of the API succeeded. *)
Definition created (evs : list Event) : Prop :=
  exists url body d, In (EvHttp POST url body (HttpOk d)) evs.
(** [m] makes no pause of its own. *)
Definition pauseless {A} (m : M A) : Prop :=
  forall w, exists evs, trace (after m w) = trace w ++ evs /\ delays evs = [].
(** The commands of [pushToGitHub], in the order it runs them. *)
Definition pushCommands (env : Env) (repoName branch : string) (withLFS : bool)
  : list string :=
  ["git remote add github https://" +:+ GH_TOKEN env +:+ "@github.com/"
     +:+ GH_OWNER env +:+ "/" +:+ repoName +:+ ".git";
   "git push github " +:+ branch]
  ++ (if withLFS then ["git lfs push github --all"] else []).

(** The directory in which a child process ran. *)
Definition ran_in (dir : string) (e : Event) : Prop :=
  match e with
  | EvExec d _ _ => d = dir
  | _ => True
  end.

(** An event that writes a file of the working copy. *)
Definition is_write (e : Event) : bool :=
  match e with
  | EvWriteFile _ _ _ => true
  | _ => false
  end.

(** A clone that already uses LFS: [git lfs ls-files] lists one file. *)
Definition lfsCloneEnv : Env :=
  {| exec := fun _ _ cmd =>
       if String.eqb cmd "git lfs ls-files"
       then ExecOk ("4d7a214614 * assets/logo.psd" +:+ nl)
       else ExecOk "";
     chdir_ok := chdir_ok quietEnv; fs_access := fs_access quietEnv;
     fs_stat := fs_stat quietEnv; fs_write := fs_write quietEnv;
     fs_mkdir := fs_mkdir quietEnv; fs_rm := fs_rm quietEnv;
     fs_readdir := fs_readdir quietEnv; read_settings := read_settings quietEnv;
     glob := glob quietEnv; http := http quietEnv; now_iso := now_iso quietEnv;
     now_ms := now_ms quietEnv; GH_TOKEN := GH_TOKEN quietEnv;
     GH_OWNER := GH_OWNER quietEnv; BB_USER := BB_USER quietEnv;
     BB_APP_PASSWORD := BB_APP_PASSWORD quietEnv;
     BB_WORKSPACE := BB_WORKSPACE quietEnv; dirname := dirname quietEnv |}.

(** A record that the store has given up: not transferred, not being
    processed, and out of retries. *)
Definition isExhausted (repo : Repo) : bool :=
  negb (transferred repo) && negb (processing repo) && (3 <=? retry_count repo)%Z.

(** The name [backup] gives to the copy it writes at tick [t]. *)
Definition backupPathAt (env : Env) (t : nat) : string :=
  path_join (path_join (dirname env) (StateManager.dataDir))
            ("repos-backup-" +:+ StateManager.timestampForFile (now_iso env t) +:+ ".json").

(** [m] adds to the trace no event that [sel] selects. *)
Definition silent (sel : Event -> bool) {A} (m : M A) : Prop :=
  forall w, exists evs,
    trace (after m w) = trace w ++ evs /\ List.filter sel evs = [].

(** A request to the GitHub API. *)
Definition is_request (e : Event) : bool :=
  match e with
  | EvHttp _ _ _ _ => true
  | _ => false
  end.

(** A child process. *)
Definition is_command (e : Event) : bool :=
  match e with
  | EvExec _ _ _ => true
  | _ => false
  end.

(** A store in which nothing is left to do: one repository is migrated,
    the other is out of retries. *)
Definition settledStore : World :=
  startWorld (Some [ doneRepo "done";
                     {| name := "stuck"; branch := "master"; transferred := false;
                        processing := false; created_at := None; pushed_at := None;
                        error := Some "Push failed"; retry_count := 3 |} ]).

(** A request or a child process. *)
Definition is_outside (e : Event) : bool := is_request e || is_command e.

(** From [w] to [w'] the counters have stayed and nothing that [sel]
    selects has happened. *)
Definition calm (sel : Event -> bool) (w w' : World) : Prop :=
  stats w' = stats w
  /\ exists evs, trace w' = trace w ++ evs /\ List.filter sel evs = [].

(** The error of [checkDependencies]. *)
Definition missingDependency : JsError :=
  newError "缺少必要的依賴: 請確保已安裝 Git 和 Git LFS".

(** The two commands of [checkDependencies]. *)
Definition dependencyChecks : list string := ["git --version"; "git lfs version"].

(** The three lines that open a generated [.gitattributes]. *)
Definition attributesHeader : list string :=
  ["# Git LFS configuration";
   "# Generated by bitbucket-to-github migration tool";
   ""].

(** The tracking rule of one file. *)
Definition trackingRule (file : string) : string :=
  file +:+ " filter=lfs diff=lfs merge=lfs -text".

(** A field of a line of a listing: at least one character, none of which
    is white space. *)
Definition is_field (f : list ascii) : Prop :=
  f <> [] /\ Forall (fun c => Js.is_space c = false) f.

(** A gap between two fields: at least one character of white space. *)
Definition is_gap (g : list ascii) : Prop :=
  g <> [] /\ Forall (fun c => Js.is_space c = true) g.

(** A line made of a first field and of further fields, each after its
    gap. *)
Fixpoint laid_out (first : list ascii) (rest : list (list ascii * list ascii))
  : list ascii :=
  match rest with
  | [] => first
  | (gap, field) :: rest' => first ++ gap ++ laid_out field rest'
  end.




(** The patterns of the searches of the working tree among a list of
    events. *)
Definition globs (evs : list Event) : list string :=
  flat_map (fun e => match e with
                     | EvGlob pattern _ _ => [pattern]
                     | _ => []
                     end) evs.

(** [threshold || this.getDefaultThreshold()] *)
Definition effectiveThreshold (threshold : option string) : string :=
  match threshold with
  | Some t => if Js.truthy t then t else LFSManager.getDefaultThreshold
  | None => LFSManager.getDefaultThreshold
  end.

(** The settings that [loadSettings] installs at tick [t]: what the
    settings file holds, or the settings without any repository when the
    file cannot be used. *)
Definition settingsAt (env : Env) (t : nat) : option Settings :=
  match read_settings env t (LFSManager.settingsPath env) with
  | settings_document s => Some s
  | settings_falsy => None
  | settings_unusable => Some LFSManager.noSettings
  end.

(** What [--retry] does to a record before the run: the error and the
    count of a failed record are cleared. *)
Definition retried (r : Repo) : Repo :=
  if StateManager.isFailed r then cleared r else r.

(** [clearError] on the records of a name. *)
Definition clearedIf (repoName : string) (r : Repo) : Repo :=
  if String.eqb (name r) repoName then cleared r else r.

(** A store of two failed repositories, one of them out of retries. *)
Definition failedStore : World :=
  startWorld (Some [ {| name := "flaky"; branch := "main"; transferred := false;
                        processing := false; created_at := None; pushed_at := None;
                        error := Some "Clone failed"; retry_count := 1 |};
                     doneRepo "done";
                     {| name := "stuck"; branch := "master"; transferred := false;
                        processing := false; created_at := None; pushed_at := None;
                        error := Some "Push failed"; retry_count := 3 |} ]).

(** The selector of no event: a computation silent for it only adds to the
    trace. *)
Definition no_event (e : Event) : bool := false.

(** A clone in which a large file is found in the working tree and in which
    [git lfs ls-files] lists it once it is tracked. *)
Definition largeFileEnv : Env :=
  {| exec := fun _ _ cmd =>
       if String.eqb cmd "git lfs ls-files"
       then ExecOk ("4d7a214614 - big.bin" +:+ nl)
       else ExecOk "";
     chdir_ok := chdir_ok quietEnv; fs_access := fs_access quietEnv;
     fs_stat := fun _ _ => Some 104857600%Z; fs_write := fs_write quietEnv;
     fs_mkdir := fs_mkdir quietEnv; fs_rm := fs_rm quietEnv;
     fs_readdir := fs_readdir quietEnv; read_settings := read_settings quietEnv;
     glob := fun _ _ _ => Some ["big.bin"]; http := http quietEnv;
     now_iso := now_iso quietEnv;
     now_ms := now_ms quietEnv; GH_TOKEN := GH_TOKEN quietEnv;
     GH_OWNER := GH_OWNER quietEnv; BB_USER := BB_USER quietEnv;
     BB_APP_PASSWORD := BB_APP_PASSWORD quietEnv;
     BB_WORKSPACE := BB_WORKSPACE quietEnv; dirname := dirname quietEnv |}.

(** An environment whose settings file holds the document [{}]: it can
    be read, and it has no [repositories]. *)
Definition emptySettingsEnv : Env :=
  {| exec := exec quietEnv;
     chdir_ok := chdir_ok quietEnv; fs_access := fs_access quietEnv;
     fs_stat := fs_stat quietEnv; fs_write := fs_write quietEnv;
     fs_mkdir := fs_mkdir quietEnv; fs_rm := fs_rm quietEnv;
     fs_readdir := fs_readdir quietEnv;
     read_settings := fun _ _ =>
       settings_document {| repositories := repositories_undefined |};
     glob := glob quietEnv; http := http quietEnv; now_iso := now_iso quietEnv;
     now_ms := now_ms quietEnv; GH_TOKEN := GH_TOKEN quietEnv;
     GH_OWNER := GH_OWNER quietEnv; BB_USER := BB_USER quietEnv;
     BB_APP_PASSWORD := BB_APP_PASSWORD quietEnv;
     BB_WORKSPACE := BB_WORKSPACE quietEnv; dirname := dirname quietEnv |}.

(** The answer of [git lfs ls-files] on which a result with LFS files
    rests. *)
Definition reported_from (r : LFSManager.SetupResult) (out : string) : Prop :=
  LFSManager.lfsLines out <> []
  /\ LFSManager.filesCount r = length (LFSManager.lfsLines out)
  /\ LFSManager.lfsFileNames r = map LFSManager.lfsFileName (LFSManager.lfsLines out).

(** The paths that were removed, and those that could not be, among a
    list of events. *)
Definition removed (evs : list Event) : list string :=
  flat_map (fun e => match e with
                     | EvRm p true => [p]
                     | _ => []
                     end) evs.

Definition refused (evs : list Event) : list string :=
  flat_map (fun e => match e with
                     | EvRm p false => [p]
                     | _ => []
                     end) evs.

(** A temp directory with three entries, the second of which cannot be
    removed. *)
Definition lockedEntryEnv : Env :=
  {| exec := exec quietEnv;
     chdir_ok := chdir_ok quietEnv; fs_access := fs_access quietEnv;
     fs_stat := fs_stat quietEnv; fs_write := fs_write quietEnv;
     fs_mkdir := fs_mkdir quietEnv;
     fs_rm := fun _ p => negb (String.eqb p "/app/../temp/b");
     fs_readdir := fun _ _ => Some ["a"; "b"; "c"];
     read_settings := read_settings quietEnv;
     glob := glob quietEnv; http := http quietEnv; now_iso := now_iso quietEnv;
     now_ms := now_ms quietEnv; GH_TOKEN := GH_TOKEN quietEnv;
     GH_OWNER := GH_OWNER quietEnv; BB_USER := BB_USER quietEnv;
     BB_APP_PASSWORD := BB_APP_PASSWORD quietEnv;
     BB_WORKSPACE := BB_WORKSPACE quietEnv; dirname := dirname quietEnv |}.

(* ================================================================== *)
(** * Size strings *)
(* ================================================================== *)

(** The strings [parseSize] is meant for, piece by piece: integer digits,
    fraction digits (none: no fraction), white space, unit. *)
Definition fraction_text (fr : list ascii) : list ascii :=
  match fr with
  | [] => []
  | _ => "."%char :: fr
  end.

Definition size_text (ds fr ws u : list ascii) : string :=
  string_of_list_ascii (ds ++ fraction_text fr ++ ws ++ u).

Definition all_of (p : ascii -> bool) (l : list ascii) : Prop :=
  Forall (fun c => p c = true) l.

(** The units of a size and the number of bytes of each. *)
Definition unitTable : list (string * Z) :=
  [("B", 1); ("KB", 1024); ("MB", 1048576); ("GB", 1073741824)]%Z.

(** [u] names a unit, in any letter case, and [mult] is its multiplier. *)
Definition unit_of (u : list ascii) (mult : Z) : Prop :=
  In (string_of_list_ascii (Js.toUpperCase u), mult) unitTable.

Definition SizeParts (ds fr ws u : list ascii) (mult : Z) : Prop :=
  ds <> [] /\ all_of Js.is_digit ds /\ all_of Js.is_digit fr /\
  all_of Js.is_space ws /\ unit_of u mult.

Definition malformed (sizeStr : string) : JsError :=
  newError ("無效的檔案大小格式: " +:+ sizeStr).

(** The number of bytes such a string denotes, in the arithmetic of
    doubles: the double nearest to the number, times the multiplier. *)
Definition size_value (ds fr : list ascii) (mult : Z) : Js.double :=
  Js.times (Js.round_double (Js.decimal_value ds fr)) mult.

(** A size of [size] bytes is strictly greater than the number [t];
    nothing is greater than [Infinity]. *)
Definition exceeds (size : Z) (t : Js.double) : Prop :=
  match t with
  | Js.Finite q => (q < inject_Z size)%Q
  | Js.Infinity => False
  end.

(** A double made [k] times larger, for a power of two [k]: the exact
    product, or [Infinity] once [2^1024] is reached. *)
Definition larger (k : Z) (x : Js.double) : Js.double :=
  match x with
  | Js.Finite v =>
      if Qle_bool (2 ^ 1024) (inject_Z k * v) then Js.Infinity
      else Js.Finite (Qred (inject_Z k * v))
  | Js.Infinity => Js.Infinity
  end.

(** The values of the doubles that are not negative. *)
Definition representable (r : Q) : Prop :=
  exists n u, (0 <= n < 2 ^ 53)%Z /\ (-1074 <= u)%Z /\ (r == inject_Z n * 2 ^ u)%Q.

(** A string starts with a character that [p] rejects, or is empty. *)
Definition stops (p : ascii -> bool) (s : list ascii) : Prop :=
  match s with
  | [] => True
  | c :: _ => p c = false
  end.

Section Doubles.
Local Open Scope Q_scope.

Lemma pow2_pos e : 0 < 2 ^ e.
Proof. apply Qpower_0_lt. reflexivity. Qed.

Lemma pow2_nonzero e : ~ 2 ^ e == 0.
Proof. apply Qnot_eq_sym, Qlt_not_eq, pow2_pos. Qed.

Lemma pow2_add a b : 2 ^ (a + b) == 2 ^ a * 2 ^ b.
Proof. apply Qpower_plus. discriminate. Qed.

Lemma pow2_Z k : (0 <= k)%Z -> inject_Z (2 ^ k) == 2 ^ k.
Proof. intros H. now rewrite Zpower_Qpower. Qed.

Lemma pow2_lt a b : (a < b)%Z -> 2 ^ a < 2 ^ b.
Proof. intros H. apply Qpower_lt_compat_l; [assumption | reflexivity]. Qed.

Lemma pow2_le a b : (a <= b)%Z -> 2 ^ a <= 2 ^ b.
Proof. intros H. apply Qpower_le_compat_l; [assumption | discriminate]. Qed.

Lemma pow2_lt_inv a b : 2 ^ a < 2 ^ b -> (a < b)%Z.
Proof. intros H. eapply Qpower_lt_compat_l_inv; [eassumption | reflexivity]. Qed.

Lemma Qle_bool_false x y : Qle_bool x y = false -> y < x.
Proof.
  intros E. apply Qnot_le_lt. intros H. apply Qle_bool_iff in H. congruence.
Qed.

Lemma Qle_bool_comp x x' y y' : x == x' -> y == y' -> Qle_bool x y = Qle_bool x' y'.
Proof.
  intros Hx Hy. destruct (Qle_bool x' y') eqn:E.
  - apply Qle_bool_iff. apply Qle_bool_iff in E. now rewrite Hx, Hy.
  - destruct (Qle_bool x y) eqn:E'; [|reflexivity].
    apply Qle_bool_iff in E'. rewrite Hx, Hy in E'. apply Qle_bool_iff in E'. congruence.
Qed.

(** [ilog2] is the binary exponent. *)
Lemma ilog2_spec q : 0 < q -> 2 ^ Js.ilog2 q <= q /\ q < 2 ^ (Js.ilog2 q + 1).
Proof.
  intros Hq. destruct q as [n d]. unfold Js.ilog2. cbn [Qnum Qden].
  assert (Hn : (0 < n)%Z) by (unfold Qlt in Hq; simpl in Hq; lia).
  set (a := Z.log2 n). set (b := Z.log2 (Z.pos d)).
  destruct (Z.log2_spec n Hn) as [Ha1 Ha2]. fold a in Ha1, Ha2.
  destruct (Z.log2_spec (Z.pos d) ltac:(lia)) as [Hb1 Hb2]. fold b in Hb1, Hb2.
  assert (Ha0 : (0 <= a)%Z) by apply Z.log2_nonneg.
  assert (Hb0 : (0 <= b)%Z) by apply Z.log2_nonneg.
  assert (Hqd : (n # d) * inject_Z (Z.pos d) == inject_Z n).
  { unfold Qeq, Qmult, inject_Z. simpl. lia. }
  assert (HA1 : 2 ^ a <= inject_Z n).
  { rewrite <- pow2_Z by assumption. rewrite <- Zle_Qle. exact Ha1. }
  assert (HA2 : inject_Z n < 2 ^ (a + 1)).
  { rewrite <- pow2_Z by lia. rewrite <- Zlt_Qlt. exact Ha2. }
  assert (HB1 : 2 ^ b <= inject_Z (Z.pos d)).
  { rewrite <- pow2_Z by assumption. rewrite <- Zle_Qle. exact Hb1. }
  assert (HB2 : inject_Z (Z.pos d) < 2 ^ (b + 1)).
  { rewrite <- pow2_Z by lia. rewrite <- Zlt_Qlt. exact Hb2. }
  assert (Hup : (n # d) < 2 ^ (a - b + 1)).
  { apply (Qmult_lt_r _ _ (2 ^ b) (pow2_pos b)).
    rewrite <- pow2_add. replace (a - b + 1 + b)%Z with (a + 1)%Z by lia.
    eapply Qle_lt_trans; [|exact HA2]. rewrite <- Hqd.
    apply Qmult_le_l; [exact Hq | exact HB1]. }
  assert (Hlow : 2 ^ (a - b - 1) <= (n # d)).
  { apply (Qmult_le_r _ _ (2 ^ (b + 1)) (pow2_pos (b + 1))).
    rewrite <- pow2_add. replace (a - b - 1 + (b + 1))%Z with a by lia.
    eapply Qle_trans; [exact HA1|]. rewrite <- Hqd.
    apply Qmult_le_l; [exact Hq | apply Qlt_le_weak; exact HB2]. }
  destruct (Qle_bool (2 ^ (a - b)) (n # d)) eqn:E.
  - apply Qle_bool_iff in E. split; assumption.
  - split; [exact Hlow|]. replace (a - b - 1 + 1)%Z with (a - b)%Z by lia.
    now apply Qle_bool_false.
Qed.

Lemma ilog2_unique q e : 2 ^ e <= q -> q < 2 ^ (e + 1) -> Js.ilog2 q = e.
Proof.
  intros H1 H2.
  assert (Hq : 0 < q) by (eapply Qlt_le_trans; [apply (pow2_pos e) | exact H1]).
  destruct (ilog2_spec q Hq) as [H3 H4].
  assert (Ha : 2 ^ e < 2 ^ (Js.ilog2 q + 1)) by (eapply Qle_lt_trans; eassumption).
  assert (Hb : 2 ^ Js.ilog2 q < 2 ^ (e + 1)) by (eapply Qle_lt_trans; eassumption).
  apply pow2_lt_inv in Ha, Hb. lia.
Qed.

Lemma ilog2_comp q q' : 0 < q -> q == q' -> Js.ilog2 q = Js.ilog2 q'.
Proof.
  intros Hq Heq. symmetry. destruct (ilog2_spec q Hq) as [H1 H2].
  apply ilog2_unique; now rewrite <- Heq.
Qed.

Lemma round_half_even_comp x y : x == y -> Js.round_half_even x = Js.round_half_even y.
Proof.
  intros H. unfold Js.round_half_even. rewrite (Qfloor_comp x y H).
  assert (Hc : (x - inject_Z (Qfloor y) ?= 1 # 2) = (y - inject_Z (Qfloor y) ?= 1 # 2)).
  { apply Qcompare_comp; [|reflexivity]. now rewrite H. }
  now rewrite Hc.
Qed.

Lemma round_half_even_Z z : Js.round_half_even (inject_Z z) = z.
Proof.
  unfold Js.round_half_even. rewrite Qfloor_Z.
  assert (H : (inject_Z z - inject_Z z ?= 1 # 2) = Lt).
  { apply Qlt_alt. setoid_replace (inject_Z z - inject_Z z) with 0 using relation Qeq by ring. reflexivity. }
  now rewrite H.
Qed.

Lemma round_half_even_bounds x :
  (Qfloor x <= Js.round_half_even x <= Qfloor x + 1)%Z.
Proof.
  unfold Js.round_half_even.
  destruct (x - inject_Z (Qfloor x) ?= 1 # 2); [destruct (Z.even (Qfloor x))| |]; lia.
Qed.

(** The nearest integer is at most one half away. *)
Lemma round_half_even_near x : Qabs (inject_Z (Js.round_half_even x) - x) <= 1 # 2.
Proof.
  pose proof (Qfloor_le x) as Hlo. pose proof (Qlt_floor x) as Hhi.
  rewrite inject_Z_plus in Hhi. change (inject_Z 1) with 1 in Hhi.
  unfold Js.round_half_even. set (f := Qfloor x) in *.
  apply Qabs_Qle_condition.
  destruct (x - inject_Z f ?= 1 # 2) eqn:E.
  - apply Qeq_alt in E.
    destruct (Z.even f); [|rewrite inject_Z_plus; change (inject_Z 1) with 1];
      split; lra.
  - apply Qlt_alt in E. split; lra.
  - apply Qgt_alt in E. rewrite inject_Z_plus. change (inject_Z 1) with 1. split; lra.
Qed.

(** Rounding does not depend on how the rational is written. *)
Lemma round_double_comp q q' : q == q' -> Js.round_double q = Js.round_double q'.
Proof.
  intros Heq. unfold Js.round_double.
  rewrite (Qle_bool_comp q q' 0 0 Heq (Qeq_refl 0)).
  destruct (Qle_bool q' 0) eqn:E0; [reflexivity|].
  assert (Hq : 0 < q) by (rewrite Heq; now apply Qle_bool_false).
  rewrite (ilog2_comp q q' Hq Heq).
  set (u := Z.max (Js.ilog2 q' - 52) (-1074)).
  assert (Hx : q / 2 ^ u == q' / 2 ^ u) by now rewrite Heq.
  rewrite (round_half_even_comp _ _ Hx). reflexivity.
Qed.

(** A value that is a double is its own rounding. *)
Lemma round_double_exact r :
  representable r -> r < 2 ^ 1024 -> Js.round_double r = Js.Finite (Qred r).
Proof.
  intros (n & u' & (Hn0 & Hn) & Hu' & Hr) Hfin. unfold Js.round_double.
  destruct (Qle_bool r 0) eqn:E0.
  { apply Qle_bool_iff in E0. f_equal.
    assert (Hr0 : 0 <= r).
    { rewrite Hr. apply Qmult_le_0_compat; [now rewrite <- Zle_Qle with (x := 0%Z)|].
      apply Qlt_le_weak, pow2_pos. }
    symmetry. apply (Qred_complete r 0). apply Qle_antisym; assumption. }
  assert (Hpos : 0 < r) by now apply Qle_bool_false.
  destruct (ilog2_spec r Hpos) as [He1 He2].
  set (e := Js.ilog2 r) in *.
  assert (He : (e - 52 <= u')%Z).
  { assert (H : 2 ^ e < 2 ^ (53 + u')).
    { eapply Qle_lt_trans; [exact He1|]. rewrite Hr, pow2_add.
      apply Qmult_lt_r; [apply pow2_pos|].
      rewrite <- pow2_Z by lia. now rewrite <- Zlt_Qlt. }
    apply pow2_lt_inv in H. lia. }
  set (u := Z.max (e - 52) (-1074)).
  assert (Hu : (u <= u')%Z) by (subst u; lia).
  assert (Hx : r / 2 ^ u == inject_Z (n * 2 ^ (u' - u))).
  { rewrite inject_Z_mult, pow2_Z by lia. rewrite Hr.
    replace u' with ((u' - u) + u)%Z at 1 by lia. rewrite pow2_add.
    field. apply pow2_nonzero. }
  rewrite (round_half_even_comp _ _ Hx), round_half_even_Z.
  assert (Hv : inject_Z (n * 2 ^ (u' - u)) * 2 ^ u == r).
  { rewrite <- Hx. field. apply pow2_nonzero. }
  destruct (Qle_bool (2 ^ 1024) _) eqn:Einf.
  - apply Qle_bool_iff in Einf. rewrite Hv in Einf.
    exfalso. exact (Qlt_not_le _ _ Hfin Einf).
  - f_equal. apply Qred_complete. exact Hv.
Qed.

(** From [2^1024] on the rounding is [Infinity]. *)
Lemma round_double_overflow q : 2 ^ 1024 <= q -> Js.round_double q = Js.Infinity.
Proof.
  intros Hbig. unfold Js.round_double.
  assert (Hpos : 0 < q) by (eapply Qlt_le_trans; [apply (pow2_pos 1024) | exact Hbig]).
  destruct (Qle_bool q 0) eqn:E0.
  { apply Qle_bool_iff in E0. exfalso. exact (Qlt_not_le _ _ Hpos E0). }
  destruct (ilog2_spec q Hpos) as [He1 He2].
  set (e := Js.ilog2 q) in *.
  assert (He : (1024 <= e)%Z).
  { assert (H : 2 ^ 1024 < 2 ^ (e + 1)) by (eapply Qle_lt_trans; eassumption).
    apply pow2_lt_inv in H. lia. }
  replace (Z.max (e - 52) (-1074)) with (e - 52)%Z by lia.
  set (x := q / 2 ^ (e - 52)).
  assert (Hx : inject_Z (2 ^ 52) <= x).
  { rewrite pow2_Z by lia. unfold x.
    apply (Qmult_le_r _ _ (2 ^ (e - 52)) (pow2_pos _)).
    rewrite <- pow2_add. replace (52 + (e - 52))%Z with e by lia.
    setoid_replace (q / 2 ^ (e - 52) * 2 ^ (e - 52)) with q using relation Qeq
      by (field; apply pow2_nonzero).
    exact He1. }
  assert (Hn : (2 ^ 52 <= Js.round_half_even x)%Z).
  { apply Qfloor_resp_le in Hx. rewrite Qfloor_Z in Hx.
    pose proof (round_half_even_bounds x). lia. }
  assert (Hv : 2 ^ 1024 <= inject_Z (Js.round_half_even x) * 2 ^ (e - 52)).
  { eapply Qle_trans; [apply (pow2_le 1024 e He)|].
    replace e with (52 + (e - 52))%Z at 1 by lia. rewrite pow2_add.
    apply Qmult_le_compat_r; [|apply Qlt_le_weak, pow2_pos].
    rewrite <- pow2_Z by lia. now rewrite <- Zle_Qle. }
  apply Qle_bool_iff in Hv. now rewrite Hv.
Qed.

(** A finite rounding is a double, in lowest terms. *)
Lemma round_double_representable q r :
  Js.round_double q = Js.Finite r ->
  representable r /\ 0 <= r /\ r < 2 ^ 1024 /\ Qred r = r.
Proof.
  unfold Js.round_double. destruct (Qle_bool q 0) eqn:E0.
  { intros H. injection H as <-. split; [|repeat split; discriminate].
    exists 0%Z, 0%Z. split; [lia|]. split; [lia | reflexivity]. }
  assert (Hpos : 0 < q) by now apply Qle_bool_false.
  destruct (ilog2_spec q Hpos) as [He1 He2].
  set (e := Js.ilog2 q) in *. set (u := Z.max (e - 52) (-1074)).
  set (x := q / 2 ^ u). set (n := Js.round_half_even x).
  set (v := inject_Z n * 2 ^ u).
  destruct (Qle_bool (2 ^ 1024) v) eqn:Einf; [discriminate|].
  intros H. assert (Hr : Qred v = r) by congruence. clear H.
  assert (Hrv : r == v) by (rewrite <- Hr; apply Qred_correct).
  assert (Hfin : v < 2 ^ 1024) by now apply Qle_bool_false.
  assert (Hx0 : 0 <= x).
  { unfold x. apply Qlt_le_weak, Qlt_shift_div_l; [apply pow2_pos|].
    now rewrite Qmult_0_l. }
  assert (Hx1 : x < inject_Z (2 ^ 53)).
  { rewrite pow2_Z by lia. unfold x. apply Qlt_shift_div_r; [apply pow2_pos|].
    rewrite <- pow2_add. eapply Qlt_le_trans; [exact He2|].
    apply pow2_le. subst u. lia. }
  pose proof (round_half_even_bounds x) as Hb. fold n in Hb.
  apply Qfloor_resp_le in Hx0. change (Qfloor 0) with 0%Z in Hx0.
  assert (Hf : (Qfloor x < 2 ^ 53)%Z).
  { rewrite Zlt_Qlt. eapply Qle_lt_trans; [apply Qfloor_le | exact Hx1]. }
  split; [|split; [|split]].
  - destruct (Z.eq_dec n (2 ^ 53)%Z) as [Heq | Hne].
    + exists (2 ^ 52)%Z, (u + 1)%Z. split; [lia|]. split; [subst u; lia|].
      rewrite Hrv. unfold v. rewrite Heq, pow2_add.
      change (inject_Z (2 ^ 53)) with (inject_Z (2 ^ 52) * 2 ^ 1). ring.
    + exists n, u. split; [lia|]. split; [subst u; lia|]. exact Hrv.
  - rewrite Hrv. unfold v. apply Qmult_le_0_compat; [|apply Qlt_le_weak, pow2_pos].
    rewrite <- Zle_Qle with (x := 0%Z). lia.
  - now rewrite Hrv.
  - rewrite <- Hr. apply Qred_complete, Qred_correct.
Qed.

(** In the range of the normal doubles the rounding is within a relative
    error of [2^-53]. *)
Lemma round_double_near q r :
  Js.round_double q = Js.Finite r -> 2 ^ (-1022) <= q ->
  Qabs (r - q) <= q * 2 ^ (-53).
Proof.
  intros Hround Hnormal.
  assert (Hpos : 0 < q) by (eapply Qlt_le_trans; [apply (pow2_pos (-1022)) | exact Hnormal]).
  unfold Js.round_double in Hround.
  destruct (Qle_bool q 0) eqn:E0.
  { apply Qle_bool_iff in E0. exfalso. exact (Qlt_not_le _ _ Hpos E0). }
  destruct (ilog2_spec q Hpos) as [He1 He2].
  set (e := Js.ilog2 q) in *.
  assert (He : (-1022 <= e)%Z).
  { assert (H : 2 ^ (-1022) < 2 ^ (e + 1)) by (eapply Qle_lt_trans; eassumption).
    apply pow2_lt_inv in H. lia. }
  replace (Z.max (e - 52) (-1074)) with (e - 52)%Z in Hround by lia.
  set (x := q / 2 ^ (e - 52)) in *. set (n := Js.round_half_even x) in *.
  set (v := inject_Z n * 2 ^ (e - 52)) in *.
  destruct (Qle_bool (2 ^ 1024) v); [discriminate|].
  assert (Hr : Qred v = r) by congruence. clear Hround.
  assert (Hrv : r == v) by (rewrite <- Hr; apply Qred_correct).
  assert (Hdiff : r - q == (inject_Z n - x) * 2 ^ (e - 52)).
  { rewrite Hrv. unfold v, x. field. apply pow2_nonzero. }
  rewrite Hdiff, Qabs_Qmult.
  rewrite (Qabs_pos (2 ^ (e - 52))) by (apply Qlt_le_weak, pow2_pos).
  eapply Qle_trans.
  { apply Qmult_le_compat_r; [apply round_half_even_near | apply Qlt_le_weak, pow2_pos]. }
  eapply Qle_trans; [|apply Qmult_le_compat_r; [exact He1 | apply Qlt_le_weak, pow2_pos]].
  rewrite <- pow2_add. replace (e + -53)%Z with (-1 + (e - 52))%Z by lia.
  rewrite pow2_add. apply Qle_lteq. right. reflexivity.
Qed.

Lemma representable_scale r j :
  (0 <= j)%Z -> representable r -> representable (r * inject_Z (2 ^ j)).
Proof.
  intros Hj (n & u & Hn & Hu & Hr). exists n, (u + j)%Z.
  split; [exact Hn|]. split; [lia|].
  rewrite Hr, pow2_Z, pow2_add by assumption. ring.
Qed.

(** Multiplying a double by a power of two is exact, up to overflow. *)
Lemma times_pow2 q j :
  (0 <= j)%Z ->
  Js.times (Js.round_double q) (2 ^ j) = larger (2 ^ j) (Js.round_double q).
Proof.
  intros Hj. destruct (Js.round_double q) as [r|] eqn:Hq; [|reflexivity].
  destruct (round_double_representable q r Hq) as (Hrep & _ & _ & _).
  unfold Js.times, larger.
  assert (Hc : r * inject_Z (2 ^ j) == inject_Z (2 ^ j) * r) by ring.
  rewrite <- (Qle_bool_comp _ _ _ _ (Qeq_refl (2 ^ 1024)) Hc).
  rewrite <- (Qred_complete _ _ Hc).
  destruct (Qle_bool (2 ^ 1024) _) eqn:E.
  - apply Qle_bool_iff in E. now apply round_double_overflow.
  - apply round_double_exact; [now apply representable_scale|].
    now apply Qle_bool_false.
Qed.

Lemma larger_larger a b x :
  (0 < a)%Z -> (0 < b)%Z ->
  (forall r, x = Js.Finite r -> 0 <= r) ->
  larger a (larger b x) = larger (a * b) x.
Proof.
  intros Ha Hb Hx. destruct x as [r|]; [|reflexivity].
  specialize (Hx r eq_refl). unfold larger at 2.
  assert (HA : 1 <= inject_Z a) by (rewrite <- Zle_Qle with (x := 1%Z); lia).
  assert (HB : 0 <= inject_Z b * r).
  { apply Qmult_le_0_compat; [|exact Hx]. rewrite <- Zle_Qle with (x := 0%Z). lia. }
  assert (Hmul : inject_Z (a * b) * r == inject_Z a * (inject_Z b * r))
    by (rewrite inject_Z_mult; ring).
  destruct (Qle_bool (2 ^ 1024) (inject_Z b * r)) eqn:E; unfold larger.
  - apply Qle_bool_iff in E.
    assert (H : 2 ^ 1024 <= inject_Z (a * b) * r).
    { rewrite Hmul. eapply Qle_trans; [exact E|].
      rewrite <- (Qmult_1_l (inject_Z b * r)) at 1.
      apply Qmult_le_compat_r; assumption. }
    apply Qle_bool_iff in H. now rewrite H.
  - assert (Hc : inject_Z a * Qred (inject_Z b * r) == inject_Z (a * b) * r).
    { rewrite Hmul. now rewrite Qred_correct. }
    rewrite (Qle_bool_comp _ _ _ _ (Qeq_refl (2 ^ 1024)) Hc).
    now rewrite (Qred_complete _ _ Hc).
Qed.

Lemma Qred_inject_Z z : Qred (inject_Z z) = inject_Z z.
Proof. apply Qcanon.Qred_identity. simpl. apply Z.gcd_1_r. Qed.

(** A whole number below [2^53] is a double. *)
Lemma round_double_small z :
  (0 <= z < 2 ^ 53)%Z -> Js.round_double (inject_Z z) = Js.Finite (inject_Z z).
Proof.
  intros Hz. rewrite round_double_exact.
  - now rewrite Qred_inject_Z.
  - exists z, 0%Z. split; [exact Hz|]. split; [lia|]. change (2 ^ 0) with 1. ring.
  - apply Qlt_le_trans with (inject_Z (2 ^ 53)); [rewrite <- Zlt_Qlt; apply Hz|].
    rewrite pow2_Z by lia. apply pow2_le. lia.
Qed.

(** The rounding of a whole number is a whole number. *)
Lemma round_double_whole z :
  (0 <= z)%Z ->
  Js.round_double (inject_Z z) = Js.Infinity
  \/ exists z', (0 <= z')%Z /\ Js.round_double (inject_Z z) = Js.Finite (inject_Z z').
Proof.
  intros Hz. destruct (Z.lt_ge_cases z (2 ^ 53)) as [Hsmall | Hbig].
  { right. exists z. split; [exact Hz|]. apply round_double_small. lia. }
  unfold Js.round_double.
  assert (Hpos : 0 < inject_Z z) by (rewrite <- Zlt_Qlt with (x := 0%Z); lia).
  destruct (Qle_bool (inject_Z z) 0) eqn:E0.
  { apply Qle_bool_iff in E0. exfalso. exact (Qlt_not_le _ _ Hpos E0). }
  destruct (ilog2_spec _ Hpos) as [He1 He2].
  set (e := Js.ilog2 (inject_Z z)) in *.
  assert (He : (53 <= e)%Z).
  { assert (H : 2 ^ 53 < 2 ^ (e + 1)).
    { eapply Qle_lt_trans; [|exact He2]. rewrite <- pow2_Z by lia.
      now rewrite <- Zle_Qle. }
    apply pow2_lt_inv in H. lia. }
  replace (Z.max (e - 52) (-1074)) with (e - 52)%Z by lia.
  set (n := Js.round_half_even _).
  assert (Hn : (0 <= n)%Z).
  { pose proof (round_half_even_bounds (inject_Z z / 2 ^ (e - 52))) as Hb. fold n in Hb.
    assert (H0 : 0 <= inject_Z z / 2 ^ (e - 52)).
    { apply Qlt_le_weak, Qlt_shift_div_l; [apply pow2_pos|]. now rewrite Qmult_0_l. }
    apply Qfloor_resp_le in H0. change (Qfloor 0) with 0%Z in H0. lia. }
  assert (Hv : inject_Z n * 2 ^ (e - 52) == inject_Z (n * 2 ^ (e - 52))).
  { now rewrite inject_Z_mult, pow2_Z by lia. }
  destruct (Qle_bool (2 ^ 1024) _); [now left|]. right.
  exists (n * 2 ^ (e - 52))%Z. split; [apply Z.mul_nonneg_nonneg; lia|].
  f_equal. rewrite (Qred_complete _ _ Hv). apply Qred_inject_Z.
Qed.

End Doubles.

Section SizeStrings.


Lemma takeWhile_app p ds rest :
  all_of p ds -> stops p rest -> Js.takeWhile p (ds ++ rest) = ds.
Proof.
  intros Hds Hrest. induction Hds as [|c ds Hc _ IH]; simpl.
  - destruct rest as [|c r]; simpl in *; [reflexivity|]. now rewrite Hrest.
  - now rewrite Hc, IH.
Qed.

Lemma dropWhile_app p ds rest :
  all_of p ds -> stops p rest -> Js.dropWhile p (ds ++ rest) = rest.
Proof.
  intros Hds Hrest. induction Hds as [|c ds Hc _ IH]; simpl.
  - destruct rest as [|c r]; simpl in *; [reflexivity|]. now rewrite Hrest.
  - now rewrite Hc, IH.
Qed.

Lemma takeWhile_dropWhile p s : Js.takeWhile p s ++ Js.dropWhile p s = s.
Proof.
  induction s as [|c s IH]; simpl; [reflexivity|].
  destruct (p c); simpl; [now rewrite IH | reflexivity].
Qed.

Lemma takeWhile_all p s : all_of p (Js.takeWhile p s).
Proof.
  induction s as [|c s IH]; simpl; [constructor|].
  destruct (p c) eqn:E; constructor; assumption.
Qed.

(** A unit starts with a letter: not a digit, not white space, not a dot. *)
Lemma units_head c r mult :
  LFSManager.units (c :: r) = Some mult ->
  Js.is_digit c = false /\ Js.is_space c = false /\ c <> "."%char.
Proof.
  unfold LFSManager.units. simpl Js.toUpperCase. simpl string_of_list_ascii.
  destruct c as [[] [] [] [] [] [] [] []]; cbn; intros H;
    try discriminate H; repeat split; discriminate.
Qed.

Lemma units_stops_digit u mult :
  LFSManager.units u = Some mult -> stops Js.is_digit u.
Proof.
  destruct u as [|c r]; [intros _; exact I|]. intros H. simpl.
  now destruct (units_head _ _ _ H).
Qed.

Lemma units_stops_space u mult :
  LFSManager.units u = Some mult -> stops Js.is_space u.
Proof.
  destruct u as [|c r]; [intros _; exact I|]. intros H. simpl.
  now destruct (units_head _ _ _ H) as (_ & ? & _).
Qed.

Lemma space_not_digit c : Js.is_space c = true -> Js.is_digit c = false.
Proof. destruct c as [[] [] [] [] [] [] [] []]; vm_compute; congruence. Qed.

(** What follows the number: white space, then a unit. *)
Lemma tail_stops_digit ws u mult :
  all_of Js.is_space ws -> LFSManager.units u = Some mult ->
  stops Js.is_digit (ws ++ u).
Proof.
  intros Hws Hu. destruct Hws as [|c ws Hc _]; simpl.
  - eapply units_stops_digit; eassumption.
  - now apply space_not_digit.
Qed.

Lemma matchFraction_none ws u mult :
  all_of Js.is_space ws -> LFSManager.units u = Some mult ->
  LFSManager.matchFraction (ws ++ u) = ([], ws ++ u).
Proof.
  intros Hws Hu. unfold LFSManager.matchFraction.
  destruct (ws ++ u) as [|c r] eqn:E; [reflexivity|].
  destruct (Js.ascii_eqb c "."%char) eqn:Edot; [|reflexivity].
  apply Ascii.eqb_eq in Edot. subst c. exfalso.
  destruct ws as [|c ws']; simpl in E.
  - subst u. now destruct (units_head _ _ _ Hu) as (_ & _ & Hdot).
  - injection E as -> _. inversion Hws as [|? ? Hc _]. discriminate Hc.
Qed.

Lemma matchFraction_some f fr rest :
  all_of Js.is_digit (f :: fr) -> stops Js.is_digit rest ->
  LFSManager.matchFraction ("."%char :: (f :: fr) ++ rest) = (f :: fr, rest).
Proof.
  intros Hfr Hrest. unfold LFSManager.matchFraction.
  change (Js.ascii_eqb "." ".") with true. cbv iota.
  rewrite takeWhile_app, dropWhile_app by assumption. reflexivity.
Qed.

Lemma matchFraction_inv r1 fr r2 :
  LFSManager.matchFraction r1 = (fr, r2) ->
  all_of Js.is_digit fr /\ r1 = fraction_text fr ++ r2.
Proof.
  unfold LFSManager.matchFraction. destruct r1 as [|c r].
  - intros H. injection H as <- <-. split; [constructor | reflexivity].
  - destruct (Js.ascii_eqb c "."%char) eqn:Edot.
    + apply Ascii.eqb_eq in Edot. subst c.
      pose proof (takeWhile_dropWhile Js.is_digit r) as Hs.
      pose proof (takeWhile_all Js.is_digit r) as Ha.
      destruct (Js.takeWhile Js.is_digit r) as [|f l].
      * intros H. injection H as <- <-. split; [constructor | reflexivity].
      * intros H. injection H as <- <-. split; [assumption|].
        simpl. f_equal. symmetry. exact Hs.
    + intros H. injection H as <- <-. split; [constructor | reflexivity].
Qed.

(** The table of the code is the table of the units. *)
Lemma units_spec u mult : LFSManager.units u = Some mult <-> unit_of u mult.
Proof.
  unfold LFSManager.units, unit_of, unitTable.
  set (U := string_of_list_ascii (Js.toUpperCase u)). split.
  - destruct (String.eqb U "B") eqn:E1; [apply String.eqb_eq in E1; rewrite E1|].
    { intros [= <-]. simpl. auto. }
    destruct (String.eqb U "KB") eqn:E2; [apply String.eqb_eq in E2; rewrite E2|].
    { intros [= <-]. simpl. auto. }
    destruct (String.eqb U "MB") eqn:E3; [apply String.eqb_eq in E3; rewrite E3|].
    { intros [= <-]. simpl. auto. }
    destruct (String.eqb U "GB") eqn:E4; [apply String.eqb_eq in E4; rewrite E4|].
    { intros [= <-]. simpl. auto 6. }
    discriminate.
  - intros [H | [H | [H | [H | []]]]]; injection H as <- <-; reflexivity.
Qed.

Lemma unit_of_pow2 u mult :
  unit_of u mult -> exists j, (0 <= j)%Z /\ mult = (2 ^ j)%Z.
Proof.
  intros [H | [H | [H | [H | []]]]]; injection H as _ <-;
    [exists 0%Z | exists 10%Z | exists 20%Z | exists 30%Z]; split; (lia || reflexivity).
Qed.

Lemma matchSize_parts ds fr ws u mult :
  SizeParts ds fr ws u mult ->
  LFSManager.matchSize (ds ++ fraction_text fr ++ ws ++ u) = Some (ds, fr, mult).
Proof.
  intros (Hne & Hds & Hfr & Hws & Hu). apply units_spec in Hu.
  unfold LFSManager.matchSize.
  assert (Hstop : stops Js.is_digit (fraction_text fr ++ ws ++ u)).
  { destruct fr; simpl; [eapply tail_stops_digit; eassumption | reflexivity]. }
  rewrite takeWhile_app, dropWhile_app by assumption.
  destruct ds as [|d ds']; [congruence|].
  assert (Hfrac : LFSManager.matchFraction (fraction_text fr ++ ws ++ u) = (fr, ws ++ u)).
  { destruct fr as [|f fr'].
    - simpl. eapply matchFraction_none; eassumption.
    - simpl fraction_text. simpl app.
      apply matchFraction_some; [assumption|].
      eapply tail_stops_digit; eassumption. }
  rewrite Hfrac.
  rewrite dropWhile_app by (try assumption; eapply units_stops_space; eassumption).
  now rewrite Hu.
Qed.

Lemma matchSize_inv s ds fr mult :
  LFSManager.matchSize s = Some (ds, fr, mult) ->
  exists ws u, SizeParts ds fr ws u mult /\ s = ds ++ fraction_text fr ++ ws ++ u.
Proof.
  unfold LFSManager.matchSize.
  pose proof (takeWhile_dropWhile Js.is_digit s) as Hsplit.
  pose proof (takeWhile_all Js.is_digit s) as Hall.
  destruct (Js.takeWhile Js.is_digit s) as [|d ds'] eqn:Eds; [discriminate|].
  destruct (LFSManager.matchFraction (Js.dropWhile Js.is_digit s)) as [fr0 r2] eqn:Efr.
  apply matchFraction_inv in Efr. destruct Efr as (Hfr0 & Hr1).
  pose proof (takeWhile_dropWhile Js.is_space r2) as Hs3.
  pose proof (takeWhile_all Js.is_space r2) as Ha3.
  destruct (LFSManager.units (Js.dropWhile Js.is_space r2)) as [m|] eqn:Eu; [|discriminate].
  intros H. injection H as <- <- <-. apply units_spec in Eu.
  exists (Js.takeWhile Js.is_space r2), (Js.dropWhile Js.is_space r2).
  split.
  - repeat split; try assumption. discriminate.
  - rewrite Hs3, <- Hr1. symmetry. exact Hsplit.
Qed.

Lemma parseSize_parts ds fr ws u mult :
  SizeParts ds fr ws u mult ->
  LFSManager.parseSize (size_text ds fr ws u) = Ok (size_value ds fr mult).
Proof.
  intros H. unfold LFSManager.parseSize, size_text.
  rewrite list_ascii_of_string_of_list_ascii.
  now rewrite (matchSize_parts _ _ _ _ _ H).
Qed.

(** A number without a fraction is a whole number. *)
Lemma decimal_value_whole ds :
  (Js.decimal_value ds [] == inject_Z (Js.digits_value 10 ds))%Q.
Proof.
  unfold Js.decimal_value. change (length (@nil ascii)) with 0%nat.
  change (Js.digits_value 10 []) with 0%Z.
  change (10 ^ Z.of_nat 0)%Z with 1%Z. change (Z.to_pos 1) with 1%positive.
  unfold Qeq, inject_Z. cbn [Qnum Qden]. lia.
Qed.

Lemma digits_value_nonneg ds acc :
  (0 <= acc)%Z ->
  (0 <= fold_left (fun acc c => match Js.digit_val c with
                                | Some v => acc * 10 + v
                                | None => acc
                                end) ds acc)%Z.
Proof.
  revert acc. induction ds as [|c ds IH]; intros acc Hacc; simpl; [exact Hacc|].
  apply IH. unfold Js.digit_val.
  destruct (_ && _); [lia|]. destruct (_ && _); [lia|]. destruct (_ && _); lia.
Qed.

(** Across units: a unit 1024 times larger gives a value 1024 times
    larger. *)
Lemma size_value_scale ds fr u mult :
  unit_of u mult ->
  size_value ds fr (1024 * mult) = larger 1024 (size_value ds fr mult).
Proof.
  intros Hu. destruct (unit_of_pow2 u mult Hu) as (j & Hj & ->).
  unfold size_value.
  replace (1024 * 2 ^ j)%Z with (2 ^ (10 + j))%Z by (rewrite Z.pow_add_r by lia; reflexivity).
  rewrite !times_pow2 by lia. symmetry.
  rewrite Z.pow_add_r by lia. change (2 ^ 10)%Z with 1024%Z.
  apply larger_larger; [lia | apply Z.pow_pos_nonneg; lia |].
  intros r Hr. now destruct (round_double_representable _ _ Hr) as (_ & H & _).
Qed.

Lemma larger_whole k z :
  (0 < k)%Z ->
  larger k (Js.Finite (inject_Z z)) = Js.Infinity
  \/ larger k (Js.Finite (inject_Z z)) = Js.Finite (inject_Z (k * z)).
Proof.
  intros Hk. unfold larger. destruct (Qle_bool _ _); [now left|]. right.
  f_equal. rewrite <- inject_Z_mult. apply Qred_inject_Z.
Qed.

(** Without a fraction the byte count is a whole number, or [Infinity]. *)
Lemma size_value_whole ds u mult :
  unit_of u mult ->
  size_value ds [] mult = Js.Infinity
  \/ exists bytes, size_value ds [] mult = Js.Finite (inject_Z bytes).
Proof.
  intros Hu. destruct (unit_of_pow2 u mult Hu) as (j & Hj & ->).
  unfold size_value. rewrite times_pow2 by assumption.
  rewrite (round_double_comp _ _ (decimal_value_whole ds)).
  destruct (round_double_whole (Js.digits_value 10 ds)) as [-> | (z & _ & ->)].
  - apply digits_value_nonneg. lia.
  - now left.
  - destruct (larger_whole (2 ^ j) z) as [H | H]; [apply Z.pow_pos_nonneg; lia | |];
      rewrite H; eauto.
Qed.

(** Below [2^53] it is the number times the multiplier. *)
Lemma size_value_exact ds u mult :
  unit_of u mult ->
  (Js.digits_value 10 ds * mult < 2 ^ 53)%Z ->
  size_value ds [] mult = Js.Finite (inject_Z (Js.digits_value 10 ds * mult)).
Proof.
  intros Hu Hsmall. destruct (unit_of_pow2 u mult Hu) as (j & Hj & ->).
  set (n := Js.digits_value 10 ds) in *.
  assert (Hn : (0 <= n)%Z) by (apply digits_value_nonneg; lia).
  assert (Hp : (0 < 2 ^ j)%Z) by (apply Z.pow_pos_nonneg; lia).
  unfold size_value. rewrite (round_double_comp _ _ (decimal_value_whole ds)). fold n.
  rewrite round_double_small by nia.
  unfold Js.times. rewrite <- inject_Z_mult. apply round_double_small. nia.
Qed.

(** In the range of the normal doubles the byte count is the number times
    the multiplier up to a relative error of [2^-53]. *)
Lemma size_value_near ds fr u mult v :
  unit_of u mult ->
  size_value ds fr mult = Js.Finite v ->
  (2 ^ (-1022) <= Js.decimal_value ds fr)%Q ->
  (Qabs (v - Js.decimal_value ds fr * inject_Z mult)
   <= Js.decimal_value ds fr * inject_Z mult * 2 ^ (-53))%Q.
Proof.
  intros Hu Hv Hnormal. destruct (unit_of_pow2 u mult Hu) as (j & Hj & ->).
  unfold size_value in Hv. rewrite times_pow2 in Hv by assumption.
  set (q := Js.decimal_value ds fr) in *.
  destruct (Js.round_double q) as [r|] eqn:Hq; [|discriminate Hv].
  pose proof (round_double_near q r Hq Hnormal) as Hnear.
  unfold larger in Hv. destruct (Qle_bool _ _); [discriminate Hv|].
  assert (Hvr : (v == inject_Z (2 ^ j) * r)%Q).
  { assert (H : Qred (inject_Z (2 ^ j) * r) = v) by congruence.
    rewrite <- H. apply Qred_correct. }
  assert (Hp : (0 < inject_Z (2 ^ j))%Q).
  { rewrite <- Zlt_Qlt with (x := 0%Z). apply Z.pow_pos_nonneg; lia. }
  assert (Hd : (v - q * inject_Z (2 ^ j) == (r - q) * inject_Z (2 ^ j))%Q)
    by (rewrite Hvr; ring).
  rewrite Hd, Qabs_Qmult, (Qabs_pos (inject_Z (2 ^ j))) by now apply Qlt_le_weak.
  setoid_replace (q * inject_Z (2 ^ j) * 2 ^ (-53))%Q
    with (q * 2 ^ (-53) * inject_Z (2 ^ j))%Q using relation Qeq by ring.
  apply Qmult_le_compat_r; [exact Hnear | now apply Qlt_le_weak].
Qed.

End SizeStrings.

(** C4 (as amended).  [parseSize] accepts exactly the strings made of
    digits, an optional fraction, optional white space and a unit B, KB, MB
    or GB in any letter case.  It returns a double: the double nearest to
    the number, times the multiplier of the unit (1, 1024, 1024^2, 1024^3).
    For a number in the range of the normal doubles that is the number
    times the multiplier up to a relative error of 2^-53; for a number
    without fraction it is a whole number (or Infinity), and exactly the
    number times the multiplier when that is below 2^53.  The result is
    consistent across units: a unit 1024 times larger gives a value 1024
    times larger (Infinity once 2^1024 is reached).  Every other string is
    rejected with the error of the malformed size.  [parseSize] is a
    function of its argument alone. *)
Theorem parseSize_amended (sizeStr : string) :
  (forall ds fr ws u mult,
      SizeParts ds fr ws u mult ->
      sizeStr = size_text ds fr ws u ->
      LFSManager.parseSize sizeStr = Ok (size_value ds fr mult)
      /\ (forall v, size_value ds fr mult = Js.Finite v ->
            (2 ^ (-1022) <= Js.decimal_value ds fr)%Q ->
            (Qabs (v - Js.decimal_value ds fr * inject_Z mult)
             <= Js.decimal_value ds fr * inject_Z mult * 2 ^ (-53))%Q)
      /\ (fr = [] ->
          (size_value ds fr mult = Js.Infinity
           \/ exists bytes, size_value ds fr mult = Js.Finite (inject_Z bytes))
          /\ ((Js.digits_value 10 ds * mult < 2 ^ 53)%Z ->
              size_value ds fr mult
              = Js.Finite (inject_Z (Js.digits_value 10 ds * mult))))
      /\ (forall u', unit_of u' (1024 * mult)%Z ->
            LFSManager.parseSize (size_text ds fr ws u')
            = Ok (larger 1024 (size_value ds fr mult))))
  /\ ((forall ds fr ws u mult,
         SizeParts ds fr ws u mult -> sizeStr <> size_text ds fr ws u) ->
      LFSManager.parseSize sizeStr = Throw (malformed sizeStr)).
Proof.
  split.
  - intros ds fr ws u mult Hparts ->.
    assert (Hu : unit_of u mult) by apply Hparts.
    split; [|split; [|split]].
    + now apply parseSize_parts.
    + intros v Hv Hnormal. eapply size_value_near; eassumption.
    + intros ->. split.
      * eapply size_value_whole; eassumption.
      * eapply size_value_exact; eassumption.
    + intros u' Hu'. rewrite <- (size_value_scale ds fr u mult Hu).
      apply parseSize_parts.
      destruct Hparts as (? & ? & ? & ? & _). repeat split; assumption.
  - intros Hnone. unfold LFSManager.parseSize.
    destruct (LFSManager.matchSize (list_ascii_of_string sizeStr))
      as [[[ds fr] mult]|] eqn:E; [|reflexivity].
    exfalso. apply matchSize_inv in E. destruct E as (ws & u & Hparts & Hs).
    apply (Hnone ds fr ws u mult Hparts).
    unfold size_text. rewrite <- Hs. symmetry.
    apply string_of_list_ascii_of_string.
Qed.

(** The default threshold goes through the theorem: 50 MB are 52428800
    bytes. *)
Lemma parseSize_amended_witness :
  LFSManager.parseSize "50MB" = Ok (Js.Finite (inject_Z 52428800)).
Proof.
  destruct (proj1 (parseSize_amended "50MB")
                  (list_ascii_of_string "50") [] [] (list_ascii_of_string "MB")
                  1048576%Z) as (Hvalue & _ & Hwhole & _).
  - split; [discriminate|]. split; [repeat constructor|].
    split; [constructor|]. split; [constructor|].
    right. right. left. reflexivity.
  - reflexivity.
  - rewrite Hvalue. apply f_equal.
    exact (proj2 (Hwhole eq_refl) ltac:(vm_compute; reflexivity)).
Defined.

(** C4, counterexample.  [1.5B] is a number followed by a unit, and its
    byte count is one and a half, not an integer. *)
Lemma parseSize_fraction_of_a_byte :
  LFSManager.parseSize "1.5B" = Ok (Js.Finite (3 # 2)) /\ Js.is_integer (3 # 2) = false.
Proof. split; vm_compute; reflexivity. Qed.

(** The number is rounded to a double before it is multiplied: twenty
    nines after the point give one byte, and 2^53 + 1 bytes are 2^53. *)
Example parseSize_rounds :
  LFSManager.parseSize "0.99999999999999999999B" = Ok (Js.Finite 1)
  /\ LFSManager.parseSize "9007199254740993B" = Ok (Js.Finite (inject_Z 9007199254740992)).
Proof. split; vm_compute; reflexivity. Qed.


(* ================================================================== *)
(** * The repository state store *)
(* ================================================================== *)

Section Store.
Context (env : Env).

Lemma findIndex_find p (t : list Repo) i :
  StateManager.findIndex p t = Some i ->
  exists r, t !! i = Some r /\ find p t = Some r /\ p r = true.
Proof.
  revert i. induction t as [|x t IH]; intros i; simpl; [discriminate|].
  destruct (p x) eqn:E.
  - intros H. injection H as <-. exists x. auto.
  - destruct (StateManager.findIndex p t) as [j|]; simpl; [|discriminate].
    intros H. injection H as <-. destruct (IH j eq_refl) as (r & ? & ? & ?).
    exists r. auto.
Qed.

Lemma findIndex_none p (t : list Repo) :
  StateManager.findIndex p t = None -> find p t = None.
Proof.
  induction t as [|x t IH]; simpl; [reflexivity|].
  destruct (p x); [discriminate|].
  destruct (StateManager.findIndex p t); simpl; [discriminate|]. auto.
Qed.

(** What [updateRepoStatus] does to the store: nothing, or the first
    record under the name is replaced. *)
Lemma updateRepoStatus_store repoName updates w :
  let w' := after (StateManager.updateRepoStatus env repoName updates) w in
  (outcome (StateManager.updateRepoStatus env repoName updates) w = Ok tt /\
   exists t i r now,
     repos_json w = Some t /\ StateManager.findIndex (StateManager.hasName repoName) t = Some i /\
     t !! i = Some r /\ find (StateManager.hasName repoName) t = Some r /\
     (StateManager.p_transferred updates = Some true -> now = now_iso env (tick w)) /\
     repos_json w' = Some (<[i := updated r updates now]> t))
  \/ ((exists e, outcome (StateManager.updateRepoStatus env repoName updates) w = Throw e)
      /\ repos_json w' = repos_json w).
Proof.
  unfold after, outcome, StateManager.updateRepoStatus, StateManager.loadRepos,
    StateManager.saveRepos, readReposFile, writeReposFile, nowISO, bind, tryCatch, ret, throw.
  destruct (repos_json w) as [t|] eqn:Et; simpl.
  2:{ right. rewrite Et. eauto. }
  destruct (StateManager.findIndex (StateManager.hasName repoName) t) as [i|] eqn:Ei; simpl.
  2:{ right. rewrite Et. eauto. }
  destruct (findIndex_find _ _ _ Ei) as (r & Hr & Hfind & _).
  rewrite Hr.
  destruct (StateManager.p_transferred updates) as [[|]|] eqn:Ep; simpl.
  - destruct (fs_write env (S (tick w)) (StateManager.reposFilePath env)) eqn:Ew; simpl.
    + left. split; [reflexivity|].
      exists t, i, r, (now_iso env (tick w)). unfold updated. rewrite Ep. repeat split; auto.
    + right. rewrite Et. eauto.
  - destruct (fs_write env (tick w) (StateManager.reposFilePath env)) eqn:Ew; simpl.
    + left. split; [reflexivity|].
      exists t, i, r, "". unfold updated. rewrite Ep. repeat split; auto. discriminate.
    + right. rewrite Et. eauto.
  - destruct (fs_write env (tick w) (StateManager.reposFilePath env)) eqn:Ew; simpl.
    + left. split; [reflexivity|].
      exists t, i, r, "". unfold updated. rewrite Ep. repeat split; auto. discriminate.
    + right. rewrite Et. eauto.
Qed.

(** An update keeps the invariant of the store when it keeps the
    invariant of the record it addresses. *)
Lemma update_keeps_ok repoName updates w :
  store_ok w ->
  (forall r now, lookupRepo repoName w = Some r -> record_ok r ->
                 record_ok (updated r updates now)) ->
  store_ok (after (StateManager.updateRepoStatus env repoName updates) w).
Proof.
  intros Hok Hrec.
  destruct (updateRepoStatus_store repoName updates w)
    as [(_ & t & i & r & now & Et & Ei & Hr & Hfind & _ & Hw') | (_ & Hw')];
    unfold store_ok, table in *; rewrite Hw'.
  - rewrite Et in Hok. apply Forall_insert; [assumption|].
    apply Hrec.
    + unfold lookupRepo, table. now rewrite Et.
    + eapply Forall_lookup_1; eassumption.
  - assumption.
Qed.

Lemma updated_finished r updates now :
  StateManager.p_transferred updates = Some true ->
  let r' := updated r updates now in
  transferred r' = true /\ processing r' = false /\ error r' = None
  /\ pushed_at r' = Some now.
Proof.
  intros Hp. unfold updated. rewrite Hp. simpl. rewrite Hp. auto.
Qed.

Lemma updated_not_transferred r updates now :
  StateManager.p_transferred updates <> Some true ->
  transferred r = false ->
  transferred (updated r updates now) = false.
Proof.
  intros Hp Hr. unfold updated.
  destruct (StateManager.p_transferred updates) as [[|]|] eqn:E; simpl; rewrite E; simpl;
    congruence.
Qed.

Lemma reset_keeps_ok w :
  store_ok w -> store_ok (after (StateManager.resetProcessingRepos env) w).
Proof.
  intros Hok.
  unfold after, StateManager.resetProcessingRepos, StateManager.loadRepos,
    StateManager.saveRepos, readReposFile, writeReposFile, bind, tryCatch, ret, throw.
  unfold store_ok, table in *.
  destruct (repos_json w) as [t|] eqn:Et; simpl; [|now rewrite Et].
  destruct (0 <? length (List.filter processing t))%nat; simpl; [|now rewrite Et].
  destruct (fs_write env (tick w) (StateManager.reposFilePath env)); simpl;
    [|now rewrite Et].
  apply List.Forall_forall. intros r' Hin. apply in_map_iff in Hin.
  destruct Hin as (r & <- & Hin).
  rewrite List.Forall_forall in Hok. specialize (Hok r Hin).
  destruct (processing r) eqn:Ep; [|assumption].
  unfold record_ok in *. simpl. intros Ht. destruct (Hok Ht). auto.
Qed.

Lemma updated_name r updates now : name (updated r updates now) = name r.
Proof.
  unfold updated. destruct (StateManager.p_transferred updates) as [[|]|]; reflexivity.
Qed.

Lemma find_insert_first p (t : list Repo) i r' :
  StateManager.findIndex p t = Some i -> p r' = true ->
  find p (<[i := r']> t) = Some r'.
Proof.
  revert i. induction t as [|x t IH]; intros i; simpl; [discriminate|].
  destruct (p x) eqn:E.
  - intros H Hr'. injection H as <-. simpl. now rewrite Hr'.
  - destruct (StateManager.findIndex p t) as [j|]; simpl; [|discriminate].
    intros H Hr'. injection H as <-. simpl. rewrite E. now apply IH.
Qed.

(** After a successful update the store holds the updated record under
    the name. *)
Lemma updateRepoStatus_lookup repoName updates w :
  outcome (StateManager.updateRepoStatus env repoName updates) w = Ok tt ->
  exists r now,
    lookupRepo repoName w = Some r /\
    (StateManager.p_transferred updates = Some true -> now = now_iso env (tick w)) /\
    lookupRepo repoName (after (StateManager.updateRepoStatus env repoName updates) w)
    = Some (updated r updates now).
Proof.
  intros Hout.
  destruct (updateRepoStatus_store repoName updates w)
    as [(_ & t & i & r & now & Et & Ei & Hr & Hfind & Hnow & Hw') | ((e & He) & _)];
    [|congruence].
  exists r, now. unfold lookupRepo, table. rewrite Hw', Et. repeat split; try assumption.
  apply find_insert_first; [assumption|].
  destruct (findIndex_find _ _ _ Ei) as (r0 & Hr0 & _ & Hp).
  unfold StateManager.hasName in *. rewrite updated_name. congruence.
Qed.

Lemma not_transferred_ok repoName updates w :
  store_ok w ->
  StateManager.p_transferred updates <> Some true ->
  not_transferred repoName w ->
  store_ok (after (StateManager.updateRepoStatus env repoName updates) w).
Proof.
  intros Hok Hp Hnt. apply update_keeps_ok; [assumption|].
  intros r now Hr _ Ht.
  rewrite (updated_not_transferred r updates now Hp (Hnt r Hr)) in Ht. discriminate.
Qed.

End Store.

(** C5 (as amended).  [markAsCompleted], [clearError] and
    [resetProcessingRepos] keep the invariant of every record; so does
    an update that sets [transferred = true], which clears [processing] and
    [error] and stamps [pushed_at] whatever the record held before; an
    update that does not set [transferred = true], [markAsProcessing] and
    [markAsError] keep it when the record they address is not transferred. *)
Theorem store_invariant_amended (env : Env) (w : World) :
  store_ok w ->
  (forall n c, store_ok (after (StateManager.markAsCompleted env n c) w))
  /\ (forall n, store_ok (after (StateManager.clearError env n) w))
  /\ store_ok (after (StateManager.resetProcessingRepos env) w)
  /\ (forall n p,
        StateManager.p_transferred p = Some true ->
        store_ok (after (StateManager.updateRepoStatus env n p) w)
        /\ (outcome (StateManager.updateRepoStatus env n p) w = Ok tt ->
            exists r,
              lookupRepo n (after (StateManager.updateRepoStatus env n p) w) = Some r
              /\ transferred r = true /\ processing r = false /\ error r = None
              /\ pushed_at r = Some (now_iso env (tick w))))
  /\ (forall n p,
        StateManager.p_transferred p <> Some true ->
        not_transferred n w ->
        store_ok (after (StateManager.updateRepoStatus env n p) w))
  /\ (forall n,
        not_transferred n w ->
        store_ok (after (StateManager.markAsProcessing env n) w))
  /\ (forall n msg,
        not_transferred n w ->
        store_ok (after (StateManager.markAsError env n msg) w)).
Proof.
  intros Hok.
  assert (Hset : forall n p w0, store_ok w0 -> StateManager.p_transferred p = Some true ->
                   store_ok (after (StateManager.updateRepoStatus env n p) w0)).
  { intros n p w0 Hok0 Hp. apply update_keeps_ok; [assumption|].
    intros r now _ _ _. destruct (updated_finished r p now Hp) as (_ & ? & ? & _). auto. }
  repeat split.
  - intros n c. unfold StateManager.markAsCompleted, after, bind, nowISO.
    apply (Hset n _ (emit EvNow w)); [exact Hok | reflexivity].
  - intros n. apply update_keeps_ok; [assumption|].
    intros r now _ Hr. unfold updated, record_ok in *. simpl. intros Ht.
    destruct (Hr Ht). auto.
  - now apply reset_keeps_ok.
  - now apply Hset.
  - intros Hout. destruct (updateRepoStatus_lookup env n p w Hout) as (r & now & _ & Hnow & Hl).
    exists (updated r p now). split; [assumption|].
    destruct (updated_finished r p now H) as (? & ? & ? & ?).
    rewrite <- (Hnow H). auto.
  - intros n p Hp Hnt. now apply not_transferred_ok.
  - intros n Hnt. apply not_transferred_ok; [assumption | discriminate | assumption].
  - intros n msg Hnt.
    unfold StateManager.markAsError, after, bind.
    destruct (StateManager.loadRepos env w) as [[repos|e] w1] eqn:El.
    + assert (w1 = w) as ->.
      { unfold StateManager.loadRepos, tryCatch, readReposFile, throw in El.
        destruct (repos_json w); congruence. }
      apply not_transferred_ok; [assumption | discriminate | assumption].
    + assert (w1 = w) as ->.
      { unfold StateManager.loadRepos, tryCatch, readReposFile, throw in El.
        destruct (repos_json w); congruence. }
      assumption.
Qed.

Lemma store_invariant_amended_witness :
  store_ok (after (StateManager.resetProcessingRepos quietEnv) finishedStore).
Proof.
  apply (store_invariant_amended quietEnv finishedStore).
  repeat constructor.
Defined.

(** C5, counterexample.  The store of one finished repository satisfies
    the invariant; after [markAsProcessing] its record is transferred and
    processing at once. *)
Lemma markAsProcessing_breaks_invariant :
  store_ok finishedStore
  /\ ~ store_ok (after (StateManager.markAsProcessing quietEnv "done") finishedStore).
Proof.
  split.
  - repeat constructor.
  - intros H. inversion H as [|r t Hr _]. subst.
    destruct (Hr eq_refl) as [Hp _]. discriminate Hp.
Qed.

Section Pending.
Context (env : Env).

Lemma isPending_iff r :
  StateManager.isPending r = true <->
  transferred r = false /\ processing r = false /\ (retry_count r < 3)%Z.
Proof.
  unfold StateManager.isPending.
  rewrite !andb_true_iff, !negb_true_iff, Z.ltb_lt. tauto.
Qed.

Lemma filter_sublist {A} (p : A -> bool) (l : list A) : sublist (List.filter p l) l.
Proof.
  induction l as [|x l IH]; simpl; [constructor|].
  destruct (p x); now constructor.
Qed.

Lemma getPendingRepos_run w t :
  repos_json w = Some t ->
  StateManager.getPendingRepos env w = (Ok (List.filter StateManager.isPending t), w).
Proof.
  intros Et. unfold StateManager.getPendingRepos, StateManager.loadRepos, bind, tryCatch,
    readReposFile, ret. now rewrite Et.
Qed.

Lemma In_find_some {A} (p : A -> bool) (l : list A) x : find p l = Some x -> In x l.
Proof. intros H. now apply find_some in H. Qed.

End Pending.

(** C6.  With a readable store, [getPendingRepos] returns the records
    that are not transferred, not processing and have [retry_count < 3],
    and only those, in the order of the table, and changes nothing; a record
    whose [retry_count] is 3 or more is left out; after a successful
    [clearError] the record has no error and [retry_count = 0], and it is
    returned again when it is neither transferred nor processing. *)
Theorem pending_repositories (env : Env) (w : World) (t : list Repo) :
  repos_json w = Some t ->
  StateManager.getPendingRepos env w = (Ok (List.filter StateManager.isPending t), w)
  /\ (forall r, In r (List.filter StateManager.isPending t) <->
                In r t /\ transferred r = false /\ processing r = false
                /\ (retry_count r < 3)%Z)
  /\ sublist (List.filter StateManager.isPending t) t
  /\ (forall r, In r t -> (3 <= retry_count r)%Z ->
                ~ In r (List.filter StateManager.isPending t))
  /\ (forall n,
        outcome (StateManager.clearError env n) w = Ok tt ->
        let w' := after (StateManager.clearError env n) w in
        exists r,
          lookupRepo n w = Some r
          /\ lookupRepo n w' = Some (cleared r)
          /\ (transferred r = false -> processing r = false ->
              exists pending',
                StateManager.getPendingRepos env w' = (Ok pending', w')
                /\ In (cleared r) pending')).
Proof.
  intros Et. split; [|split; [|split; [|split]]].
  - now apply getPendingRepos_run.
  - intros r. rewrite filter_In, isPending_iff. tauto.
  - apply filter_sublist.
  - intros r _ Hge Hin. apply filter_In in Hin. destruct Hin as [_ Hp].
    apply isPending_iff in Hp. lia.
  - intros n Hout w'.
    destruct (updateRepoStatus_lookup env n _ w Hout) as (r & now & Hr & _ & Hl).
    fold (StateManager.clearError env n) in Hl. fold w' in Hl.
    exists r. split; [assumption|]. split; [exact Hl|].
    intros Ht Hp.
    destruct (repos_json w') as [t'|] eqn:Et'.
    + exists (List.filter StateManager.isPending t'). split.
      * now apply getPendingRepos_run.
      * apply filter_In. split.
        -- apply (In_find_some (StateManager.hasName n)).
           unfold lookupRepo, table in Hl. now rewrite Et' in Hl.
        -- apply isPending_iff. simpl. auto with zarith.
    + unfold lookupRepo, table in Hl. rewrite Et' in Hl. discriminate.
Qed.

Lemma pending_repositories_witness :
  StateManager.getPendingRepos quietEnv exhaustedStore = (Ok [], exhaustedStore)
  /\ exists pending',
       StateManager.getPendingRepos quietEnv
         (after (StateManager.clearError quietEnv "stuck") exhaustedStore)
       = (Ok pending', after (StateManager.clearError quietEnv "stuck") exhaustedStore)
       /\ In (newRepo "stuck") pending'.
Proof.
  pose proof (pending_repositories quietEnv exhaustedStore _ eq_refl)
    as (Hrun & _ & _ & _ & Hclear).
  split; [exact Hrun|].
  destruct (Hclear "stuck" eq_refl) as (r & Hr & _ & Hin).
  injection Hr as <-. exact (Hin eq_refl eq_refl).
Defined.

(* ================================================================== *)
(** * The working directory *)
(* ================================================================== *)

Section WorkingDirectory.
Context (env : Env).

Lemma chdir_enters home w :
  reachable env home ->
  exists w', chdir env home w = (Ok tt, w') /\ cwd w' = home.
Proof.
  intros H. unfold chdir. rewrite H. eexists. split; reflexivity.
Qed.

(** [try { body } finally { process.chdir(home) }] ends in [home], with the
    outcome of [body]. *)
Lemma finally_chdir {A} (body : M A) home w :
  reachable env home ->
  cwd (after (tryFinally body (chdir env home)) w) = home
  /\ outcome (tryFinally body (chdir env home)) w = outcome body w.
Proof.
  intros H. unfold after, outcome, tryFinally.
  destruct (body w) as [r w1].
  destruct (chdir_enters home w1 H) as (w2 & -> & Hcwd). auto.
Qed.

Lemma bracket_restores {A} (body : string -> M A) w :
  reachable env (cwd w) ->
  cwd (after (let* originalCwd := getCwd in
              tryFinally (body originalCwd) (chdir env originalCwd)) w) = cwd w.
Proof.
  intros H. unfold after, bind, getCwd.
  exact (proj1 (finally_chdir (body (cwd w)) (cwd w) w H)).
Qed.

Lemma parseSize_threshold :
  LFSManager.parseSize LFSManager.getDefaultThreshold = Ok thresholdBytes.
Proof. vm_compute. reflexivity. Qed.

End WorkingDirectory.

(** C10.  When the directory the process is in can be entered again,
    [detectLargeFilesInHistory], [setupLFS], [getExistingLFSFiles] and
    [pushToGitHub] leave the process in the directory they found it in,
    whether they return or throw. *)
Theorem working_directory_restored (env : Env) (w : World) :
  reachable env (cwd w) ->
  (forall repoPath r w',
      LFSManager.detectLargeFilesInHistory env repoPath w = (r, w') -> cwd w' = cwd w)
  /\ (forall repoPath repoName r w',
      LFSManager.setupLFS env repoPath repoName w = (r, w') -> cwd w' = cwd w)
  /\ (forall repoPath r w',
      LFSManager.getExistingLFSFiles env repoPath w = (r, w') -> cwd w' = cwd w)
  /\ (forall repoName branch lfsInfo r w',
      GitOperations.pushToGitHub env repoName branch lfsInfo w = (r, w') ->
      cwd w' = cwd w).
Proof.
  intros H. repeat split; intros until w'; intros Hrun;
    replace w' with (snd (r, w')) by reflexivity; rewrite <- Hrun.
  - unfold LFSManager.detectLargeFilesInHistory, after, bind, getCwd, liftR.
    rewrite parseSize_threshold.
    exact (proj1 (finally_chdir env _ (cwd w) w H)).
  - apply (bracket_restores env); assumption.
  - apply (bracket_restores env); assumption.
  - unfold GitOperations.pushToGitHub. apply (bracket_restores env); assumption.
Qed.

(** A push that throws, without [git], from [/app]: the process is back in
    [/app]. *)
Lemma working_directory_restored_witness :
  exists e w',
    GitOperations.pushToGitHub noGitEnv "repo" "master" plainInfo (startWorld None)
    = (Throw e, w')
    /\ cwd w' = "/app".
Proof.
  eexists. eexists. split; [reflexivity|].
  refine (proj2 (proj2 (proj2
    (working_directory_restored noGitEnv (startWorld None) _))) "repo" "master" plainInfo _ _ eq_refl).
  intros t. reflexivity.
Defined.

(* ================================================================== *)
(** * The history scanner *)
(* ================================================================== *)

Section Lines.

Lemma str_app (a b : string) :
  list_ascii_of_string (a +:+ b) = list_ascii_of_string a ++ list_ascii_of_string b.
Proof. induction a as [|c a IH]; simpl; [reflexivity | now rewrite IH]. Qed.

Lemma map_str_unstr (l : list (list ascii)) :
  map list_ascii_of_string (map string_of_list_ascii l) = l.
Proof.
  induction l as [|x l IH]; simpl; [reflexivity|].
  now rewrite list_ascii_of_string_of_list_ascii, IH.
Qed.

Lemma map_unstr_str (l : list string) :
  map string_of_list_ascii (map list_ascii_of_string l) = l.
Proof.
  induction l as [|x l IH]; simpl; [reflexivity|].
  now rewrite string_of_list_ascii_of_string, IH.
Qed.

(** Splitting at a character: a piece ends at the first occurrence. *)
Lemma split_go_piece c (line rest cur : list ascii) :
  ~ In c line ->
  Js.split_go [c] (line ++ c :: rest) 0 cur
  = (rev cur ++ line) :: Js.split_go [c] rest 0 [].
Proof.
  revert cur. induction line as [|x line IH]; intros cur Hc; simpl.
  - unfold Js.ascii_eqb. rewrite Ascii.eqb_refl. simpl. now rewrite app_nil_r.
  - unfold Js.ascii_eqb. destruct (Ascii.eqb c x) eqn:E.
    + apply Ascii.eqb_eq in E. subst x. exfalso. apply Hc. now left.
    + simpl. rewrite IH by (intros H; apply Hc; now right).
      simpl. now rewrite <- app_assoc.
Qed.

Lemma split_go_last c (line cur : list ascii) :
  ~ In c line -> Js.split_go [c] line 0 cur = [rev cur ++ line].
Proof.
  revert cur. induction line as [|x line IH]; intros cur Hc; simpl.
  - now rewrite app_nil_r.
  - unfold Js.ascii_eqb. destruct (Ascii.eqb c x) eqn:E.
    + apply Ascii.eqb_eq in E. subst x. exfalso. apply Hc. now left.
    + simpl. rewrite IH by (intros H; apply Hc; now right).
      simpl. now rewrite <- app_assoc.
Qed.

(** [lines.join(c).split(c)] gives the lines back when none of them holds
    the separator. *)
Lemma split_join c (lines : list (list ascii)) :
  lines <> [] ->
  Forall (fun line => ~ In c line) lines ->
  Js.split [c] (Js.join [c] lines) = lines.
Proof.
  unfold Js.split. intros Hne Hall.
  induction Hall as [|line rest Hline Hrest IH]; [contradiction|].
  destruct rest as [|line2 rest].
  - simpl. now apply split_go_last.
  - change (Js.join [c] (line :: line2 :: rest))
      with (line ++ c :: Js.join [c] (line2 :: rest)).
    rewrite split_go_piece by assumption. simpl rev. simpl app at 1.
    f_equal. apply IH. discriminate.
Qed.

Lemma join_snoc_empty sep (lines : list (list ascii)) :
  lines <> [] -> Js.join sep (lines ++ [[]]) = Js.join sep lines ++ sep.
Proof.
  induction lines as [|line rest IH]; [contradiction|]. intros _.
  destruct rest as [|line2 rest].
  - simpl. now rewrite app_nil_r.
  - change (Js.join sep ((line :: line2 :: rest) ++ [[]]))
      with (line ++ sep ++ Js.join sep ((line2 :: rest) ++ [[]])).
    rewrite IH by discriminate.
    change (Js.join sep (line :: line2 :: rest))
      with (line ++ sep ++ Js.join sep (line2 :: rest)).
    now rewrite <- !app_assoc.
Qed.

End Lines.

Section ListingLines.

Lemma dropWhile_spaces (lead body : list ascii) :
  Forall (fun c => Js.is_space c = true) lead ->
  Js.dropWhile Js.is_space (lead ++ body) = Js.dropWhile Js.is_space body.
Proof. induction 1 as [|c lead Hc _ IH]; simpl; [reflexivity | now rewrite Hc]. Qed.

Lemma dropWhile_stays c (body : list ascii) :
  Js.is_space c = false -> Js.dropWhile Js.is_space (c :: body) = c :: body.
Proof. intros Hc. simpl. now rewrite Hc. Qed.

(** A line that begins and ends with a character that is not white
    space. *)
Lemma trim_between (lead body trail : list ascii) c b c' b' :
  Forall (fun c => Js.is_space c = true) lead ->
  Forall (fun c => Js.is_space c = true) trail ->
  body = c :: b -> Js.is_space c = false ->
  rev body = c' :: b' -> Js.is_space c' = false ->
  Js.trim (lead ++ body ++ trail) = body.
Proof.
  intros Hlead Htrail Hb Hc Hr Hc'. unfold Js.trim.
  rewrite dropWhile_spaces by assumption.
  rewrite Hb. simpl app. rewrite dropWhile_stays by assumption.
  rewrite <- Hb.
  change (c :: b ++ trail) with ((c :: b) ++ trail). rewrite <- Hb.
  rewrite rev_app_distr.
  rewrite dropWhile_spaces by (apply Forall_rev; assumption).
  rewrite Hr, dropWhile_stays by assumption.
  rewrite <- Hr. apply rev_involutive.
Qed.

Lemma field_head f : is_field f -> exists c b, f = c :: b /\ Js.is_space c = false.
Proof.
  intros (Hne & Hall). destruct f as [|c b]; [contradiction|].
  exists c, b. split; [reflexivity|]. now inversion Hall.
Qed.

Lemma field_last f :
  is_field f -> exists c b, rev f = c :: b /\ Js.is_space c = false.
Proof.
  intros (Hne & Hall). apply Forall_rev in Hall.
  destruct (rev f) as [|c b] eqn:E.
  - apply (f_equal (@rev ascii)) in E. rewrite rev_involutive in E. contradiction.
  - exists c, b. split; [reflexivity|]. now inversion Hall.
Qed.

Lemma laid_out_head first rest :
  is_field first ->
  exists c b, laid_out first rest = c :: b /\ Js.is_space c = false.
Proof.
  intros Hf. destruct (field_head first Hf) as (c & b & -> & Hc).
  destruct rest as [|[g f] rest]; simpl; eauto.
Qed.

Lemma laid_out_last first rest :
  is_field first ->
  Forall (fun gf => is_gap (fst gf) /\ is_field (snd gf)) rest ->
  exists c b, rev (laid_out first rest) = c :: b /\ Js.is_space c = false.
Proof.
  intros Hf Hrest. revert first Hf.
  induction Hrest as [|[g f] rest (_ & Hf2) _ IH]; intros first Hf; simpl.
  - now apply field_last.
  - destruct (IH f Hf2) as (c & b & Hr & Hc).
    rewrite !rev_app_distr, Hr. simpl. eauto.
Qed.

(** [split(/\s+/)] passes over a field and closes it at the next gap. *)
Lemma split_ws_field (f rest cur : list ascii) :
  Forall (fun c => Js.is_space c = false) f ->
  Js.split_ws_go (f ++ rest) false cur = Js.split_ws_go rest false (rev f ++ cur).
Proof.
  intros Hf. revert cur. induction Hf as [|c f Hc _ IH]; intros cur; simpl.
  - reflexivity.
  - rewrite Hc, IH. now rewrite <- app_assoc.
Qed.

Lemma split_ws_spaces (g rest cur : list ascii) :
  Forall (fun c => Js.is_space c = true) g ->
  Js.split_ws_go (g ++ rest) true cur = Js.split_ws_go rest true cur.
Proof. induction 1 as [|c g Hc _ IH]; simpl; [reflexivity | now rewrite Hc]. Qed.

Lemma split_ws_gap (g rest cur : list ascii) :
  is_gap g ->
  Js.split_ws_go (g ++ rest) false cur = rev cur :: Js.split_ws_go rest true [].
Proof.
  intros (Hne & Hall). destruct g as [|c g]; [contradiction|].
  inversion Hall as [|? ? Hc Hg]; subst. simpl. rewrite Hc.
  now rewrite split_ws_spaces.
Qed.

Lemma split_ws_laid_out first rest in_run :
  is_field first ->
  Forall (fun gf => is_gap (fst gf) /\ is_field (snd gf)) rest ->
  Js.split_ws_go (laid_out first rest) in_run [] = first :: map snd rest.
Proof.
  intros Hf Hrest. revert first in_run Hf.
  induction Hrest as [|[g f] rest (Hg & Hf2) _ IH]; intros first in_run Hf.
  - destruct (field_head first Hf) as (c & b & -> & Hc). destruct Hf as (_ & Hall).
    inversion Hall as [|? ? _ Hb]; subst. simpl. rewrite Hc.
    rewrite <- (app_nil_r b) at 1. rewrite split_ws_field by assumption.
    simpl. rewrite rev_app_distr. simpl. now rewrite rev_involutive.
  - destruct (field_head first Hf) as (c & b & -> & Hc). destruct Hf as (_ & Hall).
    inversion Hall as [|? ? _ Hb]; subst. simpl in Hg, Hf2.
    cbn [laid_out].
    change ((c :: b) ++ g ++ laid_out f rest) with (c :: (b ++ (g ++ laid_out f rest))).
    cbn [Js.split_ws_go]. rewrite Hc.
    rewrite split_ws_field by assumption.
    rewrite split_ws_gap by assumption.
    rewrite rev_app_distr. simpl. rewrite rev_involutive.
    cbn [map snd]. f_equal. now apply IH.
Qed.

End ListingLines.

Section HistoryScanner.
Context (env : Env).

Lemma events_since_app w w' evs :
  trace w' = trace w ++ evs -> events_since w w' = evs.
Proof.
  intros H. unfold events_since. rewrite H.
  rewrite skipn_app, skipn_all, Nat.sub_diag. reflexivity.
Qed.

















End HistoryScanner.

Section HistoryScannerTrace.
Context (env : Env).

Lemma commands_app a b : commands (a ++ b) = commands a ++ commands b.
Proof. unfold commands. apply flat_map_app. Qed.





Lemma firstn_min_length {A} (l : list A) n :
  length (firstn (Nat.min (length l) n) l) = Nat.min (length l) n.
Proof. rewrite length_firstn. lia. Qed.

End HistoryScannerTrace.

Section RecordedLines.








End RecordedLines.



(** The listing that fails is skipped and the file of the older revision
    is found. *)
Example history_scanner_ghost_file :
  outcome (LFSManager.detectLargeFilesInHistory ghostEnv "/app/../temp/ghost-file")
          (startWorld None)
  = Ok ["old-asset.bin"]
  /\ commands (trace (after (LFSManager.detectLargeFilesInHistory ghostEnv
                              "/app/../temp/ghost-file") (startWorld None)))
     = ["git rev-list --all"; "git ls-tree -r -l c2"; "git ls-tree -r -l c1"].
Proof. split; vm_compute; reflexivity. Qed.

(* ================================================================== *)
(** * Events that a computation does not make *)
(* ================================================================== *)

Section Silent.
Context (env : Env) (sel : Event -> bool).

Lemma silent_still {A} (m : M A) :
  (forall w, trace (after m w) = trace w) -> silent sel m.
Proof. intros H w. exists []. rewrite H, app_nil_r. auto. Qed.

Lemma silent_one {A} (m : M A) :
  (forall w, exists e, trace (after m w) = trace w ++ [e] /\ sel e = false) ->
  silent sel m.
Proof.
  intros H w. destruct (H w) as (e & Htr & He). exists [e].
  split; [exact Htr|]. simpl. now rewrite He.
Qed.

Lemma silent_ret {A} (a : A) : silent sel (ret a).
Proof. now apply silent_still. Qed.

Lemma silent_throw {A} e : silent sel (@throw A e).
Proof. now apply silent_still. Qed.

Lemma silent_liftR {A} (r : Result A) : silent sel (liftR r).
Proof. now apply silent_still. Qed.

Lemma silent_bind {A B} (m : M A) (k : A -> M B) :
  silent sel m -> (forall a, silent sel (k a)) -> silent sel (bind m k).
Proof.
  intros Hm Hk w. destruct (Hm w) as (evs & Htr & Hs). unfold after, bind in *.
  destruct (m w) as [[a|e] w1]; simpl in Htr; [|eauto].
  destruct (Hk a w1) as (evs' & Htr' & Hs'). unfold after in Htr'.
  exists (evs ++ evs'). split.
  - rewrite Htr', Htr. now rewrite app_assoc.
  - now rewrite List.filter_app, Hs, Hs'.
Qed.

Lemma silent_tryCatch {A} (m : M A) (h : JsError -> M A) :
  silent sel m -> (forall e, silent sel (h e)) -> silent sel (tryCatch m h).
Proof.
  intros Hm Hh w. destruct (Hm w) as (evs & Htr & Hs). unfold after, tryCatch in *.
  destruct (m w) as [[a|e] w1]; simpl in Htr; [eauto|].
  destruct (Hh e w1) as (evs' & Htr' & Hs'). unfold after in Htr'.
  exists (evs ++ evs'). split.
  - rewrite Htr', Htr. now rewrite app_assoc.
  - now rewrite List.filter_app, Hs, Hs'.
Qed.

Lemma silent_tryFinally {A} (m : M A) (fin : M unit) :
  silent sel m -> silent sel fin -> silent sel (tryFinally m fin).
Proof.
  intros Hm Hf w. destruct (Hm w) as (evs & Htr & Hs). unfold after, tryFinally in *.
  destruct (m w) as [r w1]. simpl in Htr.
  destruct (Hf w1) as (evs' & Htr' & Hs'). unfold after in Htr'.
  exists (evs ++ evs'). split.
  - destruct (fin w1) as [[u|e] w2]; simpl in *; rewrite Htr', Htr; now rewrite app_assoc.
  - now rewrite List.filter_app, Hs, Hs'.
Qed.

Lemma silent_attempt {A} (m : M A) : silent sel m -> silent sel (attempt m).
Proof.
  intros Hm w. destruct (Hm w) as (evs & Htr & Hs). unfold after, attempt in *.
  destruct (m w) as [r w1]. eauto.
Qed.

Lemma silent_forEach {A} (l : list A) (body : A -> M unit) :
  (forall x, silent sel (body x)) -> silent sel (forEach l body).
Proof.
  intros Hb. induction l as [|x l IH]; simpl; [apply silent_ret|].
  apply silent_bind; auto.
Qed.

Lemma silent_foldM {A S} (body : S -> A -> M S) (l : list A) (s : S) :
  (forall s x, silent sel (body s x)) -> silent sel (foldM body l s).
Proof.
  intros Hb. revert s. induction l as [|x l IH]; intros s; simpl; [apply silent_ret|].
  apply silent_bind; auto.
Qed.

Lemma silent_getCwd : silent sel getCwd.
Proof. now apply silent_still. Qed.

Lemma silent_getSettings : silent sel getSettings.
Proof. now apply silent_still. Qed.

Lemma silent_setSettings t : silent sel (setSettings t).
Proof. now apply silent_still. Qed.

Lemma silent_getStats : silent sel getStats.
Proof. now apply silent_still. Qed.

Lemma silent_setStats s : silent sel (setStats s).
Proof. now apply silent_still. Qed.

Lemma silent_readReposFile p : silent sel (readReposFile p).
Proof.
  apply silent_still. intros w. unfold after, readReposFile.
  destruct (repos_json w); reflexivity.
Qed.

Lemma silent_chdir d : (forall ok, sel (EvChdir d ok) = false) -> silent sel (chdir env d).
Proof.
  intros H. apply silent_one. intros w. exists (EvChdir d (chdir_ok env (tick w) d)).
  split; [|apply H]. unfold after, chdir. destruct (chdir_ok env (tick w) d); reflexivity.
Qed.

Lemma silent_execSync cmd :
  (forall d out, sel (EvExec d cmd out) = false) -> silent sel (execSync env cmd).
Proof.
  intros H. apply silent_one. intros w.
  exists (EvExec (cwd w) cmd (exec env (tick w) (cwd w) cmd)).
  split; [|apply H]. unfold after, execSync. destruct (exec env _ _ _); reflexivity.
Qed.

Lemma silent_execSyncIn dir cmd :
  (forall d out, sel (EvExec d cmd out) = false) -> silent sel (execSyncIn env dir cmd).
Proof.
  intros H. apply silent_one. intros w.
  exists (EvExec dir cmd (exec env (tick w) dir cmd)).
  split; [|apply H]. unfold after, execSyncIn. destruct (exec env _ _ _); reflexivity.
Qed.

Lemma silent_access p : (forall ok, sel (EvAccess p ok) = false) -> silent sel (access env p).
Proof.
  intros H. apply silent_one. intros w. exists (EvAccess p (fs_access env (tick w) p)).
  split; [|apply H]. unfold after, access. destruct (fs_access env _ _); reflexivity.
Qed.

Lemma silent_statSize p :
  (forall r, sel (EvStat p r) = false) -> silent sel (statSize env p).
Proof.
  intros H. apply silent_one. intros w. exists (EvStat p (fs_stat env (tick w) p)).
  split; [|apply H]. unfold after, statSize. destruct (fs_stat env _ _); reflexivity.
Qed.

Lemma silent_writeFile p c :
  (forall ok, sel (EvWriteFile p c ok) = false) -> silent sel (writeFile env p c).
Proof.
  intros H. apply silent_one. intros w. exists (EvWriteFile p c (fs_write env (tick w) p)).
  split; [|apply H]. unfold after, writeFile. destruct (fs_write env _ _); reflexivity.
Qed.

Lemma silent_mkdir p : (forall ok, sel (EvMkdir p ok) = false) -> silent sel (mkdir env p).
Proof.
  intros H. apply silent_one. intros w. exists (EvMkdir p (fs_mkdir env (tick w) p)).
  split; [|apply H]. unfold after, mkdir. destruct (fs_mkdir env _ _); reflexivity.
Qed.

Lemma silent_rm p : (forall ok, sel (EvRm p ok) = false) -> silent sel (rm env p).
Proof.
  intros H. apply silent_one. intros w. exists (EvRm p (fs_rm env (tick w) p)).
  split; [|apply H]. unfold after, rm. destruct (fs_rm env _ _); reflexivity.
Qed.

Lemma silent_readdir p :
  (forall r, sel (EvReaddir p r) = false) -> silent sel (readdir env p).
Proof.
  intros H. apply silent_one. intros w. exists (EvReaddir p (fs_readdir env (tick w) p)).
  split; [|apply H]. unfold after, readdir. destruct (fs_readdir env _ _); reflexivity.
Qed.

Lemma silent_globFiles p o :
  (forall r, sel (EvGlob p o r) = false) -> silent sel (globFiles env p o).
Proof.
  intros H. apply silent_one. intros w. exists (EvGlob p o (glob env (tick w) p o)).
  split; [|apply H]. unfold after, globFiles. destruct (glob env _ _ _); reflexivity.
Qed.

Lemma silent_request m u b :
  (forall r, sel (EvHttp m u b r) = false) -> silent sel (request env m u b).
Proof.
  intros H. apply silent_one. intros w. exists (EvHttp m u b (http env (tick w) m u b)).
  split; [|apply H]. unfold after, request. destruct (http env _ _ _ _); reflexivity.
Qed.

Lemma silent_nowISO : sel EvNow = false -> silent sel (nowISO env).
Proof. intros H. apply silent_one. intros w. exists EvNow. now split. Qed.

Lemma silent_nowMs : sel EvNow = false -> silent sel (nowMs env).
Proof. intros H. apply silent_one. intros w. exists EvNow. now split. Qed.

Lemma silent_delay ms : sel (EvDelay ms) = false -> silent sel (delay ms).
Proof. intros H. apply silent_one. intros w. exists (EvDelay ms). now split. Qed.

Lemma silent_readSettingsFile p :
  (forall r, sel (EvReadSettings p r) = false) -> silent sel (readSettingsFile env p).
Proof.
  intros H. apply silent_one. intros w.
  exists (EvReadSettings p (read_settings env (tick w) p)).
  split; [|apply H]. unfold after, readSettingsFile.
  destruct (read_settings env _ _); reflexivity.
Qed.

Lemma silent_writeReposFile p t :
  (forall ok, sel (EvSaveRepos p t ok) = false) -> silent sel (writeReposFile env p t).
Proof.
  intros H. apply silent_one. intros w. exists (EvSaveRepos p t (fs_write env (tick w) p)).
  split; [|apply H]. unfold after, writeReposFile. destruct (fs_write env _ _); reflexivity.
Qed.

Lemma silent_writeJson p t :
  (forall ok, sel (EvSaveRepos p t ok) = false) -> silent sel (writeJson env p t).
Proof.
  intros H. apply silent_one. intros w. exists (EvSaveRepos p t (fs_write env (tick w) p)).
  split; [|apply H]. unfold after, writeJson. destruct (fs_write env _ _); reflexivity.
Qed.

Lemma silent_retryLoop {A} (fn : M A) n d :
  sel (EvDelay d) = false -> silent sel fn -> silent sel (Utils.retryLoop fn n d).
Proof.
  intros Hd Hfn. induction n as [|k IH]; simpl; [apply silent_throw|].
  apply silent_tryCatch; [assumption|]. intros e.
  destruct k; [apply silent_throw|].
  apply silent_bind; [now apply silent_delay | intros _; exact IH].
Qed.

End Silent.

(** One step of a proof of silence, by the shape of the computation; the
    events of the primitives are decided by computation. *)
Ltac silent_step :=
  match goal with
  | |- silent _ (ret _) => apply silent_ret
  | |- silent _ (throw _) => apply silent_throw
  | |- silent _ (liftR _) => apply silent_liftR
  | |- silent _ getCwd => apply silent_getCwd
  | |- silent _ getSettings => apply silent_getSettings
  | |- silent _ (setSettings _) => apply silent_setSettings
  | |- silent _ getStats => apply silent_getStats
  | |- silent _ (setStats _) => apply silent_setStats
  | |- silent _ (readReposFile _) => apply silent_readReposFile
  | |- silent _ (chdir _ _) => apply silent_chdir; intros; first [reflexivity | solve [auto]]
  | |- silent _ (execSync _ _) => apply silent_execSync; intros; first [reflexivity | solve [auto]]
  | |- silent _ (execSyncIn _ _ _) => apply silent_execSyncIn; intros; first [reflexivity | solve [auto]]
  | |- silent _ (access _ _) => apply silent_access; intros; first [reflexivity | solve [auto]]
  | |- silent _ (statSize _ _) => apply silent_statSize; intros; first [reflexivity | solve [auto]]
  | |- silent _ (writeFile _ _ _) => apply silent_writeFile; intros; first [reflexivity | solve [auto]]
  | |- silent _ (mkdir _ _) => apply silent_mkdir; intros; first [reflexivity | solve [auto]]
  | |- silent _ (rm _ _) => apply silent_rm; intros; first [reflexivity | solve [auto]]
  | |- silent _ (readdir _ _) => apply silent_readdir; intros; first [reflexivity | solve [auto]]
  | |- silent _ (globFiles _ _ _) => apply silent_globFiles; intros; first [reflexivity | solve [auto]]
  | |- silent _ (request _ _ _ _) => apply silent_request; intros; first [reflexivity | solve [auto]]
  | |- silent _ (nowISO _) => apply silent_nowISO; first [reflexivity | solve [auto]]
  | |- silent _ (nowMs _) => apply silent_nowMs; first [reflexivity | solve [auto]]
  | |- silent _ (delay _) => apply silent_delay; first [reflexivity | solve [auto]]
  | |- silent _ (readSettingsFile _ _) => apply silent_readSettingsFile; intros; first [reflexivity | solve [auto]]
  | |- silent _ (writeReposFile _ _ _) => apply silent_writeReposFile; intros; first [reflexivity | solve [auto]]
  | |- silent _ (writeJson _ _ _) => apply silent_writeJson; intros; first [reflexivity | solve [auto]]
  | |- silent _ (bind _ _) => apply silent_bind; [|intros]
  | |- silent _ (tryCatch _ _) => apply silent_tryCatch; [|intros]
  | |- silent _ (tryFinally _ _) => apply silent_tryFinally
  | |- silent _ (attempt _) => apply silent_attempt
  | |- silent _ (forEach _ _) => apply silent_forEach; intros
  | |- silent _ (foldM _ _ _) => apply silent_foldM; intros
  | |- silent _ (match ?x with _ => _ end) => destruct x
  | |- silent _ ((match ?x with _ => _ end) _) => destruct x
  | |- silent _ _ => progress cbv beta zeta
  end.

Ltac silent_auto := repeat silent_step.

Lemma bind_ok {A B} (m : M A) (k : A -> M B) w a w1 :
  m w = (Ok a, w1) -> bind m k w = k a w1.
Proof. intros H. unfold bind. now rewrite H. Qed.

(* ================================================================== *)
(** * The configuration resolver *)
(* ================================================================== *)

Section Resolver.
Context (env : Env).

(** A [try] whose [catch] returns a value always returns. *)
Lemma tryCatch_returns {A} (m : M A) (d : JsError -> A) w :
  exists a w', tryCatch m (fun e => ret (d e)) w = (Ok a, w').
Proof.
  unfold tryCatch, ret. destruct (m w) as [[a|e] w1]; eauto.
Qed.

















(** Without settings that can be searched the scan throws at once. *)
Lemma scanLFSFiles_throws repoPath repoName w e :
  LFSManager.getLFSMode (settings w) repoName = Throw e ->
  LFSManager.scanLFSFiles env repoPath repoName w = (Throw e, w).
Proof.
  intros Hmode. unfold LFSManager.scanLFSFiles, bind at 1, getSettings.
  unfold bind at 1, liftR. now rewrite Hmode.
Qed.

Lemma mode_of_config s repoName :
  LFSManager.getLFSMode s repoName
  = match LFSManager.getRepoLFSConfig s repoName with
    | Ok (Some _) => Ok LFSManager.configured
    | Ok None => Ok LFSManager.auto_detect
    | Throw e => Throw e
    end.
Proof.
  unfold LFSManager.getLFSMode, LFSManager.hasLFSConfig, LFSManager.getRepoLFSConfig.
  destruct s as [st|]; [|reflexivity].
  destruct (LFSManager.member st repoName) as [[c|]|e]; reflexivity.
Qed.

(** The member of a name in a table of repositories: its own entry, or,
    for a name without one, what every object inherits. *)
Lemma member_of_table st entries repoName :
  repositories st = repositories_object entries ->
  LFSManager.member st repoName
  = Ok match entries !! repoName with
       | Some own => own
       | None => if existsb (String.eqb repoName) Js.objectPrototype
                 then Some LFSManager.inherited else None
       end.
Proof. intros H. unfold LFSManager.member. now rewrite H. Qed.

Lemma not_inherited repoName :
  ~ In repoName Js.objectPrototype ->
  existsb (String.eqb repoName) Js.objectPrototype = false.
Proof.
  intros H. destruct (existsb _ _) eqn:E; [|reflexivity].
  apply existsb_exists in E. destruct E as (x & Hin & Heq).
  apply String.eqb_eq in Heq. subst. contradiction.
Qed.

End Resolver.
Section TreeScan.
Context (env : Env).




End TreeScan.

Section WorkingTreeSide.
Context (env : Env).














End WorkingTreeSide.

(** C7, at the failing input.  Without a settings file [loadSettings] installs
    settings without any repository, and a repository without an entry is
    scanned in auto-detect mode: the whole working tree is searched and
    the 100 MB file [big.bin] is found.  The repository named
    [constructor] has no entry either, but the look-up of its name finds
    the member that every object inherits: it is taken for configured, the
    working tree is not searched and the large file is not found. *)
Theorem constructor_is_configured :
  let w0 := after (LFSManager.loadSettings largeFileEnv) (startWorld None) in
  let scan repoName :=
    LFSManager.scanLFSFiles largeFileEnv ("/app/../temp/" +:+ repoName) repoName w0 in
  settings w0 = Some LFSManager.noSettings
  /\ (exists sr w',
        scan "my-repo" = (Ok sr, w')
        /\ LFSManager.mode sr = LFSManager.auto_detect
        /\ LFSManager.files sr = ["big.bin"]
        /\ globs (events_since w0 w') = ["**/*"])
  /\ (exists sr w',
        scan "constructor" = (Ok sr, w')
        /\ LFSManager.mode sr = LFSManager.configured
        /\ LFSManager.files sr = []
        /\ globs (events_since w0 w') = []).
Proof.
  cbv zeta. split; [reflexivity|]. split.
  - eexists _, _. split; [vm_compute; reflexivity|]. repeat split; vm_compute; reflexivity.
  - eexists _, _. split; [vm_compute; reflexivity|]. repeat split; vm_compute; reflexivity.
Qed.

(** The same look-up throws when the settings file holds no
    [repositories] at all, and the scan with it. *)
Example settings_without_repositories :
  let w0 := after (LFSManager.loadSettings emptySettingsEnv) (startWorld None) in
  settings w0 = Some {| repositories := repositories_undefined |}
  /\ outcome (LFSManager.scanLFSFiles emptySettingsEnv "/app/../temp/my-repo" "my-repo") w0
     = Throw (LFSManager.cannotRead "undefined" "my-repo").
Proof. split; vm_compute; reflexivity. Qed.





(** The same entry when [big.bin] is there: Strategy B material. *)
Example configured_file_present :
  option_map LFSManager.files
    (match outcome (LFSManager.scanLFSFiles quietEnv "/app/../temp/with-config"
                      "with-config") (configuredWorld bigBinSettings) with
     | Ok sr => Some sr
     | Throw _ => None
     end) = Some ["big.bin"].
Proof. vm_compute. reflexivity. Qed.

(* ================================================================== *)
(** * The strategy selector *)
(* ================================================================== *)

Section Selector.
Context (env : Env).

Lemma migrations_app a b : migrations (a ++ b) = migrations a ++ migrations b.
Proof. unfold migrations. now rewrite commands_app, List.filter_app. Qed.











End Selector.
Section SelectorBlocks.
Context (env : Env).















End SelectorBlocks.

Example strategy_A_despite_current_files :
  migrations (trace (after (LFSManager.setupLFS_afterScan quietEnv "/app/../temp/repo"
                              "repo" mixedResult) (startWorld None)))
  = ["git lfs migrate import --above=50MB --everything --yes"].
Proof. vm_compute. reflexivity. Qed.

Example strategy_B_for_current_files :
  migrations (trace (after (LFSManager.setupLFS_afterScan quietEnv "/app/../temp/repo"
                              "repo" currentOnlyResult) (startWorld None)))
  = ["git lfs migrate import --include=" +:+ dq +:+ "big.bin" +:+ dq
     +:+ " --everything --yes"].
Proof. vm_compute. reflexivity. Qed.

(* ================================================================== *)
(** * What leaves the store alone *)
(* ================================================================== *)

Section Frame.
Context (env : Env).

Lemma frame_ret {A} (a : A) : frame (ret a).
Proof. intros w. reflexivity. Qed.

Lemma frame_throw {A} e : frame (@throw A e).
Proof. intros w. reflexivity. Qed.

Lemma frame_liftR {A} (r : Result A) : frame (liftR r).
Proof. intros w. reflexivity. Qed.

Lemma frame_bind {A B} (m : M A) (k : A -> M B) :
  frame m -> (forall a, frame (k a)) -> frame (bind m k).
Proof.
  intros Hm Hk w. specialize (Hm w). unfold after, bind in *.
  destruct (m w) as [[a|e] w1]; simpl in Hm; [|assumption].
  rewrite <- Hm. apply Hk.
Qed.

Lemma frame_tryCatch {A} (m : M A) (h : JsError -> M A) :
  frame m -> (forall e, frame (h e)) -> frame (tryCatch m h).
Proof.
  intros Hm Hh w. specialize (Hm w). unfold after, tryCatch in *.
  destruct (m w) as [[a|e] w1]; simpl in Hm; [assumption|].
  rewrite <- Hm. apply Hh.
Qed.

Lemma frame_tryFinally {A} (m : M A) (fin : M unit) :
  frame m -> frame fin -> frame (tryFinally m fin).
Proof.
  intros Hm Hf w. specialize (Hm w). unfold after, tryFinally in *.
  destruct (m w) as [r w1]. simpl in Hm. specialize (Hf w1). unfold after in Hf.
  destruct (fin w1) as [[u|e] w2]; simpl in *; congruence.
Qed.

Lemma frame_attempt {A} (m : M A) : frame m -> frame (attempt m).
Proof.
  intros Hm w. specialize (Hm w). unfold after, attempt in *.
  destruct (m w) as [r w1]. assumption.
Qed.

Lemma frame_forEach {A} (l : list A) (body : A -> M unit) :
  (forall x, frame (body x)) -> frame (forEach l body).
Proof.
  intros Hb. induction l as [|x l IH]; simpl; [apply frame_ret|].
  apply frame_bind; auto.
Qed.

Lemma frame_foldM {A S} (body : S -> A -> M S) (l : list A) (s : S) :
  (forall s x, frame (body s x)) -> frame (foldM body l s).
Proof.
  intros Hb. revert s. induction l as [|x l IH]; intros s; simpl; [apply frame_ret|].
  apply frame_bind; auto.
Qed.

Lemma frame_getCwd : frame getCwd.
Proof. intros w. reflexivity. Qed.

Lemma frame_chdir d : frame (chdir env d).
Proof. intros w. unfold after, chdir. destruct (chdir_ok env (tick w) d); reflexivity. Qed.

Lemma frame_execSync cmd : frame (execSync env cmd).
Proof. intros w. unfold after, execSync. destruct (exec env _ _ _); reflexivity. Qed.

Lemma frame_execSyncIn d cmd : frame (execSyncIn env d cmd).
Proof. intros w. unfold after, execSyncIn. destruct (exec env _ _ _); reflexivity. Qed.

Lemma frame_access p : frame (access env p).
Proof. intros w. unfold after, access. destruct (fs_access env _ _); reflexivity. Qed.

Lemma frame_statSize p : frame (statSize env p).
Proof. intros w. unfold after, statSize. destruct (fs_stat env _ _); reflexivity. Qed.

Lemma frame_writeFile p c : frame (writeFile env p c).
Proof. intros w. unfold after, writeFile. destruct (fs_write env _ _); reflexivity. Qed.

Lemma frame_mkdir p : frame (mkdir env p).
Proof. intros w. unfold after, mkdir. destruct (fs_mkdir env _ _); reflexivity. Qed.

Lemma frame_rm p : frame (rm env p).
Proof. intros w. unfold after, rm. destruct (fs_rm env _ _); reflexivity. Qed.

Lemma frame_readdir p : frame (readdir env p).
Proof. intros w. unfold after, readdir. destruct (fs_readdir env _ _); reflexivity. Qed.

Lemma frame_globFiles p o : frame (globFiles env p o).
Proof. intros w. unfold after, globFiles. destruct (glob env _ _ _); reflexivity. Qed.

Lemma frame_request m u b : frame (request env m u b).
Proof. intros w. unfold after, request. destruct (http env _ _ _ _); reflexivity. Qed.

Lemma frame_nowISO : frame (nowISO env).
Proof. intros w. reflexivity. Qed.

Lemma frame_nowMs : frame (nowMs env).
Proof. intros w. reflexivity. Qed.

Lemma frame_delay ms : frame (delay ms).
Proof. intros w. reflexivity. Qed.

Lemma frame_readSettingsFile p : frame (readSettingsFile env p).
Proof.
  intros w. unfold after, readSettingsFile. destruct (read_settings env _ _); reflexivity.
Qed.

Lemma frame_getSettings : frame getSettings.
Proof. intros w. reflexivity. Qed.

Lemma frame_setSettings t : frame (setSettings t).
Proof. intros w. reflexivity. Qed.

Lemma frame_getStats : frame getStats.
Proof. intros w. reflexivity. Qed.

Lemma frame_setStats s : frame (setStats s).
Proof. intros w. reflexivity. Qed.

Lemma frame_retryLoop {A} (fn : M A) n d : frame fn -> frame (Utils.retryLoop fn n d).
Proof.
  intros Hfn. induction n as [|k IH]; simpl; [apply frame_throw|].
  apply frame_tryCatch; [assumption|]. intros e.
  destruct k; [apply frame_throw|].
  apply frame_bind; [apply frame_delay | intros _; exact IH].
Qed.

End Frame.

(** One step of a frame proof, by the shape of the computation. *)
Ltac frame_step :=
  match goal with
  | |- frame (ret _) => apply frame_ret
  | |- frame (throw _) => apply frame_throw
  | |- frame (liftR _) => apply frame_liftR
  | |- frame getCwd => apply frame_getCwd
  | |- frame getSettings => apply frame_getSettings
  | |- frame (setSettings _) => apply frame_setSettings
  | |- frame getStats => apply frame_getStats
  | |- frame (setStats _) => apply frame_setStats
  | |- frame (chdir _ _) => apply frame_chdir
  | |- frame (execSync _ _) => apply frame_execSync
  | |- frame (execSyncIn _ _ _) => apply frame_execSyncIn
  | |- frame (access _ _) => apply frame_access
  | |- frame (statSize _ _) => apply frame_statSize
  | |- frame (writeFile _ _ _) => apply frame_writeFile
  | |- frame (mkdir _ _) => apply frame_mkdir
  | |- frame (rm _ _) => apply frame_rm
  | |- frame (readdir _ _) => apply frame_readdir
  | |- frame (globFiles _ _ _) => apply frame_globFiles
  | |- frame (request _ _ _ _) => apply frame_request
  | |- frame (nowISO _) => apply frame_nowISO
  | |- frame (nowMs _) => apply frame_nowMs
  | |- frame (delay _) => apply frame_delay
  | |- frame (readSettingsFile _ _) => apply frame_readSettingsFile
  | |- frame (bind _ _) => apply frame_bind; [|intros]
  | |- frame (tryCatch _ _) => apply frame_tryCatch; [|intros]
  | |- frame (tryFinally _ _) => apply frame_tryFinally
  | |- frame (attempt _) => apply frame_attempt
  | |- frame (forEach _ _) => apply frame_forEach; intros
  | |- frame (foldM _ _ _) => apply frame_foldM; intros
  | |- frame (Utils.retryLoop _ _ _) => apply frame_retryLoop
  | |- frame (match ?x with _ => _ end) => destruct x
  | |- frame ((match ?x with _ => _ end) _) => destruct x
  | |- frame _ => progress cbv beta zeta
  end.

Ltac frame_auto := repeat frame_step.

Section FrameOperations.
Context (env : Env).

Lemma frame_loadSettings : frame (LFSManager.loadSettings env).
Proof. unfold LFSManager.loadSettings. frame_auto. Qed.

Lemma frame_getExistingLFSFiles p : frame (LFSManager.getExistingLFSFiles env p).
Proof. unfold LFSManager.getExistingLFSFiles. frame_auto. Qed.

Lemma frame_autoDetect p : frame (LFSManager.autoDetectLFSFiles env p).
Proof.
  unfold LFSManager.autoDetectLFSFiles, LFSManager.addIfOversized,
    LFSManager.isFileOversized.
  frame_auto.
Qed.

Lemma frame_detect p : frame (LFSManager.detectLargeFilesInHistory env p).
Proof.
  unfold LFSManager.detectLargeFilesInHistory, LFSManager.scanCommit. frame_auto.
Qed.

Lemma frame_scanLFSFiles p n : frame (LFSManager.scanLFSFiles env p n).
Proof.
  unfold LFSManager.scanLFSFiles, LFSManager.scanWorkingTree,
    LFSManager.scanConfiguredFiles, LFSManager.scanPatterns.
  frame_auto; try apply frame_autoDetect; try apply frame_detect.
Qed.

Lemma frame_setupLFS_afterScan p n sr : frame (LFSManager.setupLFS_afterScan env p n sr).
Proof.
  unfold LFSManager.setupLFS_afterScan, LFSManager.migrateImport,
    LFSManager.reprocessFile, LFSManager.forceConvert.
  frame_auto.
Qed.

Lemma frame_setupLFS p n : frame (LFSManager.setupLFS env p n).
Proof.
  unfold LFSManager.setupLFS.
  frame_auto; try apply frame_loadSettings; try apply frame_scanLFSFiles;
    try apply frame_setupLFS_afterScan.
Qed.

Lemma frame_cleanupRepo n : frame (GitOperations.cleanupRepo env n).
Proof. unfold GitOperations.cleanupRepo. frame_auto. Qed.

Lemma frame_clone n b : frame (GitOperations.cloneBitbucketRepo env n b).
Proof.
  unfold GitOperations.cloneBitbucketRepo. frame_auto; try apply frame_cleanupRepo.
Qed.

Lemma frame_handleLFS n : frame (GitOperations.handleLFS env n).
Proof.
  unfold GitOperations.handleLFS, GitOperations.fetchLFS.
  frame_auto; try apply frame_loadSettings; try apply frame_getExistingLFSFiles;
    try apply frame_setupLFS.
Qed.

Lemma frame_push n b i : frame (GitOperations.pushToGitHub env n b i).
Proof. unfold GitOperations.pushToGitHub. frame_auto. Qed.

Lemma frame_enableLFS n : frame (GitHubAPI.enableLFS env n).
Proof. unfold GitHubAPI.enableLFS. frame_auto. Qed.

Lemma frame_deleteRepository n : frame (GitHubAPI.deleteRepository env n).
Proof. unfold GitHubAPI.deleteRepository. frame_auto. Qed.

Lemma frame_createRepository n l : frame (GitHubAPI.createRepository env n l).
Proof.
  unfold GitHubAPI.createRepository, GitHubAPI.repositoryExists,
    GitHubAPI.isRepositoryEmpty, GitHubAPI.getRepository.
  frame_auto; try apply frame_enableLFS.
Qed.

Lemma frame_retry_create n :
  frame (Utils.retry (GitHubAPI.createRepository env n false) 3 2000).
Proof. unfold Utils.retry. apply frame_retryLoop, frame_createRepository. Qed.

End FrameOperations.

(* ================================================================== *)
(** * The orchestrator *)
(* ================================================================== *)

Section PlainErrors.
Context (env : Env).

Lemma plain_ret {A} (a : A) : plain (ret a).
Proof. intros w e w' H. discriminate H. Qed.

Lemma plain_throw_new {A} msg : plain (@throw A (newError msg)).
Proof. intros w e w' H. injection H as <- _. reflexivity. Qed.

Lemma plain_throw {A} err : response err = None -> plain (@throw A err).
Proof. intros He w e w' H. injection H as <- _. exact He. Qed.

Lemma plain_bind {A B} (m : M A) (k : A -> M B) :
  plain m -> (forall a, plain (k a)) -> plain (bind m k).
Proof.
  intros Hm Hk w e w' H. unfold bind in H.
  destruct (m w) as [[a|e0] w1] eqn:Em.
  - eapply Hk; eassumption.
  - injection H as <- <-. eapply Hm; eassumption.
Qed.

(** A [try] throws what its [catch] throws. *)
Lemma plain_tryCatch {A} (m : M A) (h : JsError -> M A) :
  (forall e, plain (h e)) -> plain (tryCatch m h).
Proof.
  intros Hh w e w' H. unfold tryCatch in H.
  destruct (m w) as [[a|e0] w1]; [discriminate H|]. eapply Hh; eassumption.
Qed.

Lemma plain_tryCatch_rethrow {A} (m : M A) (h : JsError -> M A) :
  plain m -> (forall e, response e = None -> plain (h e)) -> plain (tryCatch m h).
Proof.
  intros Hm Hh w e w' H. unfold tryCatch in H.
  destruct (m w) as [[a|e0] w1] eqn:Em; [discriminate H|].
  eapply Hh; [|eassumption]. eapply Hm; eassumption.
Qed.

Lemma plain_tryFinally {A} (m : M A) (fin : M unit) :
  plain m -> plain fin -> plain (tryFinally m fin).
Proof.
  intros Hm Hf w e w' H. unfold tryFinally in H.
  destruct (m w) as [r w1] eqn:Em. destruct (fin w1) as [[u|e1] w2] eqn:Ef.
  - injection H as -> <-. eapply Hm; eassumption.
  - injection H as <- <-. eapply Hf; eassumption.
Qed.

Lemma plain_forEach {A} (l : list A) (body : A -> M unit) :
  (forall x, plain (body x)) -> plain (forEach l body).
Proof.
  intros Hb. induction l as [|x l IH]; simpl; [apply plain_ret|].
  apply plain_bind; auto.
Qed.

Lemma plain_foldM {A S} (body : S -> A -> M S) (l : list A) (s : S) :
  (forall s x, plain (body s x)) -> plain (foldM body l s).
Proof.
  intros Hb. revert s. induction l as [|x l IH]; intros s; simpl; [apply plain_ret|].
  apply plain_bind; auto.
Qed.

Lemma plain_getCwd : plain getCwd.
Proof. intros w e w' H. discriminate H. Qed.

Lemma plain_getStats : plain getStats.
Proof. intros w e w' H. discriminate H. Qed.

Lemma plain_setStats s : plain (setStats s).
Proof. intros w e w' H. discriminate H. Qed.

Lemma plain_nowISO : plain (nowISO env).
Proof. intros w e w' H. discriminate H. Qed.

Lemma plain_delay ms : plain (delay ms).
Proof. intros w e w' H. discriminate H. Qed.

Lemma plain_chdir d : plain (chdir env d).
Proof.
  intros w e w' H. unfold chdir in H. destruct (chdir_ok env (tick w) d);
    [discriminate H | injection H as <- _; reflexivity].
Qed.

Lemma plain_readReposFile p : plain (readReposFile p).
Proof.
  intros w e w' H. unfold readReposFile in H. destruct (repos_json w);
    [discriminate H | injection H as <- _; reflexivity].
Qed.

Lemma plain_retryLoop {A} (fn : M A) n d : plain fn -> plain (Utils.retryLoop fn n d).
Proof.
  intros Hfn. induction n as [|k IH]; simpl; [apply plain_throw_new|].
  apply plain_tryCatch_rethrow; [assumption|]. intros e He.
  destruct k; [now apply plain_throw|].
  apply plain_bind; [apply plain_delay | intros _; exact IH].
Qed.

End PlainErrors.

Ltac plain_step :=
  match goal with
  | |- plain (ret _) => apply plain_ret
  | |- plain (throw (newError _)) => apply plain_throw_new
  | |- plain (throw _) => apply plain_throw; assumption
  | |- plain getCwd => apply plain_getCwd
  | |- plain getStats => apply plain_getStats
  | |- plain (setStats _) => apply plain_setStats
  | |- plain (nowISO _) => apply plain_nowISO
  | |- plain (delay _) => apply plain_delay
  | |- plain (chdir _ _) => apply plain_chdir
  | |- plain (readReposFile _) => apply plain_readReposFile
  | |- plain (bind _ _) => apply plain_bind; [|intros]
  | |- plain (tryCatch _ _) => apply plain_tryCatch; intros
  | |- plain (tryFinally _ _) => apply plain_tryFinally
  | |- plain (forEach _ _) => apply plain_forEach; intros
  | |- plain (foldM _ _ _) => apply plain_foldM; intros
  | |- plain (Utils.retryLoop _ _ _) => apply plain_retryLoop
  | |- plain (match ?x with _ => _ end) => destruct x
  | |- plain ((match ?x with _ => _ end) _) => destruct x
  | |- plain _ => progress cbv beta zeta
  end.

Ltac plain_auto := repeat plain_step.

Section PlainOperations.
Context (env : Env).

Lemma plain_updateRepoStatus n p : plain (StateManager.updateRepoStatus env n p).
Proof.
  unfold StateManager.updateRepoStatus, StateManager.loadRepos, StateManager.saveRepos.
  plain_auto.
Qed.

Lemma plain_markAsProcessing n : plain (StateManager.markAsProcessing env n).
Proof. apply plain_updateRepoStatus. Qed.

Lemma plain_markAsCompleted n c : plain (StateManager.markAsCompleted env n c).
Proof.
  unfold StateManager.markAsCompleted. plain_auto. apply plain_updateRepoStatus.
Qed.

Lemma plain_markAsError n msg : plain (StateManager.markAsError env n msg).
Proof.
  unfold StateManager.markAsError, StateManager.loadRepos. plain_auto.
  apply plain_updateRepoStatus.
Qed.

Lemma plain_createRepository n l : plain (GitHubAPI.createRepository env n l).
Proof. unfold GitHubAPI.createRepository. plain_auto. Qed.

Lemma plain_cleanupRepo n : plain (GitOperations.cleanupRepo env n).
Proof. unfold GitOperations.cleanupRepo. plain_auto. Qed.

Lemma plain_clone n b : plain (GitOperations.cloneBitbucketRepo env n b).
Proof. unfold GitOperations.cloneBitbucketRepo. plain_auto. Qed.

Lemma plain_handleLFS n : plain (GitOperations.handleLFS env n).
Proof. unfold GitOperations.handleLFS. plain_auto. Qed.

Lemma plain_push n b i : plain (GitOperations.pushToGitHub env n b i).
Proof. unfold GitOperations.pushToGitHub. plain_auto. Qed.

Lemma plain_migrationFailed n cr err :
  response err = None -> plain (Migrator.migrationFailed env n cr err).
Proof.
  intros He. unfold Migrator.migrationFailed, Migrator.bumpFailed. plain_auto.
  apply plain_markAsError.
Qed.

Lemma plain_migrateSteps n b cr : plain (Migrator.migrateSteps env n b cr).
Proof.
  unfold Migrator.migrateSteps, Migrator.bumpSucceeded. plain_auto;
    first [ apply plain_clone | apply plain_handleLFS | apply plain_push
          | apply plain_cleanupRepo | apply plain_markAsCompleted ].
Qed.

Lemma bind_attempt {A B} (m : M A) (k : Result A -> M B) w :
  bind (attempt m) k w = k (fst (m w)) (snd (m w)).
Proof. unfold bind, attempt. destruct (m w). reflexivity. Qed.

(** Whatever makes [migrateRepository] fail, the error it throws has lost
    the response of the server: every step wraps what it catches in a new
    [Error]. *)
Lemma migrateRepository_plain repo : plain (Migrator.migrateRepository env repo).
Proof.
  unfold Migrator.migrateRepository. apply plain_tryFinally.
  2:{ unfold Migrator.bumpProcessed. plain_auto. }
  intros w e w' H. rewrite bind_attempt in H.
  destruct ((do* StateManager.markAsProcessing env (name repo) in
             Utils.retry (GitHubAPI.createRepository env (name repo) false) 3 2000) w)
    as [[cr|err] w1] eqn:E1; cbn [fst snd] in H.
  - revert H. apply plain_tryCatch_rethrow.
    + apply plain_migrateSteps.
    + intros. now apply plain_migrationFailed.
  - revert H. apply plain_migrationFailed.
    revert E1. apply plain_bind.
    + apply plain_markAsProcessing.
    + intros _. apply plain_retryLoop, plain_createRepository.
Qed.

(** So the orchestrator never recognises a quota signal: after a failed
    attempt it goes on to the next repository at once. *)
Lemma quota_branch_unreachable repo w e w1 :
  Migrator.migrateRepository env repo w = (Throw e, w1) ->
  Migrator.afterFailure env repo e w1 = (Ok tt, w1).
Proof.
  intros H. apply migrateRepository_plain in H.
  unfold Migrator.afterFailure, Utils.checkRateLimit, bind. rewrite H. reflexivity.
Qed.

End PlainOperations.

Section FailedAttempt.
Context (env : Env).
Hypothesis Hwrite : writable env.

Lemma lookupRepo_frame n w w' :
  repos_json w' = repos_json w -> lookupRepo n w' = lookupRepo n w.
Proof. intros H. unfold lookupRepo, table. now rewrite H. Qed.

Lemma lookupRepo_table n w r :
  lookupRepo n w = Some r ->
  exists t, repos_json w = Some t /\ find (StateManager.hasName n) t = Some r.
Proof.
  unfold lookupRepo, table. destruct (repos_json w) as [t|]; [eauto | discriminate].
Qed.

Lemma updateRepoStatus_succeeds n p w r :
  lookupRepo n w = Some r ->
  outcome (StateManager.updateRepoStatus env n p) w = Ok tt.
Proof.
  intros Hr. destruct (lookupRepo_table n w r Hr) as (t & Et & Hfind).
  unfold outcome, StateManager.updateRepoStatus, StateManager.loadRepos,
    StateManager.saveRepos, readReposFile, writeReposFile, nowISO, bind, tryCatch, ret, throw.
  rewrite Et. simpl.
  destruct (StateManager.findIndex (StateManager.hasName n) t) as [i|] eqn:Ei.
  2:{ apply findIndex_none in Ei. congruence. }
  destruct (findIndex_find _ _ _ Ei) as (r1 & Hr1 & _). rewrite Hr1.
  destruct (StateManager.p_transferred p) as [[|]|]; simpl; rewrite Hwrite; reflexivity.
Qed.

Lemma updateRepoStatus_run n p w r :
  lookupRepo n w = Some r ->
  exists w' now,
    StateManager.updateRepoStatus env n p w = (Ok tt, w')
    /\ lookupRepo n w' = Some (updated r p now).
Proof.
  intros Hr. pose proof (updateRepoStatus_succeeds n p w r Hr) as Hok.
  destruct (updateRepoStatus_lookup env n p w Hok) as (r1 & now & Hr1 & _ & Hl).
  assert (r1 = r) as -> by congruence.
  unfold outcome, after in *.
  destruct (StateManager.updateRepoStatus env n p w) as [res w'].
  simpl in Hok, Hl. subst res. eauto.
Qed.

Lemma markAsError_run n msg w r :
  lookupRepo n w = Some r ->
  exists w' r',
    StateManager.markAsError env n msg w = (Ok tt, w')
    /\ lookupRepo n w' = Some r'
    /\ retry_count r' = (retry_count r + 1)%Z
    /\ error r' = Some msg /\ processing r' = false
    /\ transferred r' = transferred r.
Proof.
  intros Hr. destruct (lookupRepo_table n w r Hr) as (t & Et & Hfind).
  unfold StateManager.markAsError, bind at 1.
  assert (Hload : StateManager.loadRepos env w = (Ok t, w)).
  { unfold StateManager.loadRepos, tryCatch, readReposFile. now rewrite Et. }
  rewrite Hload, Hfind.
  destruct (updateRepoStatus_run n
              {| StateManager.p_transferred := None;
                 StateManager.p_processing := Some false;
                 StateManager.p_created_at := None;
                 StateManager.p_pushed_at := None;
                 StateManager.p_error := Some (Some msg);
                 StateManager.p_retry_count := Some (retry_count r + 1)%Z |} w r Hr)
    as (w' & now & Hrun & Hl).
  eexists w', _. split; [exact Hrun|]. split; [exact Hl|].
  repeat split.
Qed.

Lemma frame_if_throws_bind {A B} (m : M A) (k : A -> M B) :
  frame m -> (forall a, frame_if_throws (k a)) -> frame_if_throws (bind m k).
Proof.
  intros Hm Hk w e w' H. specialize (Hm w). unfold after, bind in *.
  destruct (m w) as [[a|e0] w1]; simpl in Hm.
  - rewrite <- Hm. eapply Hk; eassumption.
  - injection H as _ <-. exact Hm.
Qed.

Lemma updateRepoStatus_throws n p : frame_if_throws (StateManager.updateRepoStatus env n p).
Proof.
  intros w e w' H.
  destruct (updateRepoStatus_store env n p w) as [(Hok & _) | (_ & Hw')].
  - unfold outcome in Hok. rewrite H in Hok. discriminate Hok.
  - unfold after in Hw'. now rewrite H in Hw'.
Qed.

(** The steps after the creation leave the store alone until they mark
    the repository completed, which is the last thing that can fail. *)
Lemma migrateSteps_throws n b cr : frame_if_throws (Migrator.migrateSteps env n b cr).
Proof.
  unfold Migrator.migrateSteps.
  apply frame_if_throws_bind; [apply frame_clone | intros _].
  apply frame_if_throws_bind; [apply frame_handleLFS | intros lfsInfo].
  cbv zeta.
  apply frame_if_throws_bind.
  { destruct (_ && _); frame_auto. apply frame_enableLFS. }
  intros _.
  apply frame_if_throws_bind; [apply frame_push | intros _].
  apply frame_if_throws_bind; [apply frame_cleanupRepo | intros _].
  intros w e w' H. unfold bind in H.
  destruct (StateManager.markAsCompleted env n (GitHubAPI.createdAt cr) w)
    as [[u|e0] w1] eqn:Ec.
  - discriminate H.
  - injection H as _ <-. revert Ec. unfold StateManager.markAsCompleted, bind, nowISO.
    intros Ec. apply updateRepoStatus_throws in Ec. exact Ec.
Qed.

(** The [catch] block marks the record failed and throws the error on. *)
Lemma migrationFailed_run n cr err w r :
  lookupRepo n w = Some r ->
  exists w' r',
    Migrator.migrationFailed env n cr err w = (Throw err, w')
    /\ lookupRepo n w' = Some r'
    /\ retry_count r' = (retry_count r + 1)%Z
    /\ error r' = Some (message err) /\ processing r' = false
    /\ transferred r' = transferred r.
Proof.
  intros Hr. unfold Migrator.migrationFailed.
  unfold bind at 1, Migrator.bumpFailed at 1, bind at 1, getStats, setStats.
  set (w1 := set_stats _ w).
  assert (Hcleanup : exists u w2,
             tryCatch
               (do* match cr with
                    | Some r0 =>
                        if negb (GitHubAPI.skipped r0)
                        then GitHubAPI.deleteRepository env n
                        else ret tt
                    | None => GitHubAPI.deleteRepository env n
                    end in
                GitOperations.cleanupRepo env n)
               (fun _ => ret tt) w1 = (Ok u, w2)
             /\ repos_json w2 = repos_json w1).
  { match goal with
    | |- exists u w2, tryCatch ?m ?h w1 = _ /\ _ =>
        assert (Hf : frame (tryCatch m h));
        [ frame_auto; first [apply frame_deleteRepository | apply frame_cleanupRepo] |];
        destruct (tryCatch_returns m (fun _ => tt) w1) as (u & w2 & Hrun);
        exists u, w2; split; [exact Hrun|];
        specialize (Hf w1); unfold after in Hf; now rewrite Hrun in Hf
    end. }
  destruct Hcleanup as (u & w2 & Hrun2 & Hjson2).
  unfold bind at 1. rewrite Hrun2.
  assert (Hr2 : lookupRepo n w2 = Some r).
  { rewrite (lookupRepo_frame n w1 w2 Hjson2). exact Hr. }
  destruct (markAsError_run n (message err) w2 r Hr2)
    as (w3 & r' & Hrun3 & Hl & Hrc & Herr & Hproc & Htr).
  unfold bind at 1. rewrite Hrun3.
  exists w3, r'. repeat split; assumption.
Qed.

(** The attempt after the creation step, which succeeded or not. *)
Lemma attempt_throws n b (created : Result GitHubAPI.CreateResult) wa r1 e w1 :
  lookupRepo n wa = Some r1 ->
  match created with
  | Ok createResult =>
      tryCatch (Migrator.migrateSteps env n b createResult)
               (Migrator.migrationFailed env n (Some createResult))
  | Throw error => Migrator.migrationFailed env n None error
  end wa = (Throw e, w1) ->
  exists r',
    lookupRepo n w1 = Some r'
    /\ retry_count r' = (retry_count r1 + 1)%Z
    /\ error r' = Some (message e)
    /\ processing r' = false.
Proof.
  intros Hr1 H. destruct created as [cr|err].
  - unfold tryCatch in H.
    destruct (Migrator.migrateSteps env n b cr wa) as [[u|e0] wb] eqn:Es; [discriminate H|].
    apply migrateSteps_throws in Es.
    assert (Hrb : lookupRepo n wb = Some r1).
    { rewrite (lookupRepo_frame n wa wb Es). exact Hr1. }
    destruct (migrationFailed_run n (Some cr) e0 wb r1 Hrb)
      as (wf & r' & Hrun & Hl & Hrc & Herr & Hproc & _).
    rewrite Hrun in H. injection H as <- <-. eauto.
  - destruct (migrationFailed_run n None err wa r1 Hr1)
      as (wf & r' & Hrun & Hl & Hrc & Herr & Hproc & _).
    rewrite Hrun in H. injection H as <- <-. eauto.
Qed.

End FailedAttempt.


Section QuotaHandler.
Context (env : Env).

(** What the handler of [migrate] does with an error that still carries
    the quota signal: it waits for the reset and five seconds more, runs
    [migrateRepository] on the same repository once, and after a second
    failure only clears [processing]. *)
Lemma afterFailure_on_quota repo e rl t w w1 :
  Utils.checkRateLimit env e w = (Ok (Some rl), w1) ->
  Utils.waitTime rl = Some t ->
  (0 < t)%Z ->
  Migrator.afterFailure env repo e w
  = tryCatch
      (Migrator.migrateRepository env repo)
      (fun _ =>
         StateManager.updateRepoStatus env (name repo)
           {| StateManager.p_transferred := None;
              StateManager.p_processing := Some false;
              StateManager.p_created_at := None;
              StateManager.p_pushed_at := None;
              StateManager.p_error := None;
              StateManager.p_retry_count := None |})
      (emit (EvDelay (t + 5000)) w1).
Proof.
  intros Hcheck Hwait Hpos. unfold Migrator.afterFailure.
  rewrite (bind_ok _ _ _ _ _ Hcheck). rewrite Hwait.
  apply Z.ltb_lt in Hpos. rewrite Hpos. reflexivity.
Qed.

End QuotaHandler.

(** C2 (as amended).  With a store that can be read and written, every
    attempt of [migrateRepository] that fails, whatever made it fail and so
    also after a quota signal, leaves the record marked failed with the
    message of the error thrown and with [retry_count] one higher than
    before the attempt: the failure uses up a retry. *)
Theorem failed_attempt_uses_a_retry (env : Env) (repo r0 : Repo) (w w' : World)
    (e : JsError) :
  writable env ->
  lookupRepo (name repo) w = Some r0 ->
  Migrator.migrateRepository env repo w = (Throw e, w') ->
  exists r',
    lookupRepo (name repo) w' = Some r'
    /\ retry_count r' = (retry_count r0 + 1)%Z
    /\ error r' = Some (message e)
    /\ processing r' = false.
Proof.
  intros Hwrite Hr0 Hrun.
  unfold Migrator.migrateRepository, tryFinally in Hrun.
  rewrite bind_attempt in Hrun.
  destruct (updateRepoStatus_run env Hwrite (name repo)
              {| StateManager.p_transferred := None;
                 StateManager.p_processing := Some true;
                 StateManager.p_created_at := None;
                 StateManager.p_pushed_at := None;
                 StateManager.p_error := Some None;
                 StateManager.p_retry_count := None |} w r0 Hr0)
    as (wp & now & Hrunp & Hlp).
  fold (StateManager.markAsProcessing env (name repo)) in Hrunp.
  rewrite (bind_ok _ _ _ _ _ Hrunp) in Hrun.
  pose proof (frame_retry_create env (name repo) wp) as Hfc. unfold after in Hfc.
  destruct (Utils.retry (GitHubAPI.createRepository env (name repo) false) 3 2000 wp)
    as [created wa] eqn:Ecreate.
  cbn [fst snd] in Hrun, Hfc.
  rewrite <- (lookupRepo_frame _ wp wa Hfc) in Hlp. rename Hlp into Hla.
  match type of Hrun with
  | (let (r, w1) := ?body wa in _) = _ => destruct (body wa) as [r w1] eqn:Ebody
  end.
  unfold Migrator.bumpProcessed, bind, getStats, setStats in Hrun.
  injection Hrun as -> <-.
  destruct (attempt_throws env Hwrite _ _ created wa _ e w1 Hla Ebody)
    as (r' & Hl & Hrc & Herr & Hproc).
  exists r'. repeat split; assumption.
Qed.
(** The attempt that meets the exhausted quota fails and uses a retry. *)
Lemma failed_attempt_uses_a_retry_witness :
  exists e w' r',
    Migrator.migrateRepository rateLimitedEnv (newRepo "r7") quotaStore = (Throw e, w')
    /\ lookupRepo "r7" w' = Some r'
    /\ retry_count r' = 1%Z.
Proof.
  eexists. eexists.
  assert (Hrun : Migrator.migrateRepository rateLimitedEnv (newRepo "r7") quotaStore
                 = (Throw _, _)) by (vm_compute; reflexivity).
  destruct (failed_attempt_uses_a_retry rateLimitedEnv (newRepo "r7") (newRepo "r7")
              quotaStore _ _ (fun _ _ => eq_refl) eq_refl Hrun)
    as (r' & Hl & Hrc & _).
  exists r'. split; [exact Hrun|]. split; [exact Hl | exact Hrc].
Defined.

(** C2, counterexample.  Every request of the run meets the exhausted
    quota, a signal that [checkRateLimit] recognises on the error of the
    client, with more than a minute to wait.  The run nevertheless makes no
    pause but the two of [retry] between the three creation attempts, and
    the repository ends with [retry_count = 1]. *)
Lemma quota_failure_uses_a_retry :
  (exists rl,
      outcome (Utils.checkRateLimit rateLimitedEnv quotaExceeded) quotaStore = Ok (Some rl)
      /\ Utils.waitTime rl = Some 2402444800000%Z)
  /\ delays (trace (after (Migrator.migrate rateLimitedEnv) quotaStore)) = [2000; 2000]%Z
  /\ option_map retry_count
       (lookupRepo "r7" (after (Migrator.migrate rateLimitedEnv) quotaStore))
     = Some 1%Z.
Proof.
  split; [|split].
  - eexists. split; vm_compute; reflexivity.
  - vm_compute. reflexivity.
  - vm_compute. reflexivity.
Qed.

(** C3, at the failing input.  The destination [legacy] exists and is not
    empty: each of the three creation attempts finds it so, nothing is
    created, and the failed attempt ends by deleting it; the record is
    marked failed. *)
Theorem occupied_destination_deleted :
  let w' := after (Migrator.migrateRepository occupiedEnv (newRepo "legacy")) legacyStore in
  requests (trace w')
  = [(GET, "/repos/owner/legacy"); (GET, "/repos/owner/legacy/contents");
     (GET, "/repos/owner/legacy"); (GET, "/repos/owner/legacy/contents");
     (GET, "/repos/owner/legacy"); (GET, "/repos/owner/legacy/contents");
     (DELETE, "/repos/owner/legacy")]
  /\ option_map retry_count (lookupRepo "legacy" w') = Some 1%Z
  /\ option_map processing (lookupRepo "legacy" w') = Some false.
Proof. vm_compute. auto. Qed.

(** A destination that exists and is empty is kept when a later step
    fails: here the clone, without [git]. *)
Example empty_destination_kept :
  let w' := after (Migrator.migrateRepository emptyDestinationEnv (newRepo "legacy"))
                  legacyStore in
  requests (trace w')
  = [(GET, "/repos/owner/legacy"); (GET, "/repos/owner/legacy/contents");
     (GET, "/repos/owner/legacy")]
  /\ option_map retry_count (lookupRepo "legacy" w') = Some 1%Z.
Proof. vm_compute. auto. Qed.

(* ================================================================== *)
(** * The scenarios of the specification, run *)
(* ================================================================== *)

(** No configuration and no large file: nothing to rewrite. *)
Example scenario_small_repo :
  LFSManager.setupLFS quietEnv "/app/../temp/small-repo" "small-repo" (startWorld None)
  = (Ok (LFSManager.noLFS LFSManager.auto_detect),
     after (LFSManager.setupLFS quietEnv "/app/../temp/small-repo" "small-repo")
           (startWorld None))
  /\ migrations (trace (after (LFSManager.setupLFS quietEnv "/app/../temp/small-repo"
                                 "small-repo") (startWorld None))) = [].
Proof. split; vm_compute; reflexivity. Qed.

(** A configured file that is there and no large file in the history:
    strategy B with the configured file. *)
Example scenario_with_config :
  migrations (trace (after (LFSManager.setupLFS quietEnv "/app/../temp/with-config"
                              "with-config") (configuredWorld bigBinSettings)))
  = [strategyB ["big.bin"]].
Proof. vm_compute. reflexivity. Qed.

(** No configuration, no large file in the working tree, a large file in
    an old revision: strategy A. *)
Example scenario_ghost_file :
  migrations (trace (after (LFSManager.setupLFS ghostEnv "/app/../temp/ghost-file"
                              "ghost-file") (startWorld None)))
  = [strategyA].
Proof. vm_compute. reflexivity. Qed.

(* ================================================================== *)
(** * More of the state store *)
(* ================================================================== *)

Section StoreRuns.
Context (env : Env).

Lemma loadRepos_run w t :
  repos_json w = Some t -> StateManager.loadRepos env w = (Ok t, w).
Proof.
  intros Et. unfold StateManager.loadRepos, tryCatch, readReposFile. now rewrite Et.
Qed.

Lemma stopProcessing_idle r : processing r = false -> StateManager.stopProcessing r = r.
Proof. destruct r. simpl. intros ->. reflexivity. Qed.

Lemma stopProcessing_map (t : list Repo) :
  map (fun repo => if processing repo then StateManager.stopProcessing repo else repo) t
  = map StateManager.stopProcessing t.
Proof.
  apply map_ext. intros r. destruct (processing r) eqn:E; [reflexivity|].
  symmetry. now apply stopProcessing_idle.
Qed.

Lemma filter_nil_Forall {A} (p : A -> bool) (l : list A) :
  List.filter p l = [] -> Forall (fun x => p x = false) l.
Proof.
  induction l as [|x l IH]; simpl; [constructor|].
  destruct (p x) eqn:E; [discriminate|]. intros H. constructor; auto.
Qed.

Lemma Forall_filter_nil {A} (p : A -> bool) (l : list A) :
  Forall (fun x => p x = false) l -> List.filter p l = [].
Proof.
  induction 1 as [|x l Hx _ IH]; simpl; [reflexivity|]. now rewrite Hx.
Qed.

Lemma stopProcessing_all (t : list Repo) :
  Forall (fun r => processing r = false) (map StateManager.stopProcessing t).
Proof. apply Forall_map. apply Forall_true. intros r. reflexivity. Qed.

Lemma stopProcessing_fixed (t : list Repo) :
  Forall (fun r => processing r = false) t -> map StateManager.stopProcessing t = t.
Proof.
  induction 1 as [|r t Hr _ IH]; simpl; [reflexivity|].
  now rewrite IH, stopProcessing_idle.
Qed.

(** [resetProcessingRepos] on a store that can be read and written. *)
Lemma reset_run w t :
  writable env ->
  repos_json w = Some t ->
  exists w1,
    StateManager.resetProcessingRepos env w
    = (Ok (length (List.filter processing t)), w1)
    /\ repos_json w1 = Some (map StateManager.stopProcessing t)
    /\ (List.filter processing t = [] -> w1 = w).
Proof.
  intros Hwrite Et. unfold StateManager.resetProcessingRepos.
  rewrite (bind_ok _ _ _ _ _ (loadRepos_run w t Et)).
  rewrite stopProcessing_map.
  destruct (List.filter processing t) as [|r0 rest] eqn:Ef.
  - exists w. simpl. split; [reflexivity|]. split; [|reflexivity].
    rewrite Et. f_equal. symmetry. apply stopProcessing_fixed.
    now apply filter_nil_Forall.
  - cbn [length Nat.ltb Nat.leb].
    unfold bind, StateManager.saveRepos, tryCatch, writeReposFile.
    rewrite Hwrite. eexists. split; [reflexivity|]. split; [reflexivity|discriminate].
Qed.

End StoreRuns.

(** X1.  [resetProcessingRepos], on a store that can be read and written,
    returns the number of records marked as being processed, and leaves
    every record as it was but for that mark, which no record carries any
    more; when no record carried it nothing is written; run again at once,
    it finds nothing to reset and changes nothing. *)
Theorem reset_processing_idempotent (env : Env) (w : World) (t : list Repo) :
  writable env ->
  repos_json w = Some t ->
  exists w1,
    StateManager.resetProcessingRepos env w
    = (Ok (length (List.filter processing t)), w1)
    /\ table w1 = map StateManager.stopProcessing t
    /\ Forall (fun r => processing r = false) (table w1)
    /\ (Forall (fun r => processing r = false) t -> w1 = w)
    /\ StateManager.resetProcessingRepos env w1 = (Ok 0%nat, w1).
Proof.
  intros Hwrite Et.
  destruct (reset_run env w t Hwrite Et) as (w1 & Hrun & Hjson & Hsame).
  exists w1. split; [exact Hrun|].
  assert (Htable : table w1 = map StateManager.stopProcessing t)
    by (unfold table; now rewrite Hjson).
  split; [exact Htable|]. split; [rewrite Htable; apply stopProcessing_all|].
  split; [intros Hall; apply Hsame; now apply Forall_filter_nil|].
  destruct (reset_run env w1 _ Hwrite Hjson) as (w2 & Hrun2 & _ & Hsame2).
  assert (Hnone : List.filter processing (map StateManager.stopProcessing t) = [])
    by (apply Forall_filter_nil, stopProcessing_all).
  rewrite Hnone in Hrun2. rewrite (Hsame2 Hnone) in Hrun2. exact Hrun2.
Qed.

(** The store of an interrupted run, reset: one record was stale. *)
Lemma reset_processing_idempotent_witness :
  exists w1,
    StateManager.resetProcessingRepos quietEnv interruptedStore = (Ok 1%nat, w1)
    /\ StateManager.resetProcessingRepos quietEnv w1 = (Ok 0%nat, w1).
Proof.
  destruct (reset_processing_idempotent quietEnv interruptedStore _
              (fun _ _ => eq_refl) eq_refl)
    as (w1 & Hrun & _ & _ & _ & Hagain).
  exists w1. split; [exact Hrun | exact Hagain].
Defined.
Section UnknownName.
Context (env : Env).

Lemma findIndex_absent n (t : list Repo) :
  ~ In n (map name t) -> StateManager.findIndex (StateManager.hasName n) t = None.
Proof.
  induction t as [|r t IH]; simpl; [reflexivity|]. intros H.
  unfold StateManager.hasName at 1.
  destruct (String.eqb (name r) n) eqn:E.
  - apply String.eqb_eq in E. exfalso. apply H. now left.
  - rewrite IH; [reflexivity|]. intros Hin. apply H. now right.
Qed.

Lemma updateRepoStatus_absent n p w t :
  repos_json w = Some t ->
  ~ In n (map name t) ->
  StateManager.updateRepoStatus env n p w = (Throw (notFound n), w).
Proof.
  intros Et Hn. unfold StateManager.updateRepoStatus.
  rewrite (bind_ok _ _ _ _ _ (loadRepos_run env w t Et)).
  now rewrite (findIndex_absent n t Hn).
Qed.

End UnknownName.

(** X2.  A name that the store does not hold is rejected by every
    operation that updates a record: [updateRepoStatus] with any patch (so
    also [markAsProcessing] and [clearError]), [markAsError] and
    [markAsCompleted] throw the not-found error, and nothing is written:
    the world is left as it was, but for the clock read by
    [markAsCompleted]. *)
Theorem unknown_repository_rejected (env : Env) (n : string) (w : World)
    (t : list Repo) :
  repos_json w = Some t ->
  ~ In n (map name t) ->
  (forall p, StateManager.updateRepoStatus env n p w = (Throw (notFound n), w))
  /\ StateManager.markAsProcessing env n w = (Throw (notFound n), w)
  /\ StateManager.clearError env n w = (Throw (notFound n), w)
  /\ (forall msg, StateManager.markAsError env n msg w = (Throw (notFound n), w))
  /\ (forall createdAt,
        StateManager.markAsCompleted env n createdAt w
        = (Throw (notFound n), emit EvNow w)).
Proof.
  intros Et Hn.
  split; [intros p; now apply updateRepoStatus_absent with t|].
  split; [now apply updateRepoStatus_absent with t|].
  split; [now apply updateRepoStatus_absent with t|].
  split.
  - intros msg. unfold StateManager.markAsError.
    rewrite (bind_ok _ _ _ _ _ (loadRepos_run env w t Et)).
    now apply updateRepoStatus_absent with t.
  - intros createdAt. unfold StateManager.markAsCompleted, bind at 1, nowISO.
    now apply updateRepoStatus_absent with t.
Qed.

(** The interrupted store holds no repository [gone]. *)
Lemma unknown_repository_rejected_witness :
  StateManager.markAsError quietEnv "gone" "Push failed" interruptedStore
  = (Throw (notFound "gone"), interruptedStore).
Proof.
  refine (proj1 (proj2 (proj2 (proj2
    (unknown_repository_rejected quietEnv "gone" interruptedStore _ eq_refl _)))) _).
  simpl. intros [H|[H|[]]]; discriminate H.
Defined.
(* ================================================================== *)
(** * What a run does to the store *)
(* ================================================================== *)

Section Respects.
Context (env : Env) (step : Repo -> Repo -> Prop).
Hypothesis step_refl : forall r, step r r.
Hypothesis step_trans : forall a b c, step a b -> step b c -> step a c.

Lemma Forall2_same (t : list Repo) : Forall2 step t t.
Proof. induction t; constructor; auto. Qed.

Lemma Forall2_chain (a b c : list Repo) :
  Forall2 step a b -> Forall2 step b c -> Forall2 step a c.
Proof.
  intros H. revert c. induction H as [|x y a b Hxy _ IH]; intros c Hc.
  - inversion Hc. constructor.
  - inversion Hc as [|y' z b' c' Hyz Hbc]; subst. constructor; eauto.
Qed.

Lemma Forall2_insert_step (t : list Repo) i r r' :
  t !! i = Some r -> step r r' -> Forall2 step t (<[i := r']> t).
Proof.
  revert i. induction t as [|x t IH]; intros [|i] Hi Hs; try discriminate Hi.
  - injection Hi as ->. simpl. constructor; [assumption | apply Forall2_same].
  - simpl. constructor; [apply step_refl | now apply IH].
Qed.

Lemma Forall2_map_step (f : Repo -> Repo) (t : list Repo) :
  (forall r, step r (f r)) -> Forall2 step t (map f t).
Proof. intros Hf. induction t; simpl; constructor; auto. Qed.

Lemma store_rel_frame w w' : repos_json w' = repos_json w -> store_rel step w w'.
Proof.
  intros H. unfold store_rel. rewrite H.
  destruct (repos_json w); [apply Forall2_same | exact I].
Qed.

Lemma store_rel_trans w1 w2 w3 :
  store_rel step w1 w2 -> store_rel step w2 w3 -> store_rel step w1 w3.
Proof.
  unfold store_rel.
  destruct (repos_json w1), (repos_json w2), (repos_json w3); try tauto.
  apply Forall2_chain.
Qed.

Lemma respects_frame {A} (m : M A) : frame m -> respects step m.
Proof. intros H w. apply store_rel_frame, H. Qed.

Lemma respects_bind {A B} (m : M A) (k : A -> M B) :
  respects step m -> (forall a, respects step (k a)) -> respects step (bind m k).
Proof.
  intros Hm Hk w. specialize (Hm w). unfold after, bind in *.
  destruct (m w) as [[a|e] w1]; simpl in Hm; [|assumption].
  eapply store_rel_trans; [exact Hm | apply Hk].
Qed.

Lemma respects_tryCatch {A} (m : M A) (h : JsError -> M A) :
  respects step m -> (forall e, respects step (h e)) -> respects step (tryCatch m h).
Proof.
  intros Hm Hh w. specialize (Hm w). unfold after, tryCatch in *.
  destruct (m w) as [[a|e] w1]; simpl in Hm; [assumption|].
  eapply store_rel_trans; [exact Hm | apply Hh].
Qed.

Lemma respects_tryFinally {A} (m : M A) (fin : M unit) :
  respects step m -> respects step fin -> respects step (tryFinally m fin).
Proof.
  intros Hm Hf w. specialize (Hm w). unfold after, tryFinally in *.
  destruct (m w) as [r w1]. simpl in Hm. specialize (Hf w1). unfold after in Hf.
  destruct (fin w1) as [[u|e] w2]; simpl in *; eapply store_rel_trans; eassumption.
Qed.

Lemma respects_forEach {A} (l : list A) (body : A -> M unit) :
  (forall x, respects step (body x)) -> respects step (forEach l body).
Proof.
  intros Hb. induction l as [|x l IH]; simpl.
  - apply respects_frame, frame_ret.
  - apply respects_bind; auto.
Qed.

Lemma respects_update n p :
  (forall r now, step r (updated r p now)) ->
  respects step (StateManager.updateRepoStatus env n p).
Proof.
  intros Hp w.
  destruct (updateRepoStatus_store env n p w)
    as [(_ & t & i & r & now & Et & _ & Hi & _ & _ & Hw') | (_ & Hw')].
  - unfold store_rel. rewrite Et, Hw'. eapply Forall2_insert_step; eauto.
  - now apply store_rel_frame.
Qed.

Lemma respects_markAsError n msg :
  (forall r now, step r (updated r (errorPatch msg (retry_count r + 1)) now)) ->
  respects step (StateManager.markAsError env n msg).
Proof.
  intros Hp w. unfold StateManager.markAsError, after.
  destruct (repos_json w) as [t|] eqn:Et.
  2:{ unfold bind, StateManager.loadRepos, tryCatch, readReposFile, throw.
      rewrite Et. simpl. unfold store_rel. now rewrite Et. }
  rewrite (bind_ok _ _ _ _ _ (loadRepos_run env w t Et)).
  match goal with
  | |- store_rel _ _ (snd (StateManager.updateRepoStatus _ _ ?p _)) => set (patch := p)
  end.
  destruct (updateRepoStatus_store env n patch w)
    as [(_ & t' & i & r & now & Et' & _ & Hi & Hfind & _ & Hw') | (_ & Hw')].
  - assert (t' = t) as -> by congruence.
    unfold after in Hw'. unfold store_rel. rewrite Et, Hw'.
    eapply Forall2_insert_step; [exact Hi|].
    subst patch. rewrite Hfind. apply Hp.
  - now apply store_rel_frame.
Qed.

Lemma respects_reset :
  (forall r, step r (StateManager.stopProcessing r)) ->
  respects step (StateManager.resetProcessingRepos env).
Proof.
  intros Hs w. unfold StateManager.resetProcessingRepos, after.
  destruct (repos_json w) as [t|] eqn:Et.
  2:{ unfold bind, StateManager.loadRepos, tryCatch, readReposFile, throw.
      rewrite Et. simpl. unfold store_rel. now rewrite Et. }
  rewrite (bind_ok _ _ _ _ _ (loadRepos_run env w t Et)).
  rewrite stopProcessing_map.
  destruct (0 <? length (List.filter processing t))%nat.
  - unfold bind, StateManager.saveRepos, tryCatch, writeReposFile, throw.
    destruct (fs_write env (tick w) (StateManager.reposFilePath env)); simpl.
    + unfold store_rel. rewrite Et. simpl. now apply Forall2_map_step.
    + apply store_rel_frame. reflexivity.
  - simpl. now apply store_rel_frame.
Qed.

End Respects.
Section FrameMore.
Context (env : Env).

Lemma frame_loadRepos : frame (StateManager.loadRepos env).
Proof.
  unfold StateManager.loadRepos. frame_auto.
  intros w. unfold after, readReposFile. destruct (repos_json w) eqn:E; simpl; congruence.
Qed.

Lemma frame_getPendingRepos : frame (StateManager.getPendingRepos env).
Proof. unfold StateManager.getPendingRepos. frame_auto. apply frame_loadRepos. Qed.

Lemma frame_getFailedRepos : frame (StateManager.getFailedRepos env).
Proof. unfold StateManager.getFailedRepos. frame_auto. apply frame_loadRepos. Qed.

Lemma frame_getStatistics : frame (StateManager.getStatistics env).
Proof. unfold StateManager.getStatistics. frame_auto. apply frame_loadRepos. Qed.

Lemma frame_writeJson p t : frame (writeJson env p t).
Proof. intros w. unfold after, writeJson. destruct (fs_write env _ _); reflexivity. Qed.

Lemma frame_backup : frame (StateManager.backup env).
Proof.
  unfold StateManager.backup. frame_auto; first [apply frame_loadRepos | apply frame_writeJson].
Qed.

Lemma frame_ensureTempDir : frame (GitOperations.ensureTempDir env).
Proof. unfold GitOperations.ensureTempDir. frame_auto. Qed.

Lemma frame_checkDependencies : frame (GitOperations.checkDependencies env).
Proof. unfold GitOperations.checkDependencies. frame_auto. Qed.

Lemma frame_cleanupAll : frame (GitOperations.cleanupAll env).
Proof. unfold GitOperations.cleanupAll. frame_auto. Qed.

Lemma frame_checkRateLimit e : frame (Utils.checkRateLimit env e).
Proof. unfold Utils.checkRateLimit. frame_auto. Qed.

Lemma frame_showStatistics : frame (Migrator.showStatistics env).
Proof. unfold Migrator.showStatistics. frame_auto. apply frame_getStatistics. Qed.

Lemma frame_showFailedRepos : frame (Migrator.showFailedRepos env).
Proof. unfold Migrator.showFailedRepos. frame_auto. apply frame_getFailedRepos. Qed.

Lemma frame_bumpProcessed : frame Migrator.bumpProcessed.
Proof. unfold Migrator.bumpProcessed. frame_auto. Qed.

Lemma frame_bumpSucceeded : frame Migrator.bumpSucceeded.
Proof. unfold Migrator.bumpSucceeded. frame_auto. Qed.

Lemma frame_bumpFailed : frame Migrator.bumpFailed.
Proof. unfold Migrator.bumpFailed. frame_auto. Qed.

Lemma frame_enableLFS_if n i :
  frame (if LFSManager.hasLFS i && (0 <? length (LFSManager.lfsFileNames i))%nat
         then tryCatch (GitHubAPI.enableLFS env n) (fun _ => ret tt)
         else ret tt).
Proof. destruct (_ && _); frame_auto. apply frame_enableLFS. Qed.

(** The clean-up of the [catch] block of [migrateRepository]. *)
Lemma frame_release n cr :
  frame (tryCatch
           (do* match cr with
                | Some r0 =>
                    if negb (GitHubAPI.skipped r0)
                    then GitHubAPI.deleteRepository env n
                    else ret tt
                | None => GitHubAPI.deleteRepository env n
                end in
            GitOperations.cleanupRepo env n)
           (fun _ => ret tt)).
Proof. frame_auto; first [apply frame_deleteRepository | apply frame_cleanupRepo]. Qed.

End FrameMore.

Section RespectsRun.
Context (env : Env) (step : Repo -> Repo -> Prop).
Hypothesis step_refl : forall r, step r r.
Hypothesis step_trans : forall a b c, step a b -> step b c -> step a c.
Hypothesis step_processing : forall r now, step r (updated r processingPatch now).
Hypothesis step_completed :
  forall r createdAt now1 now, step r (updated r (completedPatch createdAt now1) now).
Hypothesis step_error :
  forall r msg now, step r (updated r (errorPatch msg (retry_count r + 1)) now).
Hypothesis step_notProcessing : forall r now, step r (updated r notProcessingPatch now).
Hypothesis step_clear : forall r now, step r (updated r clearPatch now).
Hypothesis step_stop : forall r, step r (StateManager.stopProcessing r).

Lemma respects_markAsCompleted n c :
  respects step (StateManager.markAsCompleted env n c).
Proof.
  unfold StateManager.markAsCompleted.
  apply respects_bind; [assumption | apply respects_frame; [assumption | apply frame_nowISO] |].
  intros now. apply respects_update; [assumption|]. intros. apply step_completed.
Qed.

Lemma respects_migrationFailed n cr e :
  respects step (Migrator.migrationFailed env n cr e).
Proof.
  unfold Migrator.migrationFailed.
  apply respects_bind;
    [assumption | apply respects_frame; [assumption | apply frame_bumpFailed] | intros _].
  apply respects_bind;
    [assumption | apply respects_frame; [assumption | apply frame_release] | intros _].
  apply respects_bind; [assumption | | intros _].
  - apply respects_markAsError; [assumption|]. intros. apply step_error.
  - apply respects_frame; [assumption | apply frame_throw].
Qed.

Lemma respects_migrateSteps n b cr :
  respects step (Migrator.migrateSteps env n b cr).
Proof.
  unfold Migrator.migrateSteps.
  apply respects_bind;
    [assumption | apply respects_frame; [assumption | apply frame_clone] | intros _].
  apply respects_bind;
    [assumption | apply respects_frame; [assumption | apply frame_handleLFS] | intros i].
  cbv zeta.
  apply respects_bind;
    [assumption | apply respects_frame; [assumption | apply frame_enableLFS_if] | intros _].
  apply respects_bind;
    [assumption | apply respects_frame; [assumption | apply frame_push] | intros _].
  apply respects_bind;
    [assumption | apply respects_frame; [assumption | apply frame_cleanupRepo] | intros _].
  apply respects_bind; [assumption | apply respects_markAsCompleted | intros _].
  apply respects_frame; [assumption | apply frame_bumpSucceeded].
Qed.

Lemma respects_migrateRepository repo :
  respects step (Migrator.migrateRepository env repo).
Proof.
  unfold Migrator.migrateRepository.
  apply respects_tryFinally; [assumption | |
    apply respects_frame; [assumption | apply frame_bumpProcessed]].
  intros w. unfold after. rewrite bind_attempt.
  match goal with
  | |- context [fst (?m w)] =>
      assert (Hm : respects step m);
      [| specialize (Hm w); unfold after in Hm; destruct (m w) as [created wa] ]
  end.
  { apply respects_bind; [assumption | | intros _].
    - apply respects_update; [assumption|]. intros. apply step_processing.
    - apply respects_frame; [assumption | apply frame_retry_create]. }
  cbn [fst snd] in *.
  eapply store_rel_trans; [assumption | exact Hm |].
  destruct created as [cr|e].
  - apply (respects_tryCatch step step_trans); [apply respects_migrateSteps|].
    intros e. apply respects_migrationFailed.
  - apply respects_migrationFailed.
Qed.

Lemma respects_afterFailure repo e :
  respects step (Migrator.afterFailure env repo e).
Proof.
  unfold Migrator.afterFailure.
  apply respects_bind;
    [assumption | apply respects_frame; [assumption | apply frame_checkRateLimit] |].
  intros [rl|]; [|apply respects_frame; [assumption | apply frame_ret]].
  apply respects_bind; [assumption | | intros _].
  - apply respects_frame; [assumption|]. frame_auto.
  - apply respects_tryCatch; [assumption | apply respects_migrateRepository |].
    intros _. apply respects_update; [assumption|]. intros. apply step_notProcessing.
Qed.

Lemma respects_migrateFrom i repos :
  respects step (Migrator.migrateFrom env i repos).
Proof.
  revert i. induction repos as [|repo rest IH]; intros i; simpl.
  - apply respects_frame; [assumption | apply frame_ret].
  - apply respects_bind; [assumption | | intros _; apply IH].
    unfold Migrator.migrateOne.
    apply respects_tryCatch; [assumption | | intros e; apply respects_afterFailure].
    apply respects_bind; [assumption | apply respects_migrateRepository | intros _].
    apply respects_frame; [assumption|]. frame_auto.
Qed.

Lemma respects_cleanup : respects step (Migrator.cleanup env).
Proof.
  unfold Migrator.cleanup.
  apply respects_tryCatch; [assumption | |
    intros _; apply respects_frame; [assumption | apply frame_ret]].
  apply respects_bind;
    [assumption | apply respects_frame; [assumption | apply frame_cleanupAll] | intros _].
  apply respects_bind; [assumption | now apply respects_reset | intros _].
  apply respects_frame; [assumption | apply frame_ret].
Qed.

(** The part of [migrate] before the [finally] block. *)
Lemma respects_migrate_main :
  respects step
    (tryCatch
       (do* GitOperations.checkDependencies env in
        do* StateManager.resetProcessingRepos env in
        do* StateManager.backup env in
        do* GitOperations.ensureTempDir env in
        let* pendingRepos := StateManager.getPendingRepos env in
        if (length pendingRepos =? 0)%nat then Migrator.showStatistics env
        else
          do* Migrator.showStatistics env in
          Migrator.migrateFrom env 0 pendingRepos)
       (fun error => throw error)).
Proof.
  apply respects_tryCatch; [assumption | |
    intros e; apply respects_frame; [assumption | apply frame_throw]].
  apply respects_bind;
    [assumption | apply respects_frame; [assumption | apply frame_checkDependencies]
    | intros _].
  apply respects_bind; [assumption | now apply respects_reset | intros _].
  apply respects_bind;
    [assumption | apply respects_frame; [assumption | apply frame_backup] | intros _].
  apply respects_bind;
    [assumption | apply respects_frame; [assumption | apply frame_ensureTempDir]
    | intros _].
  apply respects_bind;
    [assumption | apply respects_frame; [assumption | apply frame_getPendingRepos]
    | intros pendingRepos].
  destruct (length pendingRepos =? 0)%nat.
  - apply respects_frame; [assumption | apply frame_showStatistics].
  - apply respects_bind;
      [assumption | apply respects_frame; [assumption | apply frame_showStatistics]
      | intros _].
    apply respects_migrateFrom.
Qed.

Lemma respects_migrate : respects step (Migrator.migrate env).
Proof.
  unfold Migrator.migrate.
  apply respects_tryFinally; [assumption | apply respects_migrate_main |].
  apply respects_bind;
    [assumption | apply respects_frame; [assumption | apply frame_showStatistics]
    | intros _].
  apply respects_bind;
    [assumption | apply respects_frame; [assumption | apply frame_showFailedRepos]
    | intros _].
  apply respects_cleanup.
Qed.

Lemma respects_retryFailed : respects step (Migrator.retryFailed env).
Proof.
  unfold Migrator.retryFailed.
  apply respects_bind;
    [assumption | apply respects_frame; [assumption | apply frame_getFailedRepos]
    | intros failedRepos].
  destruct (length failedRepos =? 0)%nat.
  - apply respects_frame; [assumption | apply frame_ret].
  - apply respects_bind; [assumption | | intros _; apply respects_migrate].
    apply respects_forEach; [assumption | assumption |]. intros repo.
    apply respects_update; [assumption|]. intros. apply step_clear.
Qed.

End RespectsRun.
Section RecordSteps.

Lemma record_step_refl r : record_step r r.
Proof. unfold record_step. repeat split; auto. lia. Qed.

Lemma record_step_trans a b c : record_step a b -> record_step b c -> record_step a c.
Proof.
  unfold record_step. intros (Hn & Hb & Ht & Hr) (Hn' & Hb' & Ht' & Hr').
  repeat split; [congruence | congruence | auto | lia].
Qed.

Lemma record_kept_refl r : record_kept r r.
Proof. unfold record_kept. repeat split; auto. Qed.

Lemma record_kept_trans a b c : record_kept a b -> record_kept b c -> record_kept a c.
Proof.
  unfold record_kept. intros (Hn & Hb & Ht) (Hn' & Hb' & Ht').
  repeat split; [congruence | congruence | auto].
Qed.

Lemma record_step_kept r r' : record_step r r' -> record_kept r r'.
Proof. unfold record_step, record_kept. tauto. Qed.

Lemma step_of_patch r p now :
  StateManager.p_transferred p <> Some false ->
  (forall n, StateManager.p_retry_count p = Some n -> (retry_count r <= n)%Z) ->
  record_step r (updated r p now).
Proof.
  intros Ht Hr. unfold record_step, updated.
  destruct p as [pt pp pc ppu pe pr]. simpl in *.
  destruct pt as [[|]|]; try congruence; simpl;
    (repeat split; auto; destruct pr as [n|]; simpl; [apply Hr; reflexivity | lia]).
Qed.

Lemma kept_of_patch r p now :
  StateManager.p_transferred p <> Some false -> record_kept r (updated r p now).
Proof.
  intros Ht. unfold record_kept, updated.
  destruct p as [pt pp pc ppu pe pr]. simpl in *.
  destruct pt as [[|]|]; try congruence; simpl; repeat split; auto.
Qed.

Lemma step_stop r : record_step r (StateManager.stopProcessing r).
Proof. unfold record_step. simpl. repeat split; auto. lia. Qed.

End RecordSteps.

(** X3.  A run of [migrate] never loses, adds, renames or reorders a
    record of the store: the table afterwards has the records of the table
    before, one by one, with the same name and branch; a repository that
    was transferred is still transferred, and no count of failed attempts
    has gone down.  A run of [retryFailed] keeps the same but for the
    counts, which it resets.  (A store that cannot be read stays so.) *)
Theorem run_keeps_the_records (env : Env) (w : World) :
  store_rel record_step w (after (Migrator.migrate env) w)
  /\ store_rel record_kept w (after (Migrator.retryFailed env) w).
Proof.
  split.
  - apply (respects_migrate env record_step record_step_refl record_step_trans).
    + intros. apply step_of_patch; simpl; congruence.
    + intros. apply step_of_patch; simpl; congruence.
    + intros. apply step_of_patch; simpl; [congruence|].
      intros n [= <-]. lia.
    + intros. apply step_of_patch; simpl; congruence.
    + apply step_stop.
  - apply (respects_retryFailed env record_kept record_kept_refl record_kept_trans).
    + intros. apply kept_of_patch; simpl; congruence.
    + intros. apply kept_of_patch; simpl; congruence.
    + intros. apply kept_of_patch; simpl; congruence.
    + intros. apply kept_of_patch; simpl; congruence.
    + intros. apply kept_of_patch; simpl; congruence.
    + intros. apply record_step_kept, step_stop.
Qed.
Section FinalBlock.
Context (env : Env).

Lemma frame_run {A} (m : M A) w r w' :
  frame m -> m w = (r, w') -> repos_json w' = repos_json w.
Proof. intros Hf Hrun. specialize (Hf w). unfold after in Hf. now rewrite Hrun in Hf. Qed.

Lemma showStatistics_run w t :
  repos_json w = Some t ->
  exists w', Migrator.showStatistics env w = (Ok tt, w') /\ repos_json w' = Some t.
Proof.
  intros Et.
  unfold Migrator.showStatistics, StateManager.getStatistics, StateManager.loadRepos,
    bind, tryCatch, readReposFile, nowMs, ret.
  rewrite Et. simpl.
  destruct (_ && _); simpl; eexists; (split; [reflexivity | exact Et]).
Qed.

Lemma showFailedRepos_run w t :
  repos_json w = Some t -> Migrator.showFailedRepos env w = (Ok tt, w).
Proof.
  intros Et. unfold Migrator.showFailedRepos, StateManager.getFailedRepos.
  unfold bind at 1. unfold bind at 1.
  now rewrite (loadRepos_run env w t Et).
Qed.

Lemma cleanupAll_returns w :
  exists w', GitOperations.cleanupAll env w = (Ok tt, w')
             /\ repos_json w' = repos_json w.
Proof.
  destruct (tryCatch_returns
              (let* files := readdir env (GitOperations.tempDir env) in
               forEach files (fun file => rm env (path_join (GitOperations.tempDir env) file)))
              (fun _ => tt) w) as ([] & w' & Hrun).
  exists w'. split; [exact Hrun|].
  exact (frame_run _ _ _ _ (frame_cleanupAll env) Hrun).
Qed.

(** The clean-up at the end of a run, on a store that can be read and
    written. *)
Lemma cleanup_run w t :
  writable env ->
  repos_json w = Some t ->
  exists w', Migrator.cleanup env w = (Ok tt, w')
             /\ repos_json w' = Some (map StateManager.stopProcessing t).
Proof.
  intros Hwrite Et. unfold Migrator.cleanup, tryCatch.
  destruct (cleanupAll_returns w) as (w1 & Hrun1 & Hjson1).
  rewrite (bind_ok _ _ _ _ _ Hrun1).
  rewrite Et in Hjson1.
  destruct (reset_run env w1 t Hwrite Hjson1) as (w2 & Hrun2 & Hjson2 & _).
  rewrite (bind_ok _ _ _ _ _ Hrun2). simpl. eauto.
Qed.

End FinalBlock.

(** X4.  With a store that can be read and written, [migrate] leaves no
    record marked as being processed, whether it returns or throws and
    whatever happened to the repositories it attempted. *)
Theorem nothing_left_processing (env : Env) (w : World) (t : list Repo) :
  writable env ->
  repos_json w = Some t ->
  Forall (fun r => processing r = false) (table (after (Migrator.migrate env) w)).
Proof.
  intros Hwrite Et. unfold Migrator.migrate, after, tryFinally.
  match goal with
  | |- context [tryCatch ?m ?h w] =>
      assert (Hmain : respects (fun _ _ => True) (tryCatch m h))
        by (apply respects_migrate_main; intros; exact I);
      specialize (Hmain w); unfold after in Hmain;
      destruct (tryCatch m h w) as [r w1]
  end.
  cbn [snd] in Hmain. unfold store_rel in Hmain. rewrite Et in Hmain.
  destruct (repos_json w1) as [t1|] eqn:Et1; [clear Hmain | contradiction].
  destruct (showStatistics_run env w1 t1 Et1) as (w2 & Hrun2 & Et2).
  rewrite (bind_ok _ _ _ _ _ Hrun2).
  rewrite (bind_ok _ _ _ _ _ (showFailedRepos_run env w2 t1 Et2)).
  destruct (cleanup_run env w2 t1 Hwrite Et2) as (w3 & Hrun3 & Et3).
  rewrite Hrun3. cbn [snd]. unfold table. rewrite Et3. apply stopProcessing_all.
Qed.

(** The run that takes up the interrupted store, where every interaction
    succeeds. *)
Lemma nothing_left_processing_witness :
  Forall (fun r => processing r = false)
         (table (after (Migrator.migrate quietEnv) interruptedStore)).
Proof.
  exact (nothing_left_processing quietEnv interruptedStore _ (fun _ _ => eq_refl) eq_refl).
Defined.

(* ================================================================== *)
(** * The counters of a run *)
(* ================================================================== *)

Section Idle.
Context (env : Env).

Lemma idle_ret {A} (a : A) : idle (ret a).
Proof. intros w. reflexivity. Qed.

Lemma idle_throw {A} e : idle (@throw A e).
Proof. intros w. reflexivity. Qed.

Lemma idle_liftR {A} (r : Result A) : idle (liftR r).
Proof. intros w. reflexivity. Qed.

Lemma idle_bind {A B} (m : M A) (k : A -> M B) :
  idle m -> (forall a, idle (k a)) -> idle (bind m k).
Proof.
  intros Hm Hk w. specialize (Hm w). unfold after, bind in *.
  destruct (m w) as [[a|e] w1]; simpl in Hm; [|assumption].
  rewrite <- Hm. apply Hk.
Qed.

Lemma idle_tryCatch {A} (m : M A) (h : JsError -> M A) :
  idle m -> (forall e, idle (h e)) -> idle (tryCatch m h).
Proof.
  intros Hm Hh w. specialize (Hm w). unfold after, tryCatch in *.
  destruct (m w) as [[a|e] w1]; simpl in Hm; [assumption|].
  rewrite <- Hm. apply Hh.
Qed.

Lemma idle_tryFinally {A} (m : M A) (fin : M unit) :
  idle m -> idle fin -> idle (tryFinally m fin).
Proof.
  intros Hm Hf w. specialize (Hm w). unfold after, tryFinally in *.
  destruct (m w) as [r w1]. simpl in Hm. specialize (Hf w1). unfold after in Hf.
  destruct (fin w1) as [[u|e] w2]; simpl in *; congruence.
Qed.

Lemma idle_attempt {A} (m : M A) : idle m -> idle (attempt m).
Proof.
  intros Hm w. specialize (Hm w). unfold after, attempt in *.
  destruct (m w) as [r w1]. assumption.
Qed.

Lemma idle_forEach {A} (l : list A) (body : A -> M unit) :
  (forall x, idle (body x)) -> idle (forEach l body).
Proof.
  intros Hb. induction l as [|x l IH]; simpl; [apply idle_ret|].
  apply idle_bind; auto.
Qed.

Lemma idle_foldM {A S} (body : S -> A -> M S) (l : list A) (s : S) :
  (forall s x, idle (body s x)) -> idle (foldM body l s).
Proof.
  intros Hb. revert s. induction l as [|x l IH]; intros s; simpl; [apply idle_ret|].
  apply idle_bind; auto.
Qed.

Lemma idle_getCwd : idle getCwd.
Proof. intros w. reflexivity. Qed.

Lemma idle_chdir d : idle (chdir env d).
Proof. intros w. unfold after, chdir. destruct (chdir_ok env (tick w) d); reflexivity. Qed.

Lemma idle_execSync cmd : idle (execSync env cmd).
Proof. intros w. unfold after, execSync. destruct (exec env _ _ _); reflexivity. Qed.

Lemma idle_execSyncIn d cmd : idle (execSyncIn env d cmd).
Proof. intros w. unfold after, execSyncIn. destruct (exec env _ _ _); reflexivity. Qed.

Lemma idle_access p : idle (access env p).
Proof. intros w. unfold after, access. destruct (fs_access env _ _); reflexivity. Qed.

Lemma idle_statSize p : idle (statSize env p).
Proof. intros w. unfold after, statSize. destruct (fs_stat env _ _); reflexivity. Qed.

Lemma idle_writeFile p c : idle (writeFile env p c).
Proof. intros w. unfold after, writeFile. destruct (fs_write env _ _); reflexivity. Qed.

Lemma idle_mkdir p : idle (mkdir env p).
Proof. intros w. unfold after, mkdir. destruct (fs_mkdir env _ _); reflexivity. Qed.

Lemma idle_rm p : idle (rm env p).
Proof. intros w. unfold after, rm. destruct (fs_rm env _ _); reflexivity. Qed.

Lemma idle_readdir p : idle (readdir env p).
Proof. intros w. unfold after, readdir. destruct (fs_readdir env _ _); reflexivity. Qed.

Lemma idle_globFiles p o : idle (globFiles env p o).
Proof. intros w. unfold after, globFiles. destruct (glob env _ _ _); reflexivity. Qed.

Lemma idle_request m u b : idle (request env m u b).
Proof. intros w. unfold after, request. destruct (http env _ _ _ _); reflexivity. Qed.

Lemma idle_nowISO : idle (nowISO env).
Proof. intros w. reflexivity. Qed.

Lemma idle_nowMs : idle (nowMs env).
Proof. intros w. reflexivity. Qed.

Lemma idle_delay ms : idle (delay ms).
Proof. intros w. reflexivity. Qed.

Lemma idle_readSettingsFile p : idle (readSettingsFile env p).
Proof.
  intros w. unfold after, readSettingsFile. destruct (read_settings env _ _); reflexivity.
Qed.

Lemma idle_getSettings : idle getSettings.
Proof. intros w. reflexivity. Qed.

Lemma idle_setSettings t : idle (setSettings t).
Proof. intros w. reflexivity. Qed.

Lemma idle_getStats : idle getStats.
Proof. intros w. reflexivity. Qed.

Lemma idle_readReposFile p : idle (readReposFile p).
Proof. intros w. unfold after, readReposFile. destruct (repos_json w); reflexivity. Qed.

Lemma idle_writeReposFile p t : idle (writeReposFile env p t).
Proof. intros w. unfold after, writeReposFile. destruct (fs_write env _ _); reflexivity. Qed.

Lemma idle_writeJson p t : idle (writeJson env p t).
Proof. intros w. unfold after, writeJson. destruct (fs_write env _ _); reflexivity. Qed.

Lemma idle_retryLoop {A} (fn : M A) n d : idle fn -> idle (Utils.retryLoop fn n d).
Proof.
  intros Hfn. induction n as [|k IH]; simpl; [apply idle_throw|].
  apply idle_tryCatch; [assumption|]. intros e.
  destruct k; [apply idle_throw|].
  apply idle_bind; [apply idle_delay | intros _; exact IH].
Qed.

End Idle.

(** One step of a proof that the counters are left alone. *)
Ltac idle_step :=
  match goal with
  | |- idle (ret _) => apply idle_ret
  | |- idle (throw _) => apply idle_throw
  | |- idle (liftR _) => apply idle_liftR
  | |- idle getCwd => apply idle_getCwd
  | |- idle getSettings => apply idle_getSettings
  | |- idle (setSettings _) => apply idle_setSettings
  | |- idle getStats => apply idle_getStats
  | |- idle (chdir _ _) => apply idle_chdir
  | |- idle (execSync _ _) => apply idle_execSync
  | |- idle (execSyncIn _ _ _) => apply idle_execSyncIn
  | |- idle (access _ _) => apply idle_access
  | |- idle (statSize _ _) => apply idle_statSize
  | |- idle (writeFile _ _ _) => apply idle_writeFile
  | |- idle (mkdir _ _) => apply idle_mkdir
  | |- idle (rm _ _) => apply idle_rm
  | |- idle (readdir _ _) => apply idle_readdir
  | |- idle (globFiles _ _ _) => apply idle_globFiles
  | |- idle (request _ _ _ _) => apply idle_request
  | |- idle (nowISO _) => apply idle_nowISO
  | |- idle (nowMs _) => apply idle_nowMs
  | |- idle (delay _) => apply idle_delay
  | |- idle (readSettingsFile _ _) => apply idle_readSettingsFile
  | |- idle (readReposFile _) => apply idle_readReposFile
  | |- idle (writeReposFile _ _ _) => apply idle_writeReposFile
  | |- idle (writeJson _ _ _) => apply idle_writeJson
  | |- idle (bind _ _) => apply idle_bind; [|intros]
  | |- idle (tryCatch _ _) => apply idle_tryCatch; [|intros]
  | |- idle (tryFinally _ _) => apply idle_tryFinally
  | |- idle (attempt _) => apply idle_attempt
  | |- idle (forEach _ _) => apply idle_forEach; intros
  | |- idle (foldM _ _ _) => apply idle_foldM; intros
  | |- idle (Utils.retryLoop _ _ _) => apply idle_retryLoop
  | |- idle (match ?x with _ => _ end) => destruct x
  | |- idle ((match ?x with _ => _ end) _) => destruct x
  | |- idle _ => progress cbv beta zeta
  end.

Ltac idle_auto := repeat idle_step.

Section IdleOperations.
Context (env : Env).

Lemma idle_loadSettings : idle (LFSManager.loadSettings env).
Proof. unfold LFSManager.loadSettings. idle_auto. Qed.

Lemma idle_getExistingLFSFiles p : idle (LFSManager.getExistingLFSFiles env p).
Proof. unfold LFSManager.getExistingLFSFiles. idle_auto. Qed.

Lemma idle_autoDetect p : idle (LFSManager.autoDetectLFSFiles env p).
Proof.
  unfold LFSManager.autoDetectLFSFiles, LFSManager.addIfOversized,
    LFSManager.isFileOversized.
  idle_auto.
Qed.

Lemma idle_detect p : idle (LFSManager.detectLargeFilesInHistory env p).
Proof.
  unfold LFSManager.detectLargeFilesInHistory, LFSManager.scanCommit. idle_auto.
Qed.

Lemma idle_scanLFSFiles p n : idle (LFSManager.scanLFSFiles env p n).
Proof.
  unfold LFSManager.scanLFSFiles, LFSManager.scanWorkingTree,
    LFSManager.scanConfiguredFiles, LFSManager.scanPatterns.
  idle_auto; try apply idle_autoDetect; try apply idle_detect.
Qed.

Lemma idle_setupLFS_afterScan p n sr : idle (LFSManager.setupLFS_afterScan env p n sr).
Proof.
  unfold LFSManager.setupLFS_afterScan, LFSManager.migrateImport,
    LFSManager.reprocessFile, LFSManager.forceConvert.
  idle_auto.
Qed.

Lemma idle_setupLFS p n : idle (LFSManager.setupLFS env p n).
Proof.
  unfold LFSManager.setupLFS.
  idle_auto; try apply idle_loadSettings; try apply idle_scanLFSFiles;
    try apply idle_setupLFS_afterScan.
Qed.

Lemma idle_cleanupRepo n : idle (GitOperations.cleanupRepo env n).
Proof. unfold GitOperations.cleanupRepo. idle_auto. Qed.

Lemma idle_clone n b : idle (GitOperations.cloneBitbucketRepo env n b).
Proof.
  unfold GitOperations.cloneBitbucketRepo. idle_auto; try apply idle_cleanupRepo.
Qed.

Lemma idle_handleLFS n : idle (GitOperations.handleLFS env n).
Proof.
  unfold GitOperations.handleLFS, GitOperations.fetchLFS.
  idle_auto; try apply idle_loadSettings; try apply idle_getExistingLFSFiles;
    try apply idle_setupLFS.
Qed.

Lemma idle_push n b i : idle (GitOperations.pushToGitHub env n b i).
Proof. unfold GitOperations.pushToGitHub. idle_auto. Qed.

Lemma idle_enableLFS n : idle (GitHubAPI.enableLFS env n).
Proof. unfold GitHubAPI.enableLFS. idle_auto. Qed.

Lemma idle_deleteRepository n : idle (GitHubAPI.deleteRepository env n).
Proof. unfold GitHubAPI.deleteRepository. idle_auto. Qed.

Lemma idle_createRepository n l : idle (GitHubAPI.createRepository env n l).
Proof.
  unfold GitHubAPI.createRepository, GitHubAPI.repositoryExists,
    GitHubAPI.isRepositoryEmpty, GitHubAPI.getRepository.
  idle_auto; try apply idle_enableLFS.
Qed.

Lemma idle_retry_create n :
  idle (Utils.retry (GitHubAPI.createRepository env n false) 3 2000).
Proof. unfold Utils.retry. apply idle_retryLoop, idle_createRepository. Qed.

Lemma idle_updateRepoStatus n p : idle (StateManager.updateRepoStatus env n p).
Proof.
  unfold StateManager.updateRepoStatus, StateManager.loadRepos, StateManager.saveRepos.
  idle_auto.
Qed.

Lemma idle_markAsCompleted n c : idle (StateManager.markAsCompleted env n c).
Proof.
  unfold StateManager.markAsCompleted. idle_auto. apply idle_updateRepoStatus.
Qed.

Lemma idle_markAsError n msg : idle (StateManager.markAsError env n msg).
Proof.
  unfold StateManager.markAsError, StateManager.loadRepos. idle_auto.
  apply idle_updateRepoStatus.
Qed.

Lemma idle_checkRateLimit e : idle (Utils.checkRateLimit env e).
Proof. unfold Utils.checkRateLimit. idle_auto. Qed.

Lemma idle_enableLFS_if n i :
  idle (if LFSManager.hasLFS i && (0 <? length (LFSManager.lfsFileNames i))%nat
        then tryCatch (GitHubAPI.enableLFS env n) (fun _ => ret tt)
        else ret tt).
Proof. destruct (_ && _); idle_auto. apply idle_enableLFS. Qed.

Lemma idle_release n cr :
  idle (tryCatch
          (do* match cr with
               | Some r0 =>
                   if negb (GitHubAPI.skipped r0)
                   then GitHubAPI.deleteRepository env n
                   else ret tt
               | None => GitHubAPI.deleteRepository env n
               end in
           GitOperations.cleanupRepo env n)
          (fun _ => ret tt)).
Proof. idle_auto; first [apply idle_deleteRepository | apply idle_cleanupRepo]. Qed.

End IdleOperations.
Section Counters.
Context (env : Env).

Lemma idle_run {A} (m : M A) w r w' : idle m -> m w = (r, w') -> stats w' = stats w.
Proof. intros Hi Hrun. specialize (Hi w). unfold after in Hi. now rewrite Hrun in Hi. Qed.

Lemma counts_bind {A B} (m : M A) (k : A -> M B) :
  idle m -> (forall a, counts_success (k a)) -> counts_success (bind m k).
Proof.
  intros Hm Hk w. specialize (Hm w). unfold after, outcome, bind in *.
  destruct (m w) as [[a|e] w1]; simpl in Hm.
  - specialize (Hk a w1). unfold after, outcome in Hk. now rewrite Hm in Hk.
  - simpl. exact Hm.
Qed.

Lemma counts_bumpSucceeded : counts_success Migrator.bumpSucceeded.
Proof. intros w. reflexivity. Qed.

Lemma counts_migrateSteps n b cr : counts_success (Migrator.migrateSteps env n b cr).
Proof.
  unfold Migrator.migrateSteps.
  apply counts_bind; [apply idle_clone | intros _].
  apply counts_bind; [apply idle_handleLFS | intros i]. cbv zeta.
  apply counts_bind; [apply idle_enableLFS_if | intros _].
  apply counts_bind; [apply idle_push | intros _].
  apply counts_bind; [apply idle_cleanupRepo | intros _].
  apply counts_bind; [apply idle_markAsCompleted | intros _].
  apply counts_bumpSucceeded.
Qed.

(** A computation that ends with a [throw] never returns. *)
Lemma bind_throws {A B} (m : M A) (k : A -> M B) :
  (forall a w, exists e w', k a w = (Throw e, w')) ->
  forall w, exists e w', bind m k w = (Throw e, w').
Proof.
  intros Hk w. unfold bind. destruct (m w) as [[a|e] w1]; [apply Hk | eauto].
Qed.

(** The [catch] block counts a failure and throws. *)
Lemma migrationFailed_counts n cr err w :
  exists e w',
    Migrator.migrationFailed env n cr err w = (Throw e, w')
    /\ stats w' = {| processed := processed (stats w);
                     succeeded := succeeded (stats w);
                     failed := failed (stats w) + 1 |}.
Proof.
  unfold Migrator.migrationFailed.
  unfold bind at 1, Migrator.bumpFailed at 1, bind at 1, getStats, setStats.
  match goal with
  | |- exists e w', ?rest ?w1 = _ /\ _ =>
      assert (Hidle : idle rest);
      [| assert (Hthrows : exists e w', rest w1 = (Throw e, w')) ]
  end.
  { apply idle_bind; [apply idle_release | intros _].
    apply idle_bind; [apply idle_markAsError | intros _; apply idle_throw]. }
  { apply bind_throws. intros _ w2. apply bind_throws. intros _ w3.
    unfold throw. eauto. }
  destruct Hthrows as (e & w' & Hrun).
  exists e, w'. split; [exact Hrun|].
  now rewrite (idle_run _ _ _ _ Hidle Hrun).
Qed.

Lemma idle_creation n :
  idle (do* StateManager.markAsProcessing env n in
        Utils.retry (GitHubAPI.createRepository env n false) 3 2000).
Proof.
  idle_auto; [apply idle_updateRepoStatus | apply idle_retry_create].
Qed.

(** One attempt counts once: as processed, and as succeeded when it
    returns, as failed when it throws. *)
Lemma migrateRepository_counts repo w :
  stats (after (Migrator.migrateRepository env repo) w)
  = match outcome (Migrator.migrateRepository env repo) w with
    | Ok _ => oneSucceeded (stats w)
    | Throw _ => oneFailed (stats w)
    end.
Proof.
  unfold after, outcome, Migrator.migrateRepository, tryFinally.
  rewrite bind_attempt.
  pose proof (idle_creation (name repo) w) as Hpre. unfold after in Hpre.
  destruct ((do* StateManager.markAsProcessing env (name repo) in
             Utils.retry (GitHubAPI.createRepository env (name repo) false) 3 2000) w)
    as [created wa].
  cbn [fst snd] in *.
  assert (Hbody : forall r w1,
             match created with
             | Ok createResult =>
                 tryCatch (Migrator.migrateSteps env (name repo) (branch repo) createResult)
                          (Migrator.migrationFailed env (name repo) (Some createResult))
             | Throw error => Migrator.migrationFailed env (name repo) None error
             end wa = (r, w1) ->
             stats w1 = match r with
                        | Ok _ => {| processed := processed (stats w);
                                     succeeded := succeeded (stats w) + 1;
                                     failed := failed (stats w) |}
                        | Throw _ => {| processed := processed (stats w);
                                        succeeded := succeeded (stats w);
                                        failed := failed (stats w) + 1 |}
                        end).
  { intros r w1 Hrun. rewrite <- Hpre. destruct created as [cr|err].
    - unfold tryCatch in Hrun.
      pose proof (counts_migrateSteps (name repo) (branch repo) cr wa) as Hs.
      unfold after, outcome in Hs.
      destruct (Migrator.migrateSteps env (name repo) (branch repo) cr wa)
        as [[u|e0] wb]; cbn [fst snd] in Hs.
      + injection Hrun as <- <-. exact Hs.
      + destruct (migrationFailed_counts (name repo) (Some cr) e0 wb)
          as (e & w' & Hf & Hst).
        rewrite Hf in Hrun. injection Hrun as <- <-. now rewrite Hst, Hs.
    - destruct (migrationFailed_counts (name repo) None err wa) as (e & w' & Hf & Hst).
      rewrite Hf in Hrun. injection Hrun as <- <-. exact Hst. }
  match goal with
  | |- context [?body wa] =>
      match type of Hbody with
      | forall r w1, body wa = _ -> _ => destruct (body wa) as [r w1] eqn:Ebody
      end
  end.
  specialize (Hbody r w1 eq_refl).
  unfold Migrator.bumpProcessed, bind, getStats, setStats. cbn [fst snd].
  destruct r; simpl; rewrite Hbody; reflexivity.
Qed.

(** One iteration of the loop of [migrate] returns, whatever happened to
    the repository, and counts one attempt. *)
Lemma migrateOne_counts i repo w :
  exists w',
    Migrator.migrateOne env i repo w = (Ok tt, w')
    /\ (stats w' = oneSucceeded (stats w) \/ stats w' = oneFailed (stats w)).
Proof.
  unfold Migrator.migrateOne, tryCatch.
  pose proof (migrateRepository_counts repo w) as Hc. unfold after, outcome in Hc.
  unfold bind at 1.
  destruct (Migrator.migrateRepository env repo w) as [[[]|e] w1] eqn:Erun;
    cbn [fst snd] in Hc.
  - destruct ((i + 1) mod 5 =? 0)%nat; eexists; (split; [reflexivity|]); left; exact Hc.
  - rewrite (quota_branch_unreachable env repo w e w1 Erun).
    exists w1. split; [reflexivity|]. right. exact Hc.
Qed.

End Counters.

(** X5.  The loop of [migrate] over the pending repositories always runs
    to its end: the failure of a repository never stops it.  Each
    repository of the list is attempted exactly once and counted once, as
    succeeded or as failed: afterwards [processed] has grown by the length
    of the list, and so has the sum of [succeeded] and [failed], neither of
    which has gone down. *)
Theorem every_pending_repository_is_attempted (env : Env) (i : nat)
    (pendingRepos : list Repo) (w : World) :
  exists w',
    Migrator.migrateFrom env i pendingRepos w = (Ok tt, w')
    /\ processed (stats w') = (processed (stats w) + Z.of_nat (length pendingRepos))%Z
    /\ (succeeded (stats w') + failed (stats w')
        = succeeded (stats w) + failed (stats w) + Z.of_nat (length pendingRepos))%Z
    /\ (succeeded (stats w) <= succeeded (stats w'))%Z
    /\ (failed (stats w) <= failed (stats w'))%Z.
Proof.
  revert i w. induction pendingRepos as [|repo rest IH]; intros i w.
  - exists w. simpl. repeat split; lia.
  - cbn [Migrator.migrateFrom length].
    destruct (migrateOne_counts env i repo w) as (w1 & Hrun1 & Hst).
    rewrite (bind_ok _ _ _ _ _ Hrun1).
    destruct (IH (S i) w1) as (w' & Hrun & Hp & Hsf & Hs & Hf).
    exists w'. split; [exact Hrun|].
    destruct Hst as [Hst|Hst]; rewrite Hst in *; simpl in *; repeat split; lia.
Qed.

Section SuccessfulAttempt.
Context (env : Env).

Lemma bind_ok_inv {A B} (m : M A) (k : A -> M B) w b w' :
  bind m k w = (Ok b, w') ->
  exists a w1, m w = (Ok a, w1) /\ k a w1 = (Ok b, w').
Proof.
  unfold bind. destruct (m w) as [[a|e] w1]; [eauto | discriminate].
Qed.

(** When the steps after the creation return, the last thing done to the
    store was to mark the repository completed. *)
Lemma migrateSteps_ok n b cr w u w' :
  Migrator.migrateSteps env n b cr w = (Ok u, w') ->
  exists w5 w6,
    repos_json w5 = repos_json w
    /\ StateManager.markAsCompleted env n (GitHubAPI.createdAt cr) w5 = (Ok tt, w6)
    /\ repos_json w' = repos_json w6.
Proof.
  unfold Migrator.migrateSteps. intros H.
  apply bind_ok_inv in H as (a1 & w1 & H1 & H).
  apply bind_ok_inv in H as (lfsInfo & w2 & H2 & H). cbv zeta in H.
  apply bind_ok_inv in H as (a3 & w3 & H3 & H).
  apply bind_ok_inv in H as (a4 & w4 & H4 & H).
  apply bind_ok_inv in H as (a5 & w5 & H5 & H).
  apply bind_ok_inv in H as ([] & w6 & H6 & H).
  exists w5, w6. split; [|split; [exact H6|]].
  - rewrite (frame_run _ _ _ _ (frame_cleanupRepo env n) H5).
    rewrite (frame_run _ _ _ _ (frame_push env n b lfsInfo) H4).
    rewrite (frame_run _ _ _ _ (frame_enableLFS_if env n _) H3).
    rewrite (frame_run _ _ _ _ (frame_handleLFS env n) H2).
    exact (frame_run _ _ _ _ (frame_clone env n b) H1).
  - exact (frame_run _ _ _ _ (frame_bumpSucceeded) H).
Qed.

Lemma lookupRepo_emit n e w : lookupRepo n (emit e w) = lookupRepo n w.
Proof. reflexivity. Qed.

Lemma markAsCompleted_ok n c w w' :
  StateManager.markAsCompleted env n c w = (Ok tt, w') ->
  exists r now1 now,
    lookupRepo n w = Some r
    /\ lookupRepo n w' = Some (updated r (completedPatch c now1) now).
Proof.
  unfold StateManager.markAsCompleted. intros H.
  apply bind_ok_inv in H as (now1 & w1 & H1 & H).
  unfold nowISO in H1. injection H1 as <- <-.
  fold (completedPatch c (now_iso env (tick w))) in H.
  assert (Hok : outcome (StateManager.updateRepoStatus env n
                           (completedPatch c (now_iso env (tick w)))) (emit EvNow w) = Ok tt)
    by (unfold outcome; now rewrite H).
  destruct (updateRepoStatus_lookup env n _ _ Hok) as (r & now & Hr & _ & Hl).
  unfold after in Hl. rewrite H in Hl. exists r, (now_iso env (tick w)), now.
  split; [exact Hr | exact Hl].
Qed.

Lemma updateRepoStatus_ok n p w w' :
  StateManager.updateRepoStatus env n p w = (Ok tt, w') ->
  exists r now, lookupRepo n w = Some r /\ lookupRepo n w' = Some (updated r p now).
Proof.
  intros H.
  assert (Hok : outcome (StateManager.updateRepoStatus env n p) w = Ok tt)
    by (unfold outcome; now rewrite H).
  destruct (updateRepoStatus_lookup env n _ _ Hok) as (r & now & Hr & _ & Hl).
  unfold after in Hl. rewrite H in Hl. eauto.
Qed.

End SuccessfulAttempt.

(** X6.  When [migrateRepository] returns, the record of the repository
    (the first one of that name) was in the store before and is now marked
    completed: transferred, not being processed, without error, with the
    creation time reported by [createRepository] and a push time; its
    branch and its count of failed attempts are what they were. *)
Theorem successful_attempt_completes_the_record (env : Env) (repo : Repo)
    (w w' : World) :
  Migrator.migrateRepository env repo w = (Ok tt, w') ->
  exists r0 r',
    lookupRepo (name repo) w = Some r0
    /\ lookupRepo (name repo) w' = Some r'
    /\ transferred r' = true /\ processing r' = false /\ error r' = None
    /\ retry_count r' = retry_count r0
    /\ branch r' = branch r0
    /\ (exists createdAt, created_at r' = Some createdAt)
    /\ (exists pushedAt, pushed_at r' = Some pushedAt).
Proof.
  intros Hrun. unfold Migrator.migrateRepository, tryFinally in Hrun.
  rewrite bind_attempt in Hrun.
  destruct ((do* StateManager.markAsProcessing env (name repo) in
             Utils.retry (GitHubAPI.createRepository env (name repo) false) 3 2000) w)
    as [created wa] eqn:Epre.
  cbn [fst snd] in Hrun.
  destruct created as [cr|err].
  2:{ destruct (migrationFailed_counts env (name repo) None err wa) as (e & w1 & Hf & _).
      rewrite Hf in Hrun. unfold Migrator.bumpProcessed, bind, getStats, setStats in Hrun.
      discriminate Hrun. }
  unfold tryCatch in Hrun.
  destruct (Migrator.migrateSteps env (name repo) (branch repo) cr wa)
    as [[[]|e0] wb] eqn:Esteps.
  2:{ destruct (migrationFailed_counts env (name repo) (Some cr) e0 wb)
        as (e & w1 & Hf & _).
      rewrite Hf in Hrun. unfold Migrator.bumpProcessed, bind, getStats, setStats in Hrun.
      discriminate Hrun. }
  unfold Migrator.bumpProcessed, bind, getStats, setStats in Hrun.
  injection Hrun as <-.
  apply bind_ok_inv in Epre as ([] & wp & Hproc & Hcreate).
  apply updateRepoStatus_ok in Hproc as (r0 & now0 & Hr0 & Hlp).
  apply (frame_run _ _ _ _ (frame_retry_create env (name repo))) in Hcreate.
  apply migrateSteps_ok in Esteps as (w5 & w6 & H5 & Hdone & Hb).
  apply markAsCompleted_ok in Hdone as (r & now1 & now & Hr & Hl6).
  assert (Hr5 : lookupRepo (name repo) w5 = Some (updated r0 processingPatch now0)).
  { rewrite (lookupRepo_frame (name repo) wa w5 H5).
    rewrite (lookupRepo_frame (name repo) wp wa Hcreate). exact Hlp. }
  assert (r = updated r0 processingPatch now0) as -> by congruence.
  exists r0, (updated (updated r0 processingPatch now0) (completedPatch (GitHubAPI.createdAt cr) now1) now).
  split; [exact Hr0|]. split.
  - rewrite <- Hl6. apply lookupRepo_frame. exact Hb.
  - simpl. repeat split; eauto.
Qed.

(** A repository that is new to GitHub, in an environment where every
    step succeeds. *)
Lemma successful_attempt_completes_the_record_witness :
  exists w' r',
    Migrator.migrateRepository freshEnv (newRepo "r7") quotaStore = (Ok tt, w')
    /\ lookupRepo "r7" w' = Some r'
    /\ transferred r' = true /\ retry_count r' = 0%Z.
Proof.
  eexists.
  assert (Hrun : Migrator.migrateRepository freshEnv (newRepo "r7") quotaStore
                 = (Ok tt, _)) by (vm_compute; reflexivity).
  destruct (successful_attempt_completes_the_record freshEnv (newRepo "r7") quotaStore _ Hrun)
    as (r0 & r' & Hr0 & Hl & Ht & _ & _ & Hrc & _).
  exists r'. split; [exact Hrun|]. split; [exact Hl|]. split; [exact Ht|].
  injection Hr0 as <-. exact Hrc.
Defined.

(* ================================================================== *)
(** * The GitHub client and the utilities *)
(* ================================================================== *)

(** The events of a run whose trace is known. *)
Ltac events_known :=
  erewrite events_since_app by (simpl; rewrite <- ?app_assoc; reflexivity).

Ltac http_cases env :=
  repeat match goal with
         | |- context [http env ?t ?m ?u ?b] =>
             let o := fresh "o" in
             destruct (http env t m u b) as [o|o]; simpl
         | |- context [GitHubAPI.statusIs ?n ?e] => destruct (GitHubAPI.statusIs n e); simpl
         | |- context [GitHubAPI.alreadyExists ?e] =>
             destruct (GitHubAPI.alreadyExists e); simpl
         | |- context [match ?d with DataArray _ => _ | DataObject => _ end] =>
             destruct d as [[|?]|]; simpl
         end.

(** X7.  [createRepository] reports [skipped: false] exactly when it has
    created the repository: a POST of the API has succeeded during the call
    if and only if the call returns a result that is not [skipped].  So a
    result with [skipped: true] means that nothing was created, and a call
    that throws has created nothing either. *)
Theorem created_iff_not_skipped (env : Env) (n : string) (isLFS : bool) (w : World) :
  created (events_since w (after (GitHubAPI.createRepository env n isLFS) w))
  <-> exists cr,
        outcome (GitHubAPI.createRepository env n isLFS) w = Ok cr
        /\ GitHubAPI.skipped cr = false.
Proof.
  unfold created, outcome, after, GitHubAPI.createRepository, GitHubAPI.repositoryExists,
    GitHubAPI.isRepositoryEmpty, GitHubAPI.getRepository, GitHubAPI.enableLFS,
    tryCatch, bind, request, nowISO, ret, throw.
  simpl. destruct isLFS; http_cases env; events_known;
    (split;
     [ intros (url & body & d & Hin); simpl in Hin;
       repeat (destruct Hin as [Hin|Hin]; [try discriminate Hin|]);
       try contradiction; eauto
     | intros (cr & Hcr & Hsk); try discriminate Hcr;
       try (injection Hcr as <-; discriminate Hsk);
       do 3 eexists; simpl; eauto 10 ]).
Qed.
Section Retry.

Lemma delays_app a b : delays (a ++ b) = delays a ++ delays b.
Proof. unfold delays. apply flat_map_app. Qed.

(** [retry] with [n + 1] attempts to make: what it returns or throws is
    what an attempt returned or threw, and it pauses once after each failed
    attempt but the last. *)
Lemma retryLoop_run {A} (fn : M A) (n : nat) (d : Z) (w : World) :
  pauseless fn ->
  exists evs,
    trace (after (Utils.retryLoop fn (S n) d) w) = trace w ++ evs
    /\ match outcome (Utils.retryLoop fn (S n) d) w with
       | Ok a => (exists k, (k <= n)%nat /\ delays evs = repeat d k)
                 /\ exists w0, outcome fn w0 = Ok a
       | Throw e => delays evs = repeat d n
                    /\ exists w0, outcome fn w0 = Throw e
       end.
Proof.
  intros Hfn. revert w. induction n as [|n IH]; intros w.
  - destruct (Hfn w) as (evs & Htr & Hd). exists evs.
    unfold after, outcome in *. simpl. unfold tryCatch, throw.
    destruct (fn w) as [[a|e] w1] eqn:E; simpl in *; (split; [exact Htr|]).
    + split; [exists 0%nat; split; [lia | exact Hd]|].
      exists w. unfold outcome. now rewrite E.
    + split; [exact Hd|]. exists w. unfold outcome. now rewrite E.
  - destruct (Hfn w) as (evs & Htr & Hd).
    unfold after, outcome in *.
    change (Utils.retryLoop fn (S (S n)) d)
      with (tryCatch fn (fun _ => do* delay d in Utils.retryLoop fn (S n) d)).
    unfold tryCatch.
    destruct (fn w) as [[a|e] w1] eqn:E; simpl in Htr.
    + exists evs. simpl. split; [exact Htr|].
      split; [exists 0%nat; split; [lia | exact Hd]|].
      exists w. unfold outcome. now rewrite E.
    + unfold bind, delay.
      destruct (IH (emit (EvDelay d) w1)) as (evs' & Htr' & Hrest).
      exists (evs ++ [EvDelay d] ++ evs').
      destruct (Utils.retryLoop fn (S n) d (emit (EvDelay d) w1)) as [r w2].
      cbn [fst snd] in *. split.
      * rewrite Htr'. simpl. rewrite Htr. now rewrite <- !app_assoc.
      * rewrite !delays_app, Hd. simpl.
        destruct r as [a|e'].
        -- destruct Hrest as ((k & Hk & Hdk) & Hw0). split; [|exact Hw0].
           exists (S k). split; [lia|]. simpl. now rewrite Hdk.
        -- destruct Hrest as (Hdk & Hw0). split; [|exact Hw0]. now rewrite Hdk.
Qed.

End Retry.

Section Pauseless.
Context (env : Env).

Lemma pauseless_createRepository n isLFS :
  pauseless (GitHubAPI.createRepository env n isLFS).
Proof.
  intros w.
  unfold after, GitHubAPI.createRepository, GitHubAPI.repositoryExists,
    GitHubAPI.isRepositoryEmpty, GitHubAPI.getRepository, GitHubAPI.enableLFS,
    tryCatch, bind, request, nowISO, ret, throw.
  simpl. destruct isLFS; http_cases env;
    (eexists; split; [simpl; rewrite <- ?app_assoc; reflexivity | reflexivity]).
Qed.

End Pauseless.

(** X8.  [retry(fn, maxRetries, delayMs)], for a function that makes no
    pause of its own and at least one attempt allowed: what it returns is
    what some attempt returned, after fewer than [maxRetries] pauses of
    [delayMs]; what it throws is what some attempt threw, after exactly
    [maxRetries - 1] such pauses: it never pauses after the last attempt. *)
Theorem retry_attempts_and_pauses {A} (fn : M A) (maxRetries : nat) (delayMs : Z)
    (w : World) :
  (0 < maxRetries)%nat ->
  pauseless fn ->
  let evs := events_since w (after (Utils.retry fn maxRetries delayMs) w) in
  match outcome (Utils.retry fn maxRetries delayMs) w with
  | Ok a => (exists k, (k < maxRetries)%nat /\ delays evs = repeat delayMs k)
            /\ exists w0, outcome fn w0 = Ok a
  | Throw e => delays evs = repeat delayMs (maxRetries - 1)
               /\ exists w0, outcome fn w0 = Throw e
  end.
Proof.
  intros Hpos Hfn. destruct maxRetries as [|n]; [lia|].
  unfold Utils.retry. cbv zeta.
  destruct (retryLoop_run fn n delayMs w Hfn) as (evs & Htr & Hres).
  rewrite (events_since_app _ _ _ Htr).
  destruct (outcome (Utils.retryLoop fn (S n) delayMs) w) as [a|e].
  - destruct Hres as ((k & Hk & Hd) & Hw0). split; [|exact Hw0].
    exists k. split; [lia | exact Hd].
  - replace (S n - 1)%nat with n by lia. exact Hres.
Qed.

(** The three attempts to create a repository while the quota is
    exhausted: two pauses of two seconds. *)
Lemma retry_attempts_and_pauses_witness :
  delays (events_since quotaStore
            (after (Utils.retry (GitHubAPI.createRepository rateLimitedEnv "r7" false)
                                3 2000) quotaStore))
  = [2000; 2000]%Z.
Proof.
  pose proof (retry_attempts_and_pauses
                (GitHubAPI.createRepository rateLimitedEnv "r7" false) 3 2000 quotaStore
                (Nat.lt_0_succ 2)
                (pauseless_createRepository rateLimitedEnv "r7" false)) as H.
  cbv zeta in H.
  destruct (outcome (Utils.retry (GitHubAPI.createRepository rateLimitedEnv "r7" false)
                                 3 2000) quotaStore) as [a|e] eqn:E.
  - vm_compute in E. discriminate E.
  - exact (proj1 H).
Defined.
Section RateLimit.
Context (env : Env).

Lemma header_missing hs key dflt :
  (forall v, ~ In (key, v) hs) -> Utils.header hs key dflt = dflt.
Proof.
  intros H. unfold Utils.header.
  destruct (find (fun kv => String.eqb (fst kv) key) hs) as [[k v]|] eqn:E; [|reflexivity].
  apply find_some in E as (Hin & Hk). simpl in Hk. apply String.eqb_eq in Hk. subst k.
  exfalso. exact (H v Hin).
Qed.

End RateLimit.

(** X9.  [checkRateLimit] never throws.  It reports a rate limit only for
    an error that carries a response with status 403 whose
    [x-ratelimit-remaining] header reads as 0, and the time to wait it
    reports is never negative.  A 403 response without that header is
    taken for an exhausted quota, the header defaulting to ['0']. *)
Theorem rate_limit_recognised (env : Env) (e : JsError) (w : World) :
  exists info w',
    Utils.checkRateLimit env e w = (Ok info, w')
    /\ (forall rl, info = Some rl ->
          Utils.remaining rl = Some 0%Z
          /\ (exists r,
                response e = Some r /\ status r = 403%Z
                /\ Js.s_parseInt (Utils.header (headers r) "x-ratelimit-remaining" "0") None
                   = Some 0%Z)
          /\ forall t, Utils.waitTime rl = Some t -> (0 <= t)%Z)
    /\ (forall r, response e = Some r -> status r = 403%Z ->
          (forall v, ~ In ("x-ratelimit-remaining", v) (headers r)) ->
          info <> None).
Proof.
  unfold Utils.checkRateLimit.
  destruct (response e) as [r|] eqn:Er.
  2:{ exists None, w. split; [reflexivity|]. split; [discriminate | discriminate]. }
  destruct (status r =? 403)%Z eqn:Es.
  2:{ exists None, w. split; [reflexivity|]. split; [discriminate|].
      intros r' [= <-] H403. apply Z.eqb_neq in Es. contradiction. }
  apply Z.eqb_eq in Es.
  destruct (Js.s_parseInt (Utils.header (headers r) "x-ratelimit-remaining" "0") None)
    as [[|p|p]|] eqn:Ep;
    try (eexists None, w; split; [reflexivity|]; split; [discriminate|];
         intros r' [= <-] _ Hmiss; rewrite (header_missing _ _ _ Hmiss) in Ep;
         vm_compute in Ep; discriminate Ep).
  unfold bind, nowMs, ret. eexists _, _. split; [reflexivity|]. split.
  - intros rl [= <-]. simpl. split; [reflexivity|]. split; [eauto|].
    intros t.
    destruct (Js.s_parseInt (Utils.header (headers r) "x-ratelimit-reset" "0") None)
      as [reset|]; [|discriminate].
    destruct (Z.abs (reset * 1000) <=? 8640000000000000)%Z; [|discriminate].
    intros Ht. injection Ht as <-. lia.
  - discriminate.
Qed.
(* ================================================================== *)
(** * The git operations *)
(* ================================================================== *)

(** X10.  [pushToGitHub] runs its commands inside the working copy and in
    a fixed order: the remote is added, the branch is pushed, and the LFS
    objects are pushed last, only for a repository with LFS files and only
    after the push of the branch has succeeded.  The commands run are
    always a prefix of that list, and the whole list when the push
    returns. *)
Theorem push_order (env : Env) (repoName branch : string)
    (lfsInfo : GitOperations.LfsInfo) (w : World) :
  let evs := events_since w (after (GitOperations.pushToGitHub env repoName branch lfsInfo) w) in
  let expected :=
    pushCommands env repoName branch (LFSManager.hasLFS (GitOperations.info lfsInfo)) in
  (exists k, commands evs = firstn k expected)
  /\ (forall u, outcome (GitOperations.pushToGitHub env repoName branch lfsInfo) w = Ok u ->
      commands evs = expected)
  /\ Forall (ran_in (GitOperations.getRepoPath env repoName)) evs.
Proof.
  unfold outcome, after, GitOperations.pushToGitHub, pushCommands, tryFinally, tryCatch,
    bind, getCwd, chdir, execSync, ret, throw.
  simpl.
  destruct (chdir_ok env (tick w) (GitOperations.getRepoPath env repoName)); simpl.
  2:{ destruct (chdir_ok env (S (tick w)) (cwd w)); simpl; events_known;
      (split; [exists 0%nat; reflexivity|]); (split; [discriminate|]);
      repeat constructor. }
  repeat match goal with
         | |- context [exec env ?t ?d ?c] =>
             destruct (exec env t d c); simpl
         | |- context [LFSManager.hasLFS ?i] => destruct (LFSManager.hasLFS i); simpl
         | |- context [chdir_ok env ?t ?d] => destruct (chdir_ok env t d); simpl
         end;
    events_known;
    (split; [| split; [intros u Hu; try discriminate Hu; reflexivity
                      | repeat constructor]]).
  all: first [ exists 3%nat; reflexivity | exists 2%nat; reflexivity
             | exists 1%nat; reflexivity | exists 0%nat; reflexivity ].
Qed.
Section ExistingLFS.
Context (env : Env).

Lemma loadSettings_run w :
  exists w1,
    LFSManager.loadSettings env w = (Ok tt, w1)
    /\ trace w1 = trace w ++ [EvReadSettings (LFSManager.settingsPath env)
                                (read_settings env (tick w) (LFSManager.settingsPath env))]
    /\ cwd w1 = cwd w /\ tick w1 = S (tick w)
    /\ settings w1 = settingsAt env (tick w).
Proof.
  unfold LFSManager.loadSettings, tryCatch, bind, readSettingsFile, setSettings,
    settingsAt.
  destruct (read_settings env (tick w) (LFSManager.settingsPath env));
    eexists; repeat split; reflexivity.
Qed.

(** The steps of [handleLFS] before it looks at the clone: the settings
    are loaded and the mode of the repository is asked for. *)
Lemma handleLFS_start repoName w r w' :
  GitOperations.handleLFS env repoName w = (Ok r, w') ->
  exists w1,
    trace w1 = trace w ++ [EvReadSettings (LFSManager.settingsPath env)
                             (read_settings env (tick w) (LFSManager.settingsPath env))]
    /\ cwd w1 = cwd w /\ tick w1 = S (tick w)
    /\ settings w1 = settingsAt env (tick w)
    /\ (let* existingLFS :=
           LFSManager.getExistingLFSFiles env (GitOperations.getRepoPath env repoName) in
         if (0 <? length existingLFS)%nat then
           do* GitOperations.fetchLFS env (GitOperations.getRepoPath env repoName) in
           ret {| GitOperations.info :=
                    {| LFSManager.hasLFS := true;
                       LFSManager.filesCount := length existingLFS;
                       LFSManager.lfsFileNames := existingLFS;
                       LFSManager.currentFiles := None;
                       LFSManager.historyFilesOf := None;
                       LFSManager.resultMode := LFSManager.existing |};
                  GitOperations.source := GitOperations.src_existing |}
         else
           let* lfsResult :=
             LFSManager.setupLFS env (GitOperations.getRepoPath env repoName) repoName in
           do* (if LFSManager.hasLFS lfsResult
                then GitOperations.fetchLFS env (GitOperations.getRepoPath env repoName)
                else ret tt) in
           ret {| GitOperations.info := lfsResult;
                  GitOperations.source :=
                    if LFSManager.Mode_eqb (LFSManager.resultMode lfsResult)
                                           LFSManager.configured
                    then GitOperations.src_configured
                    else GitOperations.src_auto_detected |}) w1 = (Ok r, w').
Proof.
  intros Hrun. unfold GitOperations.handleLFS, tryCatch in Hrun.
  destruct (loadSettings_run w) as (w1 & Hload & Htr1 & Hcwd & Htick & Hset).
  rewrite (bind_ok _ _ _ _ _ Hload) in Hrun.
  unfold bind at 1, getSettings in Hrun.
  unfold bind at 1, liftR in Hrun.
  exists w1. repeat (split; [assumption|]).
  destruct (LFSManager.getLFSMode (settings w1) repoName) as [mode|e];
    [|discriminate Hrun].
  match type of Hrun with
  | (let '(r0, w0) := ?m in _) = _ => destruct m as [[x|e] w2]
  end; [|discriminate Hrun].
  now injection Hrun as <- <-.
Qed.

(** The runs of [getExistingLFSFiles] that return: the only command is
    [git lfs ls-files], and it has run when files are reported. *)
Lemma getExistingLFSFiles_run p w l w2 :
  LFSManager.getExistingLFSFiles env p w = (Ok l, w2) ->
  exists evs,
    trace w2 = trace w ++ evs
    /\ List.filter is_write evs = []
    /\ (commands evs = ["git lfs ls-files"] \/ commands evs = [] /\ l = [])
    /\ (l <> [] ->
        exists out,
          exec env (S (tick w)) p "git lfs ls-files" = ExecOk out
          /\ In (EvExec p "git lfs ls-files" (ExecOk out)) evs
          /\ l = nonBlankLines out).
Proof.
  unfold LFSManager.getExistingLFSFiles, tryFinally, tryCatch, bind, getCwd, chdir,
    execSync, ret.
  simpl.
  destruct (chdir_ok env (tick w) p); simpl.
  - destruct (exec env (S (tick w)) p "git lfs ls-files") as [out|msg]; simpl;
      destruct (chdir_ok env (S (S (tick w))) (cwd w)); simpl; intros H;
      try discriminate H; injection H as <- <-; eexists;
      (split; [simpl; rewrite <- ?app_assoc; reflexivity|]);
      (split; [reflexivity|]); (split; [left; reflexivity|]); intros Hl;
      try (now contradiction Hl);
      exists out; (split; [reflexivity|]); (split; [|reflexivity]);
      simpl; auto.
  - destruct (chdir_ok env (S (tick w)) (cwd w)); simpl; intros H;
      try discriminate H; injection H as <- <-; eexists;
      (split; [simpl; rewrite <- ?app_assoc; reflexivity|]);
      (split; [reflexivity|]); (split; [right; split; reflexivity|]);
      intros Hl; now contradiction Hl.
Qed.

Lemma fetchLFS_run p w r w2 :
  GitOperations.fetchLFS env p w = (r, w2) ->
  exists evs,
    trace w2 = trace w ++ evs
    /\ List.filter is_write evs = []
    /\ (commands evs = ["git lfs fetch --all"] \/ commands evs = []).
Proof.
  unfold GitOperations.fetchLFS, tryFinally, tryCatch, bind, getCwd, chdir,
    execSync, ret.
  simpl.
  destruct (chdir_ok env (tick w) p); simpl.
  - destruct (exec env (S (tick w)) p "git lfs fetch --all"); simpl;
      destruct (chdir_ok env (S (S (tick w))) (cwd w)); simpl; intros H;
      injection H as <- <-; eexists;
      (split; [simpl; rewrite <- ?app_assoc; reflexivity|]);
      (split; [reflexivity|]); left; reflexivity.
  - destruct (chdir_ok env (S (tick w)) (cwd w)); simpl; intros H;
      injection H as <- <-; eexists;
      (split; [simpl; rewrite <- ?app_assoc; reflexivity|]);
      (split; [reflexivity|]); right; reflexivity.
Qed.

Lemma filter_write_app a b :
  List.filter is_write (a ++ b) = List.filter is_write a ++ List.filter is_write b.
Proof. apply List.filter_app. Qed.

End ExistingLFS.

(** X11.  When [handleLFS] reports the source [existing], the repository
    already used LFS and has been left as it was: the only commands run
    are [git lfs ls-files] and, when the working copy can be entered again,
    [git lfs fetch --all]; no file is written and no history is rewritten.
    The files reported are the non-blank lines of what [git lfs ls-files]
    printed in the working copy, of which there is at least one. *)
Theorem existing_lfs_is_left_alone (env : Env) (repoName : string) (w w' : World)
    (r : GitOperations.LfsInfo) :
  GitOperations.handleLFS env repoName w = (Ok r, w') ->
  GitOperations.source r = GitOperations.src_existing ->
  let evs := events_since w w' in
  (commands evs = ["git lfs ls-files"]
   \/ commands evs = ["git lfs ls-files"; "git lfs fetch --all"])
  /\ List.filter is_write evs = []
  /\ migrations evs = []
  /\ LFSManager.hasLFS (GitOperations.info r) = true
  /\ LFSManager.resultMode (GitOperations.info r) = LFSManager.existing
  /\ LFSManager.lfsFileNames (GitOperations.info r) <> []
  /\ LFSManager.filesCount (GitOperations.info r)
     = length (LFSManager.lfsFileNames (GitOperations.info r))
  /\ (exists out,
        exec env (S (S (tick w))) (GitOperations.getRepoPath env repoName)
          "git lfs ls-files" = ExecOk out
        /\ In (EvExec (GitOperations.getRepoPath env repoName) "git lfs ls-files"
                 (ExecOk out)) evs
        /\ LFSManager.lfsFileNames (GitOperations.info r) = nonBlankLines out).
Proof.
  intros Hrun Hsrc.
  destruct (handleLFS_start env repoName w r w' Hrun)
    as (w1 & Htr1 & _ & Htick1 & _ & Hrest).
  clear Hrun. rename Hrest into Hrun.
  unfold bind at 1 in Hrun.
  destruct (LFSManager.getExistingLFSFiles env (GitOperations.getRepoPath env repoName) w1)
    as [[existingLFS|e] w2] eqn:Eex; [|discriminate Hrun].
  destruct (getExistingLFSFiles_run env _ _ _ _ Eex) as (evs2 & Htr2 & Hw2 & Hc2 & Hout).
  destruct (0 <? length existingLFS)%nat eqn:Elen.
  - unfold bind at 1 in Hrun.
    destruct (GitOperations.fetchLFS env (GitOperations.getRepoPath env repoName) w2)
      as [[[]|e] w3] eqn:Ef; [|discriminate Hrun].
    destruct (fetchLFS_run env _ _ _ _ Ef) as (evs3 & Htr3 & Hw3 & Hc3).
    injection Hrun as <- <-. cbv zeta.
    assert (Htr : trace w3 = trace w ++ ([EvReadSettings (LFSManager.settingsPath env)
                     (read_settings env (tick w) (LFSManager.settingsPath env))]
                   ++ evs2 ++ evs3)).
    { rewrite Htr3, Htr2, Htr1. now rewrite <- !app_assoc. }
    rewrite (events_since_app _ _ _ Htr).
    assert (Hls : commands evs2 = ["git lfs ls-files"]).
    { destruct Hc2 as [Hc2|(_ & ->)]; [exact Hc2 | discriminate Elen]. }
    assert (Hne : existingLFS <> []).
    { destruct existingLFS; [discriminate Elen | discriminate]. }
    split.
    { rewrite !commands_app, Hls. simpl.
      destruct Hc3 as [-> | ->]; [right | left]; reflexivity. }
    split; [rewrite !filter_write_app, Hw2, Hw3; reflexivity|].
    split.
    { rewrite !migrations_app. unfold migrations at 2 3. rewrite Hls.
      destruct Hc3 as [-> | ->]; reflexivity. }
    cbn [GitOperations.info LFSManager.hasLFS LFSManager.resultMode
           LFSManager.lfsFileNames LFSManager.filesCount].
    do 4 (split; [first [reflexivity | exact Hne]|]).
    destruct (Hout Hne) as (out & Hexec & Hin & Hlines).
    exists out. rewrite <- Htick1. split; [exact Hexec|]. split; [|exact Hlines].
    apply in_app_iff. right. apply in_app_iff. now left.
  - exfalso. unfold bind at 1 in Hrun.
    destruct (LFSManager.setupLFS env (GitOperations.getRepoPath env repoName) repoName w2)
      as [[lfsResult|e] w3]; [|discriminate Hrun].
    unfold bind at 1 in Hrun.
    destruct ((if LFSManager.hasLFS lfsResult
               then GitOperations.fetchLFS env (GitOperations.getRepoPath env repoName)
               else ret tt) w3) as [[[]|e] w4]; [|discriminate Hrun].
    injection Hrun as <- _. simpl in Hsrc.
    destruct (LFSManager.Mode_eqb _ _); discriminate Hsrc.
Qed.

(** A clone whose [git lfs ls-files] lists one file. *)
Lemma existing_lfs_is_left_alone_witness :
  exists r w',
    GitOperations.handleLFS lfsCloneEnv "design" (startWorld None) = (Ok r, w')
    /\ List.filter is_write (events_since (startWorld None) w') = []
    /\ LFSManager.lfsFileNames (GitOperations.info r) = ["4d7a214614 * assets/logo.psd"].
Proof.
  eexists. eexists.
  assert (Hrun : GitOperations.handleLFS lfsCloneEnv "design" (startWorld None)
                 = (Ok _, _)) by (vm_compute; reflexivity).
  split; [exact Hrun|].
  pose proof (existing_lfs_is_left_alone lfsCloneEnv "design" _ _ _ Hrun
                ltac:(vm_compute; reflexivity)) as H.
  split; [exact (proj1 (proj2 H))|].
  vm_compute. reflexivity.
Defined.

(* ================================================================== *)
(** * The report and the backup of the store *)
(* ================================================================== *)

Section Report.

Lemma count_disjoint {A} (p q : A -> bool) (l : list A) :
  (forall x, In x l -> p x = true -> q x = false) ->
  (length (List.filter p l) + length (List.filter q l) <= length l)%nat.
Proof.
  induction l as [|x l IH]; intros H; simpl; [lia|].
  assert (IH' := IH (fun y Hy => H y (or_intror Hy))).
  pose proof (H x (or_introl eq_refl)) as Hx.
  destruct (p x); [rewrite (Hx eq_refl)|destruct (q x)]; simpl; lia.
Qed.

(** Under the invariant of the store every record is in exactly one of
    four states. *)
Lemma count_partition (t : list Repo) :
  Forall record_ok t ->
  length t
  = (length (List.filter transferred t) + length (List.filter processing t)
     + length (List.filter StateManager.isPending t)
     + length (List.filter isExhausted t))%nat.
Proof.
  induction 1 as [|r t Hr _ IH]; simpl; [reflexivity|].
  unfold StateManager.isPending at 1, isExhausted at 1. unfold record_ok in Hr.
  destruct (transferred r) eqn:Et.
  - destruct (Hr eq_refl) as (-> & _). simpl. lia.
  - destruct (processing r); simpl; [lia|].
    destruct (retry_count r <? 3)%Z eqn:Elt.
    + assert ((3 <=? retry_count r)%Z = false) as -> by lia. simpl. lia.
    + assert ((3 <=? retry_count r)%Z = true) as -> by lia. simpl. lia.
Qed.

Lemma timestampForFile_clean iso :
  ~ In ":"%char (list_ascii_of_string (StateManager.timestampForFile iso))
  /\ ~ In "."%char (list_ascii_of_string (StateManager.timestampForFile iso))
  /\ String.length (StateManager.timestampForFile iso) = String.length iso.
Proof.
  unfold StateManager.timestampForFile.
  rewrite list_ascii_of_string_of_list_ascii.
  assert (Hlen : forall l, String.length (string_of_list_ascii l) = length l)
    by (induction l; simpl; congruence).
  rewrite Hlen, length_map.
  assert (Hlen' : forall s, length (list_ascii_of_string s) = String.length s)
    by (induction s; simpl; congruence).
  rewrite Hlen'. repeat split.
  - intros Hin. apply in_map_iff in Hin as (c & Hc & _).
    destruct (Js.ascii_eqb c ":"%char) eqn:E1; simpl in Hc; [discriminate Hc|].
    destruct (Js.ascii_eqb c "."%char); simpl in Hc; [discriminate Hc|].
    subst c. discriminate E1.
  - intros Hin. apply in_map_iff in Hin as (c & Hc & _).
    destruct (Js.ascii_eqb c "."%char) eqn:E2.
    + rewrite orb_true_r in Hc. discriminate Hc.
    + rewrite orb_false_r in Hc.
      destruct (Js.ascii_eqb c ":"%char); [discriminate Hc|].
      subst c. discriminate E2.
Qed.

End Report.

Section Backup.
Context (env : Env).

Lemma backup_run w t :
  repos_json w = Some t ->
  StateManager.backup env w
  = (if fs_write env (S (tick w)) (backupPathAt env (tick w))
     then Ok (backupPathAt env (tick w))
     else Throw (newError ("EACCES: permission denied, open "
                           +:+ backupPathAt env (tick w))),
     emit (EvSaveRepos (backupPathAt env (tick w)) t
             (fs_write env (S (tick w)) (backupPathAt env (tick w))))
          (emit EvNow w)).
Proof.
  intros Et.
  unfold StateManager.backup, bind, nowISO, StateManager.loadRepos, tryCatch,
    readReposFile, writeJson, ret, backupPathAt.
  simpl. rewrite Et. simpl.
  destruct (fs_write env (S (tick w)) _); reflexivity.
Qed.

End Backup.

(** X12.  The report of [getStatistics] on a store that can be read:
    [total] is the number of records, [pending] and [errors] are the
    numbers of records that [getPendingRepos] and [getFailedRepos] return,
    and no record is counted both as transferred and as pending or failed,
    or both as being processed and as pending.  When the invariant of the
    store holds, every record is counted exactly once as transferred, being
    processed, pending, or out of retries. *)
Theorem statistics_add_up (env : Env) (w : World) (t : list Repo) :
  repos_json w = Some t ->
  exists s,
    StateManager.getStatistics env w = (Ok s, w)
    /\ StateManager.total s = length t
    /\ outcome (StateManager.getPendingRepos env) w
         = Ok (List.filter StateManager.isPending t)
    /\ StateManager.pending s = length (List.filter StateManager.isPending t)
    /\ outcome (StateManager.getFailedRepos env) w
         = Ok (List.filter StateManager.isFailed t)
    /\ StateManager.errors s = length (List.filter StateManager.isFailed t)
    /\ (StateManager.transferredCount s + StateManager.pending s
        <= StateManager.total s)%nat
    /\ (StateManager.transferredCount s + StateManager.errors s
        <= StateManager.total s)%nat
    /\ (StateManager.processingCount s + StateManager.pending s
        <= StateManager.total s)%nat
    /\ (store_ok w ->
        StateManager.total s
        = (StateManager.transferredCount s + StateManager.processingCount s
           + StateManager.pending s + length (List.filter isExhausted t))%nat).
Proof.
  intros Et. eexists. split.
  { unfold StateManager.getStatistics.
    rewrite (bind_ok _ _ _ _ _ (loadRepos_run env w t Et)). reflexivity. }
  simpl. split; [reflexivity|]. split.
  { unfold outcome. now rewrite (getPendingRepos_run env w t Et). }
  split; [reflexivity|]. split.
  { unfold outcome, StateManager.getFailedRepos.
    now rewrite (bind_ok _ _ _ _ _ (loadRepos_run env w t Et)). }
  split; [reflexivity|]. split.
  { apply count_disjoint. intros r _ Hr. unfold StateManager.isPending. now rewrite Hr. }
  split.
  { apply count_disjoint. intros r _ Hr. unfold StateManager.isFailed. rewrite Hr.
    destruct (error r); [apply andb_false_r | reflexivity]. }
  split.
  { apply count_disjoint. intros r _ Hr. unfold StateManager.isPending. rewrite Hr.
    now rewrite andb_false_r. }
  intros Hok. unfold store_ok, table in Hok. rewrite Et in Hok.
  now apply count_partition.
Qed.

(** The report on the interrupted store. *)
Lemma statistics_add_up_witness :
  exists s,
    StateManager.getStatistics quietEnv interruptedStore = (Ok s, interruptedStore)
    /\ StateManager.total s = 2%nat /\ StateManager.pending s = 1%nat.
Proof.
  destruct (statistics_add_up quietEnv interruptedStore _ eq_refl)
    as (s & Hrun & Htotal & _ & Hpending & _).
  exists s. split; [exact Hrun|]. split; [exact Htotal | exact Hpending].
Defined.

(** X13.  [backup], on a store that can be read, writes the table as it is
    to a file of the data directory named after the time of the call, whose
    time stamp holds neither [:] nor [.]; it returns that path when the
    file could be written and throws otherwise, and it never touches the
    store itself. *)
Theorem backup_copies_the_store (env : Env) (w : World) (t : list Repo) :
  repos_json w = Some t ->
  let path := backupPathAt env (tick w) in
  let stamp := StateManager.timestampForFile (now_iso env (tick w)) in
  exists ok,
    events_since w (after (StateManager.backup env) w) = [EvNow; EvSaveRepos path t ok]
    /\ (ok = true -> outcome (StateManager.backup env) w = Ok path)
    /\ (ok = false -> exists e, outcome (StateManager.backup env) w = Throw e)
    /\ repos_json (after (StateManager.backup env) w) = Some t
    /\ ~ In ":"%char (list_ascii_of_string stamp)
    /\ ~ In "."%char (list_ascii_of_string stamp).
Proof.
  intros Et path stamp. subst path stamp.
  destruct (timestampForFile_clean (now_iso env (tick w))) as (Hc & Hd & _).
  exists (fs_write env (S (tick w)) (backupPathAt env (tick w))).
  unfold outcome, after. rewrite (backup_run env w t Et). cbn [fst snd].
  split; [events_known; reflexivity|].
  split; [intros ->; reflexivity|].
  split; [intros ->; eauto|].
  split; [exact Et | split; assumption].
Qed.

(** The backup of the interrupted store. *)
Lemma backup_copies_the_store_witness :
  outcome (StateManager.backup quietEnv) interruptedStore
  = Ok "/app/../../data/repos-backup-2025-01-01T00-00-00-000Z.json".
Proof.
  destruct (backup_copies_the_store quietEnv interruptedStore _ eq_refl)
    as (ok & Hev & Hok & _).
  apply Hok. vm_compute in Hev. now injection Hev as <-.
Defined.

(* ================================================================== *)
(** * What a computation never does *)
(* ================================================================== *)

Section IdleTail.
Context (env : Env).

Lemma idle_loadRepos : idle (StateManager.loadRepos env).
Proof. unfold StateManager.loadRepos. idle_auto. Qed.

Lemma idle_reset : idle (StateManager.resetProcessingRepos env).
Proof.
  unfold StateManager.resetProcessingRepos, StateManager.saveRepos. idle_auto.
  apply idle_loadRepos.
Qed.

Lemma idle_backup : idle (StateManager.backup env).
Proof. unfold StateManager.backup. idle_auto. apply idle_loadRepos. Qed.

Lemma idle_ensureTempDir : idle (GitOperations.ensureTempDir env).
Proof. unfold GitOperations.ensureTempDir. idle_auto. Qed.

Lemma idle_checkDependencies : idle (GitOperations.checkDependencies env).
Proof. unfold GitOperations.checkDependencies. idle_auto. Qed.

Lemma idle_cleanupAll : idle (GitOperations.cleanupAll env).
Proof. unfold GitOperations.cleanupAll. idle_auto. Qed.

Lemma idle_showStatistics : idle (Migrator.showStatistics env).
Proof.
  unfold Migrator.showStatistics, StateManager.getStatistics. idle_auto.
  apply idle_loadRepos.
Qed.

Lemma idle_showFailedRepos : idle (Migrator.showFailedRepos env).
Proof.
  unfold Migrator.showFailedRepos, StateManager.getFailedRepos. idle_auto.
  apply idle_loadRepos.
Qed.

Lemma idle_cleanup : idle (Migrator.cleanup env).
Proof.
  unfold Migrator.cleanup. idle_auto; first [apply idle_cleanupAll | apply idle_reset].
Qed.

End IdleTail.

Section SilentTail.
Context (env : Env) (sel : Event -> bool).
Hypothesis sel_save : forall p t ok, sel (EvSaveRepos p t ok) = false.
Hypothesis sel_now : sel EvNow = false.
Hypothesis sel_readdir : forall p r, sel (EvReaddir p r) = false.
Hypothesis sel_rm : forall p ok, sel (EvRm p ok) = false.
Hypothesis sel_mkdir : forall p ok, sel (EvMkdir p ok) = false.

Lemma silent_loadRepos : silent sel (StateManager.loadRepos env).
Proof. unfold StateManager.loadRepos. silent_auto. Qed.

Lemma silent_reset : silent sel (StateManager.resetProcessingRepos env).
Proof.
  unfold StateManager.resetProcessingRepos, StateManager.saveRepos. silent_auto.
  apply silent_loadRepos.
Qed.

Lemma silent_backup : silent sel (StateManager.backup env).
Proof. unfold StateManager.backup. silent_auto. apply silent_loadRepos. Qed.

Lemma silent_ensureTempDir : silent sel (GitOperations.ensureTempDir env).
Proof. unfold GitOperations.ensureTempDir. silent_auto. Qed.

Lemma silent_cleanupAll : silent sel (GitOperations.cleanupAll env).
Proof. unfold GitOperations.cleanupAll. silent_auto. Qed.

Lemma silent_cleanupRepo n : silent sel (GitOperations.cleanupRepo env n).
Proof. unfold GitOperations.cleanupRepo. silent_auto. Qed.

Lemma silent_getPendingRepos : silent sel (StateManager.getPendingRepos env).
Proof. unfold StateManager.getPendingRepos. silent_auto. apply silent_loadRepos. Qed.

Lemma silent_showStatistics : silent sel (Migrator.showStatistics env).
Proof.
  unfold Migrator.showStatistics, StateManager.getStatistics. silent_auto.
  apply silent_loadRepos.
Qed.

Lemma silent_showFailedRepos : silent sel (Migrator.showFailedRepos env).
Proof.
  unfold Migrator.showFailedRepos, StateManager.getFailedRepos. silent_auto.
  apply silent_loadRepos.
Qed.

Lemma silent_cleanup : silent sel (Migrator.cleanup env).
Proof.
  unfold Migrator.cleanup. silent_auto; first [apply silent_cleanupAll | apply silent_reset].
Qed.

Lemma silent_updateRepoStatus n p : silent sel (StateManager.updateRepoStatus env n p).
Proof.
  unfold StateManager.updateRepoStatus, StateManager.saveRepos. silent_auto.
  apply silent_loadRepos.
Qed.

Lemma silent_markAsError n msg : silent sel (StateManager.markAsError env n msg).
Proof.
  unfold StateManager.markAsError. silent_auto;
    [apply silent_loadRepos | apply silent_updateRepoStatus].
Qed.

Lemma silent_run {A} (m : M A) w r w' :
  silent sel m -> m w = (r, w') ->
  exists evs, trace w' = trace w ++ evs /\ List.filter sel evs = [].
Proof. intros Hs Hrun. specialize (Hs w). unfold after in Hs. now rewrite Hrun in Hs. Qed.

(** The [finally] block of [migrate], on a store that can be read: it
    returns, leaves the counters alone and makes no selected event. *)
Lemma final_block_run w t :
  repos_json w = Some t ->
  exists w' evs,
    (do* Migrator.showStatistics env in
     do* Migrator.showFailedRepos env in
     Migrator.cleanup env) w = (Ok tt, w')
    /\ stats w' = stats w
    /\ trace w' = trace w ++ evs /\ List.filter sel evs = [].
Proof.
  intros Et.
  destruct (showStatistics_run env w t Et) as (w1 & Hrun1 & Et1).
  rewrite (bind_ok _ _ _ _ _ Hrun1).
  rewrite (bind_ok _ _ _ _ _ (showFailedRepos_run env w1 t Et1)).
  destruct (tryCatch_returns
              (do* GitOperations.cleanupAll env in
               do* StateManager.resetProcessingRepos env in
               ret tt) (fun _ => tt) w1) as ([] & w2 & Hrun2).
  fold (Migrator.cleanup env) in Hrun2.
  destruct (silent_run _ _ _ _ silent_showStatistics Hrun1) as (evs1 & Htr1 & Hs1).
  destruct (silent_run _ _ _ _ silent_cleanup Hrun2) as (evs2 & Htr2 & Hs2).
  exists w2, (evs1 ++ evs2). split; [exact Hrun2|]. split.
  - rewrite (idle_run _ _ _ _ (idle_cleanup env) Hrun2).
    exact (idle_run _ _ _ _ (idle_showStatistics env) Hrun1).
  - split; [rewrite Htr2, Htr1; now rewrite app_assoc|].
    now rewrite List.filter_app, Hs1, Hs2.
Qed.

End SilentTail.
Section Calm.
Context (env : Env) (sel : Event -> bool).

Lemma calm_refl w : calm sel w w.
Proof. split; [reflexivity|]. exists []. now rewrite app_nil_r. Qed.

Lemma calm_trans w1 w2 w3 : calm sel w1 w2 -> calm sel w2 w3 -> calm sel w1 w3.
Proof.
  intros (Hs1 & evs1 & Ht1 & Hf1) (Hs2 & evs2 & Ht2 & Hf2).
  split; [congruence|]. exists (evs1 ++ evs2). split.
  - rewrite Ht2, Ht1. now rewrite app_assoc.
  - now rewrite List.filter_app, Hf1, Hf2.
Qed.

Lemma calm_run {A} (m : M A) w r w' :
  idle m -> silent sel m -> m w = (r, w') -> calm sel w w'.
Proof.
  intros Hi Hs Hrun. split; [exact (idle_run _ _ _ _ Hi Hrun)|].
  specialize (Hs w). unfold after in Hs. now rewrite Hrun in Hs.
Qed.

End Calm.

Section Outside.

Lemma requests_none evs : List.filter is_request evs = [] -> requests evs = [].
Proof.
  induction evs as [|e evs IH]; simpl; [reflexivity|].
  destruct e; simpl; try exact IH. discriminate.
Qed.

Lemma commands_none evs : List.filter is_command evs = [] -> commands evs = [].
Proof.
  induction evs as [|e evs IH]; simpl; [reflexivity|].
  destruct e; simpl; try exact IH. discriminate.
Qed.

Lemma outside_none evs :
  List.filter is_outside evs = [] -> requests evs = [] /\ commands evs = [].
Proof.
  intros H. split; [apply requests_none | apply commands_none];
    (induction evs as [|e evs IH]; simpl in *; [reflexivity|]);
    unfold is_outside in H; destruct e; simpl in *; try discriminate H; auto.
Qed.

Lemma requests_app a b : requests (a ++ b) = requests a ++ requests b.
Proof. unfold requests. apply flat_map_app. Qed.

End Outside.

Section Settled.
Context (env : Env).

Lemma checkDependencies_run w :
  exists r w1 depEvs,
    GitOperations.checkDependencies env w = (r, w1)
    /\ trace w1 = trace w ++ depEvs
    /\ requests depEvs = []
    /\ (exists k, commands depEvs = firstn (S k) dependencyChecks)
    /\ stats w1 = stats w
    /\ repos_json w1 = repos_json w
    /\ (r = Ok true /\ commands depEvs = dependencyChecks
        \/ r = Throw missingDependency).
Proof.
  unfold GitOperations.checkDependencies, tryCatch, bind, execSync, ret, throw.
  destruct (exec env (tick w) (cwd w) "git --version") eqn:E1; simpl.
  - destruct (exec env (S (tick w)) (cwd w) "git lfs version") eqn:E2; simpl;
      do 3 eexists; (split; [reflexivity|]);
      (split; [simpl; rewrite <- ?app_assoc; reflexivity|]);
      (split; [reflexivity|]); (split; [exists 1%nat; reflexivity|]);
      (split; [reflexivity|]); (split; [reflexivity|]); [left | right]; auto.
  - do 3 eexists. split; [reflexivity|].
    split; [simpl; reflexivity|]. split; [reflexivity|].
    split; [exists 0%nat; reflexivity|]. split; [reflexivity|].
    split; [reflexivity|]. right. reflexivity.
Qed.

Lemma is_outside_tail :
  (forall p t ok, is_outside (EvSaveRepos p t ok) = false)
  /\ is_outside EvNow = false
  /\ (forall p r, is_outside (EvReaddir p r) = false)
  /\ (forall p ok, is_outside (EvRm p ok) = false)
  /\ (forall p ok, is_outside (EvMkdir p ok) = false).
Proof. repeat split. Qed.

(** The [finally] block of [migrate] on a store that can be read. *)
Lemma final_block_calm w t :
  repos_json w = Some t ->
  exists w',
    (do* Migrator.showStatistics env in
     do* Migrator.showFailedRepos env in
     Migrator.cleanup env) w = (Ok tt, w')
    /\ calm is_outside w w'
    /\ (writable env -> repos_json w' = Some (map StateManager.stopProcessing t)).
Proof.
  intros Et.
  destruct (final_block_run env is_outside ltac:(reflexivity) ltac:(reflexivity)
              ltac:(reflexivity) ltac:(reflexivity) w t Et)
    as (w' & evs & Hrun & Hst & Htr & Hsel).
  exists w'. split; [exact Hrun|]. split; [split; eauto|].
  intros Hwrite.
  destruct (showStatistics_run env w t Et) as (w1 & Hrun1 & Et1).
  rewrite (bind_ok _ _ _ _ _ Hrun1) in Hrun.
  rewrite (bind_ok _ _ _ _ _ (showFailedRepos_run env w1 t Et1)) in Hrun.
  destruct (cleanup_run env w1 t Hwrite Et1) as (w2 & Hrun2 & Et2).
  rewrite Hrun2 in Hrun. now injection Hrun as <-.
Qed.

Lemma stopProcessing_twice (t : list Repo) :
  map StateManager.stopProcessing (map StateManager.stopProcessing t)
  = map StateManager.stopProcessing t.
Proof. apply stopProcessing_fixed, stopProcessing_all. Qed.

(** The run after the check of the dependencies, when nothing is pending
    once the stale marks are reset. *)
Lemma settled_rest w t :
  writable env ->
  repos_json w = Some t ->
  List.filter StateManager.isPending (map StateManager.stopProcessing t) = [] ->
  exists r w',
    (do* StateManager.resetProcessingRepos env in
     do* StateManager.backup env in
     do* GitOperations.ensureTempDir env in
     let* pendingRepos := StateManager.getPendingRepos env in
     if (length pendingRepos =? 0)%nat then Migrator.showStatistics env
     else
       do* Migrator.showStatistics env in
       Migrator.migrateFrom env 0 pendingRepos) w = (r, w')
    /\ repos_json w' = Some (map StateManager.stopProcessing t)
    /\ calm is_outside w w'.
Proof.
  intros Hwrite Et Hnone.
  destruct is_outside_tail as (Hsave & Hnow & Hreaddir & Hrm & Hmkdir).
  destruct (reset_run env w t Hwrite Et) as (w1 & Hrun1 & Et1 & _).
  rewrite (bind_ok _ _ _ _ _ Hrun1).
  assert (C1 : calm is_outside w w1)
    by (eapply calm_run; [apply idle_reset | now apply silent_reset | exact Hrun1]).
  unfold bind at 1.
  destruct (StateManager.backup env w1) as [[path|e] w2] eqn:E2;
    pose proof (frame_run _ _ _ _ (frame_backup env) E2) as Et2; rewrite Et1 in Et2;
    assert (C2 : calm is_outside w w2)
      by (eapply calm_trans; [exact C1|];
          eapply calm_run; [apply idle_backup | now apply silent_backup | exact E2]);
    [|eauto].
  unfold bind at 1.
  destruct (GitOperations.ensureTempDir env w2) as [[[]|e] w3] eqn:E3;
    pose proof (frame_run _ _ _ _ (frame_ensureTempDir env) E3) as Et3; rewrite Et2 in Et3;
    assert (C3 : calm is_outside w w3)
      by (eapply calm_trans; [exact C2|];
          eapply calm_run; [apply idle_ensureTempDir | now apply silent_ensureTempDir
                           | exact E3]);
    [|eauto].
  rewrite (bind_ok _ _ _ _ _ (getPendingRepos_run env w3 _ Et3)).
  rewrite Hnone. cbn [length Nat.eqb].
  destruct (showStatistics_run env w3 _ Et3) as (w4 & Hrun4 & Et4).
  exists (Ok tt), w4. split; [exact Hrun4|]. split; [exact Et4|].
  eapply calm_trans; [exact C3|].
  eapply calm_run; [apply idle_showStatistics | now apply silent_showStatistics | exact Hrun4].
Qed.

End Settled.
(** X14.  A run of [migrate] on a store in which nothing is pending once
    the stale marks are reset (every repository is transferred or out of
    retries) and which can be read and written: no request is sent to
    GitHub, no child process is started but the checks of the
    dependencies, no attempt is counted, and the records are left as they
    were but for the stale marks. *)
Theorem settled_store_is_left_alone (env : Env) (w : World) (t : list Repo) :
  writable env ->
  repos_json w = Some t ->
  List.filter StateManager.isPending (map StateManager.stopProcessing t) = [] ->
  let w' := after (Migrator.migrate env) w in
  let evs := events_since w w' in
  requests evs = []
  /\ (exists k, commands evs = firstn k dependencyChecks)
  /\ stats w' = stats w
  /\ table w' = map StateManager.stopProcessing t.
Proof.
  intros Hwrite Et Hnone.
  destruct (checkDependencies_run env w)
    as (r0 & w1 & depEvs & Hrun0 & Htr0 & Hreq0 & (k & Hcmd0) & Hst0 & Et0 & _).
  rewrite Et in Et0.
  assert (Hmain : exists r wm t',
             tryCatch
               (do* GitOperations.checkDependencies env in
                do* StateManager.resetProcessingRepos env in
                do* StateManager.backup env in
                do* GitOperations.ensureTempDir env in
                let* pendingRepos := StateManager.getPendingRepos env in
                if (length pendingRepos =? 0)%nat then Migrator.showStatistics env
                else
                  do* Migrator.showStatistics env in
                  Migrator.migrateFrom env 0 pendingRepos)
               (fun error => throw error) w = (r, wm)
             /\ repos_json wm = Some t'
             /\ map StateManager.stopProcessing t' = map StateManager.stopProcessing t
             /\ calm is_outside w1 wm).
  { unfold tryCatch, bind at 1. rewrite Hrun0. destruct r0 as [b|e].
    - destruct (settled_rest env w1 t Hwrite Et0 Hnone) as (r & wm & Hrun & Etm & Hcalm).
      rewrite Hrun. exists r, wm, (map StateManager.stopProcessing t).
      split; [destruct r; reflexivity|]. split; [exact Etm|].
      split; [apply stopProcessing_twice | exact Hcalm].
    - exists (Throw e), w1, t. split; [reflexivity|]. split; [exact Et0|].
      split; [reflexivity | apply calm_refl]. }
  destruct Hmain as (r & wm & t' & Hmain & Etm & Ht' & Hstm & evs1 & Htr1 & Hsel1).
  destruct (final_block_calm env wm t' Etm)
    as (w' & Hfin & (Hstf & evs2 & Htr2 & Hsel2) & Hstore).
  assert (Hmig : Migrator.migrate env w = (r, w')).
  { unfold Migrator.migrate, tryFinally. now rewrite Hmain, Hfin. }
  cbv zeta. unfold after. rewrite Hmig. cbn [snd].
  assert (Htr : trace w' = trace w ++ (depEvs ++ evs1 ++ evs2)).
  { rewrite Htr2, Htr1, Htr0. now rewrite <- !app_assoc. }
  rewrite (events_since_app _ _ _ Htr).
  destruct (outside_none _ Hsel1) as (Hr1 & Hc1).
  destruct (outside_none _ Hsel2) as (Hr2 & Hc2).
  split; [now rewrite !requests_app, Hreq0, Hr1, Hr2|].
  split.
  { exists (S k). now rewrite !commands_app, Hc1, Hc2, !app_nil_r. }
  split; [congruence|].
  unfold table. now rewrite (Hstore Hwrite), Ht'.
Qed.

(** The run on a store of one migrated repository and one that is out of
    retries: nothing is asked of GitHub. *)
Lemma settled_store_is_left_alone_witness :
  requests (events_since settledStore (after (Migrator.migrate quietEnv) settledStore)) = [].
Proof.
  exact (proj1 (settled_store_is_left_alone quietEnv settledStore _
                  (fun _ _ => eq_refl) eq_refl eq_refl)).
Defined.

(** X15.  When [checkDependencies] fails, because [git] or [git lfs]
    cannot be run, [migrate] on a store that can be read throws the
    missing-dependency error without having attempted anything: no request
    is sent to GitHub, no child process is started after the failed check,
    and no attempt is counted. *)
Theorem missing_dependency_stops_the_run (env : Env) (w w0 : World) (t : list Repo)
    (e0 : JsError) :
  repos_json w = Some t ->
  GitOperations.checkDependencies env w = (Throw e0, w0) ->
  let w' := after (Migrator.migrate env) w in
  let evs := events_since w w' in
  outcome (Migrator.migrate env) w = Throw missingDependency
  /\ requests evs = []
  /\ (exists k, commands evs = firstn k dependencyChecks)
  /\ stats w' = stats w.
Proof.
  intros Et Hdep.
  destruct (checkDependencies_run env w)
    as (r0 & w1 & depEvs & Hrun0 & Htr0 & Hreq0 & (k & Hcmd0) & Hst0 & Et0 & Hr0).
  rewrite Hdep in Hrun0. injection Hrun0 as <- <-.
  destruct Hr0 as [(Hr0 & _) | Hr0]; [discriminate Hr0|]. injection Hr0 as ->.
  rewrite Et in Et0.
  destruct (final_block_calm env w0 t Et0)
    as (w' & Hfin & (Hstf & evs2 & Htr2 & Hsel2) & _).
  assert (Hmig : Migrator.migrate env w = (Throw missingDependency, w')).
  { unfold Migrator.migrate, tryFinally, tryCatch. unfold bind at 1.
    rewrite Hdep. unfold throw at 1. now rewrite Hfin. }
  cbv zeta. unfold outcome, after. rewrite Hmig. cbn [fst snd].
  assert (Htr : trace w' = trace w ++ (depEvs ++ evs2)).
  { rewrite Htr2, Htr0. now rewrite <- !app_assoc. }
  rewrite (events_since_app _ _ _ Htr).
  destruct (outside_none _ Hsel2) as (Hr2 & Hc2).
  split; [reflexivity|].
  split; [now rewrite !requests_app, Hreq0, Hr2|].
  split; [exists (S k); now rewrite !commands_app, Hc2, !app_nil_r|].
  congruence.
Qed.

(** A run without [git]. *)
Lemma missing_dependency_stops_the_run_witness :
  outcome (Migrator.migrate noGitEnv) quotaStore = Throw missingDependency.
Proof.
  exact (proj1 (missing_dependency_stops_the_run noGitEnv quotaStore _ _ _
                  eq_refl eq_refl)).
Defined.
Section CatchBlock.
Context (env : Env).

Lemma deleteRepository_run n w :
  GitHubAPI.deleteRepository env n w
  = (Ok tt, emit (EvHttp DELETE (GitHubAPI.repoUrl env n) ""
                    (http env (tick w) DELETE (GitHubAPI.repoUrl env n) "")) w).
Proof.
  unfold GitHubAPI.deleteRepository, tryCatch, bind, request, ret.
  destruct (http env (tick w) DELETE (GitHubAPI.repoUrl env n) ""); reflexivity.
Qed.

(** What follows the deletion in the [catch] block asks nothing of
    GitHub. *)
Lemma silent_after_release n msg (err : JsError) :
  silent is_request
    (do* StateManager.markAsError env n msg in @throw unit err).
Proof.
  apply silent_bind; [|intros; apply silent_throw].
  apply silent_markAsError; reflexivity.
Qed.

Lemma cleanupRepo_run n w :
  exists w' ok,
    GitOperations.cleanupRepo env n w = (Ok tt, w')
    /\ trace w' = trace w ++ [EvRm (GitOperations.getRepoPath env n) ok].
Proof.
  unfold GitOperations.cleanupRepo, tryCatch, rm, ret.
  destruct (fs_rm env (tick w) (GitOperations.getRepoPath env n));
    do 2 eexists; split; reflexivity.
Qed.

(** The [catch] block after the counter: [release] stands for the
    deletion of the destination or for nothing. *)
Lemma release_run (release : M unit) n (err : JsError) w1 w2 :
  release w1 = (Ok tt, w2) ->
  exists ok evs,
    trace (after (do* tryCatch (do* release in GitOperations.cleanupRepo env n)
                               (fun _ => ret tt) in
                  do* StateManager.markAsError env n (message err) in
                  @throw unit err) w1)
    = trace w2 ++ [EvRm (GitOperations.getRepoPath env n) ok] ++ evs
    /\ requests evs = [].
Proof.
  intros Hrel. unfold after. unfold bind at 1, tryCatch.
  rewrite (bind_ok _ _ _ _ _ Hrel).
  destruct (cleanupRepo_run n w2) as (w3 & ok & Hrun3 & Htr3). rewrite Hrun3.
  destruct (silent_after_release n (message err) err w3) as (evs & Htr & Hs).
  unfold after in Htr. exists ok, evs. split.
  - rewrite Htr, Htr3. now rewrite <- app_assoc.
  - now apply requests_none.
Qed.

Lemma migrationFailed_trace n createResult (error : JsError) w :
  exists del ok evs,
    trace (after (Migrator.migrationFailed env n createResult error) w)
    = trace w ++ del ++ [EvRm (GitOperations.getRepoPath env n) ok] ++ evs
    /\ requests evs = []
    /\ requests del
       = match createResult with
         | Some r =>
             if GitHubAPI.skipped r then []
             else [(DELETE, GitHubAPI.repoUrl env n)]
         | None => [(DELETE, GitHubAPI.repoUrl env n)]
         end.
Proof.
  unfold after, Migrator.migrationFailed.
  unfold bind at 1, Migrator.bumpFailed, bind at 1, getStats, setStats.
  match goal with
  | |- context [set_stats ?s w] => set (w1 := set_stats s w)
  end.
  change (trace w) with (trace w1).
  destruct createResult as [[[|] c]|]; cbn [GitHubAPI.skipped negb].
  - destruct (release_run (ret tt) n error w1 w1 eq_refl) as (ok & evs & Htr & Hreq).
    exists [], ok, evs. auto.
  - destruct (release_run _ n error w1 _ (deleteRepository_run n w1))
      as (ok & evs & Htr & Hreq).
    eexists [_], ok, evs. split; [unfold after in Htr; rewrite Htr; simpl; now rewrite <- app_assoc|].
    split; [exact Hreq | reflexivity].
  - destruct (release_run _ n error w1 _ (deleteRepository_run n w1))
      as (ok & evs & Htr & Hreq).
    eexists [_], ok, evs. split; [unfold after in Htr; rewrite Htr; simpl; now rewrite <- app_assoc|].
    split; [exact Hreq | reflexivity].
Qed.

End CatchBlock.

(** X16.  The [catch] block of [migrateRepository] sends at most one
    request to GitHub, the deletion of the destination, and sends none when
    the creation step reported the destination as [skipped]: a repository
    that existed before the attempt and was found empty is never deleted.
    In every case the block first removes the local working copy, and it
    always ends by throwing. *)
Theorem skipped_destination_is_kept (env : Env) (n : string)
    (createResult : option GitHubAPI.CreateResult) (error : JsError) (w : World) :
  let evs := events_since w (after (Migrator.migrationFailed env n createResult error) w) in
  requests evs
  = match createResult with
    | Some r => if GitHubAPI.skipped r then [] else [(DELETE, GitHubAPI.repoUrl env n)]
    | None => [(DELETE, GitHubAPI.repoUrl env n)]
    end
  /\ (exists ok, In (EvRm (GitOperations.getRepoPath env n) ok) evs)
  /\ exists e, outcome (Migrator.migrationFailed env n createResult error) w = Throw e.
Proof.
  cbv zeta.
  assert (Hthrows : exists e,
             outcome (Migrator.migrationFailed env n createResult error) w = Throw e).
  { destruct (migrationFailed_counts env n createResult error w) as (e & w' & Hrun & _).
    exists e. unfold outcome. now rewrite Hrun. }
  destruct (migrationFailed_trace env n createResult error w)
    as (del & ok & evs & Htr & Hreq & Hdel).
  rewrite (events_since_app _ _ _ Htr).
  split; [|split; [|exact Hthrows]].
  - rewrite !requests_app, Hdel, Hreq. simpl. now rewrite app_nil_r.
  - exists ok. apply in_or_app. right. now left.
Qed.

(** The failure of an attempt whose destination existed and was empty. *)
Lemma skipped_destination_is_kept_witness :
  requests (events_since legacyStore
              (after (Migrator.migrationFailed emptyDestinationEnv "legacy"
                        (Some {| GitHubAPI.skipped := true;
                                 GitHubAPI.createdAt := "2025-01-01T00:00:00.000Z" |})
                        (newError "Clone failed")) legacyStore))
  = [].
Proof.
  exact (proj1 (skipped_destination_is_kept emptyDestinationEnv "legacy" _ _ legacyStore)).
Defined.

(* ================================================================== *)
(** * Lines: the tracking rules and the listings *)
(* ================================================================== *)


(** X17.  The content that [generateGitAttributes] makes for a list of
    files none of whose names holds a line feed, read back line by line: it
    is empty for the empty list, and otherwise it is the three header
    lines, then one tracking rule for each file, in the order of the list,
    and it ends with a line feed. *)
Theorem attributes_one_rule_per_file (lfsFiles : list string) :
  Forall (fun file => ~ In "010"%char (list_ascii_of_string file)) lfsFiles ->
  Js.s_split nl (LFSManager.generateGitAttributes lfsFiles)
  = match lfsFiles with
    | [] => [""]
    | _ => attributesHeader ++ map trackingRule lfsFiles ++ [""]
    end.
Proof.
  intros Hfiles. destruct lfsFiles as [|file rest]; [reflexivity|].
  set (files := file :: rest) in *.
  unfold LFSManager.generateGitAttributes. fold files.
  change (match files with [] => "" | _ :: _ => ?x end) with x.
  fold attributesHeader. fold trackingRule.
  set (lines := attributesHeader ++ map trackingRule files).
  unfold Js.s_split, Js.s_join.
  rewrite str_app, list_ascii_of_string_of_list_ascii.
  change (list_ascii_of_string (string_of_list_ascii LF)) with LF.
  change (list_ascii_of_string nl) with LF.
  assert (Hne : map list_ascii_of_string lines <> []) by discriminate.
  rewrite <- (join_snoc_empty LF _ Hne).
  unfold LF. rewrite split_join.
  - rewrite map_app, map_unstr_str. subst lines. now rewrite <- app_assoc.
  - destruct (map list_ascii_of_string lines); discriminate.
  - apply Forall_app. split; [|repeat constructor; intros []].
    subst lines. rewrite map_app. apply Forall_app. split.
    + repeat constructor; intros H; simpl in H;
        repeat (destruct H as [H|H]; [discriminate H|]); exact H.
    + rewrite map_map. apply Forall_map.
      eapply List.Forall_impl; [|exact Hfiles]. intros f Hf. simpl.
      unfold trackingRule. rewrite str_app. intros Hin.
      apply in_app_or in Hin as [Hin|Hin]; [exact (Hf Hin)|].
      simpl in Hin. repeat (destruct Hin as [Hin|Hin]; [discriminate Hin|]). exact Hin.
Qed.

(** The content for two files. *)
Lemma attributes_one_rule_per_file_witness :
  Js.s_split nl (LFSManager.generateGitAttributes ["big.bin"; "assets/old asset.bin"])
  = ["# Git LFS configuration";
     "# Generated by bitbucket-to-github migration tool";
     "";
     "big.bin filter=lfs diff=lfs merge=lfs -text";
     "assets/old asset.bin filter=lfs diff=lfs merge=lfs -text";
     ""].
Proof.
  apply (attributes_one_rule_per_file ["big.bin"; "assets/old asset.bin"]).
  repeat constructor; intros H; simpl in H;
    repeat (destruct H as [H|H]; [discriminate H|]); exact H.
Defined.

(** X18.  How a line of [git ls-tree -r -l] is read: for a line made of
    fields that hold no white space, set apart by any white space, with any
    white space before and after, the size is the fourth field, read as a
    decimal integer, and the name is the fifth and later fields joined by
    single spaces (so a run of white space inside a name is read as one
    space); a line of fewer than five fields is passed over. *)
Theorem listing_line_is_read_by_fields (lead trail first : list ascii)
    (rest : list (list ascii * list ascii)) :
  Forall (fun c => Js.is_space c = true) lead ->
  Forall (fun c => Js.is_space c = true) trail ->
  is_field first ->
  Forall (fun gf => is_gap (fst gf) /\ is_field (snd gf)) rest ->
  let fields := first :: map snd rest in
  LFSManager.parseLsTreeLine (string_of_list_ascii (lead ++ laid_out first rest ++ trail))
  = if (5 <=? length fields)%nat
    then Some (Js.parseInt (nth 3 fields []) (Some 10%Z),
               string_of_list_ascii (Js.join [" "%char] (skipn 4 fields)))
    else None.
Proof.
  intros Hlead Htrail Hfirst Hrest fields.
  destruct (laid_out_head first rest Hfirst) as (c & b & Hb & Hc).
  destruct (laid_out_last first rest Hfirst Hrest) as (c' & b' & Hr & Hc').
  unfold LFSManager.parseLsTreeLine, Js.s_trim.
  rewrite list_ascii_of_string_of_list_ascii.
  rewrite (trim_between lead _ trail c b c' b' Hlead Htrail Hb Hc Hr Hc').
  assert (Htruthy : Js.truthy (string_of_list_ascii (laid_out first rest)) = true)
    by (rewrite Hb; reflexivity).
  rewrite Htruthy. cbn [negb].
  unfold Js.s_split_ws, Js.split_ws.
  rewrite list_ascii_of_string_of_list_ascii.
  rewrite (split_ws_laid_out first rest false Hfirst Hrest). fold fields.
  rewrite length_map.
  destruct (5 <=? length fields)%nat; [|reflexivity].
  f_equal. f_equal.
  - unfold Js.s_parseInt.
    change "" with (string_of_list_ascii []).
    now rewrite map_nth, list_ascii_of_string_of_list_ascii.
  - unfold Js.s_join. now rewrite skipn_map, map_str_unstr.
Qed.

(** A line whose size is padded and whose name holds two spaces in a
    row. *)
Lemma listing_line_is_read_by_fields_witness :
  LFSManager.parseLsTreeLine
    ("100644 blob 8f2e   125829120" +:+ String "009"%char "old  asset.bin")
  = Some (Some 125829120%Z, "old asset.bin").
Proof.
  exact (listing_line_is_read_by_fields [] []
           (list_ascii_of_string "100644")
           [(list_ascii_of_string " ", list_ascii_of_string "blob");
            (list_ascii_of_string " ", list_ascii_of_string "8f2e");
            (list_ascii_of_string "   ", list_ascii_of_string "125829120");
            (["009"%char], list_ascii_of_string "old");
            (list_ascii_of_string "  ", list_ascii_of_string "asset.bin")]
           ltac:(constructor) ltac:(constructor)
           ltac:(split; [discriminate | repeat constructor])
           ltac:(repeat constructor; discriminate)).
Defined.
(* ================================================================== *)
(** * The size test and the settings *)
(* ================================================================== *)

Lemma gt_exceeds size t : Js.gt (Some size) t = true <-> exceeds size t.
Proof.
  unfold Js.gt, exceeds. destruct t as [q|]; [|split; [discriminate | intros []]].
  pose proof (Qgt_alt (inject_Z size) q) as H.
  destruct (inject_Z size ?= q)%Q; split; intros H1; try discriminate H1;
    solve [reflexivity | now apply H | apply H in H1; discriminate H1].
Qed.

Lemma parseSize_inv sizeStr bytes :
  LFSManager.parseSize sizeStr = Ok bytes ->
  exists ds fr ws u mult,
    SizeParts ds fr ws u mult /\ sizeStr = size_text ds fr ws u
    /\ bytes = size_value ds fr mult.
Proof.
  unfold LFSManager.parseSize.
  destruct (LFSManager.matchSize (list_ascii_of_string sizeStr))
    as [[[ds fr] mult]|] eqn:E; [|discriminate].
  intros [= <-]. apply matchSize_inv in E. destruct E as (ws & u & Hparts & Hs).
  exists ds, fr, ws, u, mult. split; [exact Hparts|]. split; [|reflexivity].
  unfold size_text. rewrite <- Hs. symmetry. apply string_of_list_ascii_of_string.
Qed.

(** X19.  [isFileOversized] never throws and asks for the size of the file
    once.  It answers [true] exactly when the size can be read, the
    threshold in force (the one given, or the default for none or an empty
    one) is a well-formed size (digits, an optional fraction, optional
    blanks and a unit), and the size is strictly greater than the number
    that size stands for: a file that cannot be read, a malformed
    threshold and a file of exactly the threshold all give [false].  With
    the default threshold the test is [size > 52428800]. *)
Theorem oversized_is_strict (env : Env) (filePath : string) (threshold : option string)
    (w : World) :
  exists big,
    LFSManager.isFileOversized env filePath threshold w
    = (Ok big, emit (EvStat filePath (fs_stat env (tick w) filePath)) w)
    /\ (big = true <->
        exists size ds fr ws u mult,
          fs_stat env (tick w) filePath = Some size
          /\ SizeParts ds fr ws u mult
          /\ effectiveThreshold threshold = size_text ds fr ws u
          /\ exceeds size (size_value ds fr mult))
    /\ (effectiveThreshold threshold = LFSManager.getDefaultThreshold ->
        (big = true <->
         exists size, fs_stat env (tick w) filePath = Some size /\ (52428800 < size)%Z)).
Proof.
  unfold LFSManager.isFileOversized, tryCatch, bind, statSize, liftR, ret.
  fold (effectiveThreshold threshold).
  destruct (fs_stat env (tick w) filePath) as [size|] eqn:Es; cbv beta iota.
  - destruct (LFSManager.parseSize (effectiveThreshold threshold)) as [bytes|e] eqn:Ep.
    + exists (Js.gt (Some size) bytes). split; [reflexivity|]. split.
      * rewrite gt_exceeds. split.
        -- intros H. destruct (parseSize_inv _ _ Ep) as (ds & fr & ws & u & mult & Hp & Ht & ->).
           exists size, ds, fr, ws, u, mult. auto.
        -- intros (size' & ds & fr & ws & u & mult & [= <-] & Hp & Ht & H).
           rewrite Ht, (parseSize_parts _ _ _ _ _ Hp) in Ep. now injection Ep as <-.
      * intros Hd. rewrite Hd, parseSize_threshold in Ep. injection Ep as <-.
        rewrite gt_exceeds. change (exceeds size thresholdBytes)
          with (inject_Z 52428800 < inject_Z size)%Q. rewrite <- Zlt_Qlt. split.
        -- intros H. exists size. auto.
        -- intros (size' & [= <-] & H). exact H.
    + exists false. split; [reflexivity|]. split.
      * split; [discriminate|].
        intros (size' & ds & fr & ws & u & mult & _ & Hp & Ht & _).
        rewrite Ht, (parseSize_parts _ _ _ _ _ Hp) in Ep. discriminate Ep.
      * intros Hd. rewrite Hd, parseSize_threshold in Ep. discriminate Ep.
  - exists false. split; [reflexivity|]. split.
    + split; [discriminate|]. intros (size' & ds & fr & ws & u & mult & H & _).
      discriminate H.
    + intros _. split; [discriminate|]. intros (size' & H & _). discriminate H.
Qed.

Lemma is_inherited repoName :
  In repoName Js.objectPrototype ->
  existsb (String.eqb repoName) Js.objectPrototype = true.
Proof.
  intros H. apply existsb_exists. exists repoName. split; [exact H|].
  apply String.eqb_refl.
Qed.

(** X20.  [loadSettings] never throws and changes nothing but the
    settings.  It leaves the document of the settings file, or settings
    with an empty table of repositories when the file is missing, is not
    JSON or holds [null].  A repository is then in configured mode with
    its entry when the table has a truthy entry of its name, and in
    auto-detect mode without configuration when the entry is falsy or when
    there is none; but a name that every object inherits
    ([constructor], [toString], ...) and that has no entry is in
    configured mode too, with a configuration that names nothing.  This
    holds for the empty table as well.  With a document without a table of
    repositories the mode and the configuration cannot be asked for: both
    throw.  With a document that is a falsy value every repository is in
    auto-detect mode. *)
Theorem missing_settings_mean_auto_detect (env : Env) (w : World) :
  exists w1,
    LFSManager.loadSettings env w = (Ok tt, w1)
    /\ cwd w1 = cwd w /\ repos_json w1 = repos_json w /\ stats w1 = stats w
    /\ settings w1
       = match read_settings env (tick w) (LFSManager.settingsPath env) with
         | settings_unusable => Some {| repositories := repositories_object ∅ |}
         | settings_falsy => None
         | settings_document s => Some s
         end
    /\ (forall entries,
          settings w1 = Some {| repositories := repositories_object entries |} ->
          forall repoName,
            (forall cfg, entries !! repoName = Some (Some cfg) ->
               LFSManager.getLFSMode (settings w1) repoName = Ok LFSManager.configured
               /\ LFSManager.getRepoLFSConfig (settings w1) repoName = Ok (Some cfg))
            /\ (entries !! repoName = Some None
                \/ entries !! repoName = None /\ ~ In repoName Js.objectPrototype ->
                LFSManager.getLFSMode (settings w1) repoName = Ok LFSManager.auto_detect
                /\ LFSManager.getRepoLFSConfig (settings w1) repoName = Ok None)
            /\ (entries !! repoName = None -> In repoName Js.objectPrototype ->
                LFSManager.getLFSMode (settings w1) repoName = Ok LFSManager.configured
                /\ LFSManager.getRepoLFSConfig (settings w1) repoName
                   = Ok (Some {| cfg_files := None; cfg_patterns := None;
                                 cfg_autoDetect := false |})))
    /\ (settings w1 = Some {| repositories := repositories_undefined |}
        \/ settings w1 = Some {| repositories := repositories_null |} ->
        forall repoName,
          exists e,
            LFSManager.getLFSMode (settings w1) repoName = Throw e
            /\ LFSManager.getRepoLFSConfig (settings w1) repoName = Throw e)
    /\ (settings w1 = None ->
        forall repoName,
          LFSManager.getLFSMode (settings w1) repoName = Ok LFSManager.auto_detect
          /\ LFSManager.getRepoLFSConfig (settings w1) repoName = Ok None).
Proof.
  destruct (loadSettings_run env w) as (w1 & Hrun & _ & Hcwd & _ & Hset).
  exists w1. split; [exact Hrun|]. split; [exact Hcwd|].
  split; [exact (frame_run _ _ _ _ (frame_loadSettings env) Hrun)|].
  split; [exact (idle_run _ _ _ _ (idle_loadSettings env) Hrun)|].
  split.
  { rewrite Hset. unfold settingsAt.
    now destruct (read_settings env (tick w) (LFSManager.settingsPath env)). }
  split; [|split].
  - intros entries -> repoName.
    rewrite mode_of_config.
    unfold LFSManager.getRepoLFSConfig.
    rewrite (member_of_table {| repositories := repositories_object entries |}
               entries repoName eq_refl).
    split; [|split].
    + intros cfg ->. split; reflexivity.
    + intros [-> | [-> Hn]]; [split; reflexivity|].
      rewrite (not_inherited _ Hn). split; reflexivity.
    + intros -> Hin. rewrite (is_inherited _ Hin). split; reflexivity.
  - intros [-> | ->] repoName; eexists; split; reflexivity.
  - intros -> repoName. split; reflexivity.
Qed.

(** Without a settings file [my-repo] is in auto-detect mode and
    [toString] in configured mode. *)
Example prototype_names_are_configured :
  let w1 := after (LFSManager.loadSettings quietEnv) (startWorld None) in
  LFSManager.getLFSMode (settings w1) "my-repo" = Ok LFSManager.auto_detect
  /\ LFSManager.getLFSMode (settings w1) "toString" = Ok LFSManager.configured.
Proof. split; vm_compute; reflexivity. Qed.

(* ================================================================== *)
(** * The retry of the failed repositories *)
(* ================================================================== *)

Section RetryFailed.
Context (env : Env).
Hypothesis Hwrite : writable env.

Lemma find_named n (t : list Repo) :
  In n (map name t) -> exists r, find (StateManager.hasName n) t = Some r.
Proof.
  induction t as [|r t IH]; simpl; [contradiction|].
  unfold StateManager.hasName at 1.
  destruct (String.eqb (name r) n) eqn:E; [eauto|].
  intros [H|H]; [apply String.eqb_neq in E; contradiction | auto].
Qed.

(** With names that are unique, to replace the first record of a name is
    to replace every record of that name. *)
Lemma insert_clearedIf n (t : list Repo) i r :
  List.NoDup (map name t) ->
  t !! i = Some r -> name r = n ->
  <[i := cleared r]> t = map (clearedIf n) t.
Proof.
  revert i. induction t as [|x t IH]; intros i Hnd Hi Hn; [discriminate Hi|].
  inversion Hnd as [|? ? Hx Hnd']; subst.
  assert (Hrest : forall y, In y t -> name y <> name r -> clearedIf (name r) y = y).
  { intros y _ Hy. unfold clearedIf. apply String.eqb_neq in Hy. now rewrite Hy. }
  destruct i as [|i]; simpl in *.
  - injection Hi as ->. unfold clearedIf at 1. rewrite String.eqb_refl. f_equal.
    symmetry. rewrite <- (map_id t) at 2. apply map_ext_in. intros y Hy.
    apply Hrest; [exact Hy|]. intros Heq. apply Hx. rewrite <- Heq. now apply in_map.
  - unfold clearedIf at 1.
    destruct (String.eqb (name x) (name r)) eqn:E.
    + apply String.eqb_eq in E. exfalso. apply Hx. rewrite E.
      apply in_map. apply list_elem_of_lookup_2 in Hi. now apply list_elem_of_In.
    + f_equal. now apply IH.
Qed.

Lemma clearError_run n w t :
  repos_json w = Some t ->
  List.NoDup (map name t) ->
  In n (map name t) ->
  exists w',
    StateManager.clearError env n w = (Ok tt, w')
    /\ repos_json w' = Some (map (clearedIf n) t).
Proof.
  intros Et Hnd Hin. destruct (find_named n t Hin) as (r0 & Hfind).
  assert (Hl : lookupRepo n w = Some r0) by (unfold lookupRepo, table; now rewrite Et).
  pose proof (updateRepoStatus_succeeds env Hwrite n clearPatch w r0 Hl) as Hok.
  destruct (updateRepoStatus_store env n clearPatch w)
    as [(_ & t' & i & r & now & Et' & Hi & Hti & Hf & _ & Hw') | ((e & He) & _)].
  2:{ rewrite He in Hok. discriminate Hok. }
  assert (t' = t) as -> by congruence.
  unfold outcome in Hok. unfold after in Hw'. unfold StateManager.clearError.
  fold clearPatch.
  destruct (StateManager.updateRepoStatus env n clearPatch w) as [res w'].
  simpl in Hok, Hw'. subst res. exists w'. split; [reflexivity|].
  rewrite Hw'. f_equal.
  change (updated r clearPatch now) with (cleared r).
  apply insert_clearedIf; [assumption | assumption |].
  apply find_some in Hf as (_ & Hn). now apply String.eqb_eq in Hn.
Qed.

Lemma clearedIf_name n r : name (clearedIf n r) = name r.
Proof. unfold clearedIf. destruct (String.eqb (name r) n); reflexivity. Qed.

Lemma clearedIf_names n (t : list Repo) : map name (map (clearedIf n) t) = map name t.
Proof. rewrite map_map. apply map_ext. apply clearedIf_name. Qed.

(** The loop of [retryFailed] over repositories of the store. *)
Lemma clear_loop (l : list Repo) w t :
  repos_json w = Some t ->
  List.NoDup (map name t) ->
  incl (map name l) (map name t) ->
  exists w1,
    forEach l (fun repo => StateManager.clearError env (name repo)) w = (Ok tt, w1)
    /\ repos_json w1
       = Some (map (fun r => if existsb (String.eqb (name r)) (map name l)
                             then cleared r else r) t).
Proof.
  revert w t. induction l as [|repo l IH]; intros w t Et Hnd Hincl.
  - exists w. split; [reflexivity|]. rewrite Et. f_equal. symmetry. apply map_id.
  - cbn [forEach map].
    destruct (clearError_run (name repo) w t Et Hnd (Hincl _ (or_introl eq_refl)))
      as (w1 & Hrun1 & Et1).
    rewrite (bind_ok _ _ _ _ _ Hrun1).
    destruct (IH w1 _ Et1) as (w2 & Hrun2 & Et2).
    + now rewrite clearedIf_names.
    + rewrite clearedIf_names. intros x Hx. apply Hincl. now right.
    + exists w2. split; [exact Hrun2|]. rewrite Et2. f_equal.
      rewrite map_map. apply map_ext. intros r. rewrite clearedIf_name.
      cbn [existsb]. unfold clearedIf.
      destruct (String.eqb (name r) (name repo)); simpl;
        destruct (existsb (String.eqb (name r)) (map name l)); reflexivity.
Qed.

Lemma failed_by_name (t : list Repo) r :
  List.NoDup (map name t) -> In r t ->
  existsb (String.eqb (name r)) (map name (List.filter StateManager.isFailed t))
  = StateManager.isFailed r.
Proof.
  intros Hnd Hr. destruct (StateManager.isFailed r) eqn:Ef.
  - apply existsb_exists. exists (name r). split; [|apply String.eqb_refl].
    apply in_map. apply filter_In. auto.
  - apply not_true_is_false. intros H. apply existsb_exists in H as (n & Hn & Heq).
    apply String.eqb_eq in Heq. subst n.
    apply in_map_iff in Hn as (r' & Hname & Hr').
    apply filter_In in Hr' as (Hr' & Hf').
    assert (r' = r); [|congruence].
    clear Ef Hf'. induction t as [|x t IH]; [contradiction|].
    inversion Hnd as [|? ? Hx Hnd']; subst. destruct Hr as [->|Hr], Hr' as [->|Hr'].
    + reflexivity.
    + exfalso. apply Hx. rewrite <- Hname. now apply in_map.
    + exfalso. apply Hx. rewrite Hname. now apply in_map.
    + now apply IH.
Qed.

Lemma retried_not_failed r : StateManager.isFailed (retried r) = false.
Proof.
  unfold retried. destruct (StateManager.isFailed r) eqn:E; [reflexivity | exact E].
Qed.

End RetryFailed.

(** X21.  [retryFailed] on a store that can be read and written and whose
    names are unique.  When no repository is failed it does nothing at all.
    Otherwise it first clears the error and the count of failed attempts of
    every failed repository, leaving the other records as they are, so
    that no repository is failed any more, and then runs [migrate] on that
    store. *)
Theorem retry_clears_the_failed (env : Env) (w : World) (t : list Repo) :
  writable env ->
  repos_json w = Some t ->
  List.NoDup (map name t) ->
  (List.filter StateManager.isFailed t = [] -> Migrator.retryFailed env w = (Ok tt, w))
  /\ exists w1,
       forEach (List.filter StateManager.isFailed t)
               (fun repo => StateManager.clearError env (name repo)) w = (Ok tt, w1)
       /\ table w1 = map retried t
       /\ List.filter StateManager.isFailed (table w1) = []
       /\ (List.filter StateManager.isFailed t <> [] ->
           Migrator.retryFailed env w = Migrator.migrate env w1).
Proof.
  intros Hwrite Et Hnd.
  assert (Hfailed : StateManager.getFailedRepos env w
                    = (Ok (List.filter StateManager.isFailed t), w)).
  { unfold StateManager.getFailedRepos.
    now rewrite (bind_ok _ _ _ _ _ (loadRepos_run env w t Et)). }
  split.
  { intros Hnone. unfold Migrator.retryFailed.
    rewrite (bind_ok _ _ _ _ _ Hfailed), Hnone. reflexivity. }
  destruct (clear_loop env Hwrite (List.filter StateManager.isFailed t) w t Et Hnd)
    as (w1 & Hloop & Et1).
  { intros n Hn. apply in_map_iff in Hn as (r & <- & Hr).
    apply in_map. now apply filter_In in Hr as (Hr & _). }
  assert (Htable : table w1 = map retried t).
  { unfold table. rewrite Et1. apply map_ext_in. intros r Hr.
    unfold retried. now rewrite failed_by_name. }
  exists w1. split; [exact Hloop|]. split; [exact Htable|]. split.
  - rewrite Htable. apply Forall_filter_nil. apply Forall_map.
    apply Forall_true. intros r. apply retried_not_failed.
  - intros Hsome. unfold Migrator.retryFailed.
    rewrite (bind_ok _ _ _ _ _ Hfailed).
    destruct (List.filter StateManager.isFailed t) as [|r0 rest]; [contradiction|].
    cbn [length Nat.eqb]. now rewrite (bind_ok _ _ _ _ _ Hloop).
Qed.

(** The store of two failed repositories: both are cleared before the
    run. *)
Lemma retry_clears_the_failed_witness :
  exists w1,
    Migrator.retryFailed quietEnv failedStore = Migrator.migrate quietEnv w1
    /\ map retry_count (table w1) = [0; 0; 0]%Z.
Proof.
  destruct (retry_clears_the_failed quietEnv failedStore _ (fun _ _ => eq_refl) eq_refl)
    as (_ & w1 & _ & Htable & _ & Hrun).
  - repeat constructor; simpl; intros H;
      repeat (destruct H as [H|H]; [discriminate H|]); exact H.
  - exists w1. split; [apply Hrun; discriminate|]. now rewrite Htable.
Defined.
(* ================================================================== *)
(** * A fresh list *)
(* ================================================================== *)

(** X22.  The list that [create-repos-list.js] writes is entirely pending:
    on a store that holds it, [getPendingRepos] returns every record, in
    the order of the list, no repository is failed, the invariant of the
    store holds, no mark is stale, and the names and branches are those
    listed, the branch being [master] for a repository without a main
    branch. *)
Theorem fresh_list_is_pending (env : Env) (w : World)
    (listed : list CreateReposList.Listed) :
  let repos := CreateReposList.reposWithStatus
                 (map CreateReposList.nameAndBranch listed) in
  repos_json w = Some repos ->
  StateManager.getPendingRepos env w = (Ok repos, w)
  /\ StateManager.getFailedRepos env w = (Ok [], w)
  /\ StateManager.resetProcessingRepos env w = (Ok 0%nat, w)
  /\ store_ok w
  /\ map name repos = map CreateReposList.slug listed
  /\ Forall2 (fun l r => branch r = match CreateReposList.mainbranch l with
                                    | Some "" | None => "master"
                                    | Some b => b
                                    end) listed repos.
Proof.
  intros repos Et.
  assert (Hall : Forall (fun r => transferred r = false /\ processing r = false
                                  /\ error r = None /\ retry_count r = 0%Z) repos).
  { subst repos. unfold CreateReposList.reposWithStatus.
    apply Forall_map. apply Forall_true. intros r. simpl. auto. }
  assert (Hpending : List.filter StateManager.isPending repos = repos).
  { clear Et. induction Hall as [|r l (Ht & Hp & _ & Hr) _ IH]; simpl; [reflexivity|].
    unfold StateManager.isPending at 1. rewrite Ht, Hp, Hr. simpl. now rewrite IH. }
  assert (Hfailed : List.filter StateManager.isFailed repos = []).
  { apply Forall_filter_nil. eapply List.Forall_impl; [|exact Hall].
    intros r (_ & _ & He & _). unfold StateManager.isFailed. now rewrite He. }
  assert (Hproc : List.filter processing repos = []).
  { apply Forall_filter_nil. eapply List.Forall_impl; [|exact Hall].
    intros r (_ & Hp & _). exact Hp. }
  split; [rewrite (getPendingRepos_run env w repos Et); now rewrite Hpending|].
  split.
  { unfold StateManager.getFailedRepos.
    rewrite (bind_ok _ _ _ _ _ (loadRepos_run env w repos Et)). now rewrite Hfailed. }
  split.
  { unfold StateManager.resetProcessingRepos.
    rewrite (bind_ok _ _ _ _ _ (loadRepos_run env w repos Et)). now rewrite Hproc. }
  split.
  { unfold store_ok, table. rewrite Et. eapply List.Forall_impl; [|exact Hall].
    intros r (Ht & _) Htrue. congruence. }
  subst repos. unfold CreateReposList.reposWithStatus. split.
  - rewrite !map_map. reflexivity.
  - clear. induction listed as [|l listed IH]; simpl; constructor; [|exact IH].
    simpl. destruct (CreateReposList.mainbranch l) as [[|c b]|]; reflexivity.
Qed.

(** A list of two repositories, one without a main branch. *)
Lemma fresh_list_is_pending_witness :
  exists repos,
    StateManager.getPendingRepos quietEnv
      (startWorld (Some (CreateReposList.reposWithStatus
                           (map CreateReposList.nameAndBranch
                              [ {| CreateReposList.slug := "site";
                                   CreateReposList.mainbranch := Some "main" |};
                                {| CreateReposList.slug := "empty";
                                   CreateReposList.mainbranch := None |} ]))))
    = (Ok repos, startWorld (Some repos))
    /\ map branch repos = ["main"; "master"].
Proof.
  eexists. split.
  - exact (proj1 (fresh_list_is_pending quietEnv (startWorld _) _ eq_refl)).
  - reflexivity.
Defined.

(* ================================================================== *)
(** * What [setupLFS] reports *)
(* ================================================================== *)

Section Reported.
Context (env : Env).

Lemma grows_run {A} (m : M A) w r w' :
  silent no_event m -> m w = (r, w') -> exists evs, trace w' = trace w ++ evs.
Proof.
  intros Hs Hrun. destruct (silent_run no_event m w r w' Hs Hrun) as (evs & Htr & _).
  eauto.
Qed.

Lemma grows_loadSettings : silent no_event (LFSManager.loadSettings env).
Proof. unfold LFSManager.loadSettings. silent_auto. Qed.

Lemma grows_autoDetect p : silent no_event (LFSManager.autoDetectLFSFiles env p).
Proof.
  unfold LFSManager.autoDetectLFSFiles, LFSManager.addIfOversized,
    LFSManager.isFileOversized.
  silent_auto.
Qed.

Lemma grows_detect p : silent no_event (LFSManager.detectLargeFilesInHistory env p).
Proof.
  unfold LFSManager.detectLargeFilesInHistory, LFSManager.scanCommit. silent_auto.
Qed.

Lemma grows_scanLFSFiles p n : silent no_event (LFSManager.scanLFSFiles env p n).
Proof.
  unfold LFSManager.scanLFSFiles, LFSManager.scanWorkingTree,
    LFSManager.scanConfiguredFiles, LFSManager.scanPatterns.
  silent_auto; try apply grows_autoDetect; try apply grows_detect.
Qed.

Lemma grows_reprocess p l :
  silent no_event (forEach l (LFSManager.reprocessFile env p)).
Proof.
  unfold LFSManager.reprocessFile, LFSManager.forceConvert. silent_auto.
Qed.

Lemma execSync_ok cmd w out w' :
  execSync env cmd w = (Ok out, w') ->
  trace w' = trace w ++ [EvExec (cwd w) cmd (ExecOk out)].
Proof.
  unfold execSync. destruct (exec env (tick w) (cwd w) cmd) as [s|msg] eqn:E;
    intros H; [|discriminate H]. injection H as <- <-. reflexivity.
Qed.

Lemma nonempty_length {A} (l : list A) : (0 <? length l)%nat = true -> l <> [].
Proof. destruct l; [discriminate | discriminate]. Qed.

(** When the history rewrite is followed by a listing that shows LFS
    files, the result is read from that listing. *)
Lemma migrateImport_reports sr w r w' :
  LFSManager.migrateImport env sr w = (Ok (Some r), w') ->
  LFSManager.hasLFS r = true
  /\ exists pre dir out,
       trace w' = trace w ++ pre ++ [EvExec dir "git lfs ls-files" (ExecOk out)]
       /\ reported_from r out.
Proof.
  unfold LFSManager.migrateImport.
  destruct (0 <? length (LFSManager.allFiles sr))%nat; [|discriminate].
  unfold tryCatch. unfold bind at 1.
  match goal with
  | |- context [?first w] =>
      assert (Hfirst : silent no_event first);
      [ silent_auto | destruct (first w) as [[[]|e] w1] eqn:E1 ]
  end.
  2:{ discriminate. }
  destruct (grows_run _ _ _ _ Hfirst E1) as (pre & Hpre).
  unfold bind at 1.
  destruct (execSync env "git lfs ls-files" w1) as [[out|e] w2] eqn:E2; [|discriminate].
  apply execSync_ok in E2.
  destruct (0 <? length (LFSManager.lfsLines out))%nat eqn:Elen; [|discriminate].
  intros H. injection H as <- <-. split; [reflexivity|].
  exists pre, (cwd w1), out. split; [rewrite E2, Hpre; now rewrite <- app_assoc|].
  split; [now apply nonempty_length | split; reflexivity].
Qed.

Lemma afterScan_reports p n sr w r w' :
  LFSManager.setupLFS_afterScan env p n sr w = (Ok r, w') ->
  LFSManager.hasLFS r = true ->
  exists pre dir out,
    trace w' = trace w ++ pre ++ [EvExec dir "git lfs ls-files" (ExecOk out)]
    /\ reported_from r out.
Proof.
  unfold LFSManager.setupLFS_afterScan.
  destruct (length (LFSManager.allFiles sr) =? 0)%nat.
  { intros H Hlfs. injection H as <- _. discriminate Hlfs. }
  intros H Hlfs.
  apply bind_ok_inv in H as (a1 & w1 & H1 & H).
  apply bind_ok_inv in H as (a2 & w2 & H2 & H).
  apply bind_ok_inv in H as (a3 & w3 & H3 & H).
  apply bind_ok_inv in H as (a4 & w4 & H4 & H).
  apply bind_ok_inv in H as (migrated & w5 & H5 & H).
  apply grows_run in H1 as (e1 & T1); [|silent_auto].
  apply grows_run in H2 as (e2 & T2); [|silent_auto].
  apply grows_run in H3 as (e3 & T3); [|silent_auto].
  apply grows_run in H4 as (e4 & T4); [|silent_auto].
  assert (T04 : trace w4 = trace w ++ (e1 ++ e2 ++ e3 ++ e4)).
  { rewrite T4, T3, T2, T1. now rewrite <- !app_assoc. }
  destruct migrated as [r0|].
  - injection H as <- <-.
    apply migrateImport_reports in H5 as (_ & pre & dir & out & T5 & Hrep).
    exists ((e1 ++ e2 ++ e3 ++ e4) ++ pre), dir, out.
    split; [rewrite T5, T04; now rewrite <- !app_assoc | exact Hrep].
  - apply grows_run in H5 as (e5 & T5).
    2:{ unfold LFSManager.migrateImport. silent_auto. }
    apply bind_ok_inv in H as (a6 & w6 & H6 & H).
    apply grows_run in H6 as (e6 & T6); [|apply grows_reprocess].
    apply bind_ok_inv in H as (out & w7 & H7 & H).
    apply execSync_ok in H7. injection H as <- <-.
    exists ((e1 ++ e2 ++ e3 ++ e4) ++ e5 ++ e6), (cwd w6), out.
    split; [rewrite H7, T6, T5, T04; now rewrite <- !app_assoc|].
    cbn [LFSManager.hasLFS] in Hlfs. rewrite length_map in Hlfs.
    split; [now apply nonempty_length|].
    cbn [LFSManager.filesCount LFSManager.lfsFileNames]. now rewrite length_map.
Qed.

End Reported.

(** X23.  [setupLFS] reports LFS files only from what the repository shows
    after the conversion: whenever it returns a result with [hasLFS] true,
    [git lfs ls-files] has answered during the call with at least one
    line, and the count and the names of the result are read from those
    lines, not from the files found by the scan. *)
Theorem lfs_is_reported_from_the_repository (env : Env) (repoPath repoName : string)
    (w w' : World) (r : LFSManager.SetupResult) :
  LFSManager.setupLFS env repoPath repoName w = (Ok r, w') ->
  LFSManager.hasLFS r = true ->
  exists dir out,
    In (EvExec dir "git lfs ls-files" (ExecOk out)) (events_since w w')
    /\ LFSManager.lfsLines out <> []
    /\ LFSManager.filesCount r = length (LFSManager.lfsLines out)
    /\ LFSManager.lfsFileNames r
       = map LFSManager.lfsFileName (LFSManager.lfsLines out).
Proof.
  intros Hrun Hlfs. unfold LFSManager.setupLFS in Hrun.
  unfold bind at 1, getCwd, tryFinally in Hrun.
  match type of Hrun with
  | context [tryCatch ?body ?h w] =>
      destruct (tryCatch body h w) as [res w4] eqn:Ebody
  end.
  destruct (chdir env (cwd w) w4) as [[[]|e] w5] eqn:Eback; [|discriminate Hrun].
  injection Hrun as Hres <-. subst res.
  apply grows_run in Eback as (eback & Tback); [|silent_auto].
  unfold tryCatch in Ebody.
  match type of Ebody with
  | context [match ?body w with _ => _ end] =>
      destruct (body w) as [[res|e] wb] eqn:Ebody'; [|discriminate Ebody]
  end.
  injection Ebody as Hres <-. subst res.
  apply bind_ok_inv in Ebody' as (a1 & w1 & H1 & H).
  apply bind_ok_inv in H as (s & w2 & H2 & H).
  apply bind_ok_inv in H as (a3 & w3 & H3 & H).
  apply bind_ok_inv in H as (sr & ws & Hscan & H).
  apply grows_run in H1 as (e1 & T1); [|silent_auto].
  apply grows_run in H2 as (e2 & T2); [|silent_auto].
  apply grows_run in H3 as (e3 & T3); [|destruct s; [apply silent_ret | apply grows_loadSettings]].
  apply grows_run in Hscan as (e4 & T4); [|apply grows_scanLFSFiles].
  destruct (afterScan_reports env _ _ _ _ _ _ H Hlfs) as (pre & dir & out & T & Hrep).
  exists dir, out. split; [|exact Hrep].
  assert (Htr : trace w5
                = trace w ++ ((e1 ++ e2 ++ e3 ++ e4 ++ pre)
                              ++ [EvExec dir "git lfs ls-files" (ExecOk out)] ++ eback)).
  { rewrite Tback, T, T4, T3, T2, T1. now rewrite <- !app_assoc. }
  rewrite (events_since_app _ _ _ Htr).
  apply in_or_app. right. now left.
Qed.

(** A clone with one large file in its working tree. *)
Lemma lfs_is_reported_from_the_repository_witness :
  exists r w' dir out,
    LFSManager.setupLFS largeFileEnv "/app/../temp/assets" "assets" (startWorld None)
    = (Ok r, w')
    /\ In (EvExec dir "git lfs ls-files" (ExecOk out)) (events_since (startWorld None) w')
    /\ LFSManager.filesCount r = length (LFSManager.lfsLines out).
Proof.
  eexists. eexists.
  assert (Hrun : LFSManager.setupLFS largeFileEnv "/app/../temp/assets" "assets"
                   (startWorld None) = (Ok _, _)) by (vm_compute; reflexivity).
  destruct (lfs_is_reported_from_the_repository largeFileEnv _ _ _ _ _ Hrun eq_refl)
    as (dir & out & Hin & _ & Hcount & _).
  exists dir, out. split; [exact Hrun|]. split; [exact Hin | exact Hcount].
Defined.

(* ================================================================== *)
(** * Nothing is cloned for a destination that is not ready *)
(* ================================================================== *)

Section NotReady.
Context (env : Env).

Lemma quiet_createRepository n isLFS :
  silent is_command (GitHubAPI.createRepository env n isLFS).
Proof.
  unfold GitHubAPI.createRepository, GitHubAPI.repositoryExists,
    GitHubAPI.isRepositoryEmpty, GitHubAPI.getRepository, GitHubAPI.enableLFS.
  silent_auto.
Qed.

Lemma quiet_creation n :
  silent is_command
    (do* StateManager.markAsProcessing env n in
     Utils.retry (GitHubAPI.createRepository env n false) 3 2000).
Proof.
  apply silent_bind.
  - apply silent_updateRepoStatus; reflexivity.
  - intros _. apply silent_retryLoop; [reflexivity | apply quiet_createRepository].
Qed.

Lemma quiet_migrationFailed n cr e :
  silent is_command (Migrator.migrationFailed env n cr e).
Proof.
  unfold Migrator.migrationFailed, Migrator.bumpFailed, GitHubAPI.deleteRepository.
  silent_auto; first [ apply silent_cleanupRepo; reflexivity
                     | apply silent_markAsError; reflexivity ].
Qed.

End NotReady.

(** X24.  When the first steps of [migrateRepository] fail (the store
    cannot mark the repository as being processed, or the destination
    cannot be created or is occupied, after the three attempts of [retry]),
    the attempt starts no child process: nothing is cloned, converted or
    pushed for a destination that is not ready. *)
Theorem nothing_cloned_without_destination (env : Env) (repo : Repo) (w w1 : World)
    (e : JsError) :
  (do* StateManager.markAsProcessing env (name repo) in
   Utils.retry (GitHubAPI.createRepository env (name repo) false) 3 2000) w
  = (Throw e, w1) ->
  commands (events_since w (after (Migrator.migrateRepository env repo) w)) = []
  /\ exists e', outcome (Migrator.migrateRepository env repo) w = Throw e'.
Proof.
  intros Hpre.
  destruct (silent_run is_command _ _ _ _ (quiet_creation env (name repo)) Hpre)
    as (evs1 & Htr1 & Hs1).
  destruct (migrationFailed_counts env (name repo) None e w1) as (e' & w2 & Hfail & _).
  destruct (silent_run is_command _ _ _ _ (quiet_migrationFailed env (name repo) None e)
              Hfail) as (evs2 & Htr2 & Hs2).
  assert (Hrun : Migrator.migrateRepository env repo w
                 = (Throw e', set_stats {| processed := processed (stats w2) + 1;
                                           succeeded := succeeded (stats w2);
                                           failed := failed (stats w2) |} w2)).
  { unfold Migrator.migrateRepository, tryFinally. rewrite bind_attempt, Hpre.
    cbn [fst snd]. rewrite Hfail. reflexivity. }
  unfold after, outcome. rewrite Hrun. cbn [fst snd]. split; [|eauto].
  assert (Htr : trace (set_stats {| processed := processed (stats w2) + 1;
                                    succeeded := succeeded (stats w2);
                                    failed := failed (stats w2) |} w2)
                = trace w ++ (evs1 ++ evs2)).
  { simpl. rewrite Htr2, Htr1. now rewrite app_assoc. }
  rewrite (events_since_app _ _ _ Htr).
  apply commands_none. now rewrite List.filter_app, Hs1, Hs2.
Qed.

(** The attempt that meets the exhausted quota starts no child process. *)
Lemma nothing_cloned_without_destination_witness :
  commands (events_since quotaStore
              (after (Migrator.migrateRepository rateLimitedEnv (newRepo "r7")) quotaStore))
  = [].
Proof.
  assert (Hpre : (do* StateManager.markAsProcessing rateLimitedEnv "r7" in
                  Utils.retry (GitHubAPI.createRepository rateLimitedEnv "r7" false) 3 2000)
                   quotaStore = (Throw _, _)) by (vm_compute; reflexivity).
  exact (proj1 (nothing_cloned_without_destination rateLimitedEnv (newRepo "r7")
                  quotaStore _ _ Hpre)).
Defined.

(* ================================================================== *)
(** * The clean-up of the temp directory *)
(* ================================================================== *)

Section CleanupAll.
Context (env : Env).

Lemma removed_app a b : removed (a ++ b) = removed a ++ removed b.
Proof. unfold removed. apply flat_map_app. Qed.

Lemma refused_app a b : refused (a ++ b) = refused a ++ refused b.
Proof. unfold refused. apply flat_map_app. Qed.

(** The loop of [cleanupAll]: it removes the entries in order and stops
    at the first one that cannot be removed. *)
Lemma remove_loop dir (files : list string) w :
  exists r w' evs,
    forEach files (fun file => rm env (path_join dir file)) w = (r, w')
    /\ trace w' = trace w ++ evs
    /\ (r = Ok tt /\ refused evs = []
        /\ removed evs = map (path_join dir) files
        \/ exists e before file after,
             r = Throw e /\ files = before ++ file :: after
             /\ removed evs = map (path_join dir) before
             /\ refused evs = [path_join dir file]).
Proof.
  revert w. induction files as [|f files IH]; intros w.
  - exists (Ok tt), w, []. split; [reflexivity|]. split; [now rewrite app_nil_r|].
    left. auto.
  - cbn [forEach]. unfold bind at 1, rm at 1.
    destruct (fs_rm env (tick w) (path_join dir f)) eqn:Erm.
    + destruct (IH (emit (EvRm (path_join dir f) true) w))
        as (r & w' & evs & Hrun & Htr & Hres).
      exists r, w', (EvRm (path_join dir f) true :: evs).
      split; [exact Hrun|]. split; [rewrite Htr; simpl; now rewrite <- app_assoc|].
      destruct Hres as [(-> & Href & Hrem) | (e & before & file & after & -> & -> & Hrem & Href)].
      * left. split; [reflexivity|]. split; [exact Href|]. simpl. now rewrite Hrem.
      * right. exists e, (f :: before), file, after.
        split; [reflexivity|]. split; [reflexivity|].
        split; [simpl; now rewrite Hrem | exact Href].
    + do 3 eexists. split; [reflexivity|]. split; [reflexivity|].
      right. exists (newError ("EACCES: permission denied, rm " +:+ path_join dir f)),
               [], f, files.
      repeat split.
Qed.

End CleanupAll.

(** X25.  [cleanupAll] never throws and leaves the store alone.  When the
    temp directory cannot be listed it removes nothing.  Otherwise it
    removes the entries in the order of the listing and stops, silently, at
    the first entry that cannot be removed: every entry before it has been
    removed and no entry after it is touched. *)
Theorem cleanup_all_stops_at_first_failure (env : Env) (w : World) :
  exists w',
    GitOperations.cleanupAll env w = (Ok tt, w')
    /\ repos_json w' = repos_json w
    /\ match fs_readdir env (tick w) (GitOperations.tempDir env) with
       | None => removed (events_since w w') = [] /\ refused (events_since w w') = []
       | Some files =>
           refused (events_since w w') = []
           /\ removed (events_since w w') = map (path_join (GitOperations.tempDir env)) files
           \/ exists before file after,
                files = before ++ file :: after
                /\ removed (events_since w w')
                   = map (path_join (GitOperations.tempDir env)) before
                /\ refused (events_since w w')
                   = [path_join (GitOperations.tempDir env) file]
       end.
Proof.
  destruct (cleanupAll_returns env w) as (w' & Hrun & Hjson).
  exists w'. split; [exact Hrun|]. split; [exact Hjson|].
  unfold GitOperations.cleanupAll, tryCatch, bind, readdir in Hrun.
  destruct (fs_readdir env (tick w) (GitOperations.tempDir env)) as [files|].
  - destruct (remove_loop env (GitOperations.tempDir env) files
                (emit (EvReaddir (GitOperations.tempDir env) (Some files)) w))
      as (r & w1 & evs & Hloop & Htr & Hres).
    rewrite Hloop in Hrun.
    assert (Hw : w' = w1).
    { destruct r as [[]|e0]; unfold ret in Hrun; injection Hrun as Hw; now symmetry. }
    subst w1. simpl in Htr. rewrite <- app_assoc in Htr.
    rewrite (events_since_app _ _ _ Htr).
    destruct Hres as [(_ & Href & Hrem) | (e & before & file & after & _ & -> & Hrem & Href)].
    + left. split; [exact Href | exact Hrem].
    + right. exists before, file, after. auto.
  - injection Hrun as <-. split; events_known; reflexivity.
Qed.

(** Three entries, the second of which cannot be removed: the first is
    removed, the third is left. *)
Example cleanup_all_locked_entry :
  let w' := after (GitOperations.cleanupAll lockedEntryEnv) (startWorld None) in
  removed (trace w') = ["/app/../temp/a"] /\ refused (trace w') = ["/app/../temp/b"].
Proof. vm_compute. auto. Qed.
(* ================================================================== *)
(** * The requests of an attempt after the creation *)
(* ================================================================== *)

Section StepsRequests.
Context (env : Env).

Lemma offline_loadSettings : silent is_request (LFSManager.loadSettings env).
Proof. unfold LFSManager.loadSettings. silent_auto. Qed.

Lemma offline_getExistingLFSFiles p :
  silent is_request (LFSManager.getExistingLFSFiles env p).
Proof. unfold LFSManager.getExistingLFSFiles. silent_auto. Qed.

Lemma offline_scanLFSFiles p n : silent is_request (LFSManager.scanLFSFiles env p n).
Proof.
  unfold LFSManager.scanLFSFiles, LFSManager.scanWorkingTree,
    LFSManager.scanConfiguredFiles, LFSManager.scanPatterns,
    LFSManager.autoDetectLFSFiles, LFSManager.addIfOversized,
    LFSManager.isFileOversized, LFSManager.detectLargeFilesInHistory,
    LFSManager.scanCommit.
  silent_auto.
Qed.

Lemma offline_afterScan p n sr :
  silent is_request (LFSManager.setupLFS_afterScan env p n sr).
Proof.
  unfold LFSManager.setupLFS_afterScan, LFSManager.migrateImport,
    LFSManager.reprocessFile, LFSManager.forceConvert.
  silent_auto.
Qed.

Lemma offline_setupLFS p n : silent is_request (LFSManager.setupLFS env p n).
Proof.
  unfold LFSManager.setupLFS.
  silent_auto; first [ apply offline_loadSettings | apply offline_scanLFSFiles
                     | apply offline_afterScan ].
Qed.

Lemma offline_handleLFS n : silent is_request (GitOperations.handleLFS env n).
Proof.
  unfold GitOperations.handleLFS, GitOperations.fetchLFS.
  silent_auto; first [ apply offline_loadSettings | apply offline_getExistingLFSFiles
                     | apply offline_setupLFS ].
Qed.

Lemma offline_clone n b : silent is_request (GitOperations.cloneBitbucketRepo env n b).
Proof. unfold GitOperations.cloneBitbucketRepo, GitOperations.cleanupRepo. silent_auto. Qed.

(** The steps after the enabling of LFS ask nothing of GitHub. *)
Lemma offline_rest n b lfsInfo createdAt :
  silent is_request
    (do* GitOperations.pushToGitHub env n b lfsInfo in
     do* GitOperations.cleanupRepo env n in
     do* StateManager.markAsCompleted env n createdAt in
     Migrator.bumpSucceeded).
Proof.
  unfold GitOperations.pushToGitHub, GitOperations.cleanupRepo,
    StateManager.markAsCompleted, Migrator.bumpSucceeded.
  silent_auto. apply silent_updateRepoStatus; reflexivity.
Qed.

Lemma enableLFS_run n w :
  tryCatch (GitHubAPI.enableLFS env n) (fun _ => ret tt) w
  = (Ok tt, emit (EvHttp PUT (GitHubAPI.repoUrl env n +:+ "/lfs") ""
                    (http env (tick w) PUT (GitHubAPI.repoUrl env n +:+ "/lfs") "")) w).
Proof.
  unfold GitHubAPI.enableLFS, tryCatch, bind, request, ret.
  destruct (http env (tick w) PUT (GitHubAPI.repoUrl env n +:+ "/lfs") ""); reflexivity.
Qed.

End StepsRequests.

(** X26.  After the creation of the destination, the steps of an attempt
    (clone, LFS handling, push, clean-up, completion) send at most one
    request to GitHub: the enabling of LFS for the repository, and only
    when the clone succeeded and [handleLFS] has reported LFS files. *)
Theorem lfs_enabled_only_for_lfs_files (env : Env) (n b : string)
    (cr : GitHubAPI.CreateResult) (w : World) :
  let evs := events_since w (after (Migrator.migrateSteps env n b cr) w) in
  requests evs = []
  \/ requests evs = [(PUT, GitHubAPI.repoUrl env n +:+ "/lfs")]
     /\ exists path w1 lfsInfo w2,
          GitOperations.cloneBitbucketRepo env n b w = (Ok path, w1)
          /\ GitOperations.handleLFS env n w1 = (Ok lfsInfo, w2)
          /\ LFSManager.hasLFS (GitOperations.info lfsInfo) = true
          /\ LFSManager.lfsFileNames (GitOperations.info lfsInfo) <> [].
Proof.
  cbv zeta.
  assert (H : exists evs,
             trace (after (Migrator.migrateSteps env n b cr) w) = trace w ++ evs
             /\ (requests evs = []
                 \/ requests evs = [(PUT, GitHubAPI.repoUrl env n +:+ "/lfs")]
                    /\ exists path w1 lfsInfo w2,
                         GitOperations.cloneBitbucketRepo env n b w = (Ok path, w1)
                         /\ GitOperations.handleLFS env n w1 = (Ok lfsInfo, w2)
                         /\ LFSManager.hasLFS (GitOperations.info lfsInfo) = true
                         /\ LFSManager.lfsFileNames (GitOperations.info lfsInfo) <> [])).
  2:{ destruct H as (evs & Htr & Hreq). now rewrite (events_since_app _ _ _ Htr). }
  unfold after, Migrator.migrateSteps.
  unfold bind at 1.
  destruct (GitOperations.cloneBitbucketRepo env n b w) as [[path|e] w1] eqn:E1;
    destruct (silent_run is_request _ _ _ _ (offline_clone env n b) E1)
      as (evs1 & T1 & S1).
  2:{ exists evs1. split; [exact T1|]. left. now apply requests_none. }
  unfold bind at 1.
  destruct (GitOperations.handleLFS env n w1) as [[lfsInfo|e] w2] eqn:E2;
    destruct (silent_run is_request _ _ _ _ (offline_handleLFS env n) E2)
      as (evs2 & T2 & S2).
  2:{ exists (evs1 ++ evs2). split; [cbn [snd]; rewrite T2, T1; now rewrite app_assoc|].
      left. apply requests_none. now rewrite List.filter_app, S1, S2. }
  cbv zeta.
  destruct (LFSManager.hasLFS (GitOperations.info lfsInfo)
            && (0 <? length (LFSManager.lfsFileNames (GitOperations.info lfsInfo)))%nat)
    eqn:Elfs.
  - rewrite (bind_ok _ _ _ _ _ (enableLFS_run env n w2)).
    set (w3 := emit _ w2).
    destruct (offline_rest env n b lfsInfo (GitHubAPI.createdAt cr) w3)
      as (evs3 & T3 & S3).
    unfold after in T3.
    exists (evs1 ++ evs2
            ++ [EvHttp PUT (GitHubAPI.repoUrl env n +:+ "/lfs") ""
                  (http env (tick w2) PUT (GitHubAPI.repoUrl env n +:+ "/lfs") "")]
            ++ evs3).
    split; [rewrite T3; subst w3; simpl; rewrite T2, T1; now rewrite <- !app_assoc|].
    right. split.
    + rewrite !requests_app, (requests_none _ S1), (requests_none _ S2),
        (requests_none _ S3). reflexivity.
    + apply andb_prop in Elfs as (Hhas & Hlen).
      exists path, w1, lfsInfo, w2. repeat split; try assumption.
      now apply nonempty_length.
  - unfold bind at 1, ret at 1.
    destruct (offline_rest env n b lfsInfo (GitHubAPI.createdAt cr) w2)
      as (evs3 & T3 & S3).
    unfold after in T3.
    exists (evs1 ++ evs2 ++ evs3).
    split; [rewrite T3, T2, T1; now rewrite <- !app_assoc|].
    left. apply requests_none. now rewrite !List.filter_app, S1, S2, S3.
Qed.

(* ================================================================== *)
(** * Repository names *)
(* ================================================================== *)

Section Names.

Lemma name_char_plain c :
  RepoName.is_name_char c = true ->
  c <> "/"%char /\ c <> ascii_of_nat 34 /\ c <> "'"%char /\ c <> "$"%char
  /\ c <> ";"%char /\ c <> "&"%char /\ c <> "|"%char /\ c <> "`"%char
  /\ Js.is_space c = false.
Proof.
  intros H. repeat split; try (intros ->; discriminate H).
  destruct (Js.is_space c) eqn:E; [|reflexivity].
  unfold RepoName.is_name_char in H. unfold Js.is_space in E.
  destruct (nat_of_ascii c) as [|n]; [discriminate E|].
  do 32 (destruct n as [|n]; [first [discriminate H | discriminate E]|]).
  do 20 (destruct n as [|n]; [discriminate E|]). discriminate E.
Qed.

Lemma string_length_list s : String.length s = length (list_ascii_of_string s).
Proof. induction s; simpl; congruence. Qed.

End Names.

(** X27.  [isValidRepoName] accepts exactly the names of one to a hundred
    characters, each of them a letter, a digit, a dot, an underscore or a
    hyphen.  An accepted name therefore holds no path separator, no white
    space, no quote (character 34 is the double quote) and none of the
    characters [$ ; & | `]: it is one segment of a path and one word of a
    shell command. *)
Theorem valid_names_are_plain (name : string) :
  (RepoName.isValidRepoName name = true <->
   (1 <= String.length name <= 100)%nat
   /\ Forall (fun c => RepoName.is_name_char c = true) (list_ascii_of_string name))
  /\ (RepoName.isValidRepoName name = true ->
      Forall (fun c => c <> "/"%char /\ c <> ascii_of_nat 34 /\ c <> "'"%char /\ c <> "$"%char
                       /\ c <> ";"%char /\ c <> "&"%char /\ c <> "|"%char
                       /\ c <> "`"%char /\ Js.is_space c = false)
             (list_ascii_of_string name)).
Proof.
  assert (Hiff : RepoName.isValidRepoName name = true <->
                 (1 <= String.length name <= 100)%nat
                 /\ Forall (fun c => RepoName.is_name_char c = true)
                           (list_ascii_of_string name)).
  { unfold RepoName.isValidRepoName, RepoName.pattern_test.
    rewrite !andb_true_iff, Nat.ltb_lt, Nat.leb_le, string_length_list.
    destruct (list_ascii_of_string name) as [|c l] eqn:E.
    - simpl. split; [intros ((H & _) & _); discriminate H | intros ((H & _) & _); lia].
    - rewrite <- E. rewrite List.Forall_forall. rewrite forallb_forall. intuition lia. }
  split; [exact Hiff|]. intros H. apply Hiff in H as (_ & H).
  eapply List.Forall_impl; [|exact H]. intros c. apply name_char_plain.
Qed.

(** The names [.] and [..] are accepted. *)
Example dot_names_are_valid :
  RepoName.isValidRepoName "." = true /\ RepoName.isValidRepoName ".." = true
  /\ RepoName.isValidRepoName "my repo" = false
  /\ RepoName.isValidRepoName "" = false.
Proof. repeat split. Qed.
